(** * FootwearMaker geometry core: FFD lattice and seam smoothing

    A shallow embedding of [src/utils/FFD.ts] (class [FFD]) and of the
    seam-smoothing module ([smoothSeam] and its helpers), together with the
    properties the design document states about them.

    Numbers.  JavaScript numbers are modelled by exact rationals ([Q], compared
    with [==]).  Rounding of IEEE doubles and of [Float32Array] storage is not
    modelled: a statement "within floating tolerance" becomes a statement
    about rationals here.  Overflow is modelled where the lattice code
    reaches it: the products of [FFD.binomial] pass the largest double from
    171 subdivisions on, so the Bernstein weights, the blended position and
    the entries of the deformed position array are [option Q], with [None]
    for a number that is not finite ([Infinity], [-Infinity] or [NaN]).
    Elsewhere non-finite values have no counterpart (the places where the
    source can produce them are named where they occur).

    Arrays.  Typed arrays and [number[]] buffers are [list]s in the source's
    flat layout (three numbers per vertex, three indices per face).  [Map] and
    [Set] objects are insertion-ordered association lists and lists, because
    the source iterates over them.

    Library functions.  The methods of three.js the sources call on vectors,
    matrices, boxes and attributes are written out.  [Math.sqrt], [Math.acos],
    [mergeVertices] and the normals of [computeVertexNormals] are parameters
    of the seam pipeline; closed evaluations use [Qsqrt], a rational square
    root rounded down. *)

From Stdlib Require Import QArith Qabs Qminmax Qfield Qround.
From Stdlib Require Import List Bool Arith PeanoNat ZArith Lia Lra Psatz.
From Stdlib Require Import Setoid Morphisms.
Import ListNotations.

Open Scope Q_scope.

(* ================================================================= *)
(** ** Numeric helpers *)

Definition Qltb (a b : Q) : bool := negb (Qle_bool b a).
Definition Qleb (a b : Q) : bool := Qle_bool a b.
Definition Qeqb (a b : Q) : bool := Qeq_bool a b.

Definition ofNat (k : nat) : Q := inject_Z (Z.of_nat k).

(** [Math.pow(t, i)] for a non-negative integer exponent ([Math.pow(0, 0)] is
    1, as is [Qpow 0 0]). *)
Fixpoint Qpow (t : Q) (i : nat) : Q :=
  match i with
  | O => 1
  | S i' => t * Qpow t i'
  end.

(** A computable square root for evaluating the model on concrete meshes:
    the root of [q] rounded down to a multiple of 2^-30, exact on the squares
    of such multiples. *)
Definition Qsqrt (q : Q) : Q :=
  let q := Qred q in
  let scale := (2 ^ 30)%positive in
  Qred (Z.sqrt (Qnum q * Z.pos (Qden q) * Z.pos scale * Z.pos scale)
        # (Qden q * scale)).

(* ================================================================= *)
(** ** The parts of three.js the sources use *)

Module Three.

(** [THREE.Vector3]. *)
Record Vector3 : Type := vec3 { vx : Q; vy : Q; vz : Q }.

Definition veq (a b : Vector3) : Prop :=
  vx a == vx b /\ vy a == vy b /\ vz a == vz b.

Definition vzero : Vector3 := vec3 0 0 0.
Definition add (a b : Vector3) : Vector3 :=
  vec3 (vx a + vx b) (vy a + vy b) (vz a + vz b).
Definition sub (a b : Vector3) : Vector3 :=
  vec3 (vx a - vx b) (vy a - vy b) (vz a - vz b).
Definition multiplyScalar (a : Vector3) (s : Q) : Vector3 :=
  vec3 (vx a * s) (vy a * s) (vz a * s).
(** [divideScalar(s)] is [multiplyScalar(1 / s)] in three.js. *)
Definition divideScalar (a : Vector3) (s : Q) : Vector3 :=
  multiplyScalar a (1 / s).
Definition dot (a b : Vector3) : Q :=
  vx a * vx b + vy a * vy b + vz a * vz b.
Definition cross (a b : Vector3) : Vector3 :=
  vec3 (vy a * vz b - vz a * vy b)
       (vz a * vx b - vx a * vz b)
       (vx a * vy b - vy a * vx b).

(** [THREE.Matrix4]: the sixteen entries of [elements], column-major, so
    [e3 e7 e11 e15] is the bottom row. *)
Record Matrix4 : Type := mat4 {
  e0 : Q; e1 : Q; e2 : Q; e3 : Q;
  e4 : Q; e5 : Q; e6 : Q; e7 : Q;
  e8 : Q; e9 : Q; e10 : Q; e11 : Q;
  e12 : Q; e13 : Q; e14 : Q; e15 : Q }.

(** [new THREE.Matrix4()]. *)
Definition identity : Matrix4 :=
  mat4 1 0 0 0  0 1 0 0  0 0 1 0  0 0 0 1.

(** [Matrix4.equals]: entrywise [===]. *)
Definition equals (a b : Matrix4) : bool :=
  Qeqb (e0 a) (e0 b) && Qeqb (e1 a) (e1 b) && Qeqb (e2 a) (e2 b)
  && Qeqb (e3 a) (e3 b) && Qeqb (e4 a) (e4 b) && Qeqb (e5 a) (e5 b)
  && Qeqb (e6 a) (e6 b) && Qeqb (e7 a) (e7 b) && Qeqb (e8 a) (e8 b)
  && Qeqb (e9 a) (e9 b) && Qeqb (e10 a) (e10 b) && Qeqb (e11 a) (e11 b)
  && Qeqb (e12 a) (e12 b) && Qeqb (e13 a) (e13 b) && Qeqb (e14 a) (e14 b)
  && Qeqb (e15 a) (e15 b).

(** The homogeneous divisor of [Vector3.applyMatrix4]. *)
Definition divisor (m : Matrix4) (v : Vector3) : Q :=
  e3 m * vx v + e7 m * vy v + e11 m * vz v + e15 m.

(** [Vector3.applyMatrix4]: the point is multiplied by the matrix and
    divided by the homogeneous coordinate.  When [divisor] is zero the source
    computes with [Infinity]; the theorems below keep it non-zero. *)
Definition applyMatrix4 (m : Matrix4) (v : Vector3) : Vector3 :=
  let w := 1 / divisor m v in
  vec3 ((e0 m * vx v + e4 m * vy v + e8 m * vz v + e12 m) * w)
       ((e1 m * vx v + e5 m * vy v + e9 m * vz v + e13 m) * w)
       ((e2 m * vx v + e6 m * vy v + e10 m * vz v + e14 m) * w).

Section Invert.
Variable te : Matrix4.

Let n11 := e0 te.
Let n21 := e1 te.
Let n31 := e2 te.
Let n41 := e3 te.
Let n12 := e4 te.
Let n22 := e5 te.
Let n32 := e6 te.
Let n42 := e7 te.
Let n13 := e8 te.
Let n23 := e9 te.
Let n33 := e10 te.
Let n43 := e11 te.
Let n14 := e12 te.
Let n24 := e13 te.
Let n34 := e14 te.
Let n44 := e15 te.
Definition t11 : Q :=
  n23 * n34 * n42 - n24 * n33 * n42 + n24 * n32 * n43
  - n22 * n34 * n43 - n23 * n32 * n44 + n22 * n33 * n44.
Definition t12 : Q :=
  n14 * n33 * n42 - n13 * n34 * n42 - n14 * n32 * n43
  + n12 * n34 * n43 + n13 * n32 * n44 - n12 * n33 * n44.
Definition t13 : Q :=
  n13 * n24 * n42 - n14 * n23 * n42 + n14 * n22 * n43
  - n12 * n24 * n43 - n13 * n22 * n44 + n12 * n23 * n44.
Definition t14 : Q :=
  n14 * n23 * n32 - n13 * n24 * n32 - n14 * n22 * n33
  + n12 * n24 * n33 + n13 * n22 * n34 - n12 * n23 * n34.

Definition determinant : Q :=
  n11 * t11 + n21 * t12 + n31 * t13 + n41 * t14.

(** [Matrix4.invert]: the adjugate divided by the determinant, and the
    zero matrix when the determinant is zero. *)
Definition invert : Matrix4 :=
  if Qeqb determinant 0 then
    mat4 0 0 0 0  0 0 0 0  0 0 0 0  0 0 0 0
  else
    let detInv := 1 / determinant in
    mat4
      (t11 * detInv)
      ((n24 * n33 * n41 - n23 * n34 * n41 - n24 * n31 * n43
        + n21 * n34 * n43 + n23 * n31 * n44 - n21 * n33 * n44) * detInv)
      ((n22 * n34 * n41 - n24 * n32 * n41 + n24 * n31 * n42
        - n21 * n34 * n42 - n22 * n31 * n44 + n21 * n32 * n44) * detInv)
      ((n23 * n32 * n41 - n22 * n33 * n41 - n23 * n31 * n42
        + n21 * n33 * n42 + n22 * n31 * n43 - n21 * n32 * n43) * detInv)
      (t12 * detInv)
      ((n13 * n34 * n41 - n14 * n33 * n41 + n14 * n31 * n43
        - n11 * n34 * n43 - n13 * n31 * n44 + n11 * n33 * n44) * detInv)
      ((n14 * n32 * n41 - n12 * n34 * n41 - n14 * n31 * n42
        + n11 * n34 * n42 + n12 * n31 * n44 - n11 * n32 * n44) * detInv)
      ((n12 * n33 * n41 - n13 * n32 * n41 + n13 * n31 * n42
        - n11 * n33 * n42 - n12 * n31 * n43 + n11 * n32 * n43) * detInv)
      (t13 * detInv)
      ((n14 * n23 * n41 - n13 * n24 * n41 - n14 * n21 * n43
        + n11 * n24 * n43 + n13 * n21 * n44 - n11 * n23 * n44) * detInv)
      ((n12 * n24 * n41 - n14 * n22 * n41 + n14 * n21 * n42
        - n11 * n24 * n42 - n12 * n21 * n44 + n11 * n22 * n44) * detInv)
      ((n13 * n22 * n41 - n12 * n23 * n41 - n13 * n21 * n42
        + n11 * n23 * n42 + n12 * n21 * n43 - n11 * n22 * n43) * detInv)
      (t14 * detInv)
      ((n13 * n24 * n31 - n14 * n23 * n31 + n14 * n21 * n33
        - n11 * n24 * n33 - n13 * n21 * n34 + n11 * n23 * n34) * detInv)
      ((n14 * n22 * n31 - n12 * n24 * n31 - n14 * n21 * n32
        + n11 * n24 * n32 + n12 * n21 * n34 - n11 * n22 * n34) * detInv)
      ((n12 * n23 * n31 - n13 * n22 * n31 + n13 * n21 * n32
        - n11 * n23 * n32 - n12 * n21 * n33 + n11 * n22 * n33) * detInv).
End Invert.

(** A matrix whose bottom row is (0, 0, 0, 1): rotation, scale, shear and
    translation, the placement of an object in the scene. *)
Definition affine (m : Matrix4) : Prop :=
  e3 m == 0 /\ e7 m == 0 /\ e11 m == 0 /\ e15 m == 1.

End Three.
Import Three.

(* ----------------------------------------------------------------- *)
(** *** Algebra of [applyMatrix4] and [invert] *)

Lemma Qeqb_true (a b : Q) : Qeqb a b = true <-> a == b.
Proof. apply Qeq_bool_iff. Qed.

Lemma Qeqb_false (a b : Q) : Qeqb a b = false <-> ~ a == b.
Proof.
  unfold Qeqb. split.
  - intros H E. apply Qeq_bool_iff in E. congruence.
  - intros H. destruct (Qeq_bool a b) eqn:E; [|reflexivity].
    apply Qeq_bool_iff in E. contradiction.
Qed.

Lemma Qltb_true (a b : Q) : Qltb a b = true <-> a < b.
Proof.
  unfold Qltb. rewrite negb_true_iff. split.
  - intros H. apply Qnot_le_lt. intros L. apply Qle_bool_iff in L. congruence.
  - intros H. destruct (Qle_bool b a) eqn:E; [|reflexivity].
    apply Qle_bool_iff in E. lra.
Qed.

Lemma Qltb_false (a b : Q) : Qltb a b = false <-> b <= a.
Proof.
  unfold Qltb. rewrite negb_false_iff. apply Qle_bool_iff.
Qed.

Lemma Qleb_true (a b : Q) : Qleb a b = true <-> a <= b.
Proof. apply Qle_bool_iff. Qed.

Lemma Qleb_false (a b : Q) : Qleb a b = false <-> b < a.
Proof.
  unfold Qleb. split.
  - intros H. apply Qnot_le_lt. intros L. apply Qle_bool_iff in L. congruence.
  - intros H. destruct (Qle_bool a b) eqn:E; [|reflexivity].
    apply Qle_bool_iff in E. lra.
Qed.

#[export] Instance veq_Equivalence : Equivalence veq.
Proof.
  split.
  - intros a. unfold veq. repeat split; reflexivity.
  - intros a b (H1 & H2 & H3). unfold veq. repeat split; symmetry; assumption.
  - intros a b c (H1 & H2 & H3) (G1 & G2 & G3). unfold veq.
    repeat split; etransitivity; eassumption.
Qed.

(** A point given in homogeneous coordinates [(hx, hy, hz, w)], which the
    matrix sends to [(px, py, pz, 1)], is sent to [p] by [applyMatrix4]. *)
Lemma applyMatrix4_homogeneous (m : Matrix4) (hx hy hz w : Q) (p : Vector3) :
  ~ w == 0 ->
  e0 m * hx + e4 m * hy + e8 m * hz + e12 m * w == vx p ->
  e1 m * hx + e5 m * hy + e9 m * hz + e13 m * w == vy p ->
  e2 m * hx + e6 m * hy + e10 m * hz + e14 m * w == vz p ->
  e3 m * hx + e7 m * hy + e11 m * hz + e15 m * w == 1 ->
  veq (applyMatrix4 m (vec3 (hx * (1 / w)) (hy * (1 / w)) (hz * (1 / w)))) p.
Proof.
  intros Hw Hx Hy Hz H1.
  destruct m as [a0 a1 a2 a3 a4 a5 a6 a7 a8 a9 a10 a11 a12 a13 a14 a15].
  destruct p as [px py pz]. unfold veq, applyMatrix4, divisor. cbn in *.
  set (D := a3 * (hx * (1 / w)) + a7 * (hy * (1 / w)) + a11 * (hz * (1 / w)) + a15).
  assert (HD : D == 1 / w).
  { unfold D.
    transitivity ((a3 * hx + a7 * hy + a11 * hz + a15 * w) * (1 / w)).
    - field; assumption.
    - rewrite H1. ring. }
  rewrite HD.
  repeat split.
  - rewrite <- Hx. field; assumption.
  - rewrite <- Hy. field; assumption.
  - rewrite <- Hz. field; assumption.
Qed.

(** The matrix times its [invert], applied to the homogeneous point
    [(x, y, z, 1)], row by row. *)
Lemma invert_right_inverse (m : Matrix4) (x y z : Q) :
  ~ determinant m == 0 ->
  let i := invert m in
  let hx := e0 i * x + e4 i * y + e8 i * z + e12 i in
  let hy := e1 i * x + e5 i * y + e9 i * z + e13 i in
  let hz := e2 i * x + e6 i * y + e10 i * z + e14 i in
  let w := e3 i * x + e7 i * y + e11 i * z + e15 i in
  e0 m * hx + e4 m * hy + e8 m * hz + e12 m * w == x /\
  e1 m * hx + e5 m * hy + e9 m * hz + e13 m * w == y /\
  e2 m * hx + e6 m * hy + e10 m * hz + e14 m * w == z /\
  e3 m * hx + e7 m * hy + e11 m * hz + e15 m * w == 1.
Proof.
  intros Hd. unfold invert.
  destruct (Qeqb (determinant m) 0) eqn:E.
  { apply Qeqb_true in E. contradiction. }
  clear E. destruct m as [a0 a1 a2 a3 a4 a5 a6 a7 a8 a9 a10 a11 a12 a13 a14 a15].
  unfold determinant, t11, t12, t13, t14 in *. cbn in *.
  repeat split; field; exact Hd.
Qed.

(** Transforming back and forth: for an invertible matrix, a point whose
    inverse image is finite is recovered exactly. *)
Lemma applyMatrix4_invert (m : Matrix4) (p : Vector3) :
  ~ determinant m == 0 ->
  ~ divisor (invert m) p == 0 ->
  veq (applyMatrix4 m (applyMatrix4 (invert m) p)) p.
Proof.
  intros Hd Hw.
  destruct (invert_right_inverse m (vx p) (vy p) (vz p) Hd) as (Hx & Hy & Hz & H1).
  unfold applyMatrix4 at 2. fold (divisor (invert m) p) in *.
  apply applyMatrix4_homogeneous; assumption.
Qed.

(* ================================================================= *)
(** ** Buffers and boxes *)

(** A [BufferAttribute] of item size 3 over a flat array: vertex [i] occupies
    entries [3i], [3i+1], [3i+2].  Reading past the end gives [undefined] in
    the source; here it gives 0, and the functions below only read below
    [count]. *)
Definition count {A : Type} (a : list A) : nat := (length a / 3)%nat.
Definition getX (a : list Q) (i : nat) : Q := nth (i * 3) a 0.
Definition getY (a : list Q) (i : nat) : Q := nth (i * 3 + 1) a 0.
Definition getZ (a : list Q) (i : nat) : Q := nth (i * 3 + 2) a 0.
Definition fromBufferAttribute (a : list Q) (i : nat) : Vector3 :=
  vec3 (getX a i) (getY a i) (getZ a i).

(** The three components a vertex takes in a buffer. *)
Definition triple (v : Vector3) : list Q := [vx v; vy v; vz v].

(** The same attribute over an array whose entries may not be finite
    ([None] is [NaN] or an infinity): vertex [i], when its three entries are
    finite numbers. *)
Definition finiteVertex (a : list (option Q)) (i : nat) : option Vector3 :=
  match nth (i * 3) a (Some 0), nth (i * 3 + 1) a (Some 0),
        nth (i * 3 + 2) a (Some 0) with
  | Some x, Some y, Some z => Some (vec3 x y z)
  | _, _, _ => None
  end.

(** The three entries a computed vertex takes in such an array: those of
    the vector, or three non-finite entries. *)
Definition entries (v : option Vector3) : list (option Q) :=
  match v with
  | Some v => [Some (vx v); Some (vy v); Some (vz v)]
  | None => [None; None; None]
  end.

(** [THREE.BufferGeometry], reduced to the attributes the core reads or
    writes.  [position = None] is a geometry without a position attribute. *)
Record BufferGeometry : Type := bufferGeometry {
  position : option (list Q);
  index : option (list nat);
  normal : option (list Q) }.

(** [THREE.Box3].  The empty box of three.js has corners at plus and minus
    infinity; it is [None] in [option Box3]. *)
Record Box3 : Type := box3 { bmin : Vector3; bmax : Vector3 }.

Definition vmin (a b : Vector3) : Vector3 :=
  vec3 (Qmin (vx a) (vx b)) (Qmin (vy a) (vy b)) (Qmin (vz a) (vz b)).
Definition vmax (a b : Vector3) : Vector3 :=
  vec3 (Qmax (vx a) (vx b)) (Qmax (vy a) (vy b)) (Qmax (vz a) (vz b)).

Definition expandByPoint (b : option Box3) (p : Vector3) : option Box3 :=
  match b with
  | None => Some (box3 p p)
  | Some b => Some (box3 (vmin (bmin b) p) (vmax (bmax b) p))
  end.

Definition setFromBufferAttribute (a : list Q) : option Box3 :=
  fold_left (fun b i => expandByPoint b (fromBufferAttribute a i))
            (seq 0 (count a)) None.

Definition isEmpty (b : Box3) : bool :=
  Qltb (vx (bmax b)) (vx (bmin b)) || Qltb (vy (bmax b)) (vy (bmin b))
  || Qltb (vz (bmax b)) (vz (bmin b)).

Definition getSize (b : Box3) : Vector3 :=
  if isEmpty b then vzero else sub (bmax b) (bmin b).

(* ================================================================= *)
(** ** The control lattice: class [FFD] *)

(** What a call that can throw gives back. *)
Inductive JsError : Type :=
| TypeError            (* reading a property of [undefined] *)
| InvalidGeometry.     (* the error kind of the design document *)

(** The outcome of a call that returns a value or throws. *)
Inductive Result (A : Type) : Type :=
| Thrown (e : JsError)
| Value (a : A).

Arguments Thrown {A} e.
Arguments Value {A} a.

Record FFDSettings : Type := ffdSettings {
  lengthSubdivisions : nat;
  heightSubdivisions : nat;
  widthSubdivisions : nat }.

Definition Grid : Type := list (list (list Vector3)).

(** [grid[i]?.[j]?.[k]]. *)
Definition getCP (g : Grid) (i j k : nat) : option Vector3 :=
  match nth_error g i with
  | None => None
  | Some plane =>
      match nth_error plane j with
      | None => None
      | Some row => nth_error row k
      end
  end.

(** [grid[i][j][k]] where the source dereferences without a check (the
    access throws outside the grid; every lattice built by the constructor is
    a full grid, see [lattice_reachable]). *)
Definition cpAt (g : Grid) (i j k : nat) : Vector3 :=
  nth k (nth j (nth i g []) []) vzero.

Fixpoint setNth {A : Type} (xs : list A) (i : nat) (f : A -> A) : list A :=
  match xs, i with
  | [], _ => []
  | x :: xs', O => f x :: xs'
  | x :: xs', S i' => x :: setNth xs' i' f
  end.

(** [grid[i][j][k].copy(v)]. *)
Definition setCP (g : Grid) (i j k : nat) (v : Vector3) : Grid :=
  setNth g i (fun plane => setNth plane j (fun row => setNth row k (fun _ => v))).

Module FFD.

(** The fields of the class.  The subscriber set is left out: [subscribe]
    and [notifySubscribers] do not touch the other fields.  [geometry] is
    the position attribute of [this.geometry]; its normals, recomputed by
    three.js after each [deform], are not modelled.  The entries of the
    position attribute are written by [deform] and may not be finite:
    [None] is an entry that is [NaN] or an infinity. *)
Record state : Type := mk {
  controlPoints : Grid;
  originalControlPoints : Grid;
  initialControlPoints : Grid;
  bbox : Box3;
  geometry : list (option Q);
  originalPositions : list Q;
  l : nat;
  m : nat;
  n : nat;
  size : Vector3;
  currentTransform : Matrix4;
  lastDeformedGeometry : option (list (option Q)) }.

(** What [new FFD(geometry, settings)] does. *)
Inductive constructed : Type :=
| Throws (e : JsError)   (* the constructor throws [e] *)
| NonFinite              (* a lattice over three.js's empty box: every
                            control point is infinite *)
| Built (st : state).

(** [Math.max(2, settings?.field || 2)]. *)
Definition subdivisions (settings : option FFDSettings)
    (field : FFDSettings -> nat) : nat :=
  Nat.max 2 (match settings with
             | Some s => if (field s =? 0)%nat then 2%nat else field s
             | None => 2%nat
             end).

Definition initializeControlPoints (bbox : Box3) (size : Vector3)
    (l m n : nat) : Grid :=
  let paddedMin := bmin bbox in
  let stepX := vx size / ofNat l in
  let stepY := vy size / ofNat m in
  let stepZ := vz size / ofNat n in
  map (fun i =>
    map (fun j =>
      map (fun k =>
        vec3 (vx paddedMin + ofNat i * stepX)
             (vy paddedMin + ofNat j * stepY)
             (vz paddedMin + ofNat k * stepZ))
        (seq 0 (S n)))
      (seq 0 (S m)))
    (seq 0 (S l)).

Definition new (geometry : BufferGeometry) (settings : option FFDSettings)
    : constructed :=
  match position geometry with
  | None => Throws TypeError
  | Some array =>
      match setFromBufferAttribute array with
      | None => NonFinite
      | Some bbox =>
          let size := getSize bbox in
          let l := subdivisions settings lengthSubdivisions in
          let m := subdivisions settings heightSubdivisions in
          let n := subdivisions settings widthSubdivisions in
          let cps := initializeControlPoints bbox size l m n in
          Built {| controlPoints := cps;
                   originalControlPoints := cps;
                   initialControlPoints := cps;
                   bbox := bbox;
                   geometry := map Some array;
                   originalPositions := array;
                   l := l; m := m; n := n;
                   size := size;
                   currentTransform := identity;
                   lastDeformedGeometry := None |}
      end
  end.

Definition epsilon : Q := 1 # 1000000.

(** One axis of [calculateLocalCoordinates].  The [isFinite] guard of the
    source never fires on a rational. *)
Definition localCoordinate (local size : Q) : Q :=
  let s := if Qeqb size 0 then 0 else local / size in
  let s := if Qltb (Qabs s) epsilon then 0 else s in
  let s := if Qltb (Qabs (s - 1)) epsilon then 1 else s in
  s.

Definition calculateLocalCoordinates (st : state) (vertex : Vector3)
    : Q * Q * Q :=
  let local := sub vertex (bmin (bbox st)) in
  let size := getSize (bbox st) in
  (localCoordinate (vx local) (vx size),
   localCoordinate (vy local) (vy size),
   localCoordinate (vz local) (vz size)).

(** [Number.MAX_VALUE], the largest finite double: a product above it is
    [Infinity]. *)
Definition MAX_VALUE : Q := inject_Z (2 ^ 1024 - 2 ^ 971).

(** [binomial(n, k)]: the product of [n-k+1 .. n], divided in turn by
    [1 .. k].  The product is formed before the first division; once it
    passes [MAX_VALUE] it is [Infinity] ([None]) and the later factors and
    the divisions leave it so (the test is made on the exact product: the
    rounding of the running product is not modelled).  The class calls
    [binomial] with [k <= n] only; for [k > n + 1] the source's first loop
    starts below zero and here it starts at zero. *)
Definition binomial (n k : nat) : option Q :=
  let start := (n + 1 - k)%nat in
  let coeff :=
    fold_left (fun coeff i =>
                 match coeff with
                 | Some c =>
                     let c := c * ofNat i in
                     if Qltb MAX_VALUE c then None else Some c
                 | None => None
                 end)
              (seq start (n + 1 - start)) (Some 1) in
  fold_left (fun coeff i => option_map (fun c => c / ofNat i) coeff)
            (seq 1 k) coeff.

(** [bernstein(n, i, t)]: not finite when the binomial is not (an infinity
    times a power is an infinity or [NaN]). *)
Definition bernstein (n i : nat) (t : Q) : option Q :=
  option_map (fun b => b * Qpow t i * Qpow (1 - t) (n - i)) (binomial n i).

(** [calculateDeformedPosition(s, t, u)].  The accumulator is the pair of
    [result] and [totalWeight].  A weight that is not finite makes the three
    components of [result] and [totalWeight] not finite (the product of an
    infinity or [NaN] with any number, and its sum with any number, is an
    infinity or [NaN]), they stay so to the end of the loops, and neither
    the comparison nor [divideScalar] makes them finite again: the
    accumulator is [None] from then on, and so is the vector returned. *)
Definition calculateDeformedPosition (st : state) (s t u : Q)
    : option Vector3 :=
  let acc :=
    fold_left (fun acc i =>
      let bx := bernstein (l st) i s in
      fold_left (fun acc j =>
        let by_ := bernstein (m st) j t in
        fold_left (fun (acc : option (Vector3 * Q)) k =>
          let bz := bernstein (n st) k u in
          match acc, bx, by_, bz with
          | Some acc, Some bx, Some by_, Some bz =>
              let weight := bx * by_ * bz in
              let controlPoint := cpAt (controlPoints st) i j k in
              Some (add (fst acc) (multiplyScalar controlPoint weight),
                    snd acc + weight)
          | _, _, _, _ => None
          end)
          (seq 0 (S (n st))) acc)
        (seq 0 (S (m st))) acc)
      (seq 0 (S (l st))) (Some (vzero, 0)) in
  match acc with
  | Some (result, totalWeight) =>
      Some (if Qltb 0 totalWeight then divideScalar result totalWeight
            else result)
  | None => None
  end.

(** The body of the loop of [deform()] for vertex [i]: the vector whose
    components are written.  [applyMatrix4] of a vector without a finite
    component has none either. *)
Definition deformVertex (st : state) (invTransform : Matrix4) (i : nat)
    : option Vector3 :=
  let vertex := fromBufferAttribute (originalPositions st) i in
  let '(s, t, u) := calculateLocalCoordinates st vertex in
  option_map (applyMatrix4 invTransform) (calculateDeformedPosition st s t u).

(** [deform()].  The new array has the length of [originalPositions]; the
    loop fills vertex [i] for [i] below the count of the current position
    attribute (writes past the end of a typed array are dropped). *)
Definition deform (st : state) : state :=
  match controlPoints st with
  | [] => st
  | _ =>
      let invTransform := invert (currentTransform st) in
      let len := length (originalPositions st) in
      let written :=
        flat_map (fun i => entries (deformVertex st invTransform i))
                 (seq 0 (count (geometry st))) in
      let deformedPositions := firstn len (written ++ repeat (Some 0) len) in
      {| controlPoints := controlPoints st;
         originalControlPoints := originalControlPoints st;
         initialControlPoints := initialControlPoints st;
         bbox := bbox st;
         geometry := deformedPositions;
         originalPositions := originalPositions st;
         l := l st; m := m st; n := n st;
         size := size st;
         currentTransform := currentTransform st;
         lastDeformedGeometry := Some deformedPositions |}
  end.

Definition withPoints (st : state) (cps ocps : Grid) (t : Matrix4) : state :=
  {| controlPoints := cps;
     originalControlPoints := ocps;
     initialControlPoints := initialControlPoints st;
     bbox := bbox st;
     geometry := geometry st;
     originalPositions := originalPositions st;
     l := l st; m := m st; n := n st;
     size := size st;
     currentTransform := t;
     lastDeformedGeometry := lastDeformedGeometry st |}.

(** [updateTransform(matrix)]: the loops visit every point of the
    (l+1) x (m+1) x (n+1) grid. *)
Definition updateTransform (matrix : Matrix4) (st : state) : state :=
  let cps := map (map (map (applyMatrix4 matrix))) (originalControlPoints st) in
  deform (withPoints st cps (originalControlPoints st) matrix).

(** [moveControlPoint(i, j, k, newPosition)].  An exception inside the
    [try] block is caught and logged; that happens when the local grid has
    no point [(i, j, k)], after the working point was already written. *)
Definition moveControlPoint (i j k : nat) (newPosition : Vector3)
    (st : state) : state :=
  match getCP (controlPoints st) i j k with
  | None => st
  | Some _ =>
      let cps := setCP (controlPoints st) i j k newPosition in
      let localPosition :=
        if negb (equals (currentTransform st) identity)
        then applyMatrix4 (invert (currentTransform st)) newPosition
        else newPosition in
      match getCP (originalControlPoints st) i j k with
      | None => withPoints st cps (originalControlPoints st) (currentTransform st)
      | Some _ =>
          let ocps := setCP (originalControlPoints st) i j k localPosition in
          deform (withPoints st cps ocps (currentTransform st))
      end
  end.

(** [reset()]. *)
Definition reset (st : state) : state :=
  deform {| controlPoints := initialControlPoints st;
            originalControlPoints := initialControlPoints st;
            initialControlPoints := initialControlPoints st;
            bbox := bbox st;
            geometry := map Some (originalPositions st);
            originalPositions := originalPositions st;
            l := l st; m := m st; n := n st;
            size := size st;
            currentTransform := identity;
            lastDeformedGeometry := None |}.

(** [getControlPoints()], [getOriginalControlPoints()] and
    [getCurrentTransform()] hand out deep copies of the fields. *)
Definition getControlPoints (st : state) : Grid := controlPoints st.

Definition getOriginalControlPoints (st : state) : option Grid :=
  Some (originalControlPoints st).

Definition getCurrentTransform (st : state) : Matrix4 := currentTransform st.

(** [getControlPoint(i, j, k)]: [null] beyond the subdivision counts, else
    the working point, read without a check. *)
Definition getControlPoint (i j k : nat) (st : state) : Result (option Vector3) :=
  if ((l st <? i) || (m st <? j) || (n st <? k))%nat then Value None
  else
    match getCP (controlPoints st) i j k with
    | Some p => Value (Some p)
    | None => Thrown TypeError
    end.

(** The eight corners of a box, in the order [getBoundingBox] lists them. *)
Definition corners (b : Box3) : list Vector3 :=
  let lo := bmin b in
  let hi := bmax b in
  [ vec3 (vx lo) (vy lo) (vz lo); vec3 (vx lo) (vy lo) (vz hi);
    vec3 (vx lo) (vy hi) (vz lo); vec3 (vx lo) (vy hi) (vz hi);
    vec3 (vx hi) (vy lo) (vz lo); vec3 (vx hi) (vy lo) (vz hi);
    vec3 (vx hi) (vy hi) (vz lo); vec3 (vx hi) (vy hi) (vz hi) ].

(** [getBoundingBox()]: the box of the construction, or under a transform
    other than the identity the box of its eight transformed corners.  [None]
    is three.js's empty box. *)
Definition getBoundingBox (st : state) : option Box3 :=
  if negb (equals (currentTransform st) identity)
  then fold_left expandByPoint
         (map (applyMatrix4 (currentTransform st)) (corners (bbox st))) None
  else Some (bbox st).

(** [getDeformedGeometry()]: the positions of the geometry returned, and the
    state afterwards (the call deforms when nothing is cached). *)
Definition getDeformedGeometry (st : state) : list (option Q) * state :=
  let st := match lastDeformedGeometry st with
            | None => deform st
            | Some _ => st
            end in
  (match lastDeformedGeometry st with
   | Some g => g
   | None => geometry st
   end, st).

(** Whether the grid has a point at every (i, j, k) the loops of
    [calculateDeformedPosition] visit. *)
Definition covers (l m n : nat) (g : Grid) : bool :=
  forallb (fun i =>
    forallb (fun j =>
      forallb (fun k => match getCP g i j k with Some _ => true | None => false end)
              (seq 0 (S n)))
      (seq 0 (S m)))
    (seq 0 (S l)).

(** Whether [deform()] throws: it dereferences [controlPoints[i][j][k]] for
    every vertex, so it does when there is a vertex and the grid lacks a
    point. *)
Definition deformThrows (st : state) : bool :=
  match controlPoints st with
  | [] => false
  | _ => (0 <? count (geometry st))%nat
         && negb (covers (l st) (m st) (n st) (controlPoints st))
  end.

(** [restoreSnapshot(controlPoints, originalControlPoints, transform)]: what
    is thrown, if anything, and the state afterwards. *)
Definition restoreSnapshot (cps ocps : Grid) (transform : Matrix4) (st : state)
    : option JsError * state :=
  let st' := {| controlPoints := cps;
                originalControlPoints := ocps;
                initialControlPoints := initialControlPoints st;
                bbox := bbox st;
                geometry := geometry st;
                originalPositions := originalPositions st;
                l := l st; m := m st; n := n st;
                size := size st;
                currentTransform := transform;
                lastDeformedGeometry := None |} in
  if deformThrows st' then (Some TypeError, st') else (None, deform st').

End FFD.

(** A 2 x 2 x 2 cube with corners at -1 and 1. *)
Definition cubePositions : list Q :=
  [ -1; -1; -1;   1; -1; -1;   -1; 1; -1;   1; 1; -1;
    -1; -1; 1;    1; -1; 1;    -1; 1; 1;    1; 1; 1 ].

Definition cube : BufferGeometry :=
  bufferGeometry (Some cubePositions) None None.


(* ================================================================= *)
(** ** Seam smoothing: the model *)

(** [Map] objects keyed by an edge or a face: insertion-ordered association
    lists.  [mapSet] on a key already present keeps its place, as
    [Map.prototype.set] does. *)
Definition EdgeKey : Type := (nat * nat)%type.

Definition edgeKeyEqb (a b : EdgeKey) : bool :=
  (fst a =? fst b)%nat && (snd a =? snd b)%nat.

(** The key of the edge between [a] and [b]: the two indices, smaller
    first (the source joins them with an underscore). *)
Definition edgeKey (a b : nat) : EdgeKey :=
  if (a <? b)%nat then (a, b) else (b, a).

Fixpoint mapGet {K V : Type} (eqb : K -> K -> bool) (k : K) (m : list (K * V))
    : option V :=
  match m with
  | [] => None
  | (k', v) :: m' => if eqb k k' then Some v else mapGet eqb k m'
  end.

Fixpoint mapSet {K V : Type} (eqb : K -> K -> bool) (k : K) (v : V)
    (m : list (K * V)) : list (K * V) :=
  match m with
  | [] => [(k, v)]
  | (k', v') :: m' =>
      if eqb k k' then (k, v) :: m' else (k', v') :: mapSet eqb k v m'
  end.

Definition mapHas {K V : Type} (eqb : K -> K -> bool) (k : K) (m : list (K * V))
    : bool :=
  match mapGet eqb k m with Some _ => true | None => false end.

(** [Set<number>]: an insertion-ordered list without repetition. *)
Definition setHas (x : nat) (s : list nat) : bool := existsb (Nat.eqb x) s.
Definition setAdd (x : nat) (s : list nat) : list nat :=
  if setHas x s then s else s ++ [x].

(** The faces of an index buffer, three indices at a time. *)
Definition Face : Type := (nat * nat * nat)%type.

Fixpoint facesOf (indices : list nat) : list Face :=
  match indices with
  | a :: b :: c :: rest => (a, b, c) :: facesOf rest
  | _ => []
  end.

Definition flattenFaces (fs : list Face) : list nat :=
  flat_map (fun f : Face => let '(a, b, c) := f in [a; b; c]) fs.

(** The three directed edges of a face, in the order the source visits
    them. *)
Definition faceEdges (f : Face) : list (nat * nat) :=
  let '(i0, i1, i2) := f in [(i0, i1); (i1, i2); (i2, i0)].

Record SeamSegment : Type := seamSegment { p0 : Vector3; p1 : Vector3 }.

(** A distance that may be [Infinity]. *)
Definition Distance : Type := option Q.

Definition expandByScalar (b : option Box3) (s : Q) : option Box3 :=
  match b with
  | None => None
  | Some b =>
      Some (box3 (vec3 (vx (bmin b) - s) (vy (bmin b) - s) (vz (bmin b) - s))
                 (vec3 (vx (bmax b) + s) (vy (bmax b) + s) (vz (bmax b) + s)))
  end.

Definition containsPoint (b : option Box3) (p : Vector3) : bool :=
  match b with
  | None => false
  | Some b =>
      Qleb (vx (bmin b)) (vx p) && Qleb (vx p) (vx (bmax b))
      && Qleb (vy (bmin b)) (vy p) && Qleb (vy p) (vy (bmax b))
      && Qleb (vz (bmin b)) (vz p) && Qleb (vz p) (vz (bmax b))
  end.

Module Seam.
Section Pipeline.

(** [Math.sqrt].  The rationals have no square root function; the model takes
    one as a parameter, and the theorems hold for every choice of it. *)
Variable sqrt : Q -> Q.

Definition pointToSegmentDistance (p s0 s1 : Vector3) : Q :=
  let abx := vx s1 - vx s0 in
  let aby := vy s1 - vy s0 in
  let abz := vz s1 - vz s0 in
  let apx := vx p - vx s0 in
  let apy := vy p - vy s0 in
  let apz := vz p - vz s0 in
  let abLenSq := abx * abx + aby * aby + abz * abz in
  if Qltb abLenSq (1 # 1000000000000) then
    sqrt (apx * apx + apy * apy + apz * apz)
  else
    let t := Qmax 0 (Qmin 1 ((apx * abx + apy * aby + apz * abz) / abLenSq)) in
    let cx := vx s0 + t * abx - vx p in
    let cy := vy s0 + t * aby - vy p in
    let cz := vz s0 + t * abz - vz p in
    sqrt (cx * cx + cy * cy + cz * cz).

Definition distanceTo (p : Vector3) (seg : SeamSegment) : Q :=
  pointToSegmentDistance p (p0 seg) (p1 seg).

(** The inner loop of [computeDistanceField]: the running minimum, left as
    soon as it drops below 1e-8. *)
Fixpoint minDistance (p : Vector3) (segs : list SeamSegment) (minD : Distance)
    : Distance :=
  match segs with
  | [] => minD
  | seg :: rest =>
      let d := distanceTo p seg in
      let minD :=
        match minD with
        | None => d
        | Some m => if Qltb d m then d else m
        end in
      if Qltb minD (1 # 100000000) then Some minD
      else minDistance p rest (Some minD)
  end.

Definition computeDistanceField (positions : list Q) (vertCount : nat)
    (seamSegments : list SeamSegment) (maxDistance : Q) : list Distance :=
  let bbox :=
    fold_left (fun b seg => expandByPoint (expandByPoint b (p0 seg)) (p1 seg))
              seamSegments None in
  let bbox := expandByScalar bbox maxDistance in
  map (fun vi =>
         let p := fromBufferAttribute positions vi in
         if negb (containsPoint bbox p) then None
         else minDistance p seamSegments None)
      (seq 0 vertCount).

(** One entry of [computeSmoothstepWeights]. *)
Definition smoothstepWeight (d : Distance) (radius : Q) : Q :=
  match d with
  | None => 0
  | Some d =>
      if Qleb radius d then 0
      else
        let t := 1 - d / radius in
        t * t * (3 - 2 * t)
  end.

Definition computeSmoothstepWeights (distField : list Distance) (radius : Q)
    (vertCount : nat) : list Q :=
  map (fun i => smoothstepWeight (nth i distField (Some 0)) radius)
      (seq 0 vertCount).

(** What [applyLaplacianStep] does to vertex [vi], reading the copy [prev]. *)
Definition laplacianVertex (prev : list Q) (adjacency : list (list nat))
    (weights : list Q) (lambda maxStep : Q) (vi : nat) : Vector3 :=
  let v := fromBufferAttribute prev vi in
  let w := nth vi weights 0 in
  if Qleb w 0 then v
  else
    let nbrs := nth vi adjacency [] in
    match nbrs with
    | [] => v
    | _ =>
        let a := fold_left (fun a ni => add a (fromBufferAttribute prev ni))
                           nbrs vzero in
        let n := ofNat (length nbrs) in
        let a := vec3 (vx a / n) (vy a / n) (vz a / n) in
        let f := w * lambda in
        let dx := (vx a - vx v) * f in
        let dy := (vy a - vy v) * f in
        let dz := (vz a - vz v) * f in
        let dispLen := sqrt (dx * dx + dy * dy + dz * dz) in
        let '(dx, dy, dz) :=
          if Qltb maxStep dispLen
          then let scale := maxStep / dispLen in
               (dx * scale, dy * scale, dz * scale)
          else (dx, dy, dz) in
        vec3 (vx v + dx) (vy v + dy) (vz v + dz)
    end.

(** [applyLaplacianStep]: every vertex below [vertCount] is rewritten from
    the copy; the typed array keeps its length. *)
Definition applyLaplacianStep (pos : list Q) (adjacency : list (list nat))
    (weights : list Q) (vertCount : nat) (lambda maxStep : Q) : list Q :=
  let prev := pos in
  firstn (length pos)
    (flat_map (fun vi => triple (laplacianVertex prev adjacency weights
                                   lambda maxStep vi))
              (seq 0 vertCount)
     ++ skipn (3 * vertCount) pos).

(** The loop of step 8. *)
Fixpoint smoothingLoop (numIterations : nat) (pos : list Q)
    (adjacency : list (list nat)) (weights : list Q) (vertCount : nat)
    (lambda maxStep : Q) : list Q :=
  match numIterations with
  | O => pos
  | S k =>
      smoothingLoop k
        (applyLaplacianStep pos adjacency weights vertCount lambda maxStep)
        adjacency weights vertCount lambda maxStep
  end.

(* ----------------------------------------------------------------- *)
(** *** Edge splitting *)

(** The three buffers [splitSeamEdges] mutates. *)
Record SplitState : Type := splitState {
  sPositions : list Q;
  sIndices : list nat;
  sSeamVerts : list nat }.

(** [nearSeam]: for each vertex present when the pass starts, whether some
    seam segment is closer than [splitZone]. *)
Definition nearSeam (positions : list Q) (seamSegments : list SeamSegment)
    (splitZone : Q) : list bool :=
  map (fun vi =>
         existsb (fun seg =>
                    Qltb (distanceTo (fromBufferAttribute positions vi) seg)
                         splitZone)
                 seamSegments)
      (seq 0 (count positions)).

Definition edgeLength (positions : list Q) (a b : nat) : Q :=
  let dx := getX positions b - getX positions a in
  let dy := getY positions b - getY positions a in
  let dz := getZ positions b - getZ positions a in
  sqrt (dx * dx + dy * dy + dz * dz).

(** What one pass accumulates: the growing position buffer and seam set, and
    [edgeMidpoints]. *)
Record PassAcc : Type := passAcc {
  aPositions : list Q;
  aSeamVerts : list nat;
  aMidpoints : list (EdgeKey * nat) }.

(** The loop over the three edges of one face.  [maxLength] is the cap on the
    length of the position buffer (three times [maxVertCount]); reaching it
    leaves this loop. *)
Fixpoint splitEdges (near : list bool) (targetLength : Q) (maxLength : nat)
    (edges : list (nat * nat)) (acc : PassAcc) : PassAcc :=
  match edges with
  | [] => acc
  | (a, b) :: rest =>
      if negb (nth a near false) && negb (nth b near false) then
        splitEdges near targetLength maxLength rest acc
      else
        let key := edgeKey a b in
        if mapHas edgeKeyEqb key (aMidpoints acc) then
          splitEdges near targetLength maxLength rest acc
        else
          let positions := aPositions acc in
          let len := edgeLength positions a b in
          if Qleb len targetLength then
            splitEdges near targetLength maxLength rest acc
          else if (maxLength <=? length positions)%nat then acc
          else
            let midIdx := count positions in
            let positions' :=
              positions ++ [ (getX positions a + getX positions b) / 2;
                             (getY positions a + getY positions b) / 2;
                             (getZ positions a + getZ positions b) / 2 ] in
            let seamVerts' :=
              if setHas a (aSeamVerts acc) && setHas b (aSeamVerts acc)
              then setAdd midIdx (aSeamVerts acc)
              else aSeamVerts acc in
            splitEdges near targetLength maxLength rest
              (passAcc positions' seamVerts'
                       (mapSet edgeKeyEqb key midIdx (aMidpoints acc)))
  end.

(** The midpoint pass over all faces. *)
Definition splitFaces (near : list bool) (targetLength : Q) (maxLength : nat)
    (faces : list Face) (acc : PassAcc) : PassAcc :=
  fold_left (fun acc f => splitEdges near targetLength maxLength (faceEdges f) acc)
            faces acc.

(** The triangles that replace one face, by which of its edges were split. *)
Definition rebuildFace (edgeMidpoints : list (EdgeKey * nat)) (f : Face)
    : list nat :=
  let '(v0, v1, v2) := f in
  let m01 := mapGet edgeKeyEqb (edgeKey v0 v1) edgeMidpoints in
  let m12 := mapGet edgeKeyEqb (edgeKey v1 v2) edgeMidpoints in
  let m20 := mapGet edgeKeyEqb (edgeKey v2 v0) edgeMidpoints in
  match m01, m12, m20 with
  | None, None, None => [v0; v1; v2]
  | Some m01, None, None => [v0; m01; v2;  m01; v1; v2]
  | None, Some m12, None => [v0; v1; m12;  v0; m12; v2]
  | None, None, Some m20 => [v0; v1; m20;  m20; v1; v2]
  | Some m01, Some m12, None => [v0; m01; m12;  v0; m12; v2;  m01; v1; m12]
  | None, Some m12, Some m20 => [v0; v1; m12;  v0; m12; m20;  m20; m12; v2]
  | Some m01, None, Some m20 => [v0; m01; m20;  m01; v1; v2;  m20; m01; v2]
  | Some m01, Some m12, Some m20 =>
      [v0; m01; m20;  m01; v1; m12;  m20; m12; v2;  m01; m12; m20]
  end.

(** The midpoints one pass creates from a state. *)
Definition splitPass (seamSegments : list SeamSegment) (splitZone targetLength : Q)
    (maxLength : nat) (st : SplitState) : PassAcc :=
  let near := nearSeam (sPositions st) seamSegments splitZone in
  splitFaces near targetLength maxLength (facesOf (sIndices st))
             (passAcc (sPositions st) (sSeamVerts st) []).

(** A record of one executed pass: the state it started from and the
    midpoints it created.  The records are not in the source; they are what
    the statements about the passes speak of. *)
Definition PassRecord : Type := (SplitState * list (EdgeKey * nat))%type.

(** The pass loop: at most [maxPasses] passes, none once the buffer has
    reached [maxLength], and no more after a pass that created no midpoint. *)
Fixpoint splitLoop (maxPasses : nat) (seamSegments : list SeamSegment)
    (splitZone targetLength : Q) (maxLength : nat) (st : SplitState)
    : SplitState * list PassRecord :=
  match maxPasses with
  | O => (st, [])
  | S remaining =>
      if (maxLength <=? length (sPositions st))%nat then (st, [])
      else
        let acc := splitPass seamSegments splitZone targetLength maxLength st in
        match aMidpoints acc with
        | [] =>
            (splitState (aPositions acc) (sIndices st) (aSeamVerts acc),
             [(st, [])])
        | edgeMidpoints =>
            let newIndices :=
              flat_map (rebuildFace edgeMidpoints) (facesOf (sIndices st)) in
            let '(final, records) :=
              splitLoop remaining seamSegments splitZone targetLength maxLength
                (splitState (aPositions acc) newIndices (aSeamVerts acc)) in
            (final, (st, edgeMidpoints) :: records)
        end
  end.

Definition splitSeamEdgesRun (positions : list Q) (indices : list nat)
    (seamVerts : list nat) (seamSegments : list SeamSegment)
    (radius targetLength : Q) (maxPasses : nat)
    : SplitState * list PassRecord :=
  let maxLength := (length positions * 5)%nat in
  let splitZone := radius * (12 # 10) in
  splitLoop maxPasses seamSegments splitZone targetLength maxLength
            (splitState positions indices seamVerts).

(** [splitSeamEdges]: the buffers after the call. *)
Definition splitSeamEdges (positions : list Q) (indices : list nat)
    (seamVerts : list nat) (seamSegments : list SeamSegment)
    (radius targetLength : Q) (maxPasses : nat) : SplitState :=
  fst (splitSeamEdgesRun positions indices seamVerts seamSegments
         radius targetLength maxPasses).

(** Step 4 of [smoothSeam]: the fillet-zone call. *)
Definition filletTargetLength (radius : Q) : Q := Qmax (radius / 12) (3 # 1000).

Definition filletSplitRun (positions : list Q) (indices : list nat)
    (seamVerts : list nat) (seamSegments : list SeamSegment) (radius : Q)
    : SplitState * list PassRecord :=
  splitSeamEdgesRun positions indices seamVerts seamSegments radius
    (filletTargetLength radius) 8.

(* ----------------------------------------------------------------- *)
(** *** Boundary welding *)

(** [edgeFaceCount]: how many face edges carry each key, in the order the
    keys first appear. *)
Definition countEdge (m : list (EdgeKey * nat)) (e : nat * nat)
    : list (EdgeKey * nat) :=
  let key := edgeKey (fst e) (snd e) in
  mapSet edgeKeyEqb key
         (match mapGet edgeKeyEqb key m with Some c => c | None => 0 end + 1)%nat
         m.

Definition countEdges (faces : list Face) : list (EdgeKey * nat) :=
  fold_left (fun m f => fold_left countEdge (faceEdges f) m) faces [].

(** [boundaryVerts]: the end points of the edges counted once, each listed
    once, in the order met. *)
Definition boundaryVertices (edgeFaceCount : list (EdgeKey * nat)) : list nat :=
  fold_left (fun bv (entry : EdgeKey * nat) =>
               let '((a, b), c) := entry in
               if (c =? 1)%nat then setAdd b (setAdd a bv) else bv)
            edgeFaceCount [].

(** The union-find [parent] map.  A key that was never set reads as
    [undefined] in the source; here it reads as the key itself, and [find]
    sets a key before it reads it. *)
Definition Parent : Type := list (nat * nat).

Definition parentOf (parent : Parent) (x : nat) : nat :=
  match mapGet Nat.eqb x parent with Some p => p | None => x end.

(** The [while] loop of [find], path halving included.  [fuel] bounds the
    number of iterations; [findLoop_root] shows the bound is not reached. *)
Fixpoint findLoop (fuel : nat) (parent : Parent) (x : nat) : Parent * nat :=
  match fuel with
  | O => (parent, x)
  | S fuel' =>
      if (parentOf parent x =? x)%nat then (parent, x)
      else
        let parent' :=
          mapSet Nat.eqb x (parentOf parent (parentOf parent x)) parent in
        findLoop fuel' parent' (parentOf parent' x)
  end.

Definition find (fuel : nat) (parent : Parent) (x : nat) : Parent * nat :=
  let parent :=
    if mapHas Nat.eqb x parent then parent else mapSet Nat.eqb x x parent in
  findLoop fuel parent x.

Definition union (fuel : nat) (parent : Parent) (a b : nat) : Parent :=
  let '(parent, ra) := find fuel parent a in
  let '(parent, rb) := find fuel parent b in
  if (ra =? rb)%nat then parent else mapSet Nat.eqb rb ra parent.

Definition distanceSquared (positions : list Q) (vi vj : nat) : Q :=
  let dx := getX positions vi - getX positions vj in
  let dy := getY positions vi - getY positions vj in
  let dz := getZ positions vi - getZ positions vj in
  dx * dx + dy * dy + dz * dz.

(** The body of the inner loop over [j]: the state is [parent] and
    [mergeCount]. *)
Definition mergePair (fuel : nat) (positions : list Q) (tolSq : Q)
    (vi vj : nat) (st : Parent * nat) : Parent * nat :=
  let '(parent, mergeCount) := st in
  let '(parent, ri) := find fuel parent vi in
  let '(parent, rj) := find fuel parent vj in
  if (ri =? rj)%nat then (parent, mergeCount)
  else if Qltb (distanceSquared positions vi vj) tolSq
       then (union fuel parent vi vj, S mergeCount)
       else (parent, mergeCount).

Fixpoint mergeLoop (fuel : nat) (positions : list Q) (tolSq : Q)
    (boundaryVerts : list nat) (st : Parent * nat) : Parent * nat :=
  match boundaryVerts with
  | [] => st
  | vi :: rest =>
      mergeLoop fuel positions tolSq rest
        (fold_left (fun st vj => mergePair fuel positions tolSq vi vj st) rest st)
  end.

(** Step 4 of the weld: every boundary index becomes its root. *)
Fixpoint remapIndices (fuel : nat) (boundaryVerts : list nat) (parent : Parent)
    (indices : list nat) : list nat :=
  match indices with
  | [] => []
  | x :: rest =>
      if setHas x boundaryVerts then
        let '(parent', r) := find fuel parent x in
        r :: remapIndices fuel boundaryVerts parent' rest
      else x :: remapIndices fuel boundaryVerts parent rest
  end.

Definition weldFuel (boundaryVerts : list nat) : nat :=
  S (length boundaryVerts * length boundaryVerts).

(** [weldBoundaryVertices]: whether anything was merged, and the index
    buffer afterwards.  The position buffer is only read. *)
Definition weldBoundaryVertices (positions : list Q) (indices : list nat)
    (tolerance : Q) : bool * list nat :=
  let boundaryVerts := boundaryVertices (countEdges (facesOf indices)) in
  match boundaryVerts with
  | [] => (false, indices)
  | _ =>
      let fuel := weldFuel boundaryVerts in
      let tolSq := tolerance * tolerance in
      let '(parent, mergeCount) :=
        mergeLoop fuel positions tolSq boundaryVerts ([], 0%nat) in
      match mergeCount with
      | O => (false, indices)
      | _ => (true, remapIndices fuel boundaryVerts parent indices)
      end
  end.

Definition FaceKey : Type := (nat * nat * nat)%type.

Definition faceKeyEqb (a b : FaceKey) : bool :=
  let '(a0, a1, a2) := a in
  let '(b0, b1, b2) := b in
  (a0 =? b0)%nat && (a1 =? b1)%nat && (a2 =? b2)%nat.

(** The canonical key of a face: its three indices in ascending order. *)
Definition faceKey (f : Face) : FaceKey :=
  let '(a, b, c) := f in
  let s0 := Nat.min a (Nat.min b c) in
  let s2 := Nat.max a (Nat.max b c) in
  let s1 := (a + b + c - s0 - s2)%nat in
  (s0, s1, s2).

Definition repeatedIndex (f : Face) : bool :=
  let '(a, b, c) := f in (a =? b)%nat || (b =? c)%nat || (a =? c)%nat.

Fixpoint keepFaces (seen : list FaceKey) (faces : list Face) : list Face :=
  match faces with
  | [] => []
  | f :: rest =>
      if repeatedIndex f then keepFaces seen rest
      else if existsb (faceKeyEqb (faceKey f)) seen then keepFaces seen rest
      else f :: keepFaces (faceKey f :: seen) rest
  end.

(** [removeDegenerateFaces]. *)
Definition removeDegenerateFaces (indices : list nat) : list nat :=
  flattenFaces (keepFaces [] (facesOf indices)).

(** The loops of steps 1b and 4b: weld and clean, up to [passes] times,
    until a weld merges nothing. *)
Fixpoint weldLoop (passes : nat) (positions : list Q) (indices : list nat)
    (weldTolerance : Q) : list nat :=
  match passes with
  | O => indices
  | S remaining =>
      let '(merged, indices') :=
        weldBoundaryVertices positions indices weldTolerance in
      if merged
      then weldLoop remaining positions (removeDegenerateFaces indices')
                    weldTolerance
      else indices'
  end.

(* ----------------------------------------------------------------- *)
(** *** Step 8b: cleaning the faces *)

(** The squared length of the cross product of two edges of the face. *)
Definition crossSquared (pos : list Q) (f : Face) : Q :=
  let '(a, b, c) := f in
  let abx := getX pos b - getX pos a in
  let aby := getY pos b - getY pos a in
  let abz := getZ pos b - getZ pos a in
  let acx := getX pos c - getX pos a in
  let acy := getY pos c - getY pos a in
  let acz := getZ pos c - getZ pos a in
  let cx := aby * acz - abz * acy in
  let cy := abz * acx - abx * acz in
  let cz := abx * acy - aby * acx in
  cx * cx + cy * cy + cz * cz.

Definition AREA_SQ_THRESHOLD : Q := 1 # 10000000000.

Fixpoint cleanFaces (pos : list Q) (seen : list FaceKey) (faces : list Face)
    : list Face :=
  match faces with
  | [] => []
  | f :: rest =>
      if repeatedIndex f then cleanFaces pos seen rest
      else if existsb (faceKeyEqb (faceKey f)) seen then cleanFaces pos seen rest
      else
        let seen := faceKey f :: seen in
        if Qleb (crossSquared pos f) AREA_SQ_THRESHOLD
        then cleanFaces pos seen rest
        else f :: cleanFaces pos seen rest
  end.

Definition cleanIndices (pos : list Q) (indices : list nat) : list nat :=
  flattenFaces (cleanFaces pos [] (facesOf indices)).

(* ----------------------------------------------------------------- *)
(** *** Step 8c: closing boundary holes *)

(** [edgeFaceCount] and [edgeDirected], built together. *)
Definition registerEdge
    (maps : list (EdgeKey * nat) * list (EdgeKey * (nat * nat))) (e : nat * nat)
    : list (EdgeKey * nat) * list (EdgeKey * (nat * nat)) :=
  let '(edgeFaceCount, edgeDirected) := maps in
  let key := edgeKey (fst e) (snd e) in
  let c :=
    (match mapGet edgeKeyEqb key edgeFaceCount with Some c => c | None => 0 end
     + 1)%nat in
  (mapSet edgeKeyEqb key c edgeFaceCount,
   if (c =? 1)%nat then mapSet edgeKeyEqb key e edgeDirected else edgeDirected).

Definition registerEdges (faces : list Face)
    : list (EdgeKey * nat) * list (EdgeKey * (nat * nat)) :=
  fold_left (fun maps f => fold_left registerEdge (faceEdges f) maps)
            faces ([], []).

Definition boundaryEdgeKeys (edgeFaceCount : list (EdgeKey * nat)) : list EdgeKey :=
  map fst (filter (fun entry : EdgeKey * nat => (snd entry =? 1)%nat) edgeFaceCount).

(** [boundaryAdj.get(a).push(b)], creating the entry when missing. *)
Definition adjPush (adj : list (nat * list nat)) (a b : nat)
    : list (nat * list nat) :=
  mapSet Nat.eqb a
         (match mapGet Nat.eqb a adj with Some l => l | None => [] end ++ [b]) adj.

Definition boundaryAdjacency (keys : list EdgeKey) : list (nat * list nat) :=
  fold_left (fun adj (key : EdgeKey) =>
               let '(a, b) := key in adjPush (adjPush adj a b) b a)
            keys [].

(** [pickNextByAngle]; [None] for the running best is minus infinity. *)
Definition pickNextByAngle (pos : list Q) (prev current : nat)
    (candidates : list nat) : nat :=
  let ix := getX pos current - getX pos prev in
  let iy := getY pos current - getY pos prev in
  let iz := getZ pos current - getZ pos prev in
  snd
    (fold_left
       (fun (acc : option Q * nat) n =>
          let ox := getX pos n - getX pos current in
          let oy := getY pos n - getY pos current in
          let oz := getZ pos n - getZ pos current in
          let iLen := sqrt (ix * ix + iy * iy + iz * iz) in
          let oLen := sqrt (ox * ox + oy * oy + oz * oz) in
          if Qltb iLen (1 # 1000000000000) || Qltb oLen (1 # 1000000000000)
          then acc
          else
            let d := (ix * ox + iy * oy + iz * oz) / (iLen * oLen) in
            match fst acc with
            | None => (Some d, n)
            | Some bestDot => if Qltb bestDot d then (Some d, n) else acc
            end)
       candidates (None, nth 0 candidates 0%nat)).

(** The state of the walk along one boundary loop. *)
Record Walk : Type := walk {
  wLoop : list nat;
  wVisited : list EdgeKey;
  wCurrent : nat;
  wPrev : nat;
  wClosed : bool }.

(** The walk, at most [safety] steps of it (the source allows 1000). *)
Fixpoint walkLoop (safety : nat) (pos : list Q) (boundaryAdj : list (nat * list nat))
    (startA : nat) (w : Walk) : Walk :=
  match safety with
  | O => w
  | S safety' =>
      if (wCurrent w =? startA)%nat then
        walk (wLoop w) (wVisited w) (wCurrent w) (wPrev w) true
      else
        let loop := wLoop w ++ [wCurrent w] in
        if (200 <? length loop)%nat then
          walk loop (wVisited w) (wCurrent w) (wPrev w) false
        else
          let neighbors :=
            match mapGet Nat.eqb (wCurrent w) boundaryAdj with
            | Some ns => ns
            | None => []
            end in
          let candidates :=
            filter (fun n => negb (existsb (edgeKeyEqb (edgeKey (wCurrent w) n))
                                           (wVisited w)))
                   neighbors in
          match candidates with
          | [] => walk loop (wVisited w) (wCurrent w) (wPrev w) false
          | first :: others =>
              let next :=
                match others with
                | [] => first
                | _ => pickNextByAngle pos (wPrev w) (wCurrent w) candidates
                end in
              walkLoop safety' pos boundaryAdj startA
                (walk loop (edgeKey (wCurrent w) next :: wVisited w)
                      next (wCurrent w) false)
          end
  end.

(** [nearTolSq]: the square of [meshScale * 3e-3]; [None] when the mesh scale
    is minus infinity (an empty bounding box), which squares to plus
    infinity. *)
Definition nearTolSq (meshScale : option Q) : option Q :=
  match meshScale with
  | None => None
  | Some s => Some ((s * (3 # 1000)) * (s * (3 # 1000)))
  end.

(** The loops found, and the edges visited, started from each boundary edge
    not yet visited. *)
Definition traceLoops (pos : list Q) (boundaryAdj : list (nat * list nat))
    (meshScale : option Q) (keys : list EdgeKey) : list (list nat) :=
  fst
    (fold_left
       (fun (acc : list (list nat) * list EdgeKey) (startKey : EdgeKey) =>
          let '(loops, visited) := acc in
          if existsb (edgeKeyEqb startKey) visited then acc
          else
            let '(startA, startB) := startKey in
            let w := walkLoop 1000 pos boundaryAdj startA
                       (walk [startA] (startKey :: visited) startB startA false) in
            let loop := wLoop w in
            let closed :=
              if negb (wClosed w) && (3 <=? length loop)%nat then
                match nearTolSq meshScale with
                | None => true
                | Some tolSq =>
                    Qltb (distanceSquared pos (wCurrent w) startA) tolSq
                end
              else wClosed w in
            if closed && (3 <=? length loop)%nat && (length loop <=? 200)%nat
            then (loops ++ [loop], wVisited w)
            else (loops, wVisited w))
       keys ([], [])).

(** [getWindingFromEdge]. *)
Definition getWindingFromEdge (a b third : nat)
    (edgeDirected : list (EdgeKey * (nat * nat))) : Face :=
  match mapGet edgeKeyEqb (edgeKey a b) edgeDirected with
  | Some dir =>
      if (fst dir =? a)%nat && (snd dir =? b)%nat
      then (b, a, third) else (a, b, third)
  | None => (a, b, third)
  end.

(** The fill of one loop: the faces pushed and the centroid appended, if
    any.  [extra] is [extraPositions] so far. *)
Definition fillLoop (pos : list Q) (edgeDirected : list (EdgeKey * (nat * nat)))
    (acc : list Face * list Q) (loop : list nat) : list Face * list Q :=
  let '(fills, extra) := acc in
  match loop with
  | [a; b; c] => (fills ++ [getWindingFromEdge a b c edgeDirected], extra)
  | _ =>
      let c :=
        fold_left
          (fun c vi =>
             if (3 * vi <? length pos)%nat
             then add c (fromBufferAttribute pos vi)
             else add c (fromBufferAttribute extra (vi - count pos)))
          loop vzero in
      let n := ofNat (length loop) in
      let centroidIdx := (count pos + count extra)%nat in
      let fan :=
        map (fun i =>
               getWindingFromEdge (nth i loop 0%nat)
                 (nth ((i + 1) mod length loop) loop 0%nat)
                 centroidIdx edgeDirected)
            (seq 0 (length loop)) in
      (fills ++ fan, extra ++ [vx c / n; vy c / n; vz c / n])
  end.

(** The normal of the first original face on an edge of the fill face that
    is not degenerate. *)
Definition faceHasEdge (f : Face) (key : EdgeKey) : bool :=
  existsb (fun e : nat * nat => edgeKeyEqb (edgeKey (fst e) (snd e)) key)
          (faceEdges f).

Fixpoint faceNormalOnEdge (pos : list Q) (key : EdgeKey) (faces : list Face)
    : option Vector3 :=
  match faces with
  | [] => None
  | f :: rest =>
      if faceHasEdge f key then
        let '(i0, i1, i2) := f in
        let n := cross (sub (fromBufferAttribute pos i1) (fromBufferAttribute pos i0))
                       (sub (fromBufferAttribute pos i2) (fromBufferAttribute pos i0)) in
        let len := sqrt (dot n n) in
        if Qltb len (1 # 1000000000000) then faceNormalOnEdge pos key rest
        else Some (vec3 (vx n / len) (vy n / len) (vz n / len))
      else faceNormalOnEdge pos key rest
  end.

Definition findAdjacentFaceNormal (pos : list Q) (originalFaces : list Face)
    (fill : Face) : option Vector3 :=
  fold_left
    (fun found (e : nat * nat) =>
       match found with
       | Some n => Some n
       | None => faceNormalOnEdge pos (edgeKey (fst e) (snd e)) originalFaces
       end)
    (faceEdges fill) None.

(** Step 5 of the hole closing, for one fill face. *)
Definition validateFill (finalPos : list Q) (originalFaces : list Face)
    (fill : Face) : Face :=
  let '(ia, ib, ic) := fill in
  let fillN :=
    cross (sub (fromBufferAttribute finalPos ib) (fromBufferAttribute finalPos ia))
          (sub (fromBufferAttribute finalPos ic) (fromBufferAttribute finalPos ia)) in
  match findAdjacentFaceNormal finalPos originalFaces fill with
  | None => fill
  | Some adjNormal =>
      if Qltb (dot fillN adjNormal) 0 then (ia, ic, ib) else fill
  end.

(** [closeBoundaryHoles]: the position buffer returned and the index buffer
    afterwards. *)
Definition closeBoundaryHoles (pos : list Q) (indices : list nat)
    (meshScale : option Q) : list Q * list nat :=
  let faces := facesOf indices in
  let '(edgeFaceCount, edgeDirected) := registerEdges faces in
  let keys := boundaryEdgeKeys edgeFaceCount in
  match keys with
  | [] => (pos, indices)
  | _ =>
      let boundaryAdj := boundaryAdjacency keys in
      let loops := traceLoops pos boundaryAdj meshScale keys in
      match loops with
      | [] => (pos, indices)
      | _ =>
          let '(fills, extraPositions) :=
            fold_left (fillLoop pos edgeDirected) loops ([], []) in
          let finalPos := pos ++ extraPositions in
          (finalPos,
           flattenFaces faces
           ++ flattenFaces (map (validateFill finalPos faces) fills))
      end
  end.

(** The index buffer that is de-indexed into the result: step 8b, then 8c. *)
Definition finalBuffers (pos : list Q) (indices : list nat)
    (meshScale : option Q) : list Q * list nat :=
  closeBoundaryHoles pos (cleanIndices pos indices) meshScale.

(* ----------------------------------------------------------------- *)
(** *** Adjacency *)

Definition adjAdd (adj : list (list nat)) (a b : nat) : list (list nat) :=
  setNth adj a (setAdd b).

Definition buildAdjacency (indices : list nat) (vertCount : nat)
    : list (list nat) :=
  fold_left
    (fun adj (f : Face) =>
       let '(a, b, c) := f in
       adjAdd (adjAdd (adjAdd (adjAdd (adjAdd (adjAdd adj a b) a c) b a) b c) c a)
              c b)
    (facesOf indices) (repeat [] vertCount).

(* ----------------------------------------------------------------- *)
(** *** Seam detection *)

(** [Math.acos], a parameter like [Math.sqrt]. *)
Variable acos : Q -> Q.

(** [Math.PI], to the sixteen digits of the double. *)
Definition PI : Q := 3141592653589793 # 1000000000000000.

Definition ANGLE_THRESHOLD : Q := 25 * (PI / 180).

(** [Vector3.normalize]: division by the length, or by 1 when that is 0. *)
Definition normalize (v : Vector3) : Vector3 :=
  let len := sqrt (dot v v) in
  divideScalar v (if Qeqb len 0 then 1 else len).

Definition clamp (value lo hi : Q) : Q := Qmax lo (Qmin hi value).

Definition faceNormal (positions : list Q) (f : Face) : Vector3 :=
  let '(i0, i1, i2) := f in
  let tA := fromBufferAttribute positions i0 in
  let tB := fromBufferAttribute positions i1 in
  let tC := fromBufferAttribute positions i2 in
  normalize (cross (sub tB tA) (sub tC tA)).

(** [edgeMap]: for each edge key, the numbers of the faces on it.  The two
    end points the source stores with it are the components of the key. *)
Definition edgeMapAdd (m : list (EdgeKey * list nat)) (f : nat) (e : nat * nat)
    : list (EdgeKey * list nat) :=
  let key := edgeKey (fst e) (snd e) in
  mapSet edgeKeyEqb key
         (match mapGet edgeKeyEqb key m with Some fs => fs | None => [] end ++ [f])
         m.

Definition buildEdgeMap (faces : list Face) : list (EdgeKey * list nat) :=
  fst
    (fold_left
       (fun (acc : list (EdgeKey * list nat) * nat) face =>
          (fold_left (fun m e => edgeMapAdd m (snd acc) e) (faceEdges face) (fst acc),
           S (snd acc)))
       faces ([], 0%nat)).

Definition sharpVertices (positions : list Q) (faces : list Face) : list nat :=
  let faceNormals := map (faceNormal positions) faces in
  fold_left
    (fun sharp (entry : EdgeKey * list nat) =>
       let '((v0, v1), fs) := entry in
       match fs with
       | [f0; f1] =>
           let d := clamp (dot (nth f0 faceNormals vzero) (nth f1 faceNormals vzero))
                          (-1) 1 in
           if Qltb ANGLE_THRESHOLD (acos d)
           then setAdd v1 (setAdd v0 sharp) else sharp
       | _ => setAdd v1 (setAdd v0 sharp)
       end)
    (buildEdgeMap faces) [].

Record Tri3 : Type := tri3 { ta : Vector3; tb : Vector3; tc : Vector3 }.

(** [buildTriangleList].  Without a position attribute the first read of
    [p] throws; only an index of no entries never reads it. *)
Definition buildTriangleList (geo : BufferGeometry) : Result (list Tri3) :=
  match position geo with
  | None =>
      match index geo with
      | Some [] => Value []
      | _ => Thrown TypeError
      end
  | Some p =>
      let corners :=
        match index geo with
        | Some idx => facesOf idx
        | None => facesOf (seq 0 (count p))
        end in
      Value (map (fun f : Face =>
                    let '(a, b, c) := f in
                    tri3 (fromBufferAttribute p a) (fromBufferAttribute p b)
                         (fromBufferAttribute p c))
                 corners)
  end.

Definition addScaledVector (v w : Vector3) (s : Q) : Vector3 :=
  add v (multiplyScalar w s).

Definition closestPtOnTri (p a b c : Vector3) : Vector3 :=
  let ab := sub b a in
  let ac := sub c a in
  let ap := sub p a in
  let d1 := dot ab ap in
  let d2 := dot ac ap in
  if Qleb d1 0 && Qleb d2 0 then a
  else
    let bp := sub p b in
    let d3 := dot ab bp in
    let d4 := dot ac bp in
    if Qleb 0 d3 && Qleb d4 d3 then b
    else
      let cp := sub p c in
      let d5 := dot ab cp in
      let d6 := dot ac cp in
      if Qleb 0 d6 && Qleb d5 d6 then c
      else
        let vc := d1 * d4 - d3 * d2 in
        if Qleb vc 0 && Qleb 0 d1 && Qleb d3 0
        then addScaledVector a ab (d1 / (d1 - d3))
        else
          let vb := d5 * d2 - d1 * d6 in
          if Qleb vb 0 && Qleb 0 d2 && Qleb d6 0
          then addScaledVector a ac (d2 / (d2 - d6))
          else
            let va := d3 * d6 - d5 * d4 in
            if Qleb va 0 && Qleb 0 (d4 - d3) && Qleb 0 (d5 - d6)
            then
              let w := (d4 - d3) / ((d4 - d3) + (d5 - d6)) in
              addScaledVector b (sub c b) w
            else
              let den := 1 / (va + vb + vc) in
              addScaledVector (addScaledVector a ab (vb * den)) ac (vc * den).

Definition pointNearAnyTriangle (pt : Vector3) (tris : list Tri3) (tol : Q)
    : bool :=
  let tolSq := tol * tol in
  existsb (fun t =>
             let tgt := closestPtOnTri pt (ta t) (tb t) (tc t) in
             Qleb (dot (sub pt tgt) (sub pt tgt)) tolSq)
          tris.

(** [findSeamVertices]. *)
Definition findSeamVertices (positions : list Q) (indices : list nat)
    (toolGeometry : BufferGeometry) : Result (list nat) :=
  let sharpVerts := sharpVertices positions (facesOf indices) in
  match sharpVerts with
  | [] => Value []
  | _ =>
      match buildTriangleList toolGeometry with
      | Thrown e => Thrown e
      | Value toolTris =>
          let toolBBox :=
            expandByScalar
              (match position toolGeometry with
               | Some toolPositions => setFromBufferAttribute toolPositions
               | None => None
               end)
              (3 # 100) in
          let seamVerts :=
            filter (fun vi =>
                      let tv := fromBufferAttribute positions vi in
                      containsPoint toolBBox tv
                      && pointNearAnyTriangle tv toolTris (15 # 1000))
                   sharpVerts in
          Value (match seamVerts with [] => sharpVerts | _ => seamVerts end)
      end
  end.

(** [collectSeamEdgeSegments]. *)
Definition collectSeamEdgeSegments (positions : list Q) (indices : list nat)
    (seamVerts : list nat) : list SeamSegment :=
  snd
    (fold_left
       (fun (acc : list EdgeKey * list SeamSegment) (e : nat * nat) =>
          let '(a, b) := e in
          if negb (setHas a seamVerts) || negb (setHas b seamVerts) then acc
          else
            let key := edgeKey a b in
            if existsb (edgeKeyEqb key) (fst acc) then acc
            else (key :: fst acc,
                  snd acc ++ [seamSegment (fromBufferAttribute positions a)
                                          (fromBufferAttribute positions b)]))
       (flat_map faceEdges (facesOf indices)) ([], [])).

(* ----------------------------------------------------------------- *)
(** *** [smoothSeam] *)

Record SmoothingOptions : Type := smoothingOptions {
  strength : Q;
  iterations : nat;
  radius : Q }.

(** [Partial<SmoothingOptions>]. *)
Record PartialOptions : Type := partialOptions {
  oStrength : option Q;
  oIterations : option nat;
  oRadius : option Q }.

Definition DEFAULT_OPTIONS : SmoothingOptions :=
  smoothingOptions (8 # 10) 0 (2 # 100).

Definition orDefault {A : Type} (o : option A) (d : A) : A :=
  match o with Some a => a | None => d end.

(** [{ ...DEFAULT_OPTIONS, ...options }]. *)
Definition withDefaults (options : option PartialOptions) : SmoothingOptions :=
  match options with
  | None => DEFAULT_OPTIONS
  | Some o =>
      smoothingOptions (orDefault (oStrength o) (strength DEFAULT_OPTIONS))
                       (orDefault (oIterations o) (iterations DEFAULT_OPTIONS))
                       (orDefault (oRadius o) (radius DEFAULT_OPTIONS))
  end.

(** The two three.js functions [smoothSeam] calls on whole geometries:
    [mergeVertices] of the addons, and the normals [computeVertexNormals]
    derives from positions and index. *)
Variable mergeVertices : BufferGeometry -> Q -> Result BufferGeometry.
Variable vertexNormals : list Q -> option (list nat) -> list Q.

(** [geometry.clone()] followed by [computeVertexNormals()], which does
    nothing without a position attribute. *)
Definition cloneWithNormals (g : BufferGeometry) : BufferGeometry :=
  match position g with
  | None => g
  | Some p => bufferGeometry (Some p) (index g) (Some (vertexNormals p (index g)))
  end.

(** [meshScale]: the largest extent of the bounding box; [None] is the minus
    infinity an empty box gives. *)
Definition meshScaleOf (g : BufferGeometry) : option Q :=
  match position g with
  | None => None
  | Some p =>
      match setFromBufferAttribute p with
      | None => None
      | Some b =>
          Some (Qmax (Qmax (vx (bmax b) - vx (bmin b)) (vy (bmax b) - vy (bmin b)))
                     (vz (bmax b) - vz (bmin b)))
      end
  end.

(** [Math.max(floor, meshScale * factor)]. *)
Definition scaledTolerance (floor : Q) (meshScale : option Q) (factor : Q) : Q :=
  match meshScale with
  | None => floor
  | Some s => Qmax floor (s * factor)
  end.

(** The buffers entering the smoothing: steps 3 to 4b, from the seam
    vertices found in step 2. *)
Definition prepareFillet (positions : list Q) (indices seamVerts : list nat)
    (opts : SmoothingOptions) (meshScale : option Q)
    : list Q * list nat * list SeamSegment :=
  let weldTolerance := scaledTolerance (5 # 10000) meshScale (3 # 1000) in
  let seamSegments := collectSeamEdgeSegments positions indices seamVerts in
  let seamSegments :=
    match seamSegments with
    | [] => map (fun vi => seamSegment (fromBufferAttribute positions vi)
                                       (fromBufferAttribute positions vi))
                seamVerts
    | _ => seamSegments
    end in
  let bridged :=
    match meshScale with
    | None => splitState positions indices seamVerts
    | Some s =>
        let minSplitRadius := s * (15 # 100) in
        if Qltb (radius opts) minSplitRadius then
          let bridgeTarget := Qmax (s * (1 # 100)) (5 # 1000) in
          let st := splitSeamEdges positions indices seamVerts seamSegments
                      minSplitRadius bridgeTarget 2 in
          let welded :=
            snd (weldBoundaryVertices (sPositions st) (sIndices st) weldTolerance) in
          splitState (sPositions st) (removeDegenerateFaces welded) (sSeamVerts st)
        else splitState positions indices seamVerts
    end in
  let split :=
    fst (filletSplitRun (sPositions bridged) (sIndices bridged)
           (sSeamVerts bridged) seamSegments (radius opts)) in
  (sPositions split,
   weldLoop 3 (sPositions split) (sIndices split) weldTolerance,
   seamSegments).

Definition numIterationsOf (opts : SmoothingOptions) : nat :=
  match iterations opts with
  | O => Z.to_nat (Z.max 20 (Z.min 150 (Qfloor (radius opts * 120))))
  | n => n
  end.

(** Steps 5 to 8: the position buffer after the Laplacian smoothing. *)
Definition smoothFillet (positions : list Q) (indices : list nat)
    (seamSegments : list SeamSegment) (opts : SmoothingOptions) : list Q :=
  let vertCount := count positions in
  let adjacency := buildAdjacency indices vertCount in
  let distField :=
    computeDistanceField positions vertCount seamSegments
                         (radius opts * (13 # 10)) in
  let weights := computeSmoothstepWeights distField (radius opts) vertCount in
  let lambda := (4 # 10) + (4 # 10) * strength opts in
  let maxStep := filletTargetLength (radius opts) * (4 # 10) in
  let pos := firstn (vertCount * 3) positions in
  smoothingLoop (numIterationsOf opts) pos adjacency weights vertCount
                lambda maxStep.

(** Step 9: one vertex per face corner. *)
Definition deIndex (finalPos : list Q) (indices : list nat) : list Q :=
  flat_map (fun vi => triple (fromBufferAttribute finalPos vi))
           (flattenFaces (facesOf indices)).

(** The position and index buffers just before de-indexing, from the seam
    vertices of step 2 on. *)
Definition repairedBuffers (positions : list Q) (indices seamVerts : list nat)
    (opts : SmoothingOptions) (meshScale : option Q) : list Q * list nat :=
  let '(positions, indices, seamSegments) :=
    prepareFillet positions indices seamVerts opts meshScale in
  let pos := smoothFillet positions indices seamSegments opts in
  finalBuffers pos indices meshScale.

(** What [smoothSeam] returns for merged buffers: [None] when it gives back
    the input with recomputed normals, else the new position buffer. *)
Definition repairIndexed (positions : list Q) (indices : list nat)
    (toolGeometry : BufferGeometry) (opts : SmoothingOptions)
    (meshScale : option Q) : Result (option (list Q)) :=
  let weldTolerance := scaledTolerance (5 # 10000) meshScale (3 # 1000) in
  let indices := weldLoop 3 positions indices weldTolerance in
  match findSeamVertices positions indices toolGeometry with
  | Thrown e => Thrown e
  | Value [] => Value None
  | Value seamVerts =>
      let '(finalPos, indices) :=
        repairedBuffers positions indices seamVerts opts meshScale in
      Value (Some (deIndex finalPos indices))
  end.

Definition smoothSeam (resultGeometry toolGeometry : BufferGeometry)
    (options : option PartialOptions) : Result BufferGeometry :=
  let opts := withDefaults options in
  if Qleb (strength opts) 0 then Value (cloneWithNormals resultGeometry)
  else
    let posOnly :=
      bufferGeometry (position resultGeometry) (index resultGeometry) None in
    let meshScale := meshScaleOf posOnly in
    let mergeTolerance := scaledTolerance (1 # 10000) meshScale (2 # 10000) in
    match mergeVertices posOnly mergeTolerance with
    | Thrown e => Thrown e
    | Value indexed =>
        match index indexed with
        | None => Value (cloneWithNormals resultGeometry)
        | Some indexArr =>
            match position indexed with
            | None => Thrown TypeError
            | Some posAttr =>
                let positions := firstn (3 * count posAttr) posAttr in
                match repairIndexed positions indexArr toolGeometry opts
                                    meshScale with
                | Thrown e => Thrown e
                | Value None => Value (cloneWithNormals resultGeometry)
                | Value (Some outPos) =>
                    Value (bufferGeometry (Some outPos) None
                             (Some (vertexNormals outPos None)))
                end
            end
        end
    end.

End Pipeline.
End Seam.

(* ================================================================= *)
(** ** Mesh preparation: [meshLoader] *)

(** [Matrix4.makeTranslation] and [Matrix4.makeScale]. *)
Definition makeTranslation (x y z : Q) : Matrix4 :=
  mat4 1 0 0 0  0 1 0 0  0 0 1 0  x y z 1.

Definition makeScale (x y z : Q) : Matrix4 :=
  mat4 x 0 0 0  0 y 0 0  0 0 z 0  0 0 0 1.

(** [BufferAttribute.applyMatrix4] on a position buffer: every vertex is
    rewritten, trailing components that form no vertex stay. *)
Definition applyToVertices (m : Matrix4) (a : list Q) : list Q :=
  flat_map (fun i => triple (applyMatrix4 m (fromBufferAttribute a i)))
           (seq 0 (count a))
  ++ skipn (3 * count a) a.

(** [Box3.getCenter] and [Box3.getSize] of a bounding box that may be the
    empty one. *)
Definition getCenter (b : option Box3) : Vector3 :=
  match b with
  | None => vzero
  | Some b =>
      if isEmpty b then vzero else multiplyScalar (add (bmin b) (bmax b)) (1 # 2)
  end.

Definition sizeOf (b : option Box3) : Vector3 :=
  match b with
  | None => vzero
  | Some b => getSize b
  end.

Module MeshLoader.
Section Loader.

(** The normals [computeVertexNormals] derives from positions and index. *)
Variable vertexNormals : list Q -> option (list nat) -> list Q.

(** [BufferGeometry.translate] and [BufferGeometry.scale], on the position
    buffer. *)
Definition translate (a : list Q) (x y z : Q) : list Q :=
  applyToVertices (makeTranslation x y z) a.

Definition scale (a : list Q) (x y z : Q) : list Q :=
  applyToVertices (makeScale x y z) a.

(** [standardizeMesh], for a geometry with position attribute [p] and index
    [index].  The normals the two moves carry along are replaced by
    [computeVertexNormals] at the end.  Of a buffer without a vertex the
    bounding box is empty: its centre and size are zero, and the last move,
    by minus infinity, has no vertex to act on. *)
Definition standardizeMesh (p : list Q) (index : option (list nat))
    : BufferGeometry :=
  let bbox := setFromBufferAttribute p in
  let center := getCenter bbox in
  let size := sizeOf bbox in
  let maxDim := Qmax (Qmax (vx size) (vy size)) (vz size) in
  let geo := translate p (- vx center) (- vy center) (- vz center) in
  let geo :=
    if Qltb 10 maxDim then
      let scale' := 5 / maxDim in
      scale geo scale' scale' scale'
    else geo in
  let geo :=
    match setFromBufferAttribute geo with
    | None => geo
    | Some b =>
        let minY := vy (bmin b) in
        if negb (Qeqb minY 0) then translate geo 0 (- minY) 0 else geo
    end in
  bufferGeometry (Some geo) index (Some (vertexNormals geo index)).

(** [BufferAttribute.applyNormalMatrix] with the normal matrix of a
    transform: what [BufferGeometry.applyMatrix4] does to a normal
    attribute. *)
Variable applyNormalMatrix : Matrix4 -> list Q -> list Q.

(** [BufferGeometry.applyMatrix4] on a geometry with position attribute. *)
Definition applyMatrix4ToGeometry (m : Matrix4) (g : BufferGeometry)
    : BufferGeometry :=
  bufferGeometry (option_map (applyToVertices m) (position g)) (index g)
                 (option_map (applyNormalMatrix m) (normal g)).

Definition boxOf (g : BufferGeometry) : option Box3 :=
  match position g with
  | None => None
  | Some p => setFromBufferAttribute p
  end.

(** [scaleMeshToMatch].  The three ratios divide by the extents of [geoB];
    where one of these is zero [avgScale] is infinite or not a number, and
    the model answers [None] in place of the geometry the source goes on to
    build from it.  Past that test [geoB] has a vertex, so the box of the
    scaled copy is not the empty one.  The bounding boxes the source caches
    on its two arguments are not part of [BufferGeometry]. *)
Definition scaleMeshToMatch (geoA geoB : BufferGeometry) : option BufferGeometry :=
  let sizeA := sizeOf (boxOf geoA) in
  let sizeB := sizeOf (boxOf geoB) in
  if Qeqb (vx sizeB) 0 || Qeqb (vy sizeB) 0 || Qeqb (vz sizeB) 0 then None
  else
    let scaleX := vx sizeA / vx sizeB in
    let scaleY := vy sizeA / vy sizeB in
    let scaleZ := vz sizeA / vz sizeB in
    let avgScale := (scaleX + scaleY + scaleZ) / 3 in
    let result := applyMatrix4ToGeometry (makeScale avgScale avgScale avgScale) geoB in
    let centerA := getCenter (boxOf geoA) in
    let centerB := getCenter (boxOf result) in
    match boxOf result with
    | None => None
    | Some b =>
        let minB := vy (bmin b) in
        Some (applyMatrix4ToGeometry
                (makeTranslation (vx centerA - vx centerB) (- minB)
                                 (vz centerA - vz centerB))
                result)
    end.

End Loader.
End MeshLoader.

(* ================================================================= *)
(** ** Lists, grids and bounding boxes *)

Lemma nth_error_map_seq {A : Type} (f : nat -> A) (len i : nat) :
  (i < len)%nat -> nth_error (map f (seq 0 len)) i = Some (f i).
Proof.
  intros H. rewrite nth_error_map, nth_error_seq.
  destruct (Nat.ltb_spec i len); [reflexivity | lia].
Qed.

Lemma nth_error_map_seq_None {A : Type} (f : nat -> A) (len i : nat) :
  (len <= i)%nat -> nth_error (map f (seq 0 len)) i = None.
Proof.
  intros H. apply nth_error_None. rewrite length_map, length_seq. exact H.
Qed.

Lemma nth_error_setNth {A : Type} (xs : list A) (i j : nat) (f : A -> A) :
  nth_error (setNth xs i f) j =
  if (i =? j)%nat then option_map f (nth_error xs j) else nth_error xs j.
Proof.
  revert i j. induction xs as [|x xs IH]; intros i j.
  - destruct i, j; cbn; try reflexivity; destruct (i =? j)%nat; reflexivity.
  - destruct i, j; cbn; try reflexivity. apply IH.
Qed.

Lemma length_setNth {A : Type} (xs : list A) (i : nat) (f : A -> A) :
  length (setNth xs i f) = length xs.
Proof.
  revert i. induction xs as [|x xs IH]; intros [|i]; cbn; auto.
Qed.

(** Reading a grid after one point was written. *)
Lemma getCP_setCP (g : Grid) (i j k i' j' k' : nat) (v : Vector3) :
  getCP (setCP g i j k v) i' j' k' =
  if ((i =? i') && (j =? j') && (k =? k'))%nat
  then option_map (fun _ => v) (getCP g i' j' k')
  else getCP g i' j' k'.
Proof.
  unfold getCP, setCP. rewrite nth_error_setNth.
  destruct (Nat.eqb_spec i i') as [->|Hi]; cbn [andb]; [|reflexivity].
  destruct (nth_error g i') as [plane|]; cbn [option_map].
  2:{ destruct ((j =? j') && (k =? k'))%nat; reflexivity. }
  rewrite nth_error_setNth.
  destruct (Nat.eqb_spec j j') as [->|Hj]; cbn [andb]; [|reflexivity].
  destruct (nth_error plane j') as [row|]; cbn [option_map].
  2:{ destruct (k =? k')%nat; reflexivity. }
  rewrite nth_error_setNth.
  destruct (Nat.eqb_spec k k') as [->|Hk]; reflexivity.
Qed.

Lemma getCP_map (f : Vector3 -> Vector3) (g : Grid) (i j k : nat) :
  getCP (map (map (map f)) g) i j k = option_map f (getCP g i j k).
Proof.
  unfold getCP. rewrite nth_error_map.
  destruct (nth_error g i) as [plane|]; cbn; [|reflexivity].
  rewrite nth_error_map.
  destruct (nth_error plane j) as [row|]; cbn; [|reflexivity].
  apply nth_error_map.
Qed.

Lemma cpAt_getCP (g : Grid) (i j k : nat) (p : Vector3) :
  getCP g i j k = Some p -> cpAt g i j k = p.
Proof.
  unfold getCP, cpAt. intros H.
  destruct (nth_error g i) as [plane|] eqn:E1; [|discriminate].
  destruct (nth_error plane j) as [row|] eqn:E2; [|discriminate].
  rewrite (nth_error_nth _ _ _ E1), (nth_error_nth _ _ _ E2).
  apply nth_error_nth. exact H.
Qed.

(** The grid of the constructor, point by point. *)
Lemma getCP_initializeControlPoints (b : Box3) (sz : Vector3) (l m n i j k : nat) :
  getCP (FFD.initializeControlPoints b sz l m n) i j k =
  if ((i <=? l) && (j <=? m) && (k <=? n))%nat
  then Some (vec3 (vx (bmin b) + ofNat i * (vx sz / ofNat l))
                  (vy (bmin b) + ofNat j * (vy sz / ofNat m))
                  (vz (bmin b) + ofNat k * (vz sz / ofNat n)))
  else None.
Proof.
  unfold getCP, FFD.initializeControlPoints.
  destruct (Nat.leb_spec i l) as [Hi|Hi]; cbn [andb].
  - rewrite nth_error_map_seq by lia.
    destruct (Nat.leb_spec j m) as [Hj|Hj]; cbn [andb].
    + rewrite nth_error_map_seq by lia.
      destruct (Nat.leb_spec k n) as [Hk|Hk].
      * rewrite nth_error_map_seq by lia. reflexivity.
      * apply nth_error_map_seq_None. lia.
    + rewrite nth_error_map_seq_None by lia. reflexivity.
  - rewrite nth_error_map_seq_None by lia. reflexivity.
Qed.

(** Number of control points of a grid. *)
Definition pointCount (g : Grid) : nat :=
  list_sum (map (fun plane => list_sum (map (@length Vector3) plane)) g).

Lemma list_sum_map_const {A : Type} (f : A -> nat) (c : nat) (xs : list A) :
  (forall x, In x xs -> f x = c) -> list_sum (map f xs) = (length xs * c)%nat.
Proof.
  induction xs as [|x xs IH]; intros H; [reflexivity|].
  change (list_sum (map f (x :: xs))) with (f x + list_sum (map f xs))%nat.
  rewrite H by (left; reflexivity). rewrite IH by (intros; apply H; right; assumption).
  reflexivity.
Qed.

Lemma pointCount_initializeControlPoints (b : Box3) (sz : Vector3) (l m n : nat) :
  pointCount (FFD.initializeControlPoints b sz l m n) = (S l * (S m * S n))%nat.
Proof.
  unfold pointCount, FFD.initializeControlPoints.
  rewrite (list_sum_map_const _ (S m * S n)%nat).
  - rewrite length_map, length_seq. reflexivity.
  - intros plane Hp. apply in_map_iff in Hp as (i & <- & _).
    rewrite (list_sum_map_const _ (S n)).
    + rewrite length_map, length_seq. reflexivity.
    + intros row Hr. apply in_map_iff in Hr as (j & <- & _).
      rewrite length_map, length_seq. reflexivity.
Qed.

(** Componentwise order on points. *)
Definition vle (a b : Vector3) : Prop :=
  vx a <= vx b /\ vy a <= vy b /\ vz a <= vz b.

Definition inside (b : Box3) (p : Vector3) : Prop :=
  vle (bmin b) p /\ vle p (bmax b).

Lemma vle_refl (a : Vector3) : vle a a.
Proof. unfold vle. repeat split; apply Qle_refl. Qed.

Lemma vle_trans (a b c : Vector3) : vle a b -> vle b c -> vle a c.
Proof.
  intros (H1 & H2 & H3) (G1 & G2 & G3). unfold vle.
  repeat split; eapply Qle_trans; eassumption.
Qed.

Lemma vmin_le_l (a b : Vector3) : vle (vmin a b) a.
Proof. unfold vle, vmin; cbn. repeat split; apply Q.le_min_l. Qed.

Lemma vmin_le_r (a b : Vector3) : vle (vmin a b) b.
Proof. unfold vle, vmin; cbn. repeat split; apply Q.le_min_r. Qed.

Lemma vmax_le_l (a b : Vector3) : vle a (vmax a b).
Proof. unfold vle, vmax; cbn. repeat split; apply Q.le_max_l. Qed.

Lemma vmax_le_r (a b : Vector3) : vle b (vmax a b).
Proof. unfold vle, vmax; cbn. repeat split; apply Q.le_max_r. Qed.

Lemma fold_expand_Some (pts : list Vector3) (b0 : Box3) :
  exists b, fold_left expandByPoint pts (Some b0) = Some b /\
            vle (bmin b) (bmin b0) /\ vle (bmax b0) (bmax b) /\
            (forall p, In p pts -> inside b p).
Proof.
  revert b0. induction pts as [|q pts IH]; intros b0; cbn [fold_left].
  - exists b0. split; [reflexivity|]. split; [apply vle_refl|].
    split; [apply vle_refl|]. intros p [].
  - cbn [expandByPoint].
    destruct (IH (box3 (vmin (bmin b0) q) (vmax (bmax b0) q)))
      as (b & Hb & Lo & Up & Hin).
    cbn [bmin bmax] in Lo, Up.
    exists b. split; [exact Hb|].
    split; [eapply vle_trans; [exact Lo | apply vmin_le_l]|].
    split; [eapply vle_trans; [apply vmax_le_l | exact Up]|].
    intros p [<-|Hp]; [|apply Hin; exact Hp].
    split.
    + eapply vle_trans; [exact Lo | apply vmin_le_r].
    + eapply vle_trans; [apply vmax_le_r | exact Up].
Qed.

Lemma fold_left_map_list {A B C : Type} (f : A -> B -> A) (g : C -> B)
    (xs : list C) (a : A) :
  fold_left (fun acc x => f acc (g x)) xs a = fold_left f (map g xs) a.
Proof.
  revert a. induction xs as [|x xs IH]; intros a; cbn; auto.
Qed.

(** [setFromBufferAttribute] gives a box around every vertex of the buffer,
    and the empty box exactly when the buffer holds no vertex. *)
Lemma setFromBufferAttribute_inside (a : list Q) (b : Box3) :
  setFromBufferAttribute a = Some b ->
  forall i, (i < count a)%nat -> inside b (fromBufferAttribute a i).
Proof.
  unfold setFromBufferAttribute. rewrite fold_left_map_list.
  intros H i Hi.
  assert (Hin : In (fromBufferAttribute a i)
                   (map (fromBufferAttribute a) (seq 0 (count a)))).
  { apply in_map. apply in_seq. lia. }
  destruct (map (fromBufferAttribute a) (seq 0 (count a))) as [|q pts]; [destruct Hin|].
  cbn [fold_left expandByPoint] in H.
  destruct (fold_expand_Some pts (box3 q q)) as (b' & Hb' & Lo & Hi' & Hall).
  rewrite Hb' in H. injection H as <-.
  destruct Hin as [<-|Hin]; [|apply Hall; exact Hin].
  split; assumption.
Qed.

Lemma setFromBufferAttribute_Some (a : list Q) :
  (0 < count a)%nat -> exists b, setFromBufferAttribute a = Some b.
Proof.
  unfold setFromBufferAttribute. rewrite fold_left_map_list. intros H.
  destruct (count a) as [|c]; [lia|]. cbn [seq map fold_left expandByPoint].
  destruct (fold_expand_Some (map (fromBufferAttribute a) (seq 1 c))
              (box3 (fromBufferAttribute a 0) (fromBufferAttribute a 0)))
    as (b & Hb & _). exists b. exact Hb.
Qed.

Lemma setFromBufferAttribute_None (a : list Q) :
  count a = 0%nat -> setFromBufferAttribute a = None.
Proof. unfold setFromBufferAttribute. intros ->. reflexivity. Qed.

Lemma setFromBufferAttribute_ordered (a : list Q) (b : Box3) :
  setFromBufferAttribute a = Some b -> vle (bmin b) (bmax b).
Proof.
  intros H.
  destruct (count a) as [|c] eqn:E.
  - rewrite setFromBufferAttribute_None in H by exact E. discriminate.
  - destruct (setFromBufferAttribute_inside a b H 0%nat) as [(L1 & L2 & L3) (U1 & U2 & U3)];
      [lia|].
    unfold vle. repeat split; lra.
Qed.

Lemma getSize_ordered (b : Box3) :
  vle (bmin b) (bmax b) -> getSize b = sub (bmax b) (bmin b).
Proof.
  intros (H1 & H2 & H3). unfold getSize, isEmpty.
  apply Qltb_false in H1, H2, H3. rewrite H1, H2, H3. reflexivity.
Qed.

(** Each corner coordinate of the box is the coordinate of some vertex. *)
Lemma fold_expand_attained (pts : list Vector3) (b0 b : Box3) :
  fold_left expandByPoint pts (Some b0) = Some b ->
  forall (f : Vector3 -> Q) (lo : bool),
    In f [vx; vy; vz] ->
    let corner (c : Box3) := if lo then f (bmin c) else f (bmax c) in
    corner b == corner b0 \/ exists p, In p pts /\ f p == corner b.
Proof.
  revert b0. induction pts as [|q pts IH]; intros b0 H f lo Hf corner.
  - cbn in H. injection H as <-. left. reflexivity.
  - cbn [fold_left expandByPoint] in H.
    destruct (IH _ H f lo Hf) as [E | (p & Hp & E)].
    + subst corner. cbn beta in *. destruct lo; cbn [bmin bmax] in E.
      * destruct Hf as [<-|[<-|[<-|[]]]]; cbn [vmin vx vy vz] in E;
          match type of E with
          | _ == Qmin ?a ?b =>
              destruct (Q.min_dec a b) as [D|D]; rewrite D in E;
              [left; exact E | right; exists q; split; [left; reflexivity | symmetry; exact E]]
          end.
      * destruct Hf as [<-|[<-|[<-|[]]]]; cbn [vmax vx vy vz] in E;
          match type of E with
          | _ == Qmax ?a ?b =>
              destruct (Q.max_dec a b) as [D|D]; rewrite D in E;
              [left; exact E | right; exists q; split; [left; reflexivity | symmetry; exact E]]
          end.
    + right. exists p. split; [right; exact Hp | exact E].
Qed.

Lemma setFromBufferAttribute_attained (a : list Q) (b : Box3) :
  setFromBufferAttribute a = Some b ->
  forall (f : Vector3 -> Q) (lo : bool),
    In f [vx; vy; vz] ->
    exists i, (i < count a)%nat /\
              f (fromBufferAttribute a i) == if lo then f (bmin b) else f (bmax b).
Proof.
  unfold setFromBufferAttribute. rewrite fold_left_map_list. intros H f lo Hf.
  destruct (count a) as [|c]; [discriminate|].
  cbn [seq map fold_left expandByPoint] in H.
  destruct (fold_expand_attained _ _ _ H f lo Hf) as [E | (p & Hp & E)].
  - exists 0%nat. split; [lia|]. destruct lo; cbn [bmin bmax] in E; symmetry; exact E.
  - apply in_map_iff in Hp as (i & <- & Hi). apply in_seq in Hi.
    exists i. split; [lia | exact E].
Qed.

(* ================================================================= *)
(** ** What the lattice operations keep *)

Lemma deform_fields (st : FFD.state) :
  FFD.controlPoints (FFD.deform st) = FFD.controlPoints st /\
  FFD.originalControlPoints (FFD.deform st) = FFD.originalControlPoints st /\
  FFD.initialControlPoints (FFD.deform st) = FFD.initialControlPoints st /\
  FFD.bbox (FFD.deform st) = FFD.bbox st /\
  FFD.originalPositions (FFD.deform st) = FFD.originalPositions st /\
  FFD.l (FFD.deform st) = FFD.l st /\
  FFD.m (FFD.deform st) = FFD.m st /\
  FFD.n (FFD.deform st) = FFD.n st /\
  FFD.size (FFD.deform st) = FFD.size st /\
  FFD.currentTransform (FFD.deform st) = FFD.currentTransform st.
Proof.
  unfold FFD.deform. destruct (FFD.controlPoints st) eqn:E; cbn; rewrite ?E;
    repeat split; reflexivity.
Qed.

(** The operations a caller applies to a constructed lattice. *)
Inductive operation : Type :=
| UpdateTransform (matrix : Matrix4)
| MoveControlPoint (i j k : nat) (newPosition : Vector3)
| Reset.

Definition perform (op : operation) (st : FFD.state) : FFD.state :=
  match op with
  | UpdateTransform matrix => FFD.updateTransform matrix st
  | MoveControlPoint i j k p => FFD.moveControlPoint i j k p st
  | Reset => FFD.reset st
  end.

Definition performAll (ops : list operation) (st : FFD.state) : FFD.state :=
  fold_left (fun st op => perform op st) ops st.

(** The fields no operation writes. *)
Definition sameLattice (st0 st : FFD.state) : Prop :=
  FFD.initialControlPoints st = FFD.initialControlPoints st0 /\
  FFD.bbox st = FFD.bbox st0 /\
  FFD.originalPositions st = FFD.originalPositions st0 /\
  FFD.l st = FFD.l st0 /\ FFD.m st = FFD.m st0 /\ FFD.n st = FFD.n st0 /\
  FFD.size st = FFD.size st0.

Lemma sameLattice_refl (st : FFD.state) : sameLattice st st.
Proof. unfold sameLattice. repeat split; reflexivity. Qed.

Lemma sameLattice_deform (st0 st : FFD.state) :
  sameLattice st0 st -> sameLattice st0 (FFD.deform st).
Proof.
  unfold sameLattice.
  destruct (deform_fields st) as (_ & _ & -> & -> & -> & -> & -> & -> & -> & _).
  exact (fun H => H).
Qed.

Lemma sameLattice_perform (st0 st : FFD.state) (op : operation) :
  sameLattice st0 st -> sameLattice st0 (perform op st).
Proof.
  intros H. destruct op as [matrix | i j k p |]; cbn [perform].
  - unfold FFD.updateTransform. apply sameLattice_deform. exact H.
  - unfold FFD.moveControlPoint.
    destruct (getCP (FFD.controlPoints st) i j k); [|exact H].
    destruct (getCP (FFD.originalControlPoints st) i j k);
      [apply sameLattice_deform|]; exact H.
  - unfold FFD.reset. apply sameLattice_deform.
    unfold sameLattice in *. cbn. tauto.
Qed.

Lemma sameLattice_performAll (ops : list operation) (st0 st : FFD.state) :
  sameLattice st0 st -> sameLattice st0 (performAll ops st).
Proof.
  revert st. induction ops as [|op ops IH]; intros st H; cbn; [exact H|].
  apply IH. apply sameLattice_perform. exact H.
Qed.

(** What the constructor establishes. *)
Lemma new_Built (g : BufferGeometry) (s : option FFDSettings) (st : FFD.state) :
  FFD.new g s = FFD.Built st ->
  exists array b,
    position g = Some array /\ setFromBufferAttribute array = Some b /\
    let l := FFD.subdivisions s lengthSubdivisions in
    let m := FFD.subdivisions s heightSubdivisions in
    let n := FFD.subdivisions s widthSubdivisions in
    let cps := FFD.initializeControlPoints b (getSize b) l m n in
    st = FFD.mk cps cps cps b (map Some array) array l m n (getSize b)
               identity None.
Proof.
  unfold FFD.new. intros H.
  destruct (position g) as [array|]; [|discriminate].
  destruct (setFromBufferAttribute array) as [b|] eqn:E; [|discriminate].
  injection H as <-. exists array, b. repeat split; assumption.
Qed.

Lemma subdivisions_ge_2 (s : option FFDSettings) (field : FFDSettings -> nat) :
  (2 <= FFD.subdivisions s field)%nat.
Proof. unfold FFD.subdivisions. lia. Qed.

Lemma subdivisions_Some (s : FFDSettings) (field : FFDSettings -> nat) :
  (2 <= field s)%nat -> FFD.subdivisions (Some s) field = field s.
Proof.
  unfold FFD.subdivisions. intros H.
  destruct (Nat.eqb_spec (field s) 0); lia.
Qed.

Lemma ofNat_pos (k : nat) : (0 < k)%nat -> 0 < ofNat k.
Proof.
  intros H. unfold ofNat. change 0 with (inject_Z 0). rewrite <- Zlt_Qlt. lia.
Qed.

Lemma ofNat_nonzero (k : nat) : (0 < k)%nat -> ~ ofNat k == 0.
Proof. intros H E. pose proof (ofNat_pos k H). lra. Qed.

Lemma ofNat_S (k : nat) : ofNat (S k) == ofNat k + 1.
Proof.
  unfold ofNat. rewrite Nat2Z.inj_succ. unfold Z.succ.
  rewrite inject_Z_plus. reflexivity.
Qed.

(* ================================================================= *)
(** ** Construction *)

(** C10, as the code has it.  A geometry without a position attribute makes
    the constructor throw, and that is the only way it throws; what is thrown
    is the [TypeError] of reading [.array] of [undefined], never a dedicated
    [InvalidGeometry].  A geometry with at least one vertex always gives a
    lattice. *)
Theorem construction_failure (g : BufferGeometry) (s : option FFDSettings) :
  (position g = None -> FFD.new g s = FFD.Throws TypeError) /\
  (forall e, FFD.new g s = FFD.Throws e -> position g = None /\ e = TypeError) /\
  (forall array, position g = Some array -> (0 < count array)%nat ->
                 exists st, FFD.new g s = FFD.Built st).
Proof.
  unfold FFD.new. split; [|split].
  - intros ->. reflexivity.
  - intros e. destruct (position g) as [array|].
    + destruct (setFromBufferAttribute array); discriminate.
    + intros H. injection H as <-. split; reflexivity.
  - intros array -> Hc.
    destruct (setFromBufferAttribute_Some array Hc) as (b & ->).
    eexists. reflexivity.
Qed.

(** A geometry with no position attribute. *)
Definition noPositionGeometry : BufferGeometry := bufferGeometry None None None.

Lemma construction_failure_witness :
  FFD.new noPositionGeometry None = FFD.Throws TypeError /\
  exists st, FFD.new cube None = FFD.Built st.
Proof.
  split.
  - apply (construction_failure noPositionGeometry None). reflexivity.
  - apply (construction_failure cube None) with (array := cubePositions).
    + reflexivity.
    + vm_compute. lia.
Defined.

(** C10 as stated fails: the failure signalled for a mesh without position
    data is not [InvalidGeometry]. *)
Lemma construction_failure_not_InvalidGeometry :
  FFD.new noPositionGeometry None <> FFD.Throws InvalidGeometry.
Proof. vm_compute. discriminate. Qed.

(** Construction is not the only call of the core that can throw: the seam
    repair of a mesh with sharp vertices reads the tool's position attribute,
    and throws the same [TypeError] when the tool geometry has none. *)
Lemma seam_repair_throws (acos : Q -> Q) :
  Seam.repairIndexed Qsqrt acos [0;0;0; 6#10;0;0; 0;6#10;0] [0; 1; 2]%nat
    noPositionGeometry (Seam.smoothingOptions (8 # 10) 1 12) (Some (6 # 10))
  = Thrown TypeError.
Proof. vm_compute. reflexivity. Qed.

(** The count the constructor uses for a requested one. *)
Lemma subdivisions_spec (settings : option FFDSettings)
    (field : FFDSettings -> nat) :
  FFD.subdivisions settings field
  = match settings with
    | Some s => Nat.max 2 (field s)
    | None => 2%nat
    end.
Proof.
  unfold FFD.subdivisions. destruct settings as [s|]; [|reflexivity].
  destruct (Nat.eqb_spec (field s) 0) as [E|E]; [rewrite E|]; lia.
Qed.

(** C7, as the code has it.  Along each axis the constructor uses the
    requested subdivision count when it is at least 2 and raises it to 2 when
    it is smaller (and uses 2 when no settings are passed): with l, m, n the
    counts so obtained, it takes the bounding box of the vertices and builds
    exactly (l+1)(m+1)(n+1) local control points, point (i, j, k) at
    bboxMin + (i size.x / l, j size.y / m, k size.z / n); the last point is
    the box's upper corner.  The same grid is the working set and the
    snapshot.  No upper bound on l, m, n is involved. *)
Theorem lattice_grid_construction
    (g : BufferGeometry) (settings : option FFDSettings) (st : FFD.state) :
  FFD.new g settings = FFD.Built st ->
  let used (field : FFDSettings -> nat) :=
    match settings with
    | Some s => Nat.max 2 (field s)
    | None => 2%nat
    end in
  let l := used lengthSubdivisions in
  let m := used heightSubdivisions in
  let n := used widthSubdivisions in
  let lo := bmin (FFD.bbox st) in
  let hi := bmax (FFD.bbox st) in
  let size := FFD.size st in
  (* the subdivision counts: the requested ones, raised to 2 when smaller *)
  (FFD.l st = l /\ FFD.m st = m /\ FFD.n st = n) /\
  (forall s, settings = Some s ->
     ((2 <= lengthSubdivisions s)%nat -> FFD.l st = lengthSubdivisions s) /\
     ((2 <= heightSubdivisions s)%nat -> FFD.m st = heightSubdivisions s) /\
     ((2 <= widthSubdivisions s)%nat -> FFD.n st = widthSubdivisions s) /\
     ((lengthSubdivisions s < 2)%nat -> FFD.l st = 2%nat) /\
     ((heightSubdivisions s < 2)%nat -> FFD.m st = 2%nat) /\
     ((widthSubdivisions s < 2)%nat -> FFD.n st = 2%nat)) /\
  (* the box is the bounding box of the vertices *)
  (exists array,
      position g = Some array /\
      (forall v, (v < count array)%nat ->
                 inside (FFD.bbox st) (fromBufferAttribute array v)) /\
      (forall f, In f [vx; vy; vz] ->
                 (exists v, (v < count array)%nat /\
                            f (fromBufferAttribute array v) == f lo) /\
                 (exists v, (v < count array)%nat /\
                            f (fromBufferAttribute array v) == f hi))) /\
  size = sub hi lo /\
  (* the grid *)
  pointCount (FFD.originalControlPoints st) = ((l + 1) * ((m + 1) * (n + 1)))%nat /\
  (forall i j k, (i <= l)%nat -> (j <= m)%nat -> (k <= n)%nat ->
     exists p, getCP (FFD.originalControlPoints st) i j k = Some p /\
               veq p (vec3 (vx lo + ofNat i * vx size / ofNat l)
                           (vy lo + ofNat j * vy size / ofNat m)
                           (vz lo + ofNat k * vz size / ofNat n))) /\
  (forall i j k, ~ ((i <= l)%nat /\ (j <= m)%nat /\ (k <= n)%nat) ->
     getCP (FFD.originalControlPoints st) i j k = None) /\
  (exists p, getCP (FFD.originalControlPoints st) l m n = Some p /\ veq p hi) /\
  FFD.controlPoints st = FFD.originalControlPoints st /\
  FFD.initialControlPoints st = FFD.originalControlPoints st.
Proof.
  intros Hnew used l m n lo hi size.
  destruct (new_Built _ _ _ Hnew) as (array & b & Hpos & Hbox & Hst).
  cbv zeta in Hst.
  rewrite !subdivisions_spec in Hst.
  change (match settings with
          | Some s => Nat.max 2 (lengthSubdivisions s)
          | None => 2%nat
          end) with l in Hst.
  change (match settings with
          | Some s => Nat.max 2 (heightSubdivisions s)
          | None => 2%nat
          end) with m in Hst.
  change (match settings with
          | Some s => Nat.max 2 (widthSubdivisions s)
          | None => 2%nat
          end) with n in Hst.
  assert (Hl : (2 <= l)%nat) by (unfold l, used; destruct settings; lia).
  assert (Hm : (2 <= m)%nat) by (unfold m, used; destruct settings; lia).
  assert (Hn : (2 <= n)%nat) by (unfold n, used; destruct settings; lia).
  assert (Hused : forall s, settings = Some s ->
            l = Nat.max 2 (lengthSubdivisions s) /\
            m = Nat.max 2 (heightSubdivisions s) /\
            n = Nat.max 2 (widthSubdivisions s)).
  { intros s ->. repeat split. }
  clearbody l m n. clear used.
  assert (Hord := setFromBufferAttribute_ordered _ _ Hbox).
  rewrite (getSize_ordered b Hord) in Hst.
  subst st lo hi size. cbn [FFD.l FFD.m FFD.n FFD.bbox FFD.size
    FFD.originalControlPoints FFD.controlPoints FFD.initialControlPoints].
  pose proof (ofNat_nonzero l ltac:(lia)) as Hl0.
  pose proof (ofNat_nonzero m ltac:(lia)) as Hm0.
  pose proof (ofNat_nonzero n ltac:(lia)) as Hn0.
  split; [repeat split|].
  split.
  { intros s Hs. destruct (Hused s Hs) as (El & Em & En).
    repeat split; intros; lia. }
  split.
  { exists array. split; [exact Hpos|]. split.
    - apply setFromBufferAttribute_inside. exact Hbox.
    - intros f Hf. split.
      + apply (setFromBufferAttribute_attained array b Hbox f true Hf).
      + apply (setFromBufferAttribute_attained array b Hbox f false Hf). }
  split; [reflexivity|].
  split.
  { rewrite pointCount_initializeControlPoints. lia. }
  split.
  { intros i j k Hi Hj Hk. rewrite getCP_initializeControlPoints.
    destruct (Nat.leb_spec i l); [|lia].
    destruct (Nat.leb_spec j m); [|lia].
    destruct (Nat.leb_spec k n); [|lia].
    cbn [andb]. eexists. split; [reflexivity|].
    unfold veq; cbn [vx vy vz sub]. repeat split; field; assumption. }
  split.
  { intros i j k Hout. rewrite getCP_initializeControlPoints.
    destruct (Nat.leb_spec i l); cbn [andb]; [|reflexivity].
    destruct (Nat.leb_spec j m); cbn [andb]; [|reflexivity].
    destruct (Nat.leb_spec k n); cbn [andb]; [|reflexivity].
    exfalso. apply Hout. repeat split; assumption. }
  split.
  { rewrite getCP_initializeControlPoints. rewrite !Nat.leb_refl. cbn [andb].
    eexists. split; [reflexivity|].
    unfold veq; cbn [vx vy vz sub]. repeat split; field; assumption. }
  split; reflexivity.
Qed.

Lemma lattice_grid_construction_witness :
  exists st, FFD.new cube (Some (ffdSettings 1 3 4)) = FFD.Built st /\
             FFD.l st = 2%nat /\ FFD.m st = 3%nat /\ FFD.n st = 4%nat /\
             pointCount (FFD.originalControlPoints st) = 60%nat.
Proof.
  eexists. split; [reflexivity|].
  pose proof (lattice_grid_construction cube (Some (ffdSettings 1 3 4)) _ eq_refl)
    as H.
  cbv zeta in H. destruct H as ((El & Em & En) & _ & _ & _ & Hcount & _).
  repeat split; assumption.
Defined.

(** C7 as stated fails for a subdivision count of 1: the constructor raises
    it to 2, so asking for l = m = n = 1 gives 27 control points, not 8. *)
Lemma lattice_grid_subdivision_one :
  match FFD.new cube (Some (ffdSettings 1 1 1)) with
  | FFD.Built st =>
      pointCount (FFD.originalControlPoints st) = 27%nat /\
      pointCount (FFD.originalControlPoints st) <> ((1 + 1) * ((1 + 1) * (1 + 1)))%nat /\
      FFD.l st = 2%nat
  | _ => False
  end.
Proof. vm_compute. split; [reflexivity | split; [discriminate | reflexivity]]. Qed.

(* ================================================================= *)
(** ** Local and working control points *)

Lemma equals_entries (a b : Matrix4) :
  equals a b = true ->
  (e0 a == e0 b /\ e1 a == e1 b /\ e2 a == e2 b /\ e3 a == e3 b) /\
  (e4 a == e4 b /\ e5 a == e5 b /\ e6 a == e6 b /\ e7 a == e7 b) /\
  (e8 a == e8 b /\ e9 a == e9 b /\ e10 a == e10 b /\ e11 a == e11 b) /\
  (e12 a == e12 b /\ e13 a == e13 b /\ e14 a == e14 b /\ e15 a == e15 b).
Proof.
  unfold equals. rewrite !andb_true_iff, !Qeqb_true. tauto.
Qed.

(** A matrix that [equals] the identity moves no point. *)
Lemma applyMatrix4_equals_identity (t : Matrix4) (q : Vector3) :
  equals t identity = true -> veq (applyMatrix4 t q) q.
Proof.
  intros H. apply equals_entries in H.
  destruct t as [a0 a1 a2 a3 a4 a5 a6 a7 a8 a9 a10 a11 a12 a13 a14 a15].
  destruct q as [x y z]. cbn in H.
  destruct H as ((H0 & H1 & H2 & H3) & (H4 & H5 & H6 & H7)
                 & (H8 & H9 & H10 & H11) & (H12 & H13 & H14 & H15)).
  unfold veq, applyMatrix4, divisor. cbn.
  rewrite H0, H1, H2, H3, H4, H5, H6, H7, H8, H9, H10, H11, H12, H13, H14, H15.
  repeat split; field.
Qed.

Lemma applyMatrix4_identity (q : Vector3) : veq (applyMatrix4 identity q) q.
Proof. apply applyMatrix4_equals_identity. reflexivity. Qed.

(** The inverse of an affine matrix is affine: its homogeneous divisor is 1 at
    every point. *)
Lemma affine_invert_divisor (t : Matrix4) (p : Vector3) :
  affine t -> ~ determinant t == 0 -> divisor (invert t) p == 1.
Proof.
  intros (A3 & A7 & A11 & A15) Hd. unfold invert.
  destruct (Qeqb (determinant t) 0) eqn:E.
  { apply Qeqb_true in E. contradiction. }
  clear E.
  destruct t as [a0 a1 a2 a3 a4 a5 a6 a7 a8 a9 a10 a11 a12 a13 a14 a15].
  destruct p as [x y z].
  unfold determinant, t11, t12, t13, t14, divisor in *. cbn in *.
  revert Hd. rewrite A3, A7, A11, A15. intros Hd.
  field. intros E. apply Hd. etransitivity; [|exact E]. ring.
Qed.

(** The dual-storage relation: the two grids have the same shape, and each
    working point is its local point under the current transform. *)
Definition dualStorage (st : FFD.state) : Prop :=
  forall i j k,
    match getCP (FFD.controlPoints st) i j k,
          getCP (FFD.originalControlPoints st) i j k with
    | Some working, Some local =>
        veq working (applyMatrix4 (FFD.currentTransform st) local)
    | None, None => True
    | _, _ => False
    end.

(** When an operation is within the claim's assumption: a control point is
    sculpted only while the current transform is invertible and sends the
    sculpted position back to a finite point. *)
Definition admissible (st : FFD.state) (op : operation) : Prop :=
  match op with
  | MoveControlPoint _ _ _ newPosition =>
      ~ determinant (FFD.currentTransform st) == 0 /\
      ~ divisor (invert (FFD.currentTransform st)) newPosition == 0
  | _ => True
  end.

Inductive reachable (st0 : FFD.state) : FFD.state -> Prop :=
| reach_new : reachable st0 st0
| reach_step (st : FFD.state) (op : operation) :
    reachable st0 st -> admissible st op -> reachable st0 (perform op st).

Lemma reachable_sameLattice (st0 st : FFD.state) :
  reachable st0 st -> sameLattice st0 st.
Proof.
  induction 1 as [|st op _ IH _].
  - apply sameLattice_refl.
  - apply sameLattice_perform. exact IH.
Qed.

Lemma dualStorage_deform (st : FFD.state) :
  dualStorage st -> dualStorage (FFD.deform st).
Proof.
  unfold dualStorage.
  destruct (deform_fields st) as (-> & -> & _ & _ & _ & _ & _ & _ & _ & ->).
  exact (fun H => H).
Qed.

Lemma dualStorage_new (g : BufferGeometry) (s : option FFDSettings) (st : FFD.state) :
  FFD.new g s = FFD.Built st -> dualStorage st.
Proof.
  intros H. destruct (new_Built _ _ _ H) as (array & b & _ & _ & ->).
  intros i j k. cbn.
  destruct (getCP _ i j k) as [p|]; [|exact I].
  symmetry. apply applyMatrix4_identity.
Qed.

Lemma dualStorage_updateTransform (matrix : Matrix4) (st : FFD.state) :
  dualStorage st -> dualStorage (FFD.updateTransform matrix st).
Proof.
  intros H. unfold FFD.updateTransform. apply dualStorage_deform.
  intros i j k. cbn. rewrite getCP_map.
  destruct (getCP (FFD.originalControlPoints st) i j k) as [q|]; cbn; [reflexivity|exact I].
Qed.

Lemma dualStorage_reset (st : FFD.state) : dualStorage (FFD.reset st).
Proof.
  unfold FFD.reset. apply dualStorage_deform.
  intros i j k. cbn.
  destruct (getCP (FFD.initialControlPoints st) i j k) as [q|]; [|exact I].
  symmetry. apply applyMatrix4_identity.
Qed.

(** The local position written by [moveControlPoint]. *)
Definition localPositionOf (st : FFD.state) (newPosition : Vector3) : Vector3 :=
  if negb (equals (FFD.currentTransform st) identity)
  then applyMatrix4 (invert (FFD.currentTransform st)) newPosition
  else newPosition.

Lemma localPositionOf_forward (st : FFD.state) (p : Vector3) :
  admissible st (MoveControlPoint 0 0 0 p) ->
  veq p (applyMatrix4 (FFD.currentTransform st) (localPositionOf st p)).
Proof.
  intros (Hd & Hw). unfold localPositionOf.
  destruct (equals (FFD.currentTransform st) identity) eqn:E; cbn [negb].
  - symmetry. apply applyMatrix4_equals_identity. exact E.
  - symmetry. apply applyMatrix4_invert; assumption.
Qed.

Lemma localPositionOf_inverse (st : FFD.state) (p : Vector3) :
  admissible st (MoveControlPoint 0 0 0 p) ->
  veq (localPositionOf st p) (applyMatrix4 (invert (FFD.currentTransform st)) p).
Proof.
  intros (Hd & Hw). unfold localPositionOf.
  destruct (equals (FFD.currentTransform st) identity) eqn:E; cbn [negb];
    [|reflexivity].
  transitivity (applyMatrix4 (FFD.currentTransform st)
                  (applyMatrix4 (invert (FFD.currentTransform st)) p)).
  - symmetry. apply applyMatrix4_invert; assumption.
  - apply applyMatrix4_equals_identity. exact E.
Qed.

Lemma dualStorage_moveControlPoint (i j k : nat) (p : Vector3) (st : FFD.state) :
  admissible st (MoveControlPoint i j k p) ->
  dualStorage st -> dualStorage (FFD.moveControlPoint i j k p st).
Proof.
  intros Hadm H. unfold FFD.moveControlPoint.
  pose proof (H i j k) as Hijk.
  destruct (getCP (FFD.controlPoints st) i j k) as [w|] eqn:Ew; [|exact H].
  destruct (getCP (FFD.originalControlPoints st) i j k) as [q|] eqn:Eq;
    [|destruct Hijk].
  apply dualStorage_deform. intros i' j' k'. cbn. rewrite !getCP_setCP.
  destruct ((i =? i') && (j =? j') && (k =? k'))%nat eqn:E.
  - apply andb_true_iff in E as (E & E3). apply andb_true_iff in E as (E1 & E2).
    apply Nat.eqb_eq in E1, E2, E3. subst i' j' k'.
    rewrite Ew, Eq. cbn. apply (localPositionOf_forward st p Hadm).
  - apply H.
Qed.

(** The two storages after one sculpting step. *)
Lemma moveControlPoint_points (i j k : nat) (p : Vector3) (st : FFD.state) :
  dualStorage st ->
  getCP (FFD.controlPoints st) i j k <> None ->
  getCP (FFD.controlPoints (FFD.moveControlPoint i j k p st)) i j k = Some p /\
  getCP (FFD.originalControlPoints (FFD.moveControlPoint i j k p st)) i j k
  = Some (localPositionOf st p).
Proof.
  intros H Hin. unfold FFD.moveControlPoint.
  pose proof (H i j k) as Hijk.
  destruct (getCP (FFD.controlPoints st) i j k) as [w|] eqn:Ew; [|congruence].
  destruct (getCP (FFD.originalControlPoints st) i j k) as [q|] eqn:Eq;
    [|destruct Hijk].
  destruct (deform_fields
              (FFD.withPoints st (setCP (FFD.controlPoints st) i j k p)
                 (setCP (FFD.originalControlPoints st) i j k
                    (if negb (equals (FFD.currentTransform st) identity)
                     then applyMatrix4 (invert (FFD.currentTransform st)) p
                     else p))
                 (FFD.currentTransform st))) as (-> & -> & _).
  cbn. rewrite !getCP_setCP, !Nat.eqb_refl, Ew, Eq. cbn. split; reflexivity.
Qed.

(** C1.  After construction and after every completed [updateTransform],
    [moveControlPoint] or [reset], every working control point (i, j, k) is
    the local control point (i, j, k) transformed by the current transform,
    the two grids having the same shape; and sculpting an existing point
    stores the sculpted world position as the working point and its inverse
    transform as the local point.  Sculpting is assumed to happen while the
    current transform is invertible (with a finite inverse image of the
    sculpted position, which every affine transform gives). *)
Theorem dual_storage_invariant
    (g : BufferGeometry) (s : option FFDSettings) (st0 st : FFD.state) :
  FFD.new g s = FFD.Built st0 ->
  reachable st0 st ->
  dualStorage st /\
  (forall i j k newPosition,
      admissible st (MoveControlPoint i j k newPosition) ->
      getCP (FFD.controlPoints st) i j k <> None ->
      let st' := FFD.moveControlPoint i j k newPosition st in
      getCP (FFD.controlPoints st') i j k = Some newPosition /\
      exists local,
        getCP (FFD.originalControlPoints st') i j k = Some local /\
        veq local (applyMatrix4 (invert (FFD.currentTransform st)) newPosition) /\
        veq newPosition (applyMatrix4 (FFD.currentTransform st') local)).
Proof.
  intros Hnew Hreach.
  assert (Hdual : dualStorage st).
  { induction Hreach as [|st op _ IH Hadm].
    - eapply dualStorage_new. exact Hnew.
    - destruct op as [matrix | i j k p |]; cbn [perform].
      + apply dualStorage_updateTransform. exact IH.
      + apply dualStorage_moveControlPoint; assumption.
      + apply dualStorage_reset. }
  split; [exact Hdual|].
  intros i j k p Hadm Hin st'. subst st'.
  destruct (moveControlPoint_points i j k p st Hdual Hin) as (Hw & Hl).
  split; [exact Hw|].
  exists (localPositionOf st p). split; [exact Hl|]. split.
  - apply localPositionOf_inverse. exact Hadm.
  - pose proof (dualStorage_moveControlPoint i j k p st Hadm Hdual i j k) as D.
    rewrite Hw, Hl in D. exact D.
Qed.

(** Every affine transform with a non-zero determinant admits sculpting at
    every position. *)
Lemma affine_admissible (st : FFD.state) (i j k : nat) (p : Vector3) :
  affine (FFD.currentTransform st) ->
  ~ determinant (FFD.currentTransform st) == 0 ->
  admissible st (MoveControlPoint i j k p).
Proof.
  intros Ha Hd. split; [exact Hd|].
  rewrite (affine_invert_divisor _ p Ha Hd). discriminate.
Qed.

Lemma dual_storage_invariant_witness :
  exists st0,
    FFD.new cube None = FFD.Built st0 /\
    dualStorage
      (perform (MoveControlPoint 1 2 1 (vec3 0 3 0))
         (perform (UpdateTransform (mat4 2 0 0 0  0 2 0 0  0 0 2 0  1 0 0 1)) st0)).
Proof.
  eexists. split; [reflexivity|].
  apply (dual_storage_invariant cube None _ _ eq_refl).
  apply reach_step; [apply reach_step; [apply reach_new | exact I] |].
  split; vm_compute; discriminate.
Defined.

(* ================================================================= *)
(** ** The blend in exact arithmetic *)

(** The computations of [FFD.binomial], [FFD.bernstein],
    [FFD.calculateDeformedPosition] and of the loop body of [FFD.deform]
    without the overflow.  They are the values of the model while every
    product of [FFD.binomial] stays below [FFD.MAX_VALUE], which is the case
    up to 170 subdivisions along each axis (see [binomial_finite] and
    [deformVertex_finite]); the algebra of the blend is carried out on
    them. *)
Module Exact.

Definition binomial (n k : nat) : Q :=
  let start := (n + 1 - k)%nat in
  let coeff :=
    fold_left (fun c i => c * ofNat i) (seq start (n + 1 - start)) 1 in
  fold_left (fun c i => c / ofNat i) (seq 1 k) coeff.

Definition bernstein (n i : nat) (t : Q) : Q :=
  binomial n i * Qpow t i * Qpow (1 - t) (n - i).

Definition calculateDeformedPosition (st : FFD.state) (s t u : Q) : Vector3 :=
  let '(result, totalWeight) :=
    fold_left (fun acc i =>
      let bx := bernstein (FFD.l st) i s in
      fold_left (fun acc j =>
        let by_ := bernstein (FFD.m st) j t in
        fold_left (fun (acc : Vector3 * Q) k =>
          let bz := bernstein (FFD.n st) k u in
          let weight := bx * by_ * bz in
          let controlPoint := cpAt (FFD.controlPoints st) i j k in
          (add (fst acc) (multiplyScalar controlPoint weight),
           snd acc + weight))
          (seq 0 (S (FFD.n st))) acc)
        (seq 0 (S (FFD.m st))) acc)
      (seq 0 (S (FFD.l st))) (vzero, 0) in
  if Qltb 0 totalWeight then divideScalar result totalWeight else result.

Definition deformVertex (st : FFD.state) (invTransform : Matrix4) (i : nat)
    : Vector3 :=
  let vertex := fromBufferAttribute (FFD.originalPositions st) i in
  let '(s, t, u) := FFD.calculateLocalCoordinates st vertex in
  applyMatrix4 invTransform (calculateDeformedPosition st s t u).

End Exact.

(* ================================================================= *)
(** ** Bernstein polynomials *)

Fixpoint Qsum (f : nat -> Q) (xs : list nat) : Q :=
  match xs with
  | [] => 0
  | i :: xs' => f i + Qsum f xs'
  end.

Lemma Qsum_ext (f g : nat -> Q) (xs : list nat) :
  (forall i, In i xs -> f i == g i) -> Qsum f xs == Qsum g xs.
Proof.
  induction xs as [|x xs IH]; intros H; cbn [Qsum]; [reflexivity|].
  rewrite (H x) by (left; reflexivity).
  rewrite IH by (intros; apply H; right; assumption). reflexivity.
Qed.

Lemma Qsum_scale (c : Q) (f : nat -> Q) (xs : list nat) :
  Qsum (fun i => c * f i) xs == c * Qsum f xs.
Proof.
  induction xs as [|x xs IH]; cbn [Qsum]; [ring|]. rewrite IH. ring.
Qed.

Lemma Qsum_scale_r (c : Q) (f : nat -> Q) (xs : list nat) :
  Qsum (fun i => f i * c) xs == Qsum f xs * c.
Proof.
  induction xs as [|x xs IH]; cbn [Qsum]; [ring|]. rewrite IH. ring.
Qed.

Lemma Qsum_plus (f g : nat -> Q) (xs : list nat) :
  Qsum (fun i => f i + g i) xs == Qsum f xs + Qsum g xs.
Proof.
  induction xs as [|x xs IH]; cbn [Qsum]; [ring|]. rewrite IH. ring.
Qed.

Lemma Qsum_app (f : nat -> Q) (xs ys : list nat) :
  Qsum f (xs ++ ys) == Qsum f xs + Qsum f ys.
Proof.
  induction xs as [|x xs IH]; cbn [Qsum app]; [ring|]. rewrite IH. ring.
Qed.

Lemma Qsum_shift (f : nat -> Q) (a len : nat) :
  Qsum f (seq (S a) len) = Qsum (fun i => f (S i)) (seq a len).
Proof.
  revert a. induction len as [|len IH]; intros a; cbn [seq Qsum]; [reflexivity|].
  rewrite IH. reflexivity.
Qed.

Lemma Qsum_last (f : nat -> Q) (a len : nat) :
  Qsum f (seq a (S len)) == Qsum f (seq a len) + f (a + len)%nat.
Proof.
  rewrite seq_S, Qsum_app. cbn [Qsum]. ring.
Qed.

Lemma ofNat_mul (a b : nat) : ofNat (a * b) == ofNat a * ofNat b.
Proof. unfold ofNat. rewrite Nat2Z.inj_mul, inject_Z_mult. reflexivity. Qed.

Lemma ofNat_add (a b : nat) : ofNat (a + b) == ofNat a + ofNat b.
Proof. unfold ofNat. rewrite Nat2Z.inj_add, inject_Z_plus. reflexivity. Qed.

Lemma ofNat_sub (a b : nat) : (b <= a)%nat -> ofNat (a - b) == ofNat a - ofNat b.
Proof.
  intros H. unfold ofNat. rewrite Nat2Z.inj_sub by exact H.
  unfold Z.sub. rewrite inject_Z_plus, inject_Z_opp. reflexivity.
Qed.

Definition prodNat (xs : list nat) : nat := fold_right Nat.mul 1%nat xs.

Lemma prodNat_app (xs ys : list nat) :
  prodNat (xs ++ ys) = (prodNat xs * prodNat ys)%nat.
Proof.
  unfold prodNat.
  induction xs as [|x xs IH]; cbn [fold_right app]; [lia|].
  rewrite IH. lia.
Qed.

Lemma prodNat_seq_last (a len : nat) :
  prodNat (seq a (S len)) = (prodNat (seq a len) * (a + len))%nat.
Proof. rewrite seq_S, prodNat_app. cbn. lia. Qed.

Lemma prodNat_seq_first (a len : nat) :
  prodNat (seq a (S len)) = (a * prodNat (seq (S a) len))%nat.
Proof. reflexivity. Qed.

Lemma prodNat_pos (xs : list nat) :
  (forall i, In i xs -> (0 < i)%nat) -> (0 < prodNat xs)%nat.
Proof.
  induction xs as [|x xs IH]; intros H; cbn [prodNat fold_right]; [lia|].
  fold (prodNat xs).
  apply Nat.mul_pos_pos.
  - apply H. left. reflexivity.
  - apply IH. intros i Hi. apply H. right. exact Hi.
Qed.

Lemma prodNat_seq_1_pos (k : nat) : (0 < prodNat (seq 1 k))%nat.
Proof. apply prodNat_pos. intros i Hi. apply in_seq in Hi. lia. Qed.

Lemma fold_left_mul (xs : list nat) (c : Q) :
  fold_left (fun c i => c * ofNat i) xs c == c * ofNat (prodNat xs).
Proof.
  revert c. induction xs as [|x xs IH]; intros c; cbn [fold_left prodNat fold_right].
  - unfold ofNat. cbn. ring.
  - fold (prodNat xs). rewrite IH, ofNat_mul. ring.
Qed.

Lemma fold_left_div (xs : list nat) (c : Q) :
  (forall i, In i xs -> (0 < i)%nat) ->
  fold_left (fun c i => c / ofNat i) xs c == c / ofNat (prodNat xs).
Proof.
  revert c. induction xs as [|x xs IH]; intros c H; cbn [fold_left prodNat fold_right].
  - unfold ofNat. cbn. field.
  - fold (prodNat xs).
    rewrite IH by (intros; apply H; right; assumption). rewrite ofNat_mul.
    pose proof (ofNat_nonzero x (H x (or_introl eq_refl))).
    pose proof (ofNat_nonzero (prodNat xs)
                  (prodNat_pos xs (fun i Hi => H i (or_intror Hi)))).
    field. split; assumption.
Qed.

(** The closed form of [binomial]. *)
Lemma binomial_closed (n k : nat) :
  (k <= n + 1)%nat ->
  Exact.binomial n k ==
  ofNat (prodNat (seq (n + 1 - k) k)) / ofNat (prodNat (seq 1 k)).
Proof.
  intros H. unfold Exact.binomial.
  replace (n + 1 - (n + 1 - k))%nat with k by lia.
  rewrite fold_left_div by (intros i Hi; apply in_seq in Hi; lia).
  rewrite fold_left_mul.
  pose proof (ofNat_nonzero _ (prodNat_seq_1_pos k)).
  field. assumption.
Qed.

Lemma binomial_0 (n : nat) : Exact.binomial n 0 == 1.
Proof.
  rewrite binomial_closed by lia. cbn. reflexivity.
Qed.

Lemma binomial_above (n : nat) : Exact.binomial n (S n) == 0.
Proof.
  rewrite binomial_closed by lia.
  replace (n + 1 - S n)%nat with 0%nat by lia.
  cbn [seq prodNat fold_right]. unfold ofNat at 1. cbn.
  unfold Qdiv. ring.
Qed.

(** Pascal's rule, on the product form the source computes. *)
Lemma binomial_pascal (n k : nat) :
  (k <= n)%nat ->
  Exact.binomial (S n) (S k) == Exact.binomial n k + Exact.binomial n (S k).
Proof.
  intros H. rewrite !binomial_closed by lia.
  replace (S n + 1 - S k)%nat with (n + 1 - k)%nat by lia.
  replace (n + 1 - S k)%nat with (n - k)%nat by lia.
  rewrite (prodNat_seq_last (n + 1 - k) k).
  rewrite (prodNat_seq_first (n - k) k).
  replace (S (n - k)) with (n + 1 - k)%nat by lia.
  rewrite (prodNat_seq_last 1 k).
  replace (n + 1 - k + k)%nat with (S n) by lia.
  rewrite !ofNat_mul, (ofNat_sub n k H), !ofNat_S.
  pose proof (ofNat_nonzero _ (prodNat_seq_1_pos k)).
  assert (~ ofNat (1 + k) == 0) by (apply ofNat_nonzero; lia).
  change (1 + k)%nat with (S k) in *. rewrite ofNat_S in *.
  field. split; assumption.
Qed.

Lemma Qpow_S (t : Q) (i : nat) : Qpow t (S i) = t * Qpow t i.
Proof. reflexivity. Qed.

Lemma bernstein_first (n : nat) (t : Q) :
  Exact.bernstein (S n) 0 t == (1 - t) * Exact.bernstein n 0 t.
Proof.
  unfold Exact.bernstein. rewrite !binomial_0, !Nat.sub_0_r, Qpow_S. cbn [Qpow]. ring.
Qed.

Lemma bernstein_above (n : nat) (t : Q) : Exact.bernstein n (S n) t == 0.
Proof. unfold Exact.bernstein. rewrite binomial_above. ring. Qed.

(** The recurrence of the Bernstein basis. *)
Lemma bernstein_step (n i : nat) (t : Q) :
  (i <= n)%nat ->
  Exact.bernstein (S n) (S i) t ==
  t * Exact.bernstein n i t + (1 - t) * Exact.bernstein n (S i) t.
Proof.
  intros H. unfold Exact.bernstein. rewrite binomial_pascal by exact H.
  replace (S n - S i)%nat with (n - i)%nat by lia. rewrite Qpow_S.
  destruct (Nat.eq_dec i n) as [->|Hne].
  - rewrite binomial_above. ring.
  - replace (n - i)%nat with (S (n - S i)) by lia. rewrite Qpow_S. ring.
Qed.

(** Linear precision: the Bernstein basis of degree [n] reproduces every
    affine function of the index; with [beta = 0] this is the partition of
    unity. *)
Lemma bernstein_affine (n : nat) (t alpha beta : Q) :
  Qsum (fun i => Exact.bernstein n i t * (alpha + beta * ofNat i)) (seq 0 (S n))
  == alpha + beta * ofNat n * t.
Proof.
  revert alpha. induction n as [|n IH]; intros alpha.
  - cbn [seq Qsum]. unfold Exact.bernstein. rewrite binomial_0. cbn [Qpow Nat.sub].
    unfold ofNat. cbn. ring.
  - set (g := fun i => Exact.bernstein n i t * (alpha + beta * ofNat i)).
    change (seq 0 (S (S n))) with (0%nat :: seq 1 (S n)). cbn [Qsum].
    rewrite Qsum_shift.
    rewrite (Qsum_ext _ (fun i => t * (Exact.bernstein n i t * ((alpha + beta) + beta * ofNat i))
                                  + (1 - t) * g (S i))).
    2:{ intros i Hi. apply in_seq in Hi. unfold g.
        rewrite bernstein_step by lia. rewrite !ofNat_S. ring. }
    rewrite Qsum_plus, !Qsum_scale, IH.
    assert (Hg : Qsum (fun i => g (S i)) (seq 0 (S n))
                 == alpha + beta * ofNat n * t - g 0%nat).
    { rewrite <- Qsum_shift.
      assert (Hlast : g (S n) == 0).
      { unfold g. rewrite bernstein_above. ring. }
      assert (Hsum : Qsum g (seq 0 (S n)) == alpha + beta * ofNat n * t).
      { unfold g. apply IH. }
      pose proof (Qsum_last g 0 (S n)) as E.
      change (seq 0 (S (S n))) with (0%nat :: seq 1 (S n)) in E. cbn [Qsum] in E.
      change (0 + S n)%nat with (S n) in E.
      rewrite Hlast, Hsum in E. lra. }
    rewrite Hg. unfold g. rewrite bernstein_first, ofNat_S.
    ring.
Qed.

Lemma bernstein_partition (n : nat) (t : Q) :
  Qsum (fun i => Exact.bernstein n i t) (seq 0 (S n)) == 1.
Proof.
  rewrite (Qsum_ext _ (fun i => Exact.bernstein n i t * (1 + 0 * ofNat i)))
    by (intros; ring).
  rewrite bernstein_affine. ring.
Qed.

(* ================================================================= *)
(** ** The blend of [calculateDeformedPosition] *)

(** The accumulator of the triple loop: the running position and the running
    total weight. *)
Definition Acc : Type := (Vector3 * Q)%type.

Definition aeq (a b : Acc) : Prop := veq (fst a) (fst b) /\ snd a == snd b.
Definition aadd (a b : Acc) : Acc := (add (fst a) (fst b), snd a + snd b).
Definition asum (g : nat -> Acc) (xs : list nat) : Acc :=
  fold_right (fun i r => aadd (g i) r) (vzero, 0) xs.

Lemma aeq_refl (a : Acc) : aeq a a.
Proof. split; reflexivity. Qed.

Lemma aeq_trans (a b c : Acc) : aeq a b -> aeq b c -> aeq a c.
Proof. intros (H1 & H2) (G1 & G2). split; etransitivity; eassumption. Qed.

Lemma aadd_assoc (a b c : Acc) : aeq (aadd (aadd a b) c) (aadd a (aadd b c)).
Proof.
  unfold aeq, aadd, veq, add; cbn. repeat split; ring.
Qed.

Lemma aadd_aeq (a a' b b' : Acc) : aeq a a' -> aeq b b' -> aeq (aadd a b) (aadd a' b').
Proof.
  intros ((H1 & H2 & H3) & H4) ((G1 & G2 & G3) & G4).
  unfold aeq, aadd, veq, add; cbn.
  rewrite H1, H2, H3, H4, G1, G2, G3, G4. repeat split; reflexivity.
Qed.

Lemma aadd_zero_r (a : Acc) : aeq (aadd a (vzero, 0)) a.
Proof. unfold aeq, aadd, veq, add; cbn. repeat split; ring. Qed.

(** A loop whose body adds a term to the accumulator computes a sum. *)
Lemma fold_left_additive (step : Acc -> nat -> Acc) (g : nat -> Acc)
    (xs : list nat) (a : Acc) :
  (forall a x, In x xs -> aeq (step a x) (aadd a (g x))) ->
  aeq (fold_left step xs a) (aadd a (asum g xs)).
Proof.
  revert a. induction xs as [|x xs IH]; intros a H; cbn [fold_left asum fold_right].
  - split; [|cbn; ring]. unfold veq, aadd, add; cbn. repeat split; ring.
  - fold (asum g xs).
    eapply aeq_trans; [apply IH; intros; apply H; right; assumption|].
    eapply aeq_trans; [|apply aadd_assoc].
    apply aadd_aeq; [|apply aeq_refl]. apply H. left. reflexivity.
Qed.

Lemma asum_components (g : nat -> Acc) (xs : list nat) :
  vx (fst (asum g xs)) = Qsum (fun i => vx (fst (g i))) xs /\
  vy (fst (asum g xs)) = Qsum (fun i => vy (fst (g i))) xs /\
  vz (fst (asum g xs)) = Qsum (fun i => vz (fst (g i))) xs /\
  snd (asum g xs) = Qsum (fun i => snd (g i)) xs.
Proof.
  induction xs as [|x xs (IH1 & IH2 & IH3 & IH4)]; cbn [asum fold_right Qsum].
  - repeat split; reflexivity.
  - fold (asum g xs). cbn. rewrite IH1, IH2, IH3, IH4. repeat split; reflexivity.
Qed.

(** The term the innermost loop body adds. *)
Definition blendTerm (st : FFD.state) (s t u : Q) (i j k : nat) : Acc :=
  let weight :=
    Exact.bernstein (FFD.l st) i s * Exact.bernstein (FFD.m st) j t
    * Exact.bernstein (FFD.n st) k u in
  (multiplyScalar (cpAt (FFD.controlPoints st) i j k) weight, weight).

Definition blendSum (st : FFD.state) (s t u : Q) : Acc :=
  asum (fun i =>
    asum (fun j =>
      asum (blendTerm st s t u i j) (seq 0 (S (FFD.n st))))
      (seq 0 (S (FFD.m st))))
    (seq 0 (S (FFD.l st))).

(** [calculateDeformedPosition] is the weighted sum divided by the total
    weight when that is positive. *)
Lemma calculateDeformedPosition_sum (st : FFD.state) (s t u : Q) :
  exists acc,
    aeq acc (blendSum st s t u) /\
    Exact.calculateDeformedPosition st s t u =
    if Qltb 0 (snd acc) then divideScalar (fst acc) (snd acc) else fst acc.
Proof.
  unfold Exact.calculateDeformedPosition.
  match goal with
  | |- context [fold_left ?f ?xs ?a] =>
      match xs with
      | seq 0 (S (FFD.l st)) => set (loop := fold_left f xs a)
      end
  end.
  exists loop. split; [|destruct loop; reflexivity].
  unfold loop, blendSum.
  eapply aeq_trans.
  { apply fold_left_additive with
      (g := fun i => asum (fun j => asum (blendTerm st s t u i j)
                                         (seq 0 (S (FFD.n st))))
                          (seq 0 (S (FFD.m st)))).
    intros a i _.
    apply fold_left_additive. intros a' j _.
    apply fold_left_additive. intros a'' k _.
    apply aeq_refl. }
  unfold aeq, aadd, veq, add; cbn. repeat split; ring.
Qed.

Lemma Qsum_triple (a b c : nat -> Q) (f : nat -> nat -> nat -> Q)
    (xs ys zs : list nat) :
  (forall i j k, In i xs -> In j ys -> In k zs -> f i j k == a i * b j * c k) ->
  Qsum (fun i => Qsum (fun j => Qsum (fun k => f i j k) zs) ys) xs
  == Qsum a xs * Qsum b ys * Qsum c zs.
Proof.
  intros H.
  rewrite (Qsum_ext _ (fun i => a i * (Qsum b ys * Qsum c zs))).
  - rewrite Qsum_scale_r. ring.
  - intros i Hi.
    rewrite (Qsum_ext _ (fun j => (a i * b j) * Qsum c zs)).
    + rewrite Qsum_scale_r, Qsum_scale. ring.
    + intros j Hj.
      rewrite (Qsum_ext _ (fun k => (a i * b j) * c k)).
      * apply Qsum_scale.
      * intros k Hk. apply H; assumption.
Qed.

(** The undeformed lattice: working points on the constructor's grid. *)
Definition undeformed (st : FFD.state) : Prop :=
  FFD.controlPoints st =
  FFD.initializeControlPoints (FFD.bbox st) (FFD.size st)
    (FFD.l st) (FFD.m st) (FFD.n st).

(** Linear precision of the blend: over the undeformed lattice the blend at
    parameters (s, t, u) is the point bboxMin + (s size.x, t size.y,
    u size.z), and the total weight is 1. *)
Lemma blendSum_undeformed (st : FFD.state) (s t u : Q) :
  undeformed st ->
  (0 < FFD.l st)%nat -> (0 < FFD.m st)%nat -> (0 < FFD.n st)%nat ->
  aeq (blendSum st s t u)
      (vec3 (vx (bmin (FFD.bbox st)) + s * vx (FFD.size st))
            (vy (bmin (FFD.bbox st)) + t * vy (FFD.size st))
            (vz (bmin (FFD.bbox st)) + u * vz (FFD.size st)), 1).
Proof.
  intros Hund Hl Hm Hn.
  pose proof (ofNat_nonzero _ Hl) as Hl0.
  pose proof (ofNat_nonzero _ Hm) as Hm0.
  pose proof (ofNat_nonzero _ Hn) as Hn0.
  set (lo := bmin (FFD.bbox st)). set (sz := FFD.size st).
  assert (Hcp : forall i j k,
             In i (seq 0 (S (FFD.l st))) -> In j (seq 0 (S (FFD.m st))) ->
             In k (seq 0 (S (FFD.n st))) ->
             cpAt (FFD.controlPoints st) i j k =
             vec3 (vx lo + ofNat i * (vx sz / ofNat (FFD.l st)))
                  (vy lo + ofNat j * (vy sz / ofNat (FFD.m st)))
                  (vz lo + ofNat k * (vz sz / ofNat (FFD.n st)))).
  { intros i j k Hi Hj Hk. apply in_seq in Hi, Hj, Hk.
    apply cpAt_getCP. rewrite Hund, getCP_initializeControlPoints.
    destruct (Nat.leb_spec i (FFD.l st)); [|lia].
    destruct (Nat.leb_spec j (FFD.m st)); [|lia].
    destruct (Nat.leb_spec k (FFD.n st)); [|lia]. reflexivity. }
  unfold blendSum.
  set (Bx := fun i => Exact.bernstein (FFD.l st) i s).
  set (By := fun j => Exact.bernstein (FFD.m st) j t).
  set (Bz := fun k => Exact.bernstein (FFD.n st) k u).
  assert (Px : Qsum Bx (seq 0 (S (FFD.l st))) == 1)
    by exact (bernstein_partition (FFD.l st) s).
  assert (Py : Qsum By (seq 0 (S (FFD.m st))) == 1)
    by exact (bernstein_partition (FFD.m st) t).
  assert (Pz : Qsum Bz (seq 0 (S (FFD.n st))) == 1)
    by exact (bernstein_partition (FFD.n st) u).
  assert (Ax : Qsum (fun i => Bx i * (vx lo + vx sz / ofNat (FFD.l st) * ofNat i))
                    (seq 0 (S (FFD.l st)))
               == vx lo + vx sz / ofNat (FFD.l st) * ofNat (FFD.l st) * s)
    by exact (bernstein_affine (FFD.l st) s (vx lo) (vx sz / ofNat (FFD.l st))).
  assert (Ay : Qsum (fun j => By j * (vy lo + vy sz / ofNat (FFD.m st) * ofNat j))
                    (seq 0 (S (FFD.m st)))
               == vy lo + vy sz / ofNat (FFD.m st) * ofNat (FFD.m st) * t)
    by exact (bernstein_affine (FFD.m st) t (vy lo) (vy sz / ofNat (FFD.m st))).
  assert (Az : Qsum (fun k => Bz k * (vz lo + vz sz / ofNat (FFD.n st) * ofNat k))
                    (seq 0 (S (FFD.n st)))
               == vz lo + vz sz / ofNat (FFD.n st) * ofNat (FFD.n st) * u)
    by exact (bernstein_affine (FFD.n st) u (vz lo) (vz sz / ofNat (FFD.n st))).
  match goal with |- aeq (asum ?G ?xs) _ =>
    destruct (asum_components G xs) as (Ex & Ey & Ez & Ew) end.
  unfold aeq, veq. rewrite Ex, Ey, Ez, Ew. cbn [fst snd vx vy vz].
  split; [split; [|split]|].
  - rewrite (Qsum_ext _ (fun i => Qsum (fun j => Qsum (fun k =>
        vx (cpAt (FFD.controlPoints st) i j k) * (Bx i * By j * Bz k))
        (seq 0 (S (FFD.n st)))) (seq 0 (S (FFD.m st))))).
    2:{ intros i Hi.
        match goal with |- vx (fst (asum ?G ?xs)) == _ =>
          destruct (asum_components G xs) as (-> & _) end.
        apply Qsum_ext. intros j Hj.
        match goal with |- vx (fst (asum ?G ?xs)) == _ =>
          destruct (asum_components G xs) as (-> & _) end.
        reflexivity. }
    rewrite (Qsum_triple
               (fun i => Bx i * (vx lo + vx sz / ofNat (FFD.l st) * ofNat i)) By Bz).
    2:{ intros i j k Hi Hj Hk. rewrite (Hcp i j k Hi Hj Hk). cbn [vx]. ring. }
    rewrite Ax, Py, Pz. field. exact Hl0.
  - rewrite (Qsum_ext _ (fun i => Qsum (fun j => Qsum (fun k =>
        vy (cpAt (FFD.controlPoints st) i j k) * (Bx i * By j * Bz k))
        (seq 0 (S (FFD.n st)))) (seq 0 (S (FFD.m st))))).
    2:{ intros i Hi.
        match goal with |- vy (fst (asum ?G ?xs)) == _ =>
          destruct (asum_components G xs) as (_ & -> & _) end.
        apply Qsum_ext. intros j Hj.
        match goal with |- vy (fst (asum ?G ?xs)) == _ =>
          destruct (asum_components G xs) as (_ & -> & _) end.
        reflexivity. }
    rewrite (Qsum_triple
               Bx (fun j => By j * (vy lo + vy sz / ofNat (FFD.m st) * ofNat j)) Bz).
    2:{ intros i j k Hi Hj Hk. rewrite (Hcp i j k Hi Hj Hk). cbn [vy]. ring. }
    rewrite Px, Ay, Pz. field. exact Hm0.
  - rewrite (Qsum_ext _ (fun i => Qsum (fun j => Qsum (fun k =>
        vz (cpAt (FFD.controlPoints st) i j k) * (Bx i * By j * Bz k))
        (seq 0 (S (FFD.n st)))) (seq 0 (S (FFD.m st))))).
    2:{ intros i Hi.
        match goal with |- vz (fst (asum ?G ?xs)) == _ =>
          destruct (asum_components G xs) as (_ & _ & -> & _) end.
        apply Qsum_ext. intros j Hj.
        match goal with |- vz (fst (asum ?G ?xs)) == _ =>
          destruct (asum_components G xs) as (_ & _ & -> & _) end.
        reflexivity. }
    rewrite (Qsum_triple
               Bx By (fun k => Bz k * (vz lo + vz sz / ofNat (FFD.n st) * ofNat k))).
    2:{ intros i j k Hi Hj Hk. rewrite (Hcp i j k Hi Hj Hk). cbn [vz]. ring. }
    rewrite Px, Py, Az. field. exact Hn0.
  - rewrite (Qsum_ext _ (fun i => Qsum (fun j => Qsum (fun k =>
        Bx i * By j * Bz k)
        (seq 0 (S (FFD.n st)))) (seq 0 (S (FFD.m st))))).
    2:{ intros i Hi.
        match goal with |- snd (asum ?G ?xs) == _ =>
          destruct (asum_components G xs) as (_ & _ & _ & ->) end.
        apply Qsum_ext. intros j Hj.
        match goal with |- snd (asum ?G ?xs) == _ =>
          destruct (asum_components G xs) as (_ & _ & _ & ->) end.
        reflexivity. }
    rewrite (Qsum_triple Bx By Bz) by (intros; reflexivity).
    rewrite Px, Py, Pz. ring.
Qed.

Lemma calculateDeformedPosition_undeformed (st : FFD.state) (s t u : Q) :
  undeformed st ->
  (0 < FFD.l st)%nat -> (0 < FFD.m st)%nat -> (0 < FFD.n st)%nat ->
  veq (Exact.calculateDeformedPosition st s t u)
      (vec3 (vx (bmin (FFD.bbox st)) + s * vx (FFD.size st))
            (vy (bmin (FFD.bbox st)) + t * vy (FFD.size st))
            (vz (bmin (FFD.bbox st)) + u * vz (FFD.size st))).
Proof.
  intros Hund Hl Hm Hn.
  destruct (calculateDeformedPosition_sum st s t u) as (acc & Hacc & ->).
  pose proof (aeq_trans _ _ _ Hacc (blendSum_undeformed st s t u Hund Hl Hm Hn))
    as ((E1 & E2 & E3) & Ew).
  cbn [fst snd vx vy vz] in *.
  assert (Hpos : Qltb 0 (snd acc) = true) by (apply Qltb_true; rewrite Ew; lra).
  rewrite Hpos. unfold veq, divideScalar, multiplyScalar. cbn [vx vy vz].
  rewrite E1, E2, E3, Ew. repeat split; field.
Qed.

(* ================================================================= *)
(** ** Reading the deformed buffer *)


Lemma invert_identity_apply (v : Vector3) : veq (applyMatrix4 (invert identity) v) v.
Proof. apply applyMatrix4_equals_identity. reflexivity. Qed.

Lemma length_flat_map_triple (f : nat -> Vector3) (xs : list nat) :
  length (flat_map (fun i => triple (f i)) xs) = (3 * length xs)%nat.
Proof.
  induction xs as [|x xs IH]; cbn [flat_map length app triple]; [reflexivity|].
  cbn [length]. rewrite IH. lia.
Qed.

Lemma nth_flat_map_triple (f : nat -> Vector3) (a len i r : nat) (d : Q) :
  (i < len)%nat -> (r < 3)%nat ->
  nth (i * 3 + r) (flat_map (fun i => triple (f i)) (seq a len)) d =
  nth r (triple (f (a + i)%nat)) d.
Proof.
  revert a i. induction len as [|len IH]; intros a i Hi Hr; [lia|].
  cbn [seq flat_map]. destruct i as [|i].
  - rewrite Nat.add_0_r. cbn [Nat.mul Nat.add].
    rewrite app_nth1 by (cbn; lia). reflexivity.
  - rewrite app_nth2 by (cbn [triple length]; lia).
    cbn [triple length].
    replace (S i * 3 + r - 3)%nat with (i * 3 + r)%nat by lia.
    rewrite IH by lia. f_equal. f_equal. f_equal. lia.
Qed.

Lemma nth_firstn_lt {A : Type} (xs : list A) (len i : nat) (d : A) :
  (i < len)%nat -> nth i (firstn len xs) d = nth i xs d.
Proof.
  revert len i. induction xs as [|x xs IH]; intros [|len] [|i] H; cbn; try lia;
    try reflexivity.
  apply IH. lia.
Qed.

Lemma count_bound (a : list Q) : (3 * count a <= length a)%nat.
Proof. unfold count. apply Nat.Div0.mul_div_le. Qed.

Lemma count_bound_entries (a : list (option Q)) : (3 * count a <= length a)%nat.
Proof. unfold count. apply Nat.Div0.mul_div_le. Qed.

(* ================================================================= *)
(** ** Overflow of the binomial coefficients *)

(** The product of a list of natural numbers, in [Z]. *)
Definition prodZ (xs : list nat) : Z :=
  fold_right (fun i p => (Z.of_nat i * p)%Z) 1%Z xs.

Lemma prodZ_app (xs ys : list nat) : prodZ (xs ++ ys) = (prodZ xs * prodZ ys)%Z.
Proof.
  induction xs as [|x xs IH]; cbn [prodZ fold_right app].
  - fold (prodZ ys). lia.
  - fold (prodZ (xs ++ ys)) (prodZ xs). rewrite IH. lia.
Qed.

Lemma prodZ_ge_1 (xs : list nat) :
  (forall i, In i xs -> (0 < i)%nat) -> (1 <= prodZ xs)%Z.
Proof.
  induction xs as [|x xs IH]; intros H; cbn [prodZ fold_right]; [lia|].
  fold (prodZ xs).
  assert (0 < x)%nat by (apply H; left; reflexivity).
  assert (1 <= prodZ xs)%Z by (apply IH; intros i Hi; apply H; right; exact Hi).
  nia.
Qed.

Lemma seq_pos (a len i : nat) : (0 < a)%nat -> In i (seq a len) -> (0 < i)%nat.
Proof. intros Ha Hi. apply in_seq in Hi. lia. Qed.

(** 170! is a finite double, and no factorial after it is. *)
Lemma factorial_170 : (prodZ (seq 1 170) <= 2 ^ 1024 - 2 ^ 971)%Z.
Proof. vm_compute. discriminate. Qed.

(** The factors of a binomial coefficient of degree at most 170 multiply to
    at most 170!. *)
Lemma product_bound (n k : nat) :
  (n <= 170)%nat -> (k <= n)%nat ->
  (prodZ (seq (n + 1 - k) k) <= 2 ^ 1024 - 2 ^ 971)%Z.
Proof.
  intros Hn Hk.
  assert (H1 : prodZ (seq 1 n)
               = (prodZ (seq 1 (n - k)) * prodZ (seq (n + 1 - k) k))%Z).
  { rewrite <- prodZ_app.
    replace (n + 1 - k)%nat with (1 + (n - k))%nat by lia.
    rewrite <- seq_app. f_equal. f_equal. lia. }
  assert (H2 : prodZ (seq 1 170)
               = (prodZ (seq 1 n) * prodZ (seq (1 + n) (170 - n)))%Z).
  { rewrite <- prodZ_app, <- seq_app. f_equal. f_equal. lia. }
  pose proof factorial_170 as H170.
  pose proof (prodZ_ge_1 (seq 1 (n - k)) (fun i => seq_pos 1 _ i Nat.lt_0_1)).
  pose proof (prodZ_ge_1 (seq (1 + n) (170 - n))
                (fun i => seq_pos (1 + n) _ i (Nat.lt_0_succ n))).
  pose proof (prodZ_ge_1 (seq (n + 1 - k) k)
                (fun i => seq_pos (n + 1 - k) _ i ltac:(lia))).
  nia.
Qed.

(** While the running product stays below [MAX_VALUE], the first loop of
    [binomial] is the exact product. *)
Lemma product_finite (xs : list nat) (c : Q) :
  (forall i, In i xs -> (0 < i)%nat) ->
  0 <= c ->
  c * inject_Z (prodZ xs) <= FFD.MAX_VALUE ->
  fold_left (fun coeff i =>
               match coeff with
               | Some c =>
                   let c := c * ofNat i in
                   if Qltb FFD.MAX_VALUE c then None else Some c
               | None => None
               end) xs (Some c)
  = Some (fold_left (fun c i => c * ofNat i) xs c).
Proof.
  revert c. induction xs as [|x xs IH]; intros c Hpos Hc Hmax; [reflexivity|].
  cbn [fold_left]. cbv zeta.
  assert (Hx : 0 < ofNat x) by (apply ofNat_pos, Hpos; left; reflexivity).
  assert (Hrest : 1 <= inject_Z (prodZ xs)).
  { change 1 with (inject_Z 1). rewrite <- Zle_Qle. apply prodZ_ge_1.
    intros i Hi. apply Hpos. right. exact Hi. }
  assert (Hcx : 0 <= c * ofNat x) by (apply Qmult_le_0_compat; lra).
  assert (Hstep : c * ofNat x * inject_Z (prodZ xs) <= FFD.MAX_VALUE).
  { cbn [prodZ fold_right] in Hmax. fold (prodZ xs) in Hmax.
    rewrite inject_Z_mult in Hmax. fold (ofNat x) in Hmax.
    rewrite Qmult_assoc in Hmax. exact Hmax. }
  assert (Hle : c * ofNat x <= FFD.MAX_VALUE).
  { apply Qle_trans with (c * ofNat x * inject_Z (prodZ xs)); [|exact Hstep].
    clear Hstep Hmax. revert Hcx Hrest.
    generalize (c * ofNat x) (inject_Z (prodZ xs)). intros a b Ha Hb. nra. }
  rewrite (proj2 (Qltb_false _ _) Hle).
  apply IH; try assumption.
  intros i Hi. apply Hpos. right. exact Hi.
Qed.

Lemma fold_left_Some {A B : Type} (f : option A -> B -> option A)
    (g : A -> B -> A) (xs : list B) (a : A) :
  (forall a x, In x xs -> f (Some a) x = Some (g a x)) ->
  fold_left f xs (Some a) = Some (fold_left g xs a).
Proof.
  revert a. induction xs as [|x xs IH]; intros a H; [reflexivity|].
  cbn [fold_left]. rewrite H by (left; reflexivity).
  apply IH. intros a' x' Hx'. apply H. right. exact Hx'.
Qed.

Lemma fold_left_None {A B : Type} (f : option A -> B -> option A) (xs : list B) :
  (forall x, f None x = None) -> fold_left f xs None = None.
Proof.
  intros H. induction xs as [|x xs IH]; [reflexivity|].
  cbn [fold_left]. rewrite H. exact IH.
Qed.

(** Up to degree 170 [binomial] is the exact coefficient. *)
Lemma binomial_finite (n k : nat) :
  (n <= 170)%nat -> (k <= n)%nat ->
  FFD.binomial n k = Some (Exact.binomial n k).
Proof.
  intros Hn Hk. unfold FFD.binomial, Exact.binomial. cbv zeta.
  rewrite product_finite.
  - apply fold_left_Some. intros a x _. reflexivity.
  - intros i Hi. apply in_seq in Hi. lia.
  - lra.
  - rewrite Qmult_1_l. unfold FFD.MAX_VALUE. rewrite <- Zle_Qle.
    replace (n + 1 - (n + 1 - k))%nat with k by lia.
    apply product_bound; assumption.
Qed.

(** From degree 171 on the coefficient of the last Bernstein polynomial is
    [Infinity]: its product is the factorial of the degree. *)
Lemma binomial_infinite (n : nat) : (171 <= n)%nat -> FFD.binomial n n = None.
Proof.
  intros Hn. unfold FFD.binomial. cbv zeta.
  replace (n + 1 - n)%nat with 1%nat by lia.
  replace (n + 1 - 1)%nat with (171 + (n - 171))%nat by lia.
  rewrite seq_app, fold_left_app.
  match goal with
  | |- context [fold_left ?f (seq 1 171) (Some 1)] =>
      assert (E : fold_left f (seq 1 171) (Some 1) = None)
        by (vm_compute; reflexivity);
      rewrite E
  end.
  rewrite fold_left_None by reflexivity.
  apply fold_left_None. reflexivity.
Qed.

Lemma bernstein_finite (n i : nat) (t : Q) :
  (n <= 170)%nat -> (i <= n)%nat ->
  FFD.bernstein n i t = Some (Exact.bernstein n i t).
Proof.
  intros Hn Hi. unfold FFD.bernstein. rewrite binomial_finite by assumption.
  reflexivity.
Qed.

Lemma bernstein_infinite (n : nat) (t : Q) :
  (171 <= n)%nat -> FFD.bernstein n n t = None.
Proof.
  intros Hn. unfold FFD.bernstein. rewrite binomial_infinite by assumption.
  reflexivity.
Qed.

(** The subdivision counts up to which every Bernstein weight of the
    lattice is a finite double. *)
Definition finiteWeights (st : FFD.state) : Prop :=
  (FFD.l st <= 170)%nat /\ (FFD.m st <= 170)%nat /\ (FFD.n st <= 170)%nat.

Definition infiniteWeights (st : FFD.state) : Prop :=
  (171 <= FFD.l st)%nat \/ (171 <= FFD.m st)%nat \/ (171 <= FFD.n st)%nat.


(** Up to 170 subdivisions the blend is the exact one. *)
Lemma calculateDeformedPosition_finite (st : FFD.state) (s t u : Q) :
  finiteWeights st ->
  FFD.calculateDeformedPosition st s t u
  = Some (Exact.calculateDeformedPosition st s t u).
Proof.
  intros (Hl & Hm & Hn).
  unfold FFD.calculateDeformedPosition, Exact.calculateDeformedPosition.
  cbv zeta.
  erewrite fold_left_Some; cycle 1.
  - intros a i Hi. apply in_seq in Hi. cbv beta.
    apply fold_left_Some. intros b j Hj. apply in_seq in Hj. cbv beta.
    apply fold_left_Some. intros c k Hk. apply in_seq in Hk. cbv beta.
    rewrite !bernstein_finite by lia. reflexivity.
  - destruct (fold_left _ _ (vzero, 0)) as [result totalWeight]. reflexivity.
Qed.

(** From 171 subdivisions along an axis on, the blend has no finite
    component: the last weight of the loops is not finite. *)
Lemma calculateDeformedPosition_infinite (st : FFD.state) (s t u : Q) :
  infiniteWeights st -> FFD.calculateDeformedPosition st s t u = None.
Proof.
  intros H. unfold FFD.calculateDeformedPosition. cbv zeta.
  rewrite (seq_S (FFD.l st)), fold_left_app. cbn [fold_left Nat.add].
  rewrite (seq_S (FFD.m st)), fold_left_app. cbn [fold_left Nat.add].
  rewrite (seq_S (FFD.n st)), fold_left_app. cbn [fold_left Nat.add].
  match goal with
  | |- match match ?X with _ => _ end with _ => _ end = None =>
      destruct X as [acc|]; [|reflexivity]
  end.
  destruct H as [H|[H|H]].
  - rewrite (bernstein_infinite _ s H). reflexivity.
  - rewrite (bernstein_infinite _ t H).
    destruct (FFD.bernstein (FFD.l st) (FFD.l st) s); reflexivity.
  - rewrite (bernstein_infinite _ u H).
    destruct (FFD.bernstein (FFD.l st) (FFD.l st) s);
      destruct (FFD.bernstein (FFD.m st) (FFD.m st) t); reflexivity.
Qed.

Lemma deformVertex_finite (st : FFD.state) (inv : Matrix4) (i : nat) :
  finiteWeights st ->
  FFD.deformVertex st inv i = Some (Exact.deformVertex st inv i).
Proof.
  intros H. unfold FFD.deformVertex, Exact.deformVertex.
  destruct (FFD.calculateLocalCoordinates st _) as [[s t] u].
  rewrite calculateDeformedPosition_finite by exact H. reflexivity.
Qed.

Lemma deformVertex_infinite (st : FFD.state) (inv : Matrix4) (i : nat) :
  infiniteWeights st -> FFD.deformVertex st inv i = None.
Proof.
  intros H. unfold FFD.deformVertex.
  destruct (FFD.calculateLocalCoordinates st _) as [[s t] u].
  rewrite calculateDeformedPosition_infinite by exact H. reflexivity.
Qed.

Lemma length_flat_map_3 {A : Type} (f : nat -> list A) (xs : list nat) :
  (forall i, length (f i) = 3%nat) ->
  length (flat_map f xs) = (3 * length xs)%nat.
Proof.
  intros H. induction xs as [|x xs IH]; cbn [flat_map length]; [reflexivity|].
  rewrite length_app, H, IH. lia.
Qed.

Lemma nth_flat_map_3 {A : Type} (f : nat -> list A) (a len i r : nat) (d : A) :
  (forall i, length (f i) = 3%nat) ->
  (i < len)%nat -> (r < 3)%nat ->
  nth (i * 3 + r) (flat_map f (seq a len)) d = nth r (f (a + i)%nat) d.
Proof.
  intros H. revert a i. induction len as [|len IH]; intros a i Hi Hr; [lia|].
  cbn [seq flat_map]. destruct i as [|i].
  - rewrite Nat.add_0_r. cbn [Nat.mul Nat.add].
    rewrite app_nth1 by (rewrite H; lia). reflexivity.
  - rewrite app_nth2 by (rewrite H; lia). rewrite H.
    replace (S i * 3 + r - 3)%nat with (i * 3 + r)%nat by lia.
    rewrite IH by lia. f_equal. f_equal. lia.
Qed.

Lemma length_entries (v : option Vector3) : length (entries v) = 3%nat.
Proof. destruct v; reflexivity. Qed.

Lemma finiteVertex_map_Some (a : list Q) (i : nat) :
  finiteVertex (map Some a) i = Some (fromBufferAttribute a i).
Proof.
  unfold finiteVertex, fromBufferAttribute, getX, getY, getZ.
  change (Some 0) with (Some (A := Q) 0).
  rewrite !(map_nth (@Some Q)). reflexivity.
Qed.

(** Vertex [i] of the buffer [deform] writes. *)
Lemma deform_vertex (st : FFD.state) (i : nat) :
  FFD.controlPoints st <> [] ->
  length (FFD.geometry st) = length (FFD.originalPositions st) ->
  (i < count (FFD.geometry st))%nat ->
  finiteVertex (FFD.geometry (FFD.deform st)) i =
  FFD.deformVertex st (invert (FFD.currentTransform st)) i.
Proof.
  intros Hne Hlen Hi. unfold FFD.deform.
  destruct (FFD.controlPoints st) as [|plane planes] eqn:E; [congruence|].
  cbn [FFD.geometry].
  set (dv := FFD.deformVertex st (invert (FFD.currentTransform st))).
  pose proof (count_bound_entries (FFD.geometry st)) as Hc.
  assert (Hread : forall r, (r < 3)%nat ->
            nth (i * 3 + r)
              (firstn (length (FFD.originalPositions st))
                 (flat_map (fun i => entries (dv i))
                    (seq 0 (count (FFD.geometry st)))
                  ++ repeat (Some 0) (length (FFD.originalPositions st))))
              (Some 0)
            = nth r (entries (dv i)) (Some 0)).
  { intros r Hr. rewrite nth_firstn_lt by lia.
    rewrite app_nth1
      by (rewrite (length_flat_map_3 (fun i => entries (dv i)))
            by (intros; apply length_entries);
          rewrite length_seq; lia).
    rewrite (nth_flat_map_3 (fun i => entries (dv i)))
      by (try assumption; intros; apply length_entries).
    reflexivity. }
  unfold finiteVertex.
  rewrite <- (Nat.add_0_r (i * 3)) at 1.
  rewrite !Hread by lia.
  destruct (dv i) as [[x y z]|]; reflexivity.
Qed.

(** The same vertex up to 170 subdivisions, and from 171 on. *)
Lemma deform_vertex_finite (st : FFD.state) (i : nat) :
  FFD.controlPoints st <> [] ->
  length (FFD.geometry st) = length (FFD.originalPositions st) ->
  (i < count (FFD.geometry st))%nat ->
  finiteWeights st ->
  finiteVertex (FFD.geometry (FFD.deform st)) i =
  Some (Exact.deformVertex st (invert (FFD.currentTransform st)) i).
Proof.
  intros Hne Hlen Hi Hfin. rewrite deform_vertex by assumption.
  apply deformVertex_finite. exact Hfin.
Qed.

Lemma deform_vertex_infinite (st : FFD.state) (i : nat) :
  FFD.controlPoints st <> [] ->
  length (FFD.geometry st) = length (FFD.originalPositions st) ->
  (i < count (FFD.geometry st))%nat ->
  infiniteWeights st ->
  finiteVertex (FFD.geometry (FFD.deform st)) i = None.
Proof.
  intros Hne Hlen Hi Hinf. rewrite deform_vertex by assumption.
  apply deformVertex_infinite. exact Hinf.
Qed.

(** From 171 subdivisions on, [deform] writes no finite number. *)
Lemma deform_infinite (st : FFD.state) :
  FFD.controlPoints st <> [] ->
  infiniteWeights st ->
  FFD.geometry (FFD.deform st)
  = firstn (length (FFD.originalPositions st))
      (flat_map (fun _ => [None; None; None]) (seq 0 (count (FFD.geometry st)))
       ++ repeat (Some 0) (length (FFD.originalPositions st))).
Proof.
  intros Hne Hinf. unfold FFD.deform.
  destruct (FFD.controlPoints st) as [|plane planes] eqn:E; [congruence|].
  cbn [FFD.geometry]. f_equal. f_equal. apply flat_map_ext. intros i.
  rewrite deformVertex_infinite by exact Hinf. reflexivity.
Qed.

Lemma length_deform (st : FFD.state) :
  length (FFD.geometry st) = length (FFD.originalPositions st) ->
  length (FFD.geometry (FFD.deform st)) = length (FFD.originalPositions st).
Proof.
  intros H. unfold FFD.deform. destruct (FFD.controlPoints st); [exact H|].
  cbn [FFD.geometry]. rewrite length_firstn, length_app, repeat_length. lia.
Qed.

(* ================================================================= *)
(** ** Parametric coordinates and their snapping *)

(** A coordinate is snapped when it lies strictly within [epsilon] (relative
    to the box size) of a face of the box without being on it. *)
Definition snapped (local size : Q) : Prop :=
  (0 < local /\ local < FFD.epsilon * size) \/
  (size - FFD.epsilon * size < local /\ local < size).

Lemma localCoordinate_cases (local size : Q) :
  0 <= local -> local <= size ->
  (size == 0 /\ FFD.localCoordinate local size = 0) \/
  (0 < size /\ local < FFD.epsilon * size /\ FFD.localCoordinate local size = 0) \/
  (0 < size /\ FFD.epsilon * size <= local /\ size - FFD.epsilon * size < local
   /\ FFD.localCoordinate local size = 1) \/
  (0 < size /\ FFD.epsilon * size <= local /\ local <= size - FFD.epsilon * size
   /\ FFD.localCoordinate local size = local / size).
Proof.
  intros H0 H1. unfold FFD.localCoordinate.
  destruct (Qeqb size 0) eqn:Ez.
  { left. apply Qeqb_true in Ez. split; [exact Ez | reflexivity]. }
  right. apply Qeqb_false in Ez.
  assert (Hs : 0 < size) by lra.
  assert (Hq : local / size * size == local) by (field; lra).
  assert (Hq0 : 0 <= local / size) by (apply Qle_shift_div_l; lra).
  assert (Hq1 : local / size <= 1) by (apply Qle_shift_div_r; lra).
  unfold FFD.epsilon in *.
  destruct (Qltb (Qabs (local / size)) (1 # 1000000)) eqn:E1.
  - left. apply Qltb_true in E1. rewrite Qabs_pos in E1 by exact Hq0.
    split; [exact Hs|]. split; [|reflexivity].
    rewrite <- Hq at 1. apply Qmult_lt_compat_r; assumption.
  - right. apply Qltb_false in E1. rewrite Qabs_pos in E1 by exact Hq0.
    assert (Hlo : (1 # 1000000) * size <= local).
    { rewrite <- Hq at 1. apply Qmult_le_compat_r; lra. }
    destruct (Qltb (Qabs (local / size - 1)) (1 # 1000000)) eqn:E2.
    + left. apply Qltb_true in E2. rewrite Qabs_neg in E2 by lra.
      split; [exact Hs|]. split; [exact Hlo|]. split; [|reflexivity].
      assert (1 - (1 # 1000000) < local / size) by lra.
      assert ((1 - (1 # 1000000)) * size < local / size * size)
        by (apply Qmult_lt_compat_r; assumption).
      lra.
    + right. apply Qltb_false in E2. rewrite Qabs_neg in E2 by lra.
      split; [exact Hs|]. split; [exact Hlo|]. split; [|reflexivity].
      assert (local / size <= 1 - (1 # 1000000)) by lra.
      assert (local / size * size <= (1 - (1 # 1000000)) * size)
        by (apply Qmult_le_compat_r; lra).
      lra.
Qed.

(** The position the parametric coordinate stands for differs from the
    original coordinate by at most [epsilon] times the box size, and not at
    all unless the coordinate is snapped. *)
Lemma localCoordinate_error (lo x size : Q) :
  0 <= x - lo -> x - lo <= size ->
  let x' := lo + FFD.localCoordinate (x - lo) size * size in
  Qabs (x' - x) <= FFD.epsilon * size /\
  (~ snapped (x - lo) size -> x' == x).
Proof.
  intros H0 H1 x'. subst x'.
  destruct (localCoordinate_cases (x - lo) size H0 H1)
    as [(Hz & ->) | [(Hs & Hlt & ->) | [(Hs & Hlo & Hhi & ->) | (Hs & Hlo & Hhi & ->)]]];
    unfold snapped, FFD.epsilon in *.
  - split.
    + apply Qabs_Qle_condition. split; lra.
    + intros _. lra.
  - split.
    + apply Qabs_Qle_condition. split; lra.
    + intros Hn. destruct (Qlt_le_dec 0 (x - lo)) as [Hp|Hp]; [|lra].
      exfalso. apply Hn. left. split; assumption.
  - split.
    + apply Qabs_Qle_condition. split; lra.
    + intros Hn. destruct (Qlt_le_dec (x - lo) size) as [Hp|Hp]; [|lra].
      exfalso. apply Hn. right. split; assumption.
  - assert (Hq : (x - lo) / size * size == x - lo) by (field; lra).
    split.
    + apply Qabs_Qle_condition. split; lra.
    + intros _. lra.
Qed.

(* ================================================================= *)
(** ** Identity deform and reset *)

(** What the constructor leaves behind: the undeformed lattice under the
    identity transform over the untouched buffer. *)
Definition fresh (st : FFD.state) : Prop :=
  undeformed st /\
  FFD.originalControlPoints st = FFD.controlPoints st /\
  FFD.initialControlPoints st = FFD.controlPoints st /\
  FFD.currentTransform st = identity /\
  FFD.geometry st = map Some (FFD.originalPositions st) /\
  FFD.lastDeformedGeometry st = None /\
  FFD.size st = getSize (FFD.bbox st) /\
  setFromBufferAttribute (FFD.originalPositions st) = Some (FFD.bbox st) /\
  (2 <= FFD.l st)%nat /\ (2 <= FFD.m st)%nat /\ (2 <= FFD.n st)%nat.

Lemma new_fresh (g : BufferGeometry) (s : option FFDSettings) (st : FFD.state) :
  FFD.new g s = FFD.Built st ->
  fresh st /\ position g = Some (FFD.originalPositions st).
Proof.
  intros H. destruct (new_Built _ _ _ H) as (array & b & Hpos & Hbox & ->).
  cbv zeta. unfold fresh, undeformed. cbn.
  repeat split; try reflexivity; try assumption; apply subdivisions_ge_2.
Qed.

(** One coordinate of a vertex against its deformed value. *)
Definition coordinateKept (lo size x x' : Q) : Prop :=
  Qabs (x' - x) <= FFD.epsilon * size /\
  (~ snapped (x - lo) size -> x' == x).

(** A vertex against its deformed position, over the box of the lattice. *)
Definition vertexKept (st : FFD.state) (v v' : Vector3) : Prop :=
  coordinateKept (vx (bmin (FFD.bbox st))) (vx (FFD.size st)) (vx v) (vx v') /\
  coordinateKept (vy (bmin (FFD.bbox st))) (vy (FFD.size st)) (vy v) (vy v') /\
  coordinateKept (vz (bmin (FFD.bbox st))) (vz (FFD.size st)) (vz v) (vz v').

(** A vertex against its deformed position: each coordinate within
    [epsilon] times the extent of the box on its axis. *)
Definition vertexWithin (st : FFD.state) (v v' : Vector3) : Prop :=
  Qabs (vx v' - vx v) <= FFD.epsilon * vx (FFD.size st) /\
  Qabs (vy v' - vy v) <= FFD.epsilon * vy (FFD.size st) /\
  Qabs (vz v' - vz v) <= FFD.epsilon * vz (FFD.size st).

Lemma vertexKept_within (st : FFD.state) (v v' : Vector3) :
  vertexKept st v v' -> vertexWithin st v v'.
Proof.
  intros ((Hx & _) & (Hy & _) & (Hz & _)). repeat split; assumption.
Qed.

Lemma coordinateKept_eq (lo size x x' x'' : Q) :
  x' == x'' -> coordinateKept lo size x x'' -> coordinateKept lo size x x'.
Proof.
  intros E (H1 & H2). unfold coordinateKept. rewrite E. split; assumption.
Qed.

Lemma fresh_deformVertex (st : FFD.state) (i : nat) :
  fresh st ->
  (i < count (FFD.originalPositions st))%nat ->
  vertexKept st (fromBufferAttribute (FFD.originalPositions st) i)
             (Exact.deformVertex st (invert (FFD.currentTransform st)) i).
Proof.
  intros (Hund & _ & _ & HT & _ & _ & Hsize & Hbox & Hl & Hm & Hn) Hi.
  set (v := fromBufferAttribute (FFD.originalPositions st) i).
  destruct (setFromBufferAttribute_inside _ _ Hbox i Hi)
    as ((L1 & L2 & L3) & (U1 & U2 & U3)).
  fold v in L1, L2, L3, U1, U2, U3.
  pose proof (getSize_ordered _ (setFromBufferAttribute_ordered _ _ Hbox)) as Hsz.
  assert (Bx : 0 <= vx v - vx (bmin (FFD.bbox st)) /\
               vx v - vx (bmin (FFD.bbox st)) <= vx (getSize (FFD.bbox st))).
  { rewrite Hsz. cbn [sub vx]. split; lra. }
  assert (By : 0 <= vy v - vy (bmin (FFD.bbox st)) /\
               vy v - vy (bmin (FFD.bbox st)) <= vy (getSize (FFD.bbox st))).
  { rewrite Hsz. cbn [sub vy]. split; lra. }
  assert (Bz : 0 <= vz v - vz (bmin (FFD.bbox st)) /\
               vz v - vz (bmin (FFD.bbox st)) <= vz (getSize (FFD.bbox st))).
  { rewrite Hsz. cbn [sub vz]. split; lra. }
  clear Hsz.
  unfold Exact.deformVertex. fold v. unfold FFD.calculateLocalCoordinates.
  rewrite HT. cbn [sub vx vy vz].
  match goal with
  | |- vertexKept _ _ (applyMatrix4 _ (Exact.calculateDeformedPosition st ?s ?t ?u)) =>
      pose proof (calculateDeformedPosition_undeformed st s t u Hund
                    ltac:(lia) ltac:(lia) ltac:(lia)) as Hblend;
      pose proof (invert_identity_apply (Exact.calculateDeformedPosition st s t u))
        as Hinv
  end.
  assert (E : veq (applyMatrix4 (invert identity)
                     (Exact.calculateDeformedPosition st
                        (FFD.localCoordinate (vx v - vx (bmin (FFD.bbox st)))
                           (vx (getSize (FFD.bbox st))))
                        (FFD.localCoordinate (vy v - vy (bmin (FFD.bbox st)))
                           (vy (getSize (FFD.bbox st))))
                        (FFD.localCoordinate (vz v - vz (bmin (FFD.bbox st)))
                           (vz (getSize (FFD.bbox st))))))
                  _) by (etransitivity; [exact Hinv | exact Hblend]).
  destruct E as (E1 & E2 & E3). cbn [vx vy vz] in E1, E2, E3.
  unfold vertexKept. rewrite Hsize in *.
  split; [|split].
  - eapply coordinateKept_eq; [exact E1|]. apply localCoordinate_error; apply Bx.
  - eapply coordinateKept_eq; [exact E2|]. apply localCoordinate_error; apply By.
  - eapply coordinateKept_eq; [exact E3|]. apply localCoordinate_error; apply Bz.
Qed.

Lemma initializeControlPoints_nonempty (b : Box3) (sz : Vector3) (l m n : nat) :
  FFD.initializeControlPoints b sz l m n <> [].
Proof. unfold FFD.initializeControlPoints. cbn [seq map]. discriminate. Qed.

Lemma count_map_Some (a : list Q) : count (map Some a) = count a.
Proof. unfold count. rewrite length_map. reflexivity. Qed.

Lemma fresh_deform (st : FFD.state) :
  fresh st ->
  finiteWeights st ->
  length (FFD.geometry (FFD.deform st)) = length (FFD.originalPositions st) /\
  forall i, (i < count (FFD.originalPositions st))%nat ->
    exists v',
      finiteVertex (FFD.geometry (FFD.deform st)) i = Some v' /\
      vertexKept st (fromBufferAttribute (FFD.originalPositions st) i) v'.
Proof.
  intros Hf Hfin. pose proof Hf as (Hund & _ & _ & _ & Hgeo & _).
  split.
  - apply length_deform. rewrite Hgeo. apply length_map.
  - intros i Hi. eexists. split.
    + apply deform_vertex_finite.
      * rewrite Hund. apply initializeControlPoints_nonempty.
      * rewrite Hgeo. apply length_map.
      * rewrite Hgeo, count_map_Some. exact Hi.
      * exact Hfin.
    + apply fresh_deformVertex; assumption.
Qed.

(** C2, as the code has it.  With at most 170 subdivisions along each axis,
    constructing a lattice over a mesh and calling [deform] at once gives an
    array of the same length in which every entry is a finite number and
    every vertex coordinate is the original one up to [epsilon = 1e-6]
    times the extent of the bounding box on that axis: the tolerance is the
    snap of [calculateLocalCoordinates], which moves a coordinate within
    that distance of a face of the box onto the face. *)
Theorem identity_deform
    (g : BufferGeometry) (s : option FFDSettings) (st : FFD.state) :
  FFD.new g s = FFD.Built st ->
  finiteWeights st ->
  let deformed := FFD.geometry (FFD.deform st) in
  exists original,
    position g = Some original /\
    length deformed = length original /\
    forall i, (i < count original)%nat ->
      exists v',
        finiteVertex deformed i = Some v' /\
        vertexWithin st (fromBufferAttribute original i) v'.
Proof.
  intros H Hfin deformed. destruct (new_fresh _ _ _ H) as (Hf & Hpos).
  exists (FFD.originalPositions st). split; [exact Hpos|].
  destruct (fresh_deform st Hf Hfin) as (Hlen & Hall).
  split; [exact Hlen|].
  intros i Hi. destruct (Hall i Hi) as (v' & Ev & Hv).
  exists v'. split; [exact Ev|]. apply vertexKept_within. exact Hv.
Qed.

Lemma identity_deform_witness :
  exists st, FFD.new cube None = FFD.Built st /\
    finiteWeights st /\
    exists original,
      position cube = Some original /\
      length (FFD.geometry (FFD.deform st)) = length original /\
      forall i, (i < count original)%nat ->
        exists v',
          finiteVertex (FFD.geometry (FFD.deform st)) i = Some v' /\
          vertexWithin st (fromBufferAttribute original i) v'.
Proof.
  eexists. split; [reflexivity|].
  assert (Hfin : finiteWeights
                   (FFD.mk (FFD.initializeControlPoints
                              (box3 (vec3 (-1) (-1) (-1)) (vec3 1 1 1))
                              (vec3 2 2 2) 2 2 2)
                           (FFD.initializeControlPoints
                              (box3 (vec3 (-1) (-1) (-1)) (vec3 1 1 1))
                              (vec3 2 2 2) 2 2 2)
                           (FFD.initializeControlPoints
                              (box3 (vec3 (-1) (-1) (-1)) (vec3 1 1 1))
                              (vec3 2 2 2) 2 2 2)
                           (box3 (vec3 (-1) (-1) (-1)) (vec3 1 1 1))
                           (map Some cubePositions) cubePositions 2 2 2
                           (vec3 2 2 2) identity None)).
  { unfold finiteWeights. cbn. lia. }
  split; [exact Hfin|].
  exact (identity_deform cube None _ eq_refl Hfin).
Defined.

(** C2 as stated fails from 171 subdivisions on: over the cube with 171
    subdivisions along x, the array [deform] writes right after the
    construction holds no finite number at all, where the original array
    holds the corners of the cube. *)
Lemma identity_deform_overflows :
  match FFD.new cube (Some (ffdSettings 171 2 2)) with
  | FFD.Built st =>
      position cube = Some cubePositions /\
      FFD.geometry (FFD.deform st) = repeat None (length cubePositions) /\
      forall i, (i < count cubePositions)%nat ->
                finiteVertex (FFD.geometry (FFD.deform st)) i = None
  | _ => False
  end.
Proof.
  destruct (FFD.new cube (Some (ffdSettings 171 2 2))) as [e| |st] eqn:E;
    try (vm_compute in E; discriminate).
  destruct (new_Built _ _ _ E) as (array & b & Hpos & Hbox & Hst).
  cbv zeta in Hst. cbn [position cube] in Hpos. injection Hpos as <-.
  assert (Hinf : infiniteWeights st).
  { left. rewrite Hst. cbn [FFD.l]. apply Nat.leb_le. vm_compute. reflexivity. }
  assert (Hne : FFD.controlPoints st <> []).
  { rewrite Hst. cbn [FFD.controlPoints]. apply initializeControlPoints_nonempty. }
  assert (Hgeo : FFD.geometry st = map Some cubePositions)
    by (rewrite Hst; reflexivity).
  assert (Hop : FFD.originalPositions st = cubePositions)
    by (rewrite Hst; reflexivity).
  assert (Hwritten : FFD.geometry (FFD.deform st)
                     = repeat None (length cubePositions)).
  { rewrite deform_infinite, Hgeo, Hop by assumption. reflexivity. }
  split; [reflexivity|]. split; [exact Hwritten|].
  intros i Hi. rewrite Hwritten. unfold count in Hi. cbn in Hi.
  do 8 (destruct i as [|i]; [reflexivity|]). lia.
Qed.

(** [reset] rebuilds the state the constructor left and deforms it. *)
Lemma reset_fresh (st0 st : FFD.state) :
  fresh st0 -> sameLattice st0 st -> FFD.reset st = FFD.deform st0.
Proof.
  intros (_ & Ho & Hi & HT & Hg & Hlast & _) (S1 & S2 & S3 & S4 & S5 & S6 & S7).
  unfold FFD.reset. f_equal.
  destruct st0, st. cbn in *. subst. reflexivity.
Qed.

(** What [reset] does after any sequence of [moveControlPoint] calls (or of
    any other operations), with at most 170 subdivisions along each axis: it
    puts both point sets back on the initial snapshot and the transform back
    on the identity, and leaves the array that [deform] computes over the
    fresh lattice, in which every entry is finite and every vertex
    coordinate is the original one up to [epsilon] times the box extent (a
    coordinate strictly within that distance of a face of the box is moved
    onto the face). *)
Theorem sculpt_reset_round_trip
    (g : BufferGeometry) (s : option FFDSettings) (st0 : FFD.state)
    (ops : list operation) :
  FFD.new g s = FFD.Built st0 ->
  finiteWeights st0 ->
  let st := FFD.reset (performAll ops st0) in
  FFD.controlPoints st = FFD.initialControlPoints st0 /\
  FFD.originalControlPoints st = FFD.initialControlPoints st0 /\
  FFD.initialControlPoints st = FFD.initialControlPoints st0 /\
  FFD.currentTransform st = identity /\
  st = FFD.deform st0 /\
  exists original,
    position g = Some original /\
    FFD.originalPositions st = original /\
    length (FFD.geometry st) = length original /\
    forall i, (i < count original)%nat ->
      exists v',
        finiteVertex (FFD.geometry st) i = Some v' /\
        vertexWithin st0 (fromBufferAttribute original i) v'.
Proof.
  intros H Hfin st. destruct (new_fresh _ _ _ H) as (Hf & Hpos).
  assert (E : st = FFD.deform st0).
  { apply reset_fresh; [exact Hf|]. apply sameLattice_performAll, sameLattice_refl. }
  pose proof Hf as (_ & Ho & Hi & HT & _).
  destruct (deform_fields st0) as (D1 & D2 & D3 & _ & D5 & _ & _ & _ & _ & D10).
  rewrite E, D1, D2, D3, D5, D10.
  split; [congruence|]. split; [congruence|]. split; [reflexivity|].
  split; [exact HT|]. split; [reflexivity|].
  exists (FFD.originalPositions st0). split; [exact Hpos|]. split; [reflexivity|].
  destruct (fresh_deform st0 Hf Hfin) as (Hlen & Hall).
  split; [exact Hlen|].
  intros i Hidx. destruct (Hall i Hidx) as (v' & Ev & Hv).
  exists v'. split; [exact Ev|]. apply vertexKept_within. exact Hv.
Qed.

Lemma sculpt_reset_round_trip_witness :
  exists st0, FFD.new cube None = FFD.Built st0 /\
    finiteWeights st0 /\
    FFD.currentTransform
      (FFD.reset (performAll [MoveControlPoint 1 2 1 (vec3 0 3 0)] st0)) = identity.
Proof.
  eexists. split; [reflexivity|].
  assert (Hfin : finiteWeights
                   (FFD.mk (FFD.initializeControlPoints
                              (box3 (vec3 (-1) (-1) (-1)) (vec3 1 1 1))
                              (vec3 2 2 2) 2 2 2)
                           (FFD.initializeControlPoints
                              (box3 (vec3 (-1) (-1) (-1)) (vec3 1 1 1))
                              (vec3 2 2 2) 2 2 2)
                           (FFD.initializeControlPoints
                              (box3 (vec3 (-1) (-1) (-1)) (vec3 1 1 1))
                              (vec3 2 2 2) 2 2 2)
                           (box3 (vec3 (-1) (-1) (-1)) (vec3 1 1 1))
                           (map Some cubePositions) cubePositions 2 2 2
                           (vec3 2 2 2) identity None)).
  { unfold finiteWeights. cbn. lia. }
  split; [exact Hfin|].
  exact (proj1 (proj2 (proj2 (proj2
           (sculpt_reset_round_trip cube None _
              [MoveControlPoint 1 2 1 (vec3 0 3 0)] eq_refl Hfin))))).
Defined.

(** A mesh with a vertex half a millionth of the box extent away from the
    face x = 0. *)
Definition sliverPositions : list Q :=
  [ 0; 0; 0;   1; 1; 1;   1 # 2000000; 0; 0 ].

Definition sliver : BufferGeometry :=
  bufferGeometry (Some sliverPositions) None None.

(** C3.  [reset] does not restore the positions cached at construction:
    after a sculpt and a [reset] the third vertex of [sliver], cached at
    x = 1/2000000, sits at x = 0.  The body of [reset] first puts a copy of
    [originalPositions] into the position attribute and then calls [deform],
    which overwrites it with the blend at the snapped coordinates. *)
Theorem sculpt_reset_not_exact :
  match FFD.new sliver None with
  | FFD.Built st0 =>
      let st := FFD.reset (FFD.moveControlPoint 1 1 1 (vec3 2 2 2) st0) in
      position sliver = Some (FFD.originalPositions st) /\
      getX (FFD.originalPositions st) 2 == 1 # 2000000 /\
      exists v,
        finiteVertex (FFD.geometry st) 2 = Some v /\
        vx v == 0 /\
        ~ vx v == getX (FFD.originalPositions st) 2
  | _ => False
  end.
Proof.
  vm_compute. split; [reflexivity|]. split; [reflexivity|].
  eexists. split; [reflexivity|]. cbn [vx].
  split; [reflexivity | discriminate].
Qed.

(* ================================================================= *)
(** ** Edge splitting is bounded *)

Section Splitting.

Variable sqrt : Q -> Q.
Variable seamSegments : list SeamSegment.
Variables splitZone targetLength : Q.
Variable maxLength : nat.

(** A buffer that grew by appending. *)
Definition extends (ps ps' : list Q) : Prop := exists extra, ps' = ps ++ extra.

Lemma extends_refl (ps : list Q) : extends ps ps.
Proof. exists []. symmetry. apply app_nil_r. Qed.

Lemma extends_trans (a b c : list Q) : extends a b -> extends b c -> extends a c.
Proof. intros (x & ->) (y & ->). exists (x ++ y). symmetry. apply app_assoc. Qed.

Lemma extends_length (ps ps' : list Q) : extends ps ps' -> (length ps <= length ps')%nat.
Proof. intros (x & ->). rewrite length_app. lia. Qed.

Lemma count_lt_length (ps : list Q) (v r : nat) :
  (v < count ps)%nat -> (r < 3)%nat -> (v * 3 + r < length ps)%nat.
Proof. intros Hv Hr. pose proof (count_bound ps). lia. Qed.

Lemma extends_vertex (ps ps' : list Q) (v : nat) :
  extends ps ps' -> (v < count ps)%nat ->
  fromBufferAttribute ps' v = fromBufferAttribute ps v.
Proof.
  intros (extra & ->) Hv. unfold fromBufferAttribute, getX, getY, getZ.
  pose proof (count_lt_length ps v 0 Hv ltac:(lia)).
  pose proof (count_lt_length ps v 1 Hv ltac:(lia)).
  pose proof (count_lt_length ps v 2 Hv ltac:(lia)).
  rewrite !app_nth1 by lia. reflexivity.
Qed.

Lemma extends_edgeLength (ps ps' : list Q) (a b : nat) :
  extends ps ps' -> (a < count ps)%nat -> (b < count ps)%nat ->
  Seam.edgeLength sqrt ps' a b = Seam.edgeLength sqrt ps a b.
Proof.
  intros He Ha Hb.
  pose proof (extends_vertex ps ps' a He Ha) as Ea.
  pose proof (extends_vertex ps ps' b He Hb) as Eb.
  pose proof (f_equal vx Ea) as A1. pose proof (f_equal vy Ea) as A2.
  pose proof (f_equal vz Ea) as A3. pose proof (f_equal vx Eb) as B1.
  pose proof (f_equal vy Eb) as B2. pose proof (f_equal vz Eb) as B3.
  cbn [fromBufferAttribute vx vy vz] in A1, A2, A3, B1, B2, B3.
  unfold Seam.edgeLength. rewrite A1, A2, A3, B1, B2, B3. reflexivity.
Qed.

(** A vertex of the buffer within [splitZone] of some seam segment. *)
Definition nearVertex (ps : list Q) (v : nat) : Prop :=
  (v < count ps)%nat /\
  exists seg, In seg seamSegments /\
              Seam.distanceTo sqrt (fromBufferAttribute ps v) seg < splitZone.

Lemma nth_map_seq {A : Type} (f : nat -> A) (len i : nat) (d : A) :
  (i < len)%nat -> nth i (map f (seq 0 len)) d = f i.
Proof.
  intros H. apply nth_error_nth. apply nth_error_map_seq. exact H.
Qed.

Lemma nearSeam_true (ps : list Q) (v : nat) :
  nth v (Seam.nearSeam sqrt ps seamSegments splitZone) false = true ->
  nearVertex ps v.
Proof.
  unfold Seam.nearSeam. intros H.
  destruct (Nat.lt_ge_cases v (count ps)) as [Hv|Hv].
  - rewrite nth_map_seq in H by exact Hv.
    apply existsb_exists in H as (seg & Hin & Hlt).
    split; [exact Hv|]. exists seg. split; [exact Hin|].
    apply Qltb_true. exact Hlt.
  - rewrite nth_overflow in H by (rewrite length_map, length_seq; exact Hv).
    discriminate.
Qed.

(** What is true of every midpoint a pass over the state [st] creates: it
    splits an edge of a face, an endpoint of that edge is near the seam, and
    the edge is longer than the target length. *)
Definition justified (st : Seam.SplitState) (entry : EdgeKey * nat) : Prop :=
  exists a b,
    fst entry = edgeKey a b /\
    In (a, b) (flat_map faceEdges (facesOf (Seam.sIndices st))) /\
    (nearVertex (Seam.sPositions st) a \/ nearVertex (Seam.sPositions st) b) /\
    (exists ps', extends (Seam.sPositions st) ps' /\
                 targetLength < Seam.edgeLength sqrt ps' a b) /\
    ((a < count (Seam.sPositions st))%nat -> (b < count (Seam.sPositions st))%nat ->
     targetLength < Seam.edgeLength sqrt (Seam.sPositions st) a b).

Lemma In_mapSet {K V : Type} (eqb : K -> K -> bool) (k : K) (v : V)
    (m : list (K * V)) (x : K * V) :
  In x (mapSet eqb k v m) -> x = (k, v) \/ In x m.
Proof.
  induction m as [|[k' v'] m IH]; cbn [mapSet].
  - intros [<-|[]]. left. reflexivity.
  - destruct (eqb k k').
    + intros [<-|H]; [left; reflexivity | right; right; exact H].
    + intros [<-|H]; [right; left; reflexivity|].
      destruct (IH H) as [->|H']; [left; reflexivity | right; right; exact H'].
Qed.

Lemma mapSet_nonempty {K V : Type} (eqb : K -> K -> bool) (k : K) (v : V)
    (m : list (K * V)) : mapSet eqb k v m <> [].
Proof.
  destruct m as [|[k' v'] m]; cbn [mapSet]; [discriminate|].
  destruct (eqb k k'); discriminate.
Qed.

(** The invariant of a pass over [st]. *)
Record passInvariant (st : Seam.SplitState) (acc : Seam.PassAcc) : Prop := {
  inv_extends : extends (Seam.sPositions st) (Seam.aPositions acc);
  inv_whole : (length (Seam.aPositions acc) mod 3 = 0)%nat;
  inv_capped : (length (Seam.aPositions acc) <= maxLength)%nat;
  inv_justified : Forall (justified st) (Seam.aMidpoints acc);
  inv_unchanged :
    Seam.aMidpoints acc = [] ->
    Seam.aPositions acc = Seam.sPositions st /\
    Seam.aSeamVerts acc = Seam.sSeamVerts st }.

Lemma splitEdges_invariant (st : Seam.SplitState) (edges : list (nat * nat))
    (acc : Seam.PassAcc) :
  (maxLength mod 3 = 0)%nat ->
  incl edges (flat_map faceEdges (facesOf (Seam.sIndices st))) ->
  passInvariant st acc ->
  passInvariant st
    (Seam.splitEdges sqrt
       (Seam.nearSeam sqrt (Seam.sPositions st) seamSegments splitZone)
       targetLength maxLength edges acc).
Proof.
  intros Hmax. revert acc.
  induction edges as [|[a b] rest IH]; intros acc Hincl Hinv; cbn [Seam.splitEdges];
    [exact Hinv|].
  assert (Hrest : incl rest (flat_map faceEdges (facesOf (Seam.sIndices st))))
    by (intros e He; apply Hincl; right; exact He).
  set (near := Seam.nearSeam sqrt (Seam.sPositions st) seamSegments splitZone) in *.
  destruct (negb (nth a near false) && negb (nth b near false)) eqn:Enear;
    [apply IH; assumption|].
  destruct (mapHas edgeKeyEqb (edgeKey a b) (Seam.aMidpoints acc));
    [apply IH; assumption|].
  destruct (Qleb (Seam.edgeLength sqrt (Seam.aPositions acc) a b) targetLength)
    eqn:Elen; [apply IH; assumption|].
  destruct (Nat.leb_spec maxLength (length (Seam.aPositions acc))) as [Hcap|Hcap];
    [exact Hinv|].
  destruct Hinv as [Hext Hwhole Hcapped Hjust Hunch].
  apply IH; [exact Hrest|]. constructor; cbn [Seam.aPositions Seam.aMidpoints Seam.aSeamVerts].
  - eapply extends_trans; [exact Hext|]. eexists. reflexivity.
  - rewrite length_app. cbn [length].
    rewrite Nat.Div0.add_mod, Hwhole. reflexivity.
  - rewrite length_app. cbn [length].
    apply Nat.Div0.mod_divides in Hwhole as (c & Hc).
    apply Nat.Div0.mod_divides in Hmax as (c' & Hc'). lia.
  - apply Forall_forall. intros entry Hentry.
    apply In_mapSet in Hentry as [->|Hentry].
    + exists a, b. split; [reflexivity|]. split; [apply Hincl; left; reflexivity|].
      split.
      { apply andb_false_iff in Enear as [E|E]; apply negb_false_iff in E;
          [left | right]; apply nearSeam_true; exact E. }
      apply Qleb_false in Elen. split.
      * exists (Seam.aPositions acc). split; assumption.
      * intros Ha Hb. rewrite <- (extends_edgeLength _ _ a b Hext Ha Hb). exact Elen.
    + rewrite Forall_forall in Hjust. apply Hjust. exact Hentry.
  - intros E. exfalso. revert E. apply mapSet_nonempty.
Qed.

Lemma splitPass_invariant (st : Seam.SplitState) :
  (maxLength mod 3 = 0)%nat ->
  (length (Seam.sPositions st) mod 3 = 0)%nat ->
  (length (Seam.sPositions st) <= maxLength)%nat ->
  passInvariant st
    (Seam.splitPass sqrt seamSegments splitZone targetLength maxLength st).
Proof.
  intros Hmax Hwhole Hcap. unfold Seam.splitPass, Seam.splitFaces.
  set (near := Seam.nearSeam sqrt (Seam.sPositions st) seamSegments splitZone).
  assert (Hgen : forall faces acc,
             incl faces (facesOf (Seam.sIndices st)) ->
             passInvariant st acc ->
             passInvariant st
               (fold_left (fun acc f =>
                             Seam.splitEdges sqrt near targetLength maxLength
                               (faceEdges f) acc) faces acc)).
  { induction faces as [|f faces IH]; intros acc Hincl Hinv; cbn [fold_left];
      [exact Hinv|].
    apply IH; [intros x Hx; apply Hincl; right; exact Hx|].
    apply splitEdges_invariant; [exact Hmax | | exact Hinv].
    intros e He. apply in_flat_map. exists f. split; [|exact He].
    apply Hincl. left. reflexivity. }
  apply Hgen; [apply incl_refl|].
  constructor; cbn [Seam.aPositions Seam.aMidpoints Seam.aSeamVerts].
  - apply extends_refl.
  - exact Hwhole.
  - exact Hcap.
  - constructor.
  - intros _. split; reflexivity.
Qed.

(** Every pass but the last created a midpoint. *)
Fixpoint stopsAtEmpty (records : list Seam.PassRecord) : Prop :=
  match records with
  | [] => True
  | [_] => True
  | (_, edgeMidpoints) :: rest => edgeMidpoints <> [] /\ stopsAtEmpty rest
  end.

Lemma splitLoop_bounded (maxPasses : nat) (st : Seam.SplitState) :
  (maxLength mod 3 = 0)%nat ->
  (length (Seam.sPositions st) mod 3 = 0)%nat ->
  (length (Seam.sPositions st) <= maxLength)%nat ->
  let run := Seam.splitLoop sqrt maxPasses seamSegments splitZone targetLength
               maxLength st in
  (length (snd run) <= maxPasses)%nat /\
  extends (Seam.sPositions st) (Seam.sPositions (fst run)) /\
  (length (Seam.sPositions (fst run)) <= maxLength)%nat /\
  stopsAtEmpty (snd run) /\
  Forall (fun record => Forall (justified (fst record)) (snd record)) (snd run).
Proof.
  intros Hmax. revert st.
  induction maxPasses as [|remaining IH]; intros st Hwhole Hcap; cbn [Seam.splitLoop].
  - cbn. repeat split; try lia; try apply extends_refl; constructor.
  - destruct (Nat.leb_spec maxLength (length (Seam.sPositions st))) as [Hfull|Hroom].
    { cbn. repeat split; try lia; try apply extends_refl; constructor. }
    pose proof (splitPass_invariant st Hmax Hwhole Hcap) as Hinv.
    set (acc := Seam.splitPass sqrt seamSegments splitZone targetLength
                  maxLength st) in *.
    destruct Hinv as [Hext Hwhole' Hcapped Hjust Hunch].
    destruct (Seam.aMidpoints acc) as [|entry entries] eqn:Emid.
    + cbn. split; [lia|]. split; [exact Hext|]. split; [exact Hcapped|].
      split; [exact I|]. repeat constructor.
    + set (st' := Seam.splitState (Seam.aPositions acc) _ (Seam.aSeamVerts acc)).
      specialize (IH st' Hwhole' Hcapped).
      destruct (Seam.splitLoop sqrt remaining seamSegments splitZone targetLength
                  maxLength st') as [final records] eqn:Erun.
      cbn [fst snd] in *. destruct IH as (Hlen & Hext' & Hcap' & Hstop & Hall).
      split; [cbn [length]; lia|].
      split; [eapply extends_trans; [exact Hext | exact Hext']|].
      split; [exact Hcap'|].
      split.
      * cbn [stopsAtEmpty]. destruct records as [|r records]; [exact I|].
        split; [discriminate | exact Hstop].
      * constructor; [exact Hjust | exact Hall].
Qed.

(** The buffer stays one of whole vertices. *)
Lemma splitLoop_whole (maxPasses : nat) (st : Seam.SplitState) :
  (maxLength mod 3 = 0)%nat ->
  (length (Seam.sPositions st) mod 3 = 0)%nat ->
  (length (Seam.sPositions st) <= maxLength)%nat ->
  (length (Seam.sPositions
             (fst (Seam.splitLoop sqrt maxPasses seamSegments splitZone
                     targetLength maxLength st))) mod 3 = 0)%nat.
Proof.
  intros Hmax. revert st.
  induction maxPasses as [|remaining IH]; intros st Hwhole Hcap; cbn [Seam.splitLoop].
  - exact Hwhole.
  - destruct (Nat.leb_spec maxLength (length (Seam.sPositions st))) as [Hfull|Hroom].
    { exact Hwhole. }
    pose proof (splitPass_invariant st Hmax Hwhole Hcap) as Hinv.
    set (acc := Seam.splitPass sqrt seamSegments splitZone targetLength
                  maxLength st) in *.
    destruct Hinv as [Hext Hwhole' Hcapped Hjust Hunch].
    destruct (Seam.aMidpoints acc) as [|entry entries] eqn:Emid.
    + exact Hwhole'.
    + set (st' := Seam.splitState (Seam.aPositions acc) _ (Seam.aSeamVerts acc)).
      specialize (IH st' Hwhole' Hcapped).
      destruct (Seam.splitLoop sqrt remaining seamSegments splitZone targetLength
                  maxLength st') as [final records] eqn:Erun.
      exact IH.
Qed.

End Splitting.

(** C9.  A call of [splitSeamEdges] on a buffer of whole vertices performs
    at most [maxPasses] passes (8 for the fillet-zone call of step 4), only
    appends to the position buffer and never raises the vertex count above 5
    times the count at entry, makes no pass after one that created no
    midpoint, and creates a midpoint only for an edge of a face that has an
    endpoint within 1.2 radius of some seam segment and is longer than the
    target length (max(radius / 12, 0.003) for the fillet-zone call). *)
Theorem fillet_split_bounded
    (sqrt : Q -> Q) (positions : list Q) (indices seamVerts : list nat)
    (seamSegments : list SeamSegment) (radius targetLength : Q) (maxPasses : nat) :
  (length positions mod 3 = 0)%nat ->
  let bounded (target : Q) (passes : nat)
              (run : Seam.SplitState * list Seam.PassRecord) :=
    (length (snd run) <= passes)%nat /\
    extends positions (Seam.sPositions (fst run)) /\
    (count (Seam.sPositions (fst run)) <= 5 * count positions)%nat /\
    stopsAtEmpty (snd run) /\
    Forall (fun record =>
              Forall (justified sqrt seamSegments (radius * (12 # 10)) target
                        (fst record))
                     (snd record))
           (snd run) in
  bounded targetLength maxPasses
    (Seam.splitSeamEdgesRun sqrt positions indices seamVerts seamSegments
       radius targetLength maxPasses) /\
  bounded (Qmax (radius / 12) (3 # 1000)) 8%nat
    (Seam.filletSplitRun sqrt positions indices seamVerts seamSegments radius).
Proof.
  intros Hwhole bounded.
  assert (Hgen : forall target passes,
             bounded target passes
               (Seam.splitSeamEdgesRun sqrt positions indices seamVerts
                  seamSegments radius target passes)).
  { intros target passes. unfold bounded, Seam.splitSeamEdgesRun.
    destruct (splitLoop_bounded sqrt seamSegments (radius * (12 # 10)) target
                (length positions * 5) passes
                (Seam.splitState positions indices seamVerts))
      as (H1 & H2 & H3 & H4 & H5); cbn [Seam.sPositions].
    - rewrite Nat.Div0.mul_mod, Hwhole. reflexivity.
    - exact Hwhole.
    - lia.
    - split; [exact H1|]. split; [exact H2|]. split; [|split; assumption].
      unfold count. apply Nat.Div0.div_le_upper_bound.
      pose proof (Nat.div_mod_eq (length positions) 3) as Hdiv.
      rewrite Hwhole in Hdiv. lia. }
  split; [apply Hgen|]. apply Hgen.
Qed.

(** A triangle with the seam along its first edge. *)
Definition seamTriangle : list Q := [0;0;0; 1;0;0; 0;1;0].

Lemma fillet_split_bounded_witness :
  (length (snd (Seam.splitSeamEdgesRun Qsqrt seamTriangle [0; 1; 2]%nat [0; 1]%nat
                  [seamSegment (vec3 0 0 0) (vec3 1 0 0)] (1 # 2) (3 # 4) 2))
   <= 2)%nat.
Proof.
  pose proof (fillet_split_bounded Qsqrt seamTriangle [0; 1; 2]%nat [0; 1]%nat
                [seamSegment (vec3 0 0 0) (vec3 1 0 0)] (1 # 2) (3 # 4) 2 eq_refl)
    as H.
  cbv zeta beta in H. destruct H as ((H & _) & _). exact H.
Defined.

(* ================================================================= *)
(** ** The union-find of the boundary weld *)

Lemma mapGet_mapSet_nat {V : Type} (k k' : nat) (v : V) (m : list (nat * V)) :
  mapGet Nat.eqb k' (mapSet Nat.eqb k v m) =
  if (k' =? k)%nat then Some v else mapGet Nat.eqb k' m.
Proof.
  induction m as [|[k0 v0] m IH]; cbn [mapSet mapGet].
  - destruct (k' =? k)%nat; reflexivity.
  - destruct (Nat.eqb_spec k k0) as [->|Hk]; cbn [mapGet].
    + destruct (k' =? k0)%nat; reflexivity.
    + destruct (Nat.eqb_spec k' k0) as [->|Hk'].
      * destruct (Nat.eqb_spec k0 k); [congruence | reflexivity].
      * exact IH.
Qed.

Lemma parentOf_mapSet (parent : Seam.Parent) (x v y : nat) :
  Seam.parentOf (mapSet Nat.eqb x v parent) y =
  if (y =? x)%nat then v else Seam.parentOf parent y.
Proof.
  unfold Seam.parentOf. rewrite mapGet_mapSet_nat.
  destruct (y =? x)%nat; reflexivity.
Qed.

Section UnionFind.

(** The vertices the union-find works on. *)
Variable vertices : list nat.

(** The parent pointers form a forest: ranks grow strictly towards the
    roots and stay below [bound]. *)
Definition forest (parent : Seam.Parent) (rank : nat -> nat) (bound : nat) : Prop :=
  (forall x, Seam.parentOf parent x <> x ->
             (rank x < rank (Seam.parentOf parent x))%nat) /\
  (forall x, (rank x <= bound)%nat).

Definition isRoot (parent : Seam.Parent) (x : nat) : Prop :=
  Seam.parentOf parent x = x.

(** How one map follows from another: roots stay roots unless merged into
    another tree, and a vertex that has a parent never becomes a root. *)
Definition keepsNonRoots (parent parent' : Seam.Parent) : Prop :=
  forall z, ~ isRoot parent z -> ~ isRoot parent' z.

Definition keepsRoots (parent parent' : Seam.Parent) : Prop :=
  forall z, isRoot parent z -> isRoot parent' z.

Definition closed (parent : Seam.Parent) : Prop :=
  forall x, In x vertices -> In (Seam.parentOf parent x) vertices.

Lemma findLoop_root (fuel : nat) (parent : Seam.Parent) (rank : nat -> nat)
    (bound x : nat) :
  forest parent rank bound -> closed parent -> In x vertices ->
  (bound - rank x < fuel)%nat ->
  let result := Seam.findLoop fuel parent x in
  forest (fst result) rank bound /\ closed (fst result) /\
  isRoot (fst result) (snd result) /\ In (snd result) vertices /\
  keepsNonRoots parent (fst result) /\ keepsRoots parent (fst result).
Proof.
  revert parent x. induction fuel as [|fuel IH]; intros parent x Hf Hc Hx Hfuel;
    [lia|].
  cbn [Seam.findLoop].
  destruct (Nat.eqb_spec (Seam.parentOf parent x) x) as [Hroot|Hnon].
  - cbn [fst snd]. split; [exact Hf|]. split; [exact Hc|]. split; [exact Hroot|].
    split; [exact Hx|]. split; intros z Hz; exact Hz.
  - destruct Hf as [Hrank Hbound].
    set (px := Seam.parentOf parent x) in *.
    set (gp := Seam.parentOf parent px).
    assert (Hgp : (rank x < rank gp)%nat).
    { pose proof (Hrank x Hnon) as H1. fold px in H1.
      destruct (Nat.eq_dec gp px) as [E|E]; [rewrite E; exact H1|].
      pose proof (Hrank px E). fold gp in H. lia. }
    set (parent1 := mapSet Nat.eqb x gp parent).
    assert (Hp1 : forall y, Seam.parentOf parent1 y
                            = if (y =? x)%nat then gp else Seam.parentOf parent y)
      by (intros y; apply parentOf_mapSet).
    assert (Hf1 : forest parent1 rank bound).
    { split; [|exact Hbound]. intros y. rewrite Hp1.
      destruct (Nat.eqb_spec y x) as [E|Hyx].
      - intros _. rewrite E. exact Hgp.
      - apply Hrank. }
    assert (Hc1 : closed parent1).
    { intros y Hy. rewrite Hp1. destruct (Nat.eqb_spec y x) as [E|Hyx].
      - unfold gp. apply Hc. apply Hc. exact Hx.
      - apply Hc. exact Hy. }
    assert (Hnext : Seam.parentOf parent1 x = gp)
      by (rewrite Hp1, Nat.eqb_refl; reflexivity).
    rewrite Hnext.
    assert (Hgpin : In gp vertices) by (unfold gp; apply Hc, Hc, Hx).
    pose proof (Hbound gp).
    destruct (IH parent1 gp Hf1 Hc1 Hgpin ltac:(lia))
      as (R1 & R2 & R3 & R4 & R5 & R6).
    split; [exact R1|]. split; [exact R2|]. split; [exact R3|].
    split; [exact R4|]. split.
    + intros z Hz. apply R5. unfold isRoot in *. rewrite Hp1.
      destruct (Nat.eqb_spec z x) as [E|Hzx]; [|exact Hz].
      intros Heq. rewrite E in Heq. rewrite Heq in Hgp. lia.
    + intros z Hz. apply R6. unfold isRoot in *. rewrite Hp1.
      destruct (Nat.eqb_spec z x) as [E|Hzx]; [|exact Hz].
      exfalso. apply Hnon. unfold px. rewrite <- E. exact Hz.
Qed.

Lemma mapHas_parentOf (parent : Seam.Parent) (x : nat) :
  mapHas Nat.eqb x parent = false -> Seam.parentOf parent x = x.
Proof.
  unfold mapHas, Seam.parentOf. destruct (mapGet Nat.eqb x parent); [discriminate|].
  reflexivity.
Qed.

(** The map [find] starts its loop from: [x] is a key. *)
Definition ensureKey (parent : Seam.Parent) (x : nat) : Seam.Parent :=
  if mapHas Nat.eqb x parent then parent else mapSet Nat.eqb x x parent.

Lemma parentOf_ensureKey (parent : Seam.Parent) (x y : nat) :
  Seam.parentOf (ensureKey parent x) y = Seam.parentOf parent y.
Proof.
  unfold ensureKey. destruct (mapHas Nat.eqb x parent) eqn:E; [reflexivity|].
  rewrite parentOf_mapSet. destruct (Nat.eqb_spec y x) as [->|]; [|reflexivity].
  symmetry. apply mapHas_parentOf. exact E.
Qed.

(** [find] ends on a root of the set, for fuel above the rank bound. *)
Lemma find_root (fuel : nat) (parent : Seam.Parent) (rank : nat -> nat)
    (bound x : nat) :
  forest parent rank bound -> closed parent -> In x vertices ->
  (bound < fuel)%nat ->
  let result := Seam.find fuel parent x in
  forest (fst result) rank bound /\ closed (fst result) /\
  isRoot (fst result) (snd result) /\ In (snd result) vertices /\
  keepsNonRoots parent (fst result) /\ keepsRoots parent (fst result).
Proof.
  intros Hf Hc Hx Hfuel. unfold Seam.find. fold (ensureKey parent x).
  assert (Hsame : forall y, Seam.parentOf (ensureKey parent x) y
                            = Seam.parentOf parent y)
    by (intros; apply parentOf_ensureKey).
  assert (Hf0 : forest (ensureKey parent x) rank bound).
  { destruct Hf as [Hr Hb]. split; [|exact Hb]. intros y. rewrite Hsame. apply Hr. }
  assert (Hc0 : closed (ensureKey parent x)).
  { intros y Hy. rewrite Hsame. apply Hc. exact Hy. }
  destruct (findLoop_root fuel (ensureKey parent x) rank bound x Hf0 Hc0 Hx
              ltac:(lia)) as (R1 & R2 & R3 & R4 & R5 & R6).
  split; [exact R1|]. split; [exact R2|]. split; [exact R3|].
  split; [exact R4|]. split.
  - intros z Hz. apply R5. unfold isRoot in *. rewrite Hsame. exact Hz.
  - intros z Hz. apply R6. unfold isRoot in *. rewrite Hsame. exact Hz.
Qed.

Lemma find_of_root (fuel : nat) (parent : Seam.Parent) (x : nat) :
  isRoot parent x -> snd (Seam.find fuel parent x) = x.
Proof.
  intros H. unfold Seam.find. fold (ensureKey parent x).
  assert (H' : Seam.parentOf (ensureKey parent x) x = x)
    by (rewrite parentOf_ensureKey; exact H).
  destruct fuel as [|fuel]; cbn [Seam.findLoop]; [reflexivity|].
  rewrite H', Nat.eqb_refl. reflexivity.
Qed.

(** [union] keeps a forest, with a bound one higher, and makes the second
    of two distinct roots a child of the first. *)
Lemma union_forest (fuel : nat) (parent : Seam.Parent) (rank : nat -> nat)
    (bound a b : nat) :
  forest parent rank bound -> closed parent ->
  In a vertices -> In b vertices -> (bound < fuel)%nat ->
  let parent' := Seam.union fuel parent a b in
  (exists rank', forest parent' rank' (S bound)) /\ closed parent' /\
  keepsNonRoots parent parent' /\
  (isRoot parent a -> isRoot parent b -> a <> b -> ~ isRoot parent' b).
Proof.
  intros Hf Hc Ha Hb Hfuel. unfold Seam.union.
  destruct (find_root fuel parent rank bound a Hf Hc Ha Hfuel)
    as (F1 & C1 & R1 & I1 & N1 & K1).
  pose proof (find_of_root fuel parent a) as Ea.
  destruct (Seam.find fuel parent a) as [parent1 ra]. cbn [fst snd] in *.
  destruct (find_root fuel parent1 rank bound b F1 C1 Hb Hfuel)
    as (F2 & C2 & R2 & I2 & N2 & K2).
  pose proof (find_of_root fuel parent1 b) as Eb.
  destruct (Seam.find fuel parent1 b) as [parent2 rb]. cbn [fst snd] in *.
  assert (Hra : isRoot parent2 ra) by (apply K2; exact R1).
  destruct (Nat.eqb_spec ra rb) as [E|E].
  - split; [|split; [|split]].
    + exists rank. destruct F2 as [Hr Hbd]. split; [exact Hr|]. intros x.
      pose proof (Hbd x). lia.
    + exact C2.
    + intros z Hz. apply N2, N1, Hz.
    + intros Hra' Hrb' Hab. exfalso. apply Hab.
      rewrite <- (Ea Hra'), <- (Eb (K1 _ Hrb')). exact E.
  - assert (Hp : forall y, Seam.parentOf (mapSet Nat.eqb rb ra parent2) y
                           = if (y =? rb)%nat then ra else Seam.parentOf parent2 y)
      by (intros; apply parentOf_mapSet).
    split; [|split; [|split]].
    + exists (fun x => if (x =? ra)%nat
                       then Nat.max (rank ra) (S (rank rb)) else rank x).
      destruct F2 as [Hr Hbd]. split.
      * intros y. rewrite Hp.
        destruct (Nat.eqb_spec y rb) as [Eyb|Hyrb].
        -- intros _. rewrite Eyb, Nat.eqb_refl.
           destruct (Nat.eqb_spec rb ra); [congruence|]. lia.
        -- intros Hy. destruct (Nat.eqb_spec y ra) as [Eya|Hyra].
           ++ exfalso. apply Hy. rewrite Eya. exact Hra.
           ++ pose proof (Hr y Hy).
              destruct (Nat.eqb_spec (Seam.parentOf parent2 y) ra) as [Epa|Hpa];
                [rewrite Epa in *|]; lia.
      * intros x. pose proof (Hbd x). pose proof (Hbd ra). pose proof (Hbd rb).
        destruct (x =? ra)%nat; lia.
    + intros y Hy. rewrite Hp. destruct (y =? rb)%nat; [exact I1 | apply C2, Hy].
    + intros z Hz. unfold isRoot. rewrite Hp.
      destruct (Nat.eqb_spec z rb) as [Ezb|Hzrb]; [congruence|].
      apply N2, N1, Hz.
    + intros Hra' Hrb' Hab. unfold isRoot. rewrite Hp.
      rewrite <- (Eb (K1 _ Hrb')) at 1. rewrite Nat.eqb_refl.
      rewrite (Ea Hra'). exact Hab.
Qed.

End UnionFind.

Section WeldLoop.

Variable vertices : list nat.
Variable fuel : nat.
Variable positions : list Q.
Variable tolSq : Q.

(** The invariant of the merge loops: a forest within the rank bound, closed
    over the vertex set, with a non-root vertex once anything was merged. *)
Definition weldInvariant (bound : nat) (st : Seam.Parent * nat) : Prop :=
  (exists rank, forest (fst st) rank bound) /\
  closed vertices (fst st) /\
  ((0 < snd st)%nat -> exists z, In z vertices /\ ~ isRoot (fst st) z).

Lemma forest_weaken (parent : Seam.Parent) (rank : nat -> nat) (b b' : nat) :
  (b <= b')%nat -> forest parent rank b -> forest parent rank b'.
Proof.
  intros Hle (Hr & Hb). split; [exact Hr|]. intros x. pose proof (Hb x). lia.
Qed.

Lemma isRoot_dec (parent : Seam.Parent) (x : nat) :
  {isRoot parent x} + {~ isRoot parent x}.
Proof. unfold isRoot. apply Nat.eq_dec. Qed.

Lemma mergePair_invariant (bound vi vj : nat) (st : Seam.Parent * nat) :
  weldInvariant bound st -> In vi vertices -> In vj vertices ->
  (bound < fuel)%nat ->
  weldInvariant (S bound) (Seam.mergePair fuel positions tolSq vi vj st) /\
  keepsNonRoots (fst st) (fst (Seam.mergePair fuel positions tolSq vi vj st)).
Proof.
  intros ((rank & Hf) & Hc & Hm) Hvi Hvj Hfuel.
  destruct st as [parent mergeCount]. cbn [fst snd] in *.
  unfold Seam.mergePair.
  destruct (find_root vertices fuel parent rank bound vi Hf Hc Hvi Hfuel)
    as (F1 & C1 & R1 & I1 & N1 & K1).
  pose proof (find_of_root fuel parent vi) as Ei.
  destruct (Seam.find fuel parent vi) as [parent1 ri]. cbn [fst snd] in *.
  destruct (find_root vertices fuel parent1 rank bound vj F1 C1 Hvj Hfuel)
    as (F2 & C2 & R2 & I2 & N2 & K2).
  pose proof (find_of_root fuel parent1 vj) as Ej.
  destruct (Seam.find fuel parent1 vj) as [parent2 rj]. cbn [fst snd] in *.
  assert (N12 : keepsNonRoots parent parent2) by (intros z Hz; apply N2, N1, Hz).
  assert (Hkeep : weldInvariant (S bound) (parent2, mergeCount)).
  { split; [exists rank; apply (forest_weaken _ _ bound); [lia | exact F2]|].
    split; [exact C2|]. cbn [fst snd]. intros Hpos.
    destruct (Hm Hpos) as (z & Hz & Hnr). exists z. split; [exact Hz|].
    apply N12. exact Hnr. }
  destruct (Nat.eqb_spec ri rj) as [E|E]; [split; [exact Hkeep | exact N12]|].
  destruct (Qltb (Seam.distanceSquared positions vi vj) tolSq);
    [|split; [exact Hkeep | exact N12]].
  destruct (union_forest vertices fuel parent2 rank bound vi vj F2 C2 Hvi Hvj Hfuel)
    as ((rank' & F3) & C3 & N3 & Hnew).
  cbn [fst snd]. split.
  - split; [exists rank'; exact F3|]. split; [exact C3|]. intros _.
    destruct (isRoot_dec parent2 vi) as [Hri|Hri].
    + destruct (isRoot_dec parent2 vj) as [Hrj|Hrj].
      * exists vj. split; [exact Hvj|]. apply Hnew; [exact Hri | exact Hrj|].
        intros Eq. apply E.
        assert (isRoot parent vi).
        { destruct (isRoot_dec parent vi) as [H|H]; [exact H|].
          exfalso. apply (N12 _ H). exact Hri. }
        assert (isRoot parent1 vj).
        { destruct (isRoot_dec parent1 vj) as [H'|H']; [exact H'|].
          exfalso. apply (N2 _ H'). exact Hrj. }
        rewrite (Ei H), (Ej H0). exact Eq.
      * exists vj. split; [exact Hvj|]. apply N3. exact Hrj.
    + exists vi. split; [exact Hvi|]. apply N3. exact Hri.
  - intros z Hz. apply N3, N12, Hz.
Qed.

Lemma mergeRow_invariant (vi : nat) (row : list nat) (bound : nat)
    (st : Seam.Parent * nat) :
  weldInvariant bound st -> In vi vertices -> incl row vertices ->
  (bound + length row <= fuel)%nat ->
  let st' := fold_left (fun st vj => Seam.mergePair fuel positions tolSq vi vj st)
                       row st in
  weldInvariant (bound + length row) st' /\ keepsNonRoots (fst st) (fst st').
Proof.
  revert bound st. induction row as [|vj row IH]; intros bound st Hinv Hvi Hrow Hfuel;
    cbn [fold_left length].
  - rewrite Nat.add_0_r. split; [exact Hinv | intros z Hz; exact Hz].
  - cbn [length] in Hfuel.
    destruct (mergePair_invariant bound vi vj st Hinv Hvi
                (Hrow vj (or_introl eq_refl)) ltac:(lia)) as (H1 & N1).
    destruct (IH (S bound) _ H1 Hvi (fun x Hx => Hrow x (or_intror Hx)) ltac:(lia))
      as (H2 & N2).
    replace (bound + S (length row))%nat with (S bound + length row)%nat by lia.
    split; [exact H2 | intros z Hz; apply N2, N1, Hz].
Qed.

Fixpoint pairCount (xs : list nat) : nat :=
  match xs with
  | [] => 0
  | _ :: rest => length rest + pairCount rest
  end.

Lemma pairCount_bound (xs : list nat) : (pairCount xs <= length xs * length xs)%nat.
Proof.
  induction xs as [|x xs IH]; cbn [pairCount length]; lia.
Qed.

Lemma mergeLoop_invariant (xs : list nat) (bound : nat) (st : Seam.Parent * nat) :
  weldInvariant bound st -> incl xs vertices ->
  (bound + pairCount xs <= fuel)%nat ->
  weldInvariant (bound + pairCount xs) (Seam.mergeLoop fuel positions tolSq xs st).
Proof.
  revert bound st. induction xs as [|vi xs IH]; intros bound st Hinv Hxs Hfuel;
    cbn [Seam.mergeLoop pairCount].
  - rewrite Nat.add_0_r. exact Hinv.
  - cbn [pairCount] in Hfuel.
    destruct (mergeRow_invariant vi xs bound st Hinv
                (Hxs vi (or_introl eq_refl)) (fun x Hx => Hxs x (or_intror Hx))
                ltac:(lia)) as (H1 & _).
    replace (bound + (length xs + pairCount xs))%nat
      with ((bound + length xs) + pairCount xs)%nat by lia.
    apply IH; [exact H1 | intros x Hx; apply Hxs; right; exact Hx | lia].
Qed.

(** The remapped buffer holds no vertex that had a parent, and nothing but
    old indices and vertices of the set. *)
Lemma remapIndices_spec (indices : list nat) (parent : Seam.Parent)
    (rank : nat -> nat) (bound z : nat) :
  forest parent rank bound -> closed vertices parent -> (bound < fuel)%nat ->
  In z vertices -> ~ isRoot parent z ->
  let welded := Seam.remapIndices fuel vertices parent indices in
  ~ In z welded /\ incl welded (indices ++ vertices).
Proof.
  revert parent. induction indices as [|x indices IH];
    intros parent Hf Hc Hfuel Hz Hnr; cbn [Seam.remapIndices].
  - split; [intros [] | intros y []].
  - destruct (setHas x vertices) eqn:Ex.
    + assert (Hx : In x vertices).
      { unfold setHas in Ex. apply existsb_exists in Ex as (y & Hy & E).
        apply Nat.eqb_eq in E. subst y. exact Hy. }
      destruct (find_root vertices fuel parent rank bound x Hf Hc Hx Hfuel)
        as (F1 & C1 & R1 & I1 & N1 & K1).
      destruct (Seam.find fuel parent x) as [parent' r]. cbn [fst snd] in *.
      destruct (IH parent' F1 C1 Hfuel Hz (N1 _ Hnr)) as (Hnot & Hincl).
      split.
      * intros [E|Hin]; [|exact (Hnot Hin)]. subst r. apply (N1 _ Hnr). exact R1.
      * intros y [<-|Hy].
        -- apply in_or_app. right. exact I1.
        -- destruct (in_app_or _ _ _ (Hincl y Hy)) as [H|H].
           ++ apply in_or_app. left. right. exact H.
           ++ apply in_or_app. right. exact H.
    + destruct (IH parent Hf Hc Hfuel Hz Hnr) as (Hnot & Hincl).
      split.
      * intros [E|Hin]; [|exact (Hnot Hin)]. subst x.
        assert (setHas z vertices = true).
        { unfold setHas. apply existsb_exists. exists z. split; [exact Hz|].
          apply Nat.eqb_refl. }
        congruence.
      * intros y [<-|Hy].
        -- apply in_or_app. left. left. reflexivity.
        -- destruct (in_app_or _ _ _ (Hincl y Hy)) as [H|H].
           ++ apply in_or_app. left. right. exact H.
           ++ apply in_or_app. right. exact H.
Qed.

(** While nothing is merged, every key of the map is its own parent. *)
Definition trivial (parent : Seam.Parent) : Prop := forall x, isRoot parent x.

Lemma find_trivial (parent : Seam.Parent) (x : nat) :
  trivial parent ->
  trivial (fst (Seam.find fuel parent x)) /\ snd (Seam.find fuel parent x) = x.
Proof.
  intros H. split; [|apply find_of_root, H].
  unfold Seam.find. fold (ensureKey parent x).
  assert (H' : Seam.parentOf (ensureKey parent x) x = x)
    by (rewrite parentOf_ensureKey; apply H).
  destruct fuel as [|fuel']; cbn [Seam.findLoop].
  - intros y. unfold isRoot. cbn [fst]. rewrite parentOf_ensureKey. apply H.
  - rewrite H', Nat.eqb_refl. intros y. unfold isRoot. cbn [fst].
    rewrite parentOf_ensureKey. apply H.
Qed.

Lemma mergePair_count (vi vj : nat) (st : Seam.Parent * nat) :
  (snd st <= snd (Seam.mergePair fuel positions tolSq vi vj st))%nat.
Proof.
  destruct st as [parent mergeCount]. unfold Seam.mergePair.
  destruct (Seam.find fuel parent vi) as [parent1 ri].
  destruct (Seam.find fuel parent1 vj) as [parent2 rj].
  destruct (ri =? rj)%nat; [cbn; lia|].
  destruct (Qltb _ _); cbn; lia.
Qed.

Lemma mergePair_none (vi vj : nat) (parent : Seam.Parent) :
  trivial parent -> vi <> vj ->
  snd (Seam.mergePair fuel positions tolSq vi vj (parent, 0%nat)) = 0%nat ->
  trivial (fst (Seam.mergePair fuel positions tolSq vi vj (parent, 0%nat))) /\
  Qltb (Seam.distanceSquared positions vi vj) tolSq = false.
Proof.
  intros Ht Hne. unfold Seam.mergePair.
  destruct (find_trivial parent vi Ht) as (T1 & E1).
  destruct (Seam.find fuel parent vi) as [parent1 ri]. cbn [fst snd] in *.
  destruct (find_trivial parent1 vj T1) as (T2 & E2).
  destruct (Seam.find fuel parent1 vj) as [parent2 rj]. cbn [fst snd] in *.
  subst ri rj. destruct (Nat.eqb_spec vi vj) as [E|_]; [contradiction|].
  destruct (Qltb (Seam.distanceSquared positions vi vj) tolSq); cbn [fst snd].
  - discriminate.
  - intros _. split; [exact T2 | reflexivity].
Qed.

Lemma mergeRow_count (vi : nat) (row : list nat) (st : Seam.Parent * nat) :
  (snd st <= snd (fold_left (fun st vj => Seam.mergePair fuel positions tolSq vi vj st)
                            row st))%nat.
Proof.
  revert st. induction row as [|vj row IH]; intros st; cbn [fold_left]; [lia|].
  pose proof (mergePair_count vi vj st). pose proof (IH (Seam.mergePair fuel positions tolSq vi vj st)).
  lia.
Qed.

Lemma mergeLoop_count (xs : list nat) (st : Seam.Parent * nat) :
  (snd st <= snd (Seam.mergeLoop fuel positions tolSq xs st))%nat.
Proof.
  revert st. induction xs as [|vi xs IH]; intros st; cbn [Seam.mergeLoop]; [lia|].
  pose proof (mergeRow_count vi xs st).
  pose proof (IH (fold_left (fun st vj => Seam.mergePair fuel positions tolSq vi vj st)
                            xs st)). lia.
Qed.

Lemma mergeRow_none (vi : nat) (row : list nat) (parent : Seam.Parent) :
  trivial parent -> ~ In vi row ->
  let st' := fold_left (fun st vj => Seam.mergePair fuel positions tolSq vi vj st)
                       row (parent, 0%nat) in
  snd st' = 0%nat ->
  trivial (fst st') /\
  forall vj, In vj row -> Qltb (Seam.distanceSquared positions vi vj) tolSq = false.
Proof.
  revert parent. induction row as [|vj row IH]; intros parent Ht Hnotin;
    cbn [fold_left].
  - intros _. split; [exact Ht | intros vj []].
  - intros Hzero.
    pose proof (mergeRow_count vi row
                  (Seam.mergePair fuel positions tolSq vi vj (parent, 0%nat))) as Hmono.
    cbv zeta in Hzero. rewrite Hzero in Hmono.
    assert (Hz : snd (Seam.mergePair fuel positions tolSq vi vj (parent, 0%nat)) = 0%nat)
      by lia.
    destruct (mergePair_none vi vj parent Ht
                (fun E => Hnotin (or_introl (eq_sym E))) Hz) as (T1 & Hfar).
    destruct (Seam.mergePair fuel positions tolSq vi vj (parent, 0%nat))
      as [parent1 c1] eqn:Epair.
    cbn [fst snd] in *. subst c1.
    destruct (IH parent1 T1 (fun H => Hnotin (or_intror H)) Hzero) as (T2 & Hrest).
    split; [exact T2|]. intros v [<-|Hv]; [exact Hfar | apply Hrest; exact Hv].
Qed.

(** If the loops end with nothing merged, every pair they visited failed the
    distance test. *)
Lemma mergeLoop_none (xs : list nat) (parent : Seam.Parent) :
  trivial parent -> NoDup xs ->
  snd (Seam.mergeLoop fuel positions tolSq xs (parent, 0%nat)) = 0%nat ->
  forall vi vj, In vi xs -> In vj xs -> vi <> vj ->
    Qltb (Seam.distanceSquared positions vi vj) tolSq = false \/
    Qltb (Seam.distanceSquared positions vj vi) tolSq = false.
Proof.
  revert parent. induction xs as [|v xs IH]; intros parent Ht Hnd Hzero vi vj Hvi Hvj Hne;
    [destruct Hvi|].
  cbn [Seam.mergeLoop] in Hzero. inversion Hnd as [|? ? Hnotin Hnd']. subst.
  pose proof (mergeLoop_count xs
                (fold_left (fun st vj => Seam.mergePair fuel positions tolSq v vj st)
                           xs (parent, 0%nat))) as Hmono.
  rewrite Hzero in Hmono.
  assert (Hz : snd (fold_left (fun st vj => Seam.mergePair fuel positions tolSq v vj st)
                              xs (parent, 0%nat)) = 0%nat) by lia.
  destruct (mergeRow_none v xs parent Ht Hnotin Hz) as (T1 & Hrow).
  destruct (fold_left (fun st vj => Seam.mergePair fuel positions tolSq v vj st)
                      xs (parent, 0%nat)) as [parent1 c1] eqn:Erow.
  cbn [fst snd] in *. subst c1.
  destruct Hvi as [<-|Hvi], Hvj as [<-|Hvj].
  - contradiction.
  - left. apply Hrow. exact Hvj.
  - right. apply Hrow. exact Hvi.
  - apply (IH parent1 T1 Hnd' Hzero vi vj Hvi Hvj Hne).
Qed.

End WeldLoop.

(* ================================================================= *)
(** ** One boundary-weld pass *)

Lemma edgeKeyEqb_spec (a b : EdgeKey) : reflect (a = b) (edgeKeyEqb a b).
Proof.
  destruct a as [a1 a2], b as [b1 b2]. unfold edgeKeyEqb. cbn [fst snd].
  destruct (Nat.eqb_spec a1 b1) as [->|H1]; cbn [andb].
  - destruct (Nat.eqb_spec a2 b2) as [->|H2]; constructor; congruence.
  - constructor. congruence.
Qed.

Lemma mapGet_mapSet_edge {V : Type} (k k' : EdgeKey) (v : V)
    (m : list (EdgeKey * V)) :
  mapGet edgeKeyEqb k' (mapSet edgeKeyEqb k v m) =
  if edgeKeyEqb k' k then Some v else mapGet edgeKeyEqb k' m.
Proof.
  induction m as [|[k0 v0] m IH]; cbn [mapSet mapGet].
  - destruct (edgeKeyEqb k' k); reflexivity.
  - destruct (edgeKeyEqb_spec k k0) as [->|Hk]; cbn [mapGet].
    + destruct (edgeKeyEqb k' k0); reflexivity.
    + destruct (edgeKeyEqb_spec k' k0) as [->|Hk'].
      * destruct (edgeKeyEqb_spec k0 k); [congruence | reflexivity].
      * exact IH.
Qed.

Lemma mapGet_In {V : Type} (k : EdgeKey) (v : V) (m : list (EdgeKey * V)) :
  mapGet edgeKeyEqb k m = Some v -> In (k, v) m.
Proof.
  induction m as [|[k0 v0] m IH]; cbn [mapGet]; [discriminate|].
  destruct (edgeKeyEqb_spec k k0) as [->|Hk].
  - intros H. injection H as ->. left. reflexivity.
  - intros H. right. apply IH. exact H.
Qed.

(** In how many face edges the undirected edge between [a] and [b] occurs. *)
Definition edgeUse (indices : list nat) (a b : nat) : nat :=
  length (filter (fun e => edgeKeyEqb (edgeKey (fst e) (snd e)) (edgeKey a b))
                 (flat_map faceEdges (facesOf indices))).

(** A boundary vertex: an end of an edge that lies in exactly one face. *)
Definition boundaryVertex (indices : list nat) (v : nat) : Prop :=
  exists w, edgeUse indices v w = 1%nat.

Lemma fold_left_flat_map {A B C : Type} (f : A -> C -> A) (g : B -> list C)
    (xs : list B) (a : A) :
  fold_left (fun acc x => fold_left f (g x) acc) xs a
  = fold_left f (flat_map g xs) a.
Proof.
  revert a. induction xs as [|x xs IH]; intros a; cbn [fold_left flat_map];
    [reflexivity|].
  rewrite fold_left_app. apply IH.
Qed.

Lemma countEdge_fold (edges : list (nat * nat)) (m : list (EdgeKey * nat))
    (key : EdgeKey) :
  let uses :=
    length (filter (fun e => edgeKeyEqb (edgeKey (fst e) (snd e)) key) edges) in
  mapGet edgeKeyEqb key (fold_left Seam.countEdge edges m) =
  match mapGet edgeKeyEqb key m, uses with
  | None, O => None
  | None, S _ => Some uses
  | Some c, _ => Some (c + uses)%nat
  end.
Proof.
  revert m. induction edges as [|e edges IH]; intros m; cbn [fold_left filter length].
  - destruct (mapGet edgeKeyEqb key m) as [c|]; [rewrite Nat.add_0_r|]; reflexivity.
  - cbv zeta in IH. rewrite IH. unfold Seam.countEdge at 1.
    rewrite mapGet_mapSet_edge.
    destruct (edgeKeyEqb_spec key (edgeKey (fst e) (snd e))) as [E|E].
    + rewrite <- E.
      destruct (edgeKeyEqb_spec key key) as [_|N]; [|congruence].
      cbn [length]. destruct (mapGet edgeKeyEqb key m) as [c|]; f_equal; lia.
    + destruct (edgeKeyEqb_spec (edgeKey (fst e) (snd e)) key) as [E'|_];
        [congruence | reflexivity].
Qed.

Lemma countEdges_use (indices : list nat) (a b : nat) :
  edgeUse indices a b = 1%nat ->
  In (edgeKey a b, 1%nat) (Seam.countEdges (facesOf indices)).
Proof.
  intros H. apply mapGet_In. unfold Seam.countEdges.
  rewrite fold_left_flat_map.
  pose proof (countEdge_fold (flat_map faceEdges (facesOf indices)) [] (edgeKey a b))
    as E.
  cbv zeta in E. unfold edgeUse in H. rewrite H in E. exact E.
Qed.

Lemma In_setAdd (x y : nat) (s : list nat) :
  In y (setAdd x s) <-> y = x \/ In y s.
Proof.
  unfold setAdd. destruct (setHas x s) eqn:E.
  - split; [intros H; right; exact H|]. intros [->|H]; [|exact H].
    unfold setHas in E. apply existsb_exists in E as (z & Hz & Ez).
    apply Nat.eqb_eq in Ez. subst z. exact Hz.
  - rewrite in_app_iff. cbn [In]. split.
    + intros [H|[<-|[]]]; [right; exact H | left; reflexivity].
    + intros [->|H]; [right; left; reflexivity | left; exact H].
Qed.

Lemma NoDup_setAdd (x : nat) (s : list nat) : NoDup s -> NoDup (setAdd x s).
Proof.
  intros H. unfold setAdd. destruct (setHas x s) eqn:E; [exact H|].
  apply NoDup_app; [exact H | repeat constructor; intros [] |].
  intros y Hy [Exy|[]]. unfold setHas in E.
  assert (existsb (Nat.eqb x) s = true); [|congruence].
  apply existsb_exists. exists y. split; [exact Hy|].
  apply Nat.eqb_eq. exact Exy.
Qed.

Lemma boundaryVertices_spec (m : list (EdgeKey * nat)) :
  NoDup (Seam.boundaryVertices m) /\
  forall v, In v (Seam.boundaryVertices m) <->
            exists a b, In ((a, b), 1%nat) m /\ (v = a \/ v = b).
Proof.
  unfold Seam.boundaryVertices.
  assert (Hgen : forall bv,
             NoDup bv ->
             let result :=
               fold_left (fun bv (entry : EdgeKey * nat) =>
                            let '((a, b), c) := entry in
                            if (c =? 1)%nat then setAdd b (setAdd a bv) else bv)
                         m bv in
             NoDup result /\
             forall v, In v result <->
                       In v bv \/ exists a b, In ((a, b), 1%nat) m /\ (v = a \/ v = b)).
  { induction m as [|[[a b] c] m IH]; intros bv Hnd; cbn [fold_left].
    - split; [exact Hnd|]. intros v. split; [intros H; left; exact H|].
      intros [H|(a & b & [] & _)]. exact H.
    - destruct (Nat.eqb_spec c 1) as [->|Hc].
      + destruct (IH _ (NoDup_setAdd b _ (NoDup_setAdd a _ Hnd))) as (N & Hiff).
        split; [exact N|]. intros v. rewrite Hiff, !In_setAdd. split.
        * intros [[->|[->|H]]|(a' & b' & Hin & Hv)].
          -- right. exists a, b. split; [left; reflexivity | right; reflexivity].
          -- right. exists a, b. split; [left; reflexivity | left; reflexivity].
          -- left. exact H.
          -- right. exists a', b'. split; [right; exact Hin | exact Hv].
        * intros [H|(a' & b' & [E|Hin] & Hv)].
          -- left. right. right. exact H.
          -- injection E as -> ->. destruct Hv as [->| ->]; left; tauto.
          -- right. exists a', b'. split; assumption.
      + destruct (IH bv Hnd) as (N & Hiff). split; [exact N|].
        intros v. rewrite Hiff. split.
        * intros [H|(a' & b' & Hin & Hv)]; [left; exact H|].
          right. exists a', b'. split; [right; exact Hin | exact Hv].
        * intros [H|(a' & b' & [E|Hin] & Hv)]; [left; exact H | |].
          -- injection E as -> -> ->. contradiction.
          -- right. exists a', b'. split; assumption. }
  destruct (Hgen [] (NoDup_nil _)) as (N & Hiff). split; [exact N|].
  intros v. rewrite Hiff. split; [intros [[]|H]; exact H | intros H; right; exact H].
Qed.

Lemma edgeKey_ends (a b : nat) :
  (fst (edgeKey a b) = a /\ snd (edgeKey a b) = b) \/
  (fst (edgeKey a b) = b /\ snd (edgeKey a b) = a).
Proof.
  unfold edgeKey. destruct (a <? b)%nat; cbn; [left | right]; split; reflexivity.
Qed.

(** A boundary vertex is in the list the weld collects. *)
Lemma boundaryVertex_collected (indices : list nat) (v : nat) :
  boundaryVertex indices v ->
  In v (Seam.boundaryVertices (Seam.countEdges (facesOf indices))).
Proof.
  intros (w & Huse). apply countEdges_use in Huse.
  apply (proj2 (boundaryVertices_spec _)).
  destruct (edgeKey v w) as [a b] eqn:E.
  exists a, b. split; [exact Huse|].
  destruct (edgeKey_ends v w) as [(H1 & H2)|(H1 & H2)]; rewrite E in H1, H2;
    cbn [fst snd] in H1, H2; [left | right]; congruence.
Qed.

Lemma In_facesOf (indices : list nat) (a b c : nat) :
  In (a, b, c) (facesOf indices) -> In a indices /\ In b indices /\ In c indices.
Proof.
  revert a b c.
  assert (Hgen : forall k (xs : list nat), (length xs <= k)%nat ->
             forall a b c, In (a, b, c) (facesOf xs) ->
                           In a xs /\ In b xs /\ In c xs).
  { induction k as [|k IH]; intros xs Hlen a b c Hin.
    - destruct xs; [destruct Hin | cbn in Hlen; lia].
    - destruct xs as [|x [|y [|z rest]]]; try (destruct Hin; fail).
      cbn [facesOf] in Hin. destruct Hin as [E|Hin].
      + injection E as -> -> ->. cbn. tauto.
      + destruct (IH rest ltac:(cbn in Hlen; lia) a b c Hin) as (H1 & H2 & H3).
        cbn. tauto. }
  intros a b c. apply (Hgen (length indices)). lia.
Qed.

Lemma In_mapSet_key {V : Type} (k : EdgeKey) (v : V) (m : list (EdgeKey * V))
    (entry : EdgeKey * V) :
  In entry (mapSet edgeKeyEqb k v m) ->
  fst entry = k \/ exists v', In (fst entry, v') m.
Proof.
  intros H. apply In_mapSet in H as [->|H]; [left; reflexivity|].
  right. exists (snd entry). destruct entry. exact H.
Qed.

Lemma countEdges_keys (indices : list nat) (a b c : nat) :
  In ((a, b), c) (Seam.countEdges (facesOf indices)) ->
  In a indices /\ In b indices.
Proof.
  unfold Seam.countEdges. rewrite fold_left_flat_map.
  assert (Hgen : forall edges m,
             (forall e, In e edges -> In (fst e) indices /\ In (snd e) indices) ->
             (forall a b c, In ((a, b), c) m -> In a indices /\ In b indices) ->
             forall a b c, In ((a, b), c) (fold_left Seam.countEdge edges m) ->
                           In a indices /\ In b indices).
  { induction edges as [|e edges IH]; intros m He Hm a' b' c' Hin; cbn [fold_left] in Hin.
    - eapply Hm. exact Hin.
    - eapply (IH (Seam.countEdge m e)); [| |exact Hin].
      + intros e' He'. apply He. right. exact He'.
      + intros a0 b0 c0 H0. unfold Seam.countEdge in H0.
        apply In_mapSet_key in H0 as [E|(v' & H0)]; cbn [fst] in *.
        * destruct (He e (or_introl eq_refl)) as (H1 & H2).
          destruct (edgeKey_ends (fst e) (snd e)) as [(F & S')|(F & S')];
            rewrite <- E in F, S'; cbn [fst snd] in F, S'; subst; tauto.
        * eapply Hm. exact H0. }
  apply Hgen.
  - intros e He. apply in_flat_map in He as ([[x y] z] & Hf & He).
    apply In_facesOf in Hf as (H1 & H2 & H3).
    cbn [faceEdges] in He.
    destruct He as [<-|[<-|[<-|[]]]]; cbn [fst snd]; tauto.
  - intros ? ? ? [].
Qed.

Lemma boundaryVertices_used (indices : list nat) :
  incl (Seam.boundaryVertices (Seam.countEdges (facesOf indices))) indices.
Proof.
  intros v Hv. apply (proj2 (boundaryVertices_spec _)) in Hv as (a & b & Hin & Hv).
  apply countEdges_keys in Hin as (Ha & Hb). destruct Hv as [->| ->]; assumption.
Qed.

Lemma facesOf_flattenFaces (fs : list Face) : facesOf (flattenFaces fs) = fs.
Proof.
  induction fs as [|[[a b] c] fs IH]; [reflexivity|].
  change (flattenFaces ((a, b, c) :: fs)) with (a :: b :: c :: flattenFaces fs).
  cbn [facesOf]. rewrite IH. reflexivity.
Qed.

Lemma In_flattenFaces (fs : list Face) (x : nat) :
  In x (flattenFaces fs) <->
  exists a b c, In (a, b, c) fs /\ (x = a \/ x = b \/ x = c).
Proof.
  unfold flattenFaces. rewrite in_flat_map. split.
  - intros ([[a b] c] & Hf & Hx). exists a, b, c. split; [exact Hf|].
    cbn in Hx. intuition congruence.
  - intros (a & b & c & Hf & Hx). exists (a, b, c). split; [exact Hf|].
    cbn. intuition congruence.
Qed.

Lemma keepFaces_spec (faces : list Face) (seen : list Seam.FaceKey) :
  let kept := Seam.keepFaces seen faces in
  incl kept faces /\
  (forall f, In f kept -> Seam.repeatedIndex f = false /\ ~ In (Seam.faceKey f) seen) /\
  NoDup (map Seam.faceKey kept).
Proof.
  revert seen. induction faces as [|f faces IH]; intros seen; cbn [Seam.keepFaces].
  - split; [intros x []|]. split; [intros x []|]. constructor.
  - destruct (Seam.repeatedIndex f) eqn:Er.
    { destruct (IH seen) as (H1 & H2 & H3). split; [|split; assumption].
      intros x Hx. right. apply H1. exact Hx. }
    destruct (existsb (Seam.faceKeyEqb (Seam.faceKey f)) seen) eqn:Es.
    { destruct (IH seen) as (H1 & H2 & H3). split; [|split; assumption].
      intros x Hx. right. apply H1. exact Hx. }
    destruct (IH (Seam.faceKey f :: seen)) as (H1 & H2 & H3).
    assert (Hkeyeq : forall a b, Seam.faceKeyEqb a b = true <-> a = b).
    { intros [[a0 a1] a2] [[b0 b1] b2]. unfold Seam.faceKeyEqb.
      rewrite !andb_true_iff, !Nat.eqb_eq. split; [intros ((-> & ->) & ->)|intros E].
      - reflexivity.
      - injection E as -> -> ->. tauto. }
    split; [|split].
    + intros x [<-|Hx]; [left; reflexivity | right; apply H1; exact Hx].
    + intros x [<-|Hx].
      * split; [exact Er|]. intros Hin.
        assert (existsb (Seam.faceKeyEqb (Seam.faceKey f)) seen = true); [|congruence].
        apply existsb_exists. exists (Seam.faceKey f). split; [exact Hin|].
        apply Hkeyeq. reflexivity.
      * destruct (H2 x Hx) as (R & N). split; [exact R|].
        intros Hin. apply N. right. exact Hin.
    + cbn [map]. constructor; [|exact H3].
      intros Hin. apply in_map_iff in Hin as (x & Ex & Hx).
      destruct (H2 x Hx) as (_ & N). apply N. left. symmetry. exact Ex.
Qed.

Lemma repeatedIndex_false (a b c : nat) :
  Seam.repeatedIndex (a, b, c) = false <-> a <> b /\ b <> c /\ a <> c.
Proof.
  unfold Seam.repeatedIndex. rewrite !orb_false_iff, !Nat.eqb_neq. tauto.
Qed.

Lemma removeDegenerateFaces_incl (indices : list nat) :
  incl (Seam.removeDegenerateFaces indices) indices.
Proof.
  unfold Seam.removeDegenerateFaces. intros x Hx.
  apply In_flattenFaces in Hx as (a & b & c & Hf & Hx).
  destruct (keepFaces_spec (facesOf indices) []) as (Hincl & _).
  apply Hincl, In_facesOf in Hf as (H1 & H2 & H3).
  destruct Hx as [->|[->| ->]]; assumption.
Qed.

(** The number of distinct vertices a buffer of indices refers to. *)
Definition usedVertices (indices : list nat) : list nat := nodup Nat.eq_dec indices.

Lemma usedVertices_fewer (xs ys : list nat) (z : nat) :
  incl xs ys -> In z ys -> ~ In z xs ->
  (length (usedVertices xs) < length (usedVertices ys))%nat.
Proof.
  intros Hincl Hz Hnz. unfold usedVertices.
  assert (Hnd : NoDup (z :: nodup Nat.eq_dec xs)).
  { constructor; [rewrite nodup_In; exact Hnz | apply NoDup_nodup]. }
  pose proof (NoDup_incl_length Hnd (l' := nodup Nat.eq_dec ys)) as Hlen.
  cbn [length] in Hlen. apply Hlen.
  intros x [<-|Hx]; rewrite nodup_In in *; [exact Hz | apply Hincl; exact Hx].
Qed.

Lemma Qltb_comp (a a' b b' : Q) : a == a' -> b == b' -> Qltb a b = Qltb a' b'.
Proof.
  intros Ea Eb. destruct (Qltb a' b') eqn:E.
  - apply Qltb_true. apply Qltb_true in E. rewrite Ea, Eb. exact E.
  - apply Qltb_false. apply Qltb_false in E. rewrite Ea, Eb. exact E.
Qed.

Lemma distanceSquared_sym (positions : list Q) (a b : nat) :
  Seam.distanceSquared positions a b == Seam.distanceSquared positions b a.
Proof. unfold Seam.distanceSquared. ring. Qed.

(** What a weld that found something to merge does to the index buffer. *)
Lemma weldBoundaryVertices_merged (positions : list Q) (indices : list nat)
    (tolerance : Q) (welded : list nat) :
  Seam.weldBoundaryVertices positions indices tolerance = (true, welded) ->
  incl welded indices /\ exists z, In z indices /\ ~ In z welded.
Proof.
  unfold Seam.weldBoundaryVertices.
  pose proof (boundaryVertices_used indices) as Hused.
  remember (Seam.boundaryVertices (Seam.countEdges (facesOf indices))) as bvs
    eqn:Ebvs.
  clear Ebvs.
  assert (Hinit : weldInvariant bvs 0 ([], 0%nat)).
  { split; [exists (fun _ => 0%nat); split; [|intros; lia]|].
    - intros x Hx. exfalso. apply Hx. reflexivity.
    - split; [intros x Hx; exact Hx | cbn; lia]. }
  pose proof (pairCount_bound bvs) as Hpairs.
  pose proof (mergeLoop_invariant bvs (Seam.weldFuel bvs) positions
                (tolerance * tolerance) bvs 0 ([], 0%nat) Hinit (incl_refl _)
                ltac:(unfold Seam.weldFuel; lia)) as Hinv.
  destruct bvs as [|v0 rest]; [discriminate|].
  cbv zeta.
  destruct (Seam.mergeLoop (Seam.weldFuel (v0 :: rest)) positions
              (tolerance * tolerance) (v0 :: rest) ([], 0%nat))
    as [parent mergeCount] eqn:Eloop.
  destruct mergeCount as [|mc]; [discriminate|].
  intros H. injection H as <-.
  destruct Hinv as ((rank & Hf) & Hc & Hm). cbn [fst snd] in *.
  destruct (Hm ltac:(lia)) as (z & Hz & Hnr).
  destruct (remapIndices_spec (v0 :: rest) (Seam.weldFuel (v0 :: rest)) indices
              parent rank _ z Hf Hc
              ltac:(unfold Seam.weldFuel; lia) Hz Hnr) as (Hnot & Hincl).
  split.
  - intros x Hx. destruct (in_app_or _ _ _ (Hincl x Hx)) as [H|H];
      [exact H | apply Hused; exact H].
  - exists z. split; [apply Hused; exact Hz | exact Hnot].
Qed.

(** Two distinct boundary vertices within the tolerance make the weld merge. *)
Lemma weldBoundaryVertices_merges (positions : list Q) (indices : list nat)
    (tolerance : Q) (vi vj : nat) :
  boundaryVertex indices vi -> boundaryVertex indices vj -> vi <> vj ->
  Seam.distanceSquared positions vi vj < tolerance * tolerance ->
  fst (Seam.weldBoundaryVertices positions indices tolerance) = true.
Proof.
  intros Bi Bj Hne Hclose. unfold Seam.weldBoundaryVertices.
  pose proof (boundaryVertex_collected indices vi Bi) as Hi.
  pose proof (boundaryVertex_collected indices vj Bj) as Hj.
  pose proof (proj1 (boundaryVertices_spec (Seam.countEdges (facesOf indices))))
    as Hnd.
  remember (Seam.boundaryVertices (Seam.countEdges (facesOf indices))) as bvs
    eqn:Ebvs.
  clear Ebvs.
  pose proof (mergeLoop_none (Seam.weldFuel bvs) positions (tolerance * tolerance)
                bvs [] (fun x => eq_refl) Hnd) as Hnone.
  destruct bvs as [|v0 rest]; [destruct Hi|].
  cbv zeta.
  destruct (Seam.mergeLoop (Seam.weldFuel (v0 :: rest)) positions
              (tolerance * tolerance) (v0 :: rest) ([], 0%nat))
    as [parent mergeCount] eqn:Eloop.
  destruct mergeCount as [|mc]; [|reflexivity].
  exfalso. apply Qltb_true in Hclose.
  destruct (Hnone (f_equal snd Eloop) vi vj Hi Hj Hne) as [H|H].
  - congruence.
  - rewrite (Qltb_comp _ (Seam.distanceSquared positions vi vj) _ (tolerance * tolerance))
      in H; [congruence | apply distanceSquared_sym | reflexivity].
Qed.

(** A mesh as the weld sees it: the position buffer and the index buffer. *)
Record Mesh : Type := mesh { mPositions : list Q; mIndices : list nat }.

Definition vertexCount (m : Mesh) : nat := count (mPositions m).

(** One pass of the loops of steps 1b and 4b: [weldBoundaryVertices], then
    [removeDegenerateFaces] when something was merged. *)
Definition weldPass (m : Mesh) (weldTolerance : Q) : bool * Mesh :=
  let '(merged, indices) :=
    Seam.weldBoundaryVertices (mPositions m) (mIndices m) weldTolerance in
  (merged,
   mesh (mPositions m)
        (if merged then Seam.removeDegenerateFaces indices else indices)).

(** C5, as the code has it.  For a mesh with two distinct boundary vertices
    within the weld tolerance of each other, one weld pass merges, leaves
    the position buffer as it is, makes the faces refer to strictly fewer
    distinct vertices, and leaves no face with a repeated index and no two
    faces on the same three vertices. *)
Theorem boundary_weld_pass (m : Mesh) (weldTolerance : Q) (vi vj : nat) :
  boundaryVertex (mIndices m) vi ->
  boundaryVertex (mIndices m) vj ->
  vi <> vj ->
  Seam.distanceSquared (mPositions m) vi vj < weldTolerance * weldTolerance ->
  let welded := snd (weldPass m weldTolerance) in
  fst (weldPass m weldTolerance) = true /\
  mPositions welded = mPositions m /\
  vertexCount welded = vertexCount m /\
  (length (usedVertices (mIndices welded))
   < length (usedVertices (mIndices m)))%nat /\
  (forall a b c, In (a, b, c) (facesOf (mIndices welded)) ->
                 a <> b /\ b <> c /\ a <> c) /\
  NoDup (map Seam.faceKey (facesOf (mIndices welded))).
Proof.
  intros Bi Bj Hne Hclose welded. subst welded. unfold weldPass.
  pose proof (weldBoundaryVertices_merges _ _ _ vi vj Bi Bj Hne Hclose) as Hm.
  destruct (Seam.weldBoundaryVertices (mPositions m) (mIndices m) weldTolerance)
    as [merged indices] eqn:Ew.
  cbn [fst snd] in *. subst merged. cbn [mPositions mIndices].
  destruct (weldBoundaryVertices_merged _ _ _ _ Ew) as (Hincl & z & Hz & Hnz).
  split; [reflexivity|]. split; [reflexivity|]. split; [reflexivity|].
  destruct (keepFaces_spec (facesOf indices) []) as (K1 & K2 & K3).
  split; [|split].
  - apply (usedVertices_fewer _ _ z).
    + intros x Hx. apply Hincl. apply removeDegenerateFaces_incl. exact Hx.
    + exact Hz.
    + intros Hx. apply Hnz. apply removeDegenerateFaces_incl. exact Hx.
  - intros a b c Hf. unfold Seam.removeDegenerateFaces in Hf.
    rewrite facesOf_flattenFaces in Hf.
    apply repeatedIndex_false. apply (K2 _ Hf).
  - unfold Seam.removeDegenerateFaces. rewrite facesOf_flattenFaces. exact K3.
Qed.

(** Two triangles over the same diagonal, each with its own copy of the two
    shared corners: vertices 1 and 3 coincide, and so do 2 and 5. *)
Definition splitQuad : Mesh :=
  mesh [0;0;0; 1;0;0; 0;1;0;  1;0;0; 1;1;0; 0;1;0] [0; 1; 2; 3; 4; 5]%nat.

Lemma boundary_weld_pass_witness :
  fst (weldPass splitQuad (1 # 1000)) = true /\
  (length (usedVertices (mIndices (snd (weldPass splitQuad (1 # 1000)))))
   < length (usedVertices (mIndices splitQuad)))%nat.
Proof.
  assert (B1 : boundaryVertex (mIndices splitQuad) 1) by (exists 0%nat; reflexivity).
  assert (B3 : boundaryVertex (mIndices splitQuad) 3) by (exists 4%nat; reflexivity).
  assert (Hne : 1%nat <> 3%nat) by discriminate.
  assert (Hclose : Seam.distanceSquared (mPositions splitQuad) 1 3
                   < (1 # 1000) * (1 # 1000)) by (vm_compute; reflexivity).
  destruct (boundary_weld_pass splitQuad (1 # 1000) 1 3 B1 B3 Hne Hclose)
    as (H1 & _ & _ & H4 & _).
  split; [exact H1 | exact H4].
Defined.

(** C5 as stated fails: the pass merges the duplicated corners, yet the mesh
    has as many vertices afterwards as before (six), because the weld only
    redirects indices. *)
Lemma boundary_weld_keeps_vertex_count :
  fst (weldPass splitQuad (1 # 1000)) = true /\
  vertexCount (snd (weldPass splitQuad (1 # 1000))) = 6%nat /\
  ~ (vertexCount (snd (weldPass splitQuad (1 # 1000))) < vertexCount splitQuad)%nat.
Proof.
  vm_compute. split; [reflexivity | split; [reflexivity | lia]].
Qed.

(* ================================================================= *)
(** ** Locality of the smoothing *)

Section Locality.

Variable sqrt : Q -> Q.

Definition atLeast (radius : Q) (d : Distance) : Prop :=
  match d with
  | None => True
  | Some d => radius <= d
  end.

Lemma minDistance_atLeast (p : Vector3) (segs : list SeamSegment) (radius : Q)
    (minD : Distance) :
  (forall seg, In seg segs -> radius <= Seam.distanceTo sqrt p seg) ->
  atLeast radius minD ->
  atLeast radius (Seam.minDistance sqrt p segs minD).
Proof.
  revert minD. induction segs as [|seg segs IH]; intros minD Hfar Hmin;
    cbn [Seam.minDistance]; [exact Hmin|].
  pose proof (Hfar seg (or_introl eq_refl)) as Hseg.
  set (m := match minD with
            | None => Seam.distanceTo sqrt p seg
            | Some m => if Qltb (Seam.distanceTo sqrt p seg) m
                        then Seam.distanceTo sqrt p seg else m
            end).
  assert (Hm : radius <= m).
  { unfold m. destruct minD as [m0|]; [|exact Hseg].
    destruct (Qltb (Seam.distanceTo sqrt p seg) m0); [exact Hseg | exact Hmin]. }
  destruct (Qltb m (1 # 100000000)); [exact Hm|].
  apply IH; [intros s Hs; apply Hfar; right; exact Hs | exact Hm].
Qed.

Lemma smoothstepWeight_far (radius : Q) (d : Distance) :
  atLeast radius d -> Seam.smoothstepWeight d radius = 0.
Proof.
  destruct d as [d|]; cbn [atLeast Seam.smoothstepWeight]; [|reflexivity].
  intros H. apply Qleb_true in H. rewrite H. reflexivity.
Qed.

(** The falloff weight of a vertex at least [radius] away from every seam
    segment is exactly 0. *)
Lemma weight_far (positions : list Q) (vertCount : nat)
    (seamSegments : list SeamSegment) (radius maxDistance : Q) (vi : nat) :
  (vi < vertCount)%nat ->
  (forall seg, In seg seamSegments ->
               radius <= Seam.distanceTo sqrt (fromBufferAttribute positions vi) seg) ->
  nth vi (Seam.computeSmoothstepWeights
            (Seam.computeDistanceField sqrt positions vertCount seamSegments
               maxDistance)
            radius vertCount) 0 = 0.
Proof.
  intros Hvi Hfar. unfold Seam.computeSmoothstepWeights.
  rewrite nth_map_seq by exact Hvi.
  apply smoothstepWeight_far.
  unfold Seam.computeDistanceField. rewrite nth_map_seq by exact Hvi.
  destruct (negb (containsPoint _ _)); [exact I|].
  apply minDistance_atLeast; [exact Hfar | exact I].
Qed.

(** The falloff weight of a vertex whose entry of the distance field is at
    least [radius], or infinite, is exactly 0: the comparison
    [computeSmoothstepWeights] makes. *)
Lemma weight_stored (distField : list Distance) (radius : Q)
    (vertCount vi : nat) :
  (vi < vertCount)%nat ->
  atLeast radius (nth vi distField (Some 0)) ->
  nth vi (Seam.computeSmoothstepWeights distField radius vertCount) 0 = 0.
Proof.
  intros Hvi H. unfold Seam.computeSmoothstepWeights.
  rewrite nth_map_seq by exact Hvi.
  apply smoothstepWeight_far. exact H.
Qed.

(** In the exact arithmetic of the model, the entry of the distance field
    of a vertex at least [radius] away from every seam segment is at least
    [radius], or infinite. *)
Lemma far_entry (positions : list Q) (vertCount : nat)
    (seamSegments : list SeamSegment) (radius maxDistance : Q) (vi : nat) :
  (vi < vertCount)%nat ->
  (forall seg, In seg seamSegments ->
               radius <= Seam.distanceTo sqrt (fromBufferAttribute positions vi) seg) ->
  atLeast radius
    (nth vi (Seam.computeDistanceField sqrt positions vertCount seamSegments
               maxDistance) (Some 0)).
Proof.
  intros Hvi Hfar. unfold Seam.computeDistanceField.
  rewrite nth_map_seq by exact Hvi.
  destruct (negb (containsPoint _ _)); [exact I|].
  apply minDistance_atLeast; [exact Hfar | exact I].
Qed.

Lemma laplacianVertex_fixed (prev : list Q) (adjacency : list (list nat))
    (weights : list Q) (lambda maxStep : Q) (vi : nat) :
  nth vi weights 0 <= 0 ->
  Seam.laplacianVertex sqrt prev adjacency weights lambda maxStep vi
  = fromBufferAttribute prev vi.
Proof.
  intros H. unfold Seam.laplacianVertex. apply Qleb_true in H. rewrite H.
  reflexivity.
Qed.

Lemma applyLaplacianStep_vertex (pos : list Q) (adjacency : list (list nat))
    (weights : list Q) (vertCount : nat) (lambda maxStep : Q) (vi : nat) :
  (vi < vertCount)%nat -> (3 * vertCount <= length pos)%nat ->
  fromBufferAttribute
    (Seam.applyLaplacianStep sqrt pos adjacency weights vertCount lambda maxStep) vi
  = Seam.laplacianVertex sqrt pos adjacency weights lambda maxStep vi.
Proof.
  intros Hvi Hlen. unfold Seam.applyLaplacianStep.
  set (lv := Seam.laplacianVertex sqrt pos adjacency weights lambda maxStep).
  assert (Hread : forall r, (r < 3)%nat ->
            nth (vi * 3 + r)
              (firstn (length pos)
                 (flat_map (fun vi => triple (lv vi)) (seq 0 vertCount)
                  ++ skipn (3 * vertCount) pos)) 0
            = nth r (triple (lv vi)) 0).
  { intros r Hr. rewrite nth_firstn_lt by lia.
    rewrite app_nth1 by (rewrite length_flat_map_triple, length_seq; lia).
    rewrite nth_flat_map_triple by assumption. reflexivity. }
  unfold fromBufferAttribute, getX, getY, getZ.
  rewrite <- (Nat.add_0_r (vi * 3)) at 1.
  rewrite !Hread by lia. cbn. destruct (lv vi). reflexivity.
Qed.

Lemma length_applyLaplacianStep (pos : list Q) (adjacency : list (list nat))
    (weights : list Q) (vertCount : nat) (lambda maxStep : Q) :
  (3 * vertCount <= length pos)%nat ->
  length (Seam.applyLaplacianStep sqrt pos adjacency weights vertCount
            lambda maxStep) = length pos.
Proof.
  intros H. unfold Seam.applyLaplacianStep.
  rewrite length_firstn, length_app, length_flat_map_triple, length_seq,
    length_skipn. lia.
Qed.

(** A vertex of weight 0 keeps its position through every Laplacian step. *)
Lemma smoothingLoop_fixed (numIterations : nat) (pos : list Q)
    (adjacency : list (list nat)) (weights : list Q) (vertCount : nat)
    (lambda maxStep : Q) (vi : nat) :
  (vi < vertCount)%nat -> (3 * vertCount <= length pos)%nat ->
  nth vi weights 0 <= 0 ->
  fromBufferAttribute
    (Seam.smoothingLoop sqrt numIterations pos adjacency weights vertCount
       lambda maxStep) vi
  = fromBufferAttribute pos vi.
Proof.
  intros Hvi Hlen Hw. revert pos Hlen.
  induction numIterations as [|k IH]; intros pos Hlen; cbn [Seam.smoothingLoop];
    [reflexivity|].
  rewrite IH by (rewrite length_applyLaplacianStep; exact Hlen).
  rewrite applyLaplacianStep_vertex by assumption.
  apply laplacianVertex_fixed. exact Hw.
Qed.

Lemma length_smoothingLoop (numIterations : nat) (pos : list Q)
    (adjacency : list (list nat)) (weights : list Q) (vertCount : nat)
    (lambda maxStep : Q) :
  (3 * vertCount <= length pos)%nat ->
  length (Seam.smoothingLoop sqrt numIterations pos adjacency weights vertCount
            lambda maxStep) = length pos.
Proof.
  revert pos. induction numIterations as [|k IH]; intros pos Hlen;
    cbn [Seam.smoothingLoop]; [reflexivity|].
  rewrite IH; rewrite length_applyLaplacianStep; auto.
Qed.

(** A call of [splitSeamEdges] only appends whole vertices. *)
Lemma splitSeamEdgesRun_extends (positions : list Q) (indices seamVerts : list nat)
    (seamSegments : list SeamSegment) (radius targetLength : Q) (maxPasses : nat) :
  (length positions mod 3 = 0)%nat ->
  let st := fst (Seam.splitSeamEdgesRun sqrt positions indices seamVerts
                   seamSegments radius targetLength maxPasses) in
  extends positions (Seam.sPositions st) /\
  (length (Seam.sPositions st) mod 3 = 0)%nat.
Proof.
  intros Hwhole st. unfold st, Seam.splitSeamEdgesRun.
  assert (Hmax : ((length positions * 5) mod 3 = 0)%nat).
  { rewrite Nat.Div0.mul_mod, Hwhole. reflexivity. }
  split.
  - destruct (splitLoop_bounded sqrt seamSegments (radius * (12 # 10)) targetLength
                (length positions * 5) maxPasses
                (Seam.splitState positions indices seamVerts))
      as (_ & H & _); cbn [Seam.sPositions]; auto; lia.
  - apply splitLoop_whole; cbn [Seam.sPositions]; auto; lia.
Qed.

(** Steps 3 to 4b keep every vertex of the merged buffer where it is. *)
Lemma prepareFillet_extends (positions : list Q) (indices seamVerts : list nat)
    (opts : Seam.SmoothingOptions) (meshScale : option Q) :
  (length positions mod 3 = 0)%nat ->
  let working :=
    fst (fst (Seam.prepareFillet sqrt positions indices seamVerts opts meshScale)) in
  extends positions working /\ (length working mod 3 = 0)%nat.
Proof.
  intros Hwhole. unfold Seam.prepareFillet.
  set (segs := match Seam.collectSeamEdgeSegments positions indices seamVerts with
               | [] => _ | _ => _ end).
  set (tol := Seam.scaledTolerance _ _ _).
  set (bridged := match meshScale with None => _ | Some s => _ end).
  assert (Hb : extends positions (Seam.sPositions bridged) /\
               (length (Seam.sPositions bridged) mod 3 = 0)%nat).
  { unfold bridged. destruct meshScale as [s|].
    - destruct (Qltb (Seam.radius opts) (s * (15 # 100))).
      + cbn [Seam.sPositions]. unfold Seam.splitSeamEdges.
        apply splitSeamEdgesRun_extends. exact Hwhole.
      + cbn [Seam.sPositions]. split; [apply extends_refl | exact Hwhole].
    - cbn [Seam.sPositions]. split; [apply extends_refl | exact Hwhole]. }
  destruct Hb as (Hext & Hwhole').
  cbn [fst].
  destruct (splitSeamEdgesRun_extends (Seam.sPositions bridged) (Seam.sIndices bridged)
              (Seam.sSeamVerts bridged) segs (Seam.radius opts)
              (Seam.filletTargetLength (Seam.radius opts)) 8 Hwhole')
    as (Hext' & Hwhole'').
  split; [|exact Hwhole''].
  eapply extends_trans; [exact Hext | exact Hext'].
Qed.

(** Step 8 leaves a vertex at [radius] or more from every seam segment where
    it is. *)
Lemma smoothFillet_fixed (positions : list Q) (indices : list nat)
    (seamSegments : list SeamSegment) (opts : Seam.SmoothingOptions) (vi : nat) :
  (vi < count positions)%nat ->
  (forall seg, In seg seamSegments ->
               Seam.radius opts
               <= Seam.distanceTo sqrt (fromBufferAttribute positions vi) seg) ->
  fromBufferAttribute (Seam.smoothFillet sqrt positions indices seamSegments opts) vi
  = fromBufferAttribute positions vi.
Proof.
  intros Hvi Hfar. unfold Seam.smoothFillet.
  pose proof (count_bound positions) as Hc.
  assert (Hlen : (3 * count positions
                  <= length (firstn (count positions * 3) positions))%nat).
  { rewrite length_firstn. lia. }
  rewrite smoothingLoop_fixed; [| exact Hvi | exact Hlen |].
  - unfold fromBufferAttribute, getX, getY, getZ.
    rewrite !nth_firstn_lt by lia. reflexivity.
  - rewrite weight_far by assumption. apply Qle_refl.
Qed.

(** Step 8 leaves a vertex whose entry of the distance field is at least
    the radius where it is. *)
Lemma smoothFillet_stored (positions : list Q) (indices : list nat)
    (seamSegments : list SeamSegment) (opts : Seam.SmoothingOptions) (vi : nat) :
  (vi < count positions)%nat ->
  atLeast (Seam.radius opts)
    (nth vi (Seam.computeDistanceField sqrt positions (count positions)
               seamSegments (Seam.radius opts * (13 # 10))) (Some 0)) ->
  fromBufferAttribute (Seam.smoothFillet sqrt positions indices seamSegments opts) vi
  = fromBufferAttribute positions vi.
Proof.
  intros Hvi Hfar. unfold Seam.smoothFillet.
  pose proof (count_bound positions) as Hc.
  assert (Hlen : (3 * count positions
                  <= length (firstn (count positions * 3) positions))%nat).
  { rewrite length_firstn. lia. }
  rewrite smoothingLoop_fixed; [| exact Hvi | exact Hlen |].
  - unfold fromBufferAttribute, getX, getY, getZ.
    rewrite !nth_firstn_lt by lia. reflexivity.
  - rewrite weight_stored by assumption. apply Qle_refl.
Qed.

Lemma length_smoothFillet (positions : list Q) (indices : list nat)
    (seamSegments : list SeamSegment) (opts : Seam.SmoothingOptions) :
  length (Seam.smoothFillet sqrt positions indices seamSegments opts)
  = (3 * count positions)%nat.
Proof.
  unfold Seam.smoothFillet. pose proof (count_bound positions) as Hc.
  rewrite length_smoothingLoop; rewrite length_firstn; lia.
Qed.

(** Vertex [k] of the de-indexed buffer is the vertex corner [k] refers to. *)
Lemma deIndex_vertex (finalPos : list Q) (indices : list nat) (k : nat) :
  (k < length (flattenFaces (facesOf indices)))%nat ->
  fromBufferAttribute (Seam.deIndex finalPos indices) k
  = fromBufferAttribute finalPos (nth k (flattenFaces (facesOf indices)) 0%nat).
Proof.
  unfold Seam.deIndex. generalize (flattenFaces (facesOf indices)) as corners.
  intros corners. revert k.
  induction corners as [|vi corners IH]; intros k Hk; cbn [length] in Hk; [lia|].
  cbn [flat_map]. destruct k as [|k].
  - reflexivity.
  - cbn [nth]. rewrite <- IH by lia.
    unfold fromBufferAttribute, getX, getY, getZ.
    rewrite !app_nth2 by (cbn [triple length]; lia).
    cbn [triple length].
    replace (S k * 3 - 3)%nat with (k * 3)%nat by lia.
    replace (S k * 3 + 1 - 3)%nat with (k * 3 + 1)%nat by lia.
    replace (S k * 3 + 2 - 3)%nat with (k * 3 + 2)%nat by lia.
    reflexivity.
Qed.

(** Step 8c only appends centroid vertices. *)
Lemma closeBoundaryHoles_extends (pos : list Q) (indices : list nat)
    (meshScale : option Q) :
  extends pos (fst (Seam.closeBoundaryHoles sqrt pos indices meshScale)).
Proof.
  unfold Seam.closeBoundaryHoles.
  destruct (Seam.registerEdges (facesOf indices)) as [edgeFaceCount edgeDirected].
  destruct (Seam.boundaryEdgeKeys edgeFaceCount) as [|key keys];
    [apply extends_refl|].
  destruct (Seam.traceLoops sqrt pos _ meshScale _) as [|loop loops];
    [apply extends_refl|].
  destruct (fold_left _ _ _) as [fills extraPositions]. cbn [fst].
  exists extraPositions. reflexivity.
Qed.

End Locality.

(** C4, as the code has it.  Locality of the smoothing, for every strength.
    In the vertex buffer that enters the smoothing (the merged buffer with
    the midpoints of steps 3b and 4 appended), a vertex whose entry of the
    distance field is at least [radius], or infinite, gets the falloff
    weight 0 exactly (this is the comparison the code makes, on the distance
    as stored); a step of [applyLaplacianStep] with these weights leaves it
    where it is in any buffer; its entry in the buffer the result is
    de-indexed from is the one it had before the smoothing, and so is every
    vertex of the result that is a corner still referring to it; and for a
    vertex of the merged input buffer that is the position it had there.
    Which corners refer to it is left open: the welds of steps 1b, 3b and 4b
    redirect corners of boundary vertices within the weld tolerance. *)
Theorem smoothing_locality
    (sqrt : Q -> Q) (positions : list Q) (indices seamVerts : list nat)
    (opts : Seam.SmoothingOptions) (meshScale : option Q) (vi : nat) :
  let prepared :=
    Seam.prepareFillet sqrt positions indices seamVerts opts meshScale in
  let working := fst (fst prepared) in
  let seamSegments := snd prepared in
  let vertCount := count working in
  let distField :=
    Seam.computeDistanceField sqrt working vertCount seamSegments
      (Seam.radius opts * (13 # 10)) in
  let weights :=
    Seam.computeSmoothstepWeights distField (Seam.radius opts) vertCount in
  let final :=
    Seam.repairedBuffers sqrt positions indices seamVerts opts meshScale in
  let corners := flattenFaces (facesOf (snd final)) in
  (length positions mod 3 = 0)%nat ->
  (vi < vertCount)%nat ->
  atLeast (Seam.radius opts) (nth vi distField (Some 0)) ->
  nth vi weights 0 = 0 /\
  (forall pos adjacency lambda maxStep,
      (3 * vertCount <= length pos)%nat ->
      fromBufferAttribute
        (Seam.applyLaplacianStep sqrt pos adjacency weights vertCount lambda maxStep)
        vi
      = fromBufferAttribute pos vi) /\
  fromBufferAttribute (fst final) vi = fromBufferAttribute working vi /\
  (forall k, (k < length corners)%nat -> nth k corners 0%nat = vi ->
             fromBufferAttribute (Seam.deIndex (fst final) (snd final)) k
             = fromBufferAttribute working vi) /\
  ((vi < count positions)%nat ->
   fromBufferAttribute working vi = fromBufferAttribute positions vi).
Proof.
  intros prepared working seamSegments vertCount distField weights final corners
         Hwhole Hvi Hfar.
  assert (Hw : nth vi weights 0 = 0).
  { unfold weights. apply weight_stored; assumption. }
  assert (Hfinal : fromBufferAttribute (fst final) vi
                   = fromBufferAttribute working vi).
  { unfold final, Seam.repairedBuffers. fold prepared.
    revert Hfar. unfold distField, vertCount, seamSegments, working.
    destruct prepared as [[working' workingIndices] segs] eqn:Eprep.
    cbn [fst snd] in *. intros Hfar.
    unfold Seam.finalBuffers.
    rewrite (extends_vertex _ _ vi (closeBoundaryHoles_extends sqrt _ _ _)).
    - apply smoothFillet_stored; assumption.
    - unfold count. rewrite length_smoothFillet.
      fold (count working').
      rewrite Nat.mul_comm, Nat.div_mul by discriminate. exact Hvi. }
  split; [exact Hw|]. split; [|split; [exact Hfinal|]; split].
  - intros pos adjacency lambda maxStep Hlen.
    rewrite applyLaplacianStep_vertex by assumption.
    apply laplacianVertex_fixed. rewrite Hw. apply Qle_refl.
  - intros k Hk Ek. rewrite deIndex_vertex by exact Hk.
    fold corners. rewrite Ek. exact Hfinal.
  - intros Hin. apply extends_vertex; [|exact Hin].
    apply (prepareFillet_extends sqrt positions indices seamVerts opts meshScale
             Hwhole).
Qed.

(** A seam triangle at the origin and a second triangle far from it. *)
Definition twoTriangles : list Q :=
  [0;0;0; 6#10;0;0; 0;6#10;0; 100;0;0; 101;0;0; 100;1;0].

Lemma smoothing_locality_witness :
  fromBufferAttribute
    (fst (Seam.repairedBuffers Qsqrt twoTriangles [0; 1; 2; 3; 4; 5]%nat
            [0; 1; 2]%nat (Seam.smoothingOptions (8 # 10) 1 12) (Some 101)))
    3
  = vec3 100 0 0.
Proof.
  assert (Hvi : Nat.lt 3 (count (fst (fst (Seam.prepareFillet Qsqrt twoTriangles
                                             [0; 1; 2; 3; 4; 5]%nat [0; 1; 2]%nat
                                             (Seam.smoothingOptions (8 # 10) 1 12)
                                             (Some 101)))))).
  { vm_compute. lia. }
  assert (Hfar :
    atLeast (Seam.radius (Seam.smoothingOptions (8 # 10) 1 12))
      (nth 3
         (Seam.computeDistanceField Qsqrt
            (fst (fst (Seam.prepareFillet Qsqrt twoTriangles
                         [0; 1; 2; 3; 4; 5]%nat [0; 1; 2]%nat
                         (Seam.smoothingOptions (8 # 10) 1 12) (Some 101))))
            (count (fst (fst (Seam.prepareFillet Qsqrt twoTriangles
                                [0; 1; 2; 3; 4; 5]%nat [0; 1; 2]%nat
                                (Seam.smoothingOptions (8 # 10) 1 12)
                                (Some 101)))))
            (snd (Seam.prepareFillet Qsqrt twoTriangles
                    [0; 1; 2; 3; 4; 5]%nat [0; 1; 2]%nat
                    (Seam.smoothingOptions (8 # 10) 1 12) (Some 101)))
            (Seam.radius (Seam.smoothingOptions (8 # 10) 1 12) * (13 # 10)))
         (Some 0))).
  { vm_compute. exact I. }
  pose proof (smoothing_locality Qsqrt twoTriangles [0; 1; 2; 3; 4; 5]%nat
                [0; 1; 2]%nat (Seam.smoothingOptions (8 # 10) 1 12) (Some 101)
                3%nat eq_refl Hvi Hfar) as H.
  cbv zeta beta in H. destruct H as (_ & _ & Hout & _ & Hin).
  rewrite Hout. rewrite Hin; [reflexivity | vm_compute; lia].
Defined.

(** A seam triangle at the origin, lying on the tool, and far from it two
    triangles whose corners 5 and 6 lie a hundredth apart, across a gap of
    the kind the boundary weld of step 1b closes. *)
Definition gapPositions : list Q :=
  [ 0; 0; 0;   5 # 100; 0; 0;   0; 5 # 100; 0;
    9; 0; 0;   10; 0; 0;   10; 1; 0;
    10; 1; 1 # 100;   10; 2; 0;   9; 2; 0 ].

Definition gapIndices : list nat := [0; 1; 2; 3; 4; 5; 6; 7; 8]%nat.

Definition gapMesh : BufferGeometry :=
  bufferGeometry (Some gapPositions) (Some gapIndices) None.

Definition gapTool : BufferGeometry :=
  bufferGeometry (Some [0; 0; 0;  5 # 100; 0; 0;  0; 5 # 100; 0]) None None.

(** Strength 1, one iteration, radius 1. *)
Definition gapOptions : option Seam.PartialOptions :=
  Some (Seam.partialOptions (Some 1) (Some 1%nat) (Some 1)).

(** C4 as stated fails.  Vertex 6 of [gapMesh], the first corner of its
    third face, lies ten units from the seam, ten times the radius; its
    falloff weight is 0 and the smoothing leaves its entry of the position
    buffer alone.  But step 1b welds it to vertex 5, a hundredth away (the
    weld tolerance is 3e-3 times the extent of the mesh, whatever the
    radius), so in the geometry [smoothSeam] returns that corner lies at the
    position of vertex 5 and no vertex lies where vertex 6 was.  No two
    vertices of the mesh are within the merge tolerance, so [mergeVertices]
    is the identity on it. *)
Lemma smoothing_moves_welded_vertex :
  let acos := fun x : Q => x in
  let mergeVertices := fun (g : BufferGeometry) (_ : Q) => Value g in
  let vertexNormals := fun (_ : list Q) (_ : option (list nat)) => @nil Q in
  let opts := Seam.withDefaults gapOptions in
  let meshScale := Seam.meshScaleOf gapMesh in
  let welded :=
    Seam.weldLoop 3 gapPositions gapIndices
                  (Seam.scaledTolerance (5 # 10000) meshScale (3 # 1000)) in
  exists seamVerts outPos,
    0 < Seam.strength opts /\
    Seam.findSeamVertices Qsqrt acos gapPositions welded gapTool
    = Value seamVerts /\
    Seam.smoothSeam Qsqrt acos mergeVertices vertexNormals gapMesh gapTool
                    gapOptions
    = Value (bufferGeometry (Some outPos) None (Some [])) /\
    let prepared :=
      Seam.prepareFillet Qsqrt gapPositions welded seamVerts opts meshScale in
    let working := fst (fst prepared) in
    let seamSegments := snd prepared in
    let weights :=
      Seam.computeSmoothstepWeights
        (Seam.computeDistanceField Qsqrt working (count working) seamSegments
           (Seam.radius opts * (13 # 10)))
        (Seam.radius opts) (count working) in
    (* the vertex is far from the seam and has weight 0 *)
    fromBufferAttribute working 6 = fromBufferAttribute gapPositions 6 /\
    (forall seg, In seg seamSegments ->
       Seam.radius opts
       <= Seam.distanceTo Qsqrt (fromBufferAttribute gapPositions 6) seg) /\
    nth 6 weights 0 == 0 /\
    (* corner 6 of the input is this vertex; corner 6 of the output lies at
       vertex 5, and no vertex of the output lies where the vertex was *)
    nth 6 gapIndices 0%nat = 6%nat /\
    veq (fromBufferAttribute outPos 6) (fromBufferAttribute gapPositions 5) /\
    ~ veq (fromBufferAttribute outPos 6) (fromBufferAttribute gapPositions 6) /\
    forall k, (k < count outPos)%nat ->
              ~ veq (fromBufferAttribute outPos k)
                    (fromBufferAttribute gapPositions 6).
Proof.
  intros acos mergeVertices vertexNormals opts meshScale welded.
  eexists. eexists.
  split; [vm_compute; reflexivity|].
  split; [vm_compute; reflexivity|].
  split; [vm_compute; reflexivity|].
  cbv zeta.
  split; [vm_compute; reflexivity|].
  split.
  { intros seg Hin. vm_compute in Hin.
    destruct Hin as [<-|[<-|[<-|[]]]]; vm_compute; discriminate. }
  split; [vm_compute; reflexivity|].
  split; [reflexivity|].
  split; [vm_compute; repeat split; reflexivity|].
  split.
  { intros (_ & _ & Hz). vm_compute in Hz. discriminate. }
  intros k Hk (_ & _ & Hz).
  match type of Hk with
  | (k < count ?out)%nat =>
      assert (Hall : forallb (fun k => negb (Qeqb (getZ out k) (1 # 100)))
                             (seq 0 (count out)) = true)
        by (vm_compute; reflexivity);
      rewrite forallb_forall in Hall;
      specialize (Hall k ltac:(apply in_seq; lia))
  end.
  apply negb_true_iff in Hall. apply Qeqb_false in Hall.
  apply Hall. exact Hz.
Qed.

(* ================================================================= *)
(** ** Clean faces *)

Lemma faceKeyEqb_eq (a b : Seam.FaceKey) : Seam.faceKeyEqb a b = true <-> a = b.
Proof.
  destruct a as [[a0 a1] a2], b as [[b0 b1] b2]. unfold Seam.faceKeyEqb.
  rewrite !andb_true_iff, !Nat.eqb_eq. split.
  - intros ((-> & ->) & ->). reflexivity.
  - intros E. injection E as -> -> ->. tauto.
Qed.

(** The faces step 8b keeps. *)
Lemma cleanFaces_spec (pos : list Q) (faces : list Face) (seen : list Seam.FaceKey) :
  let kept := Seam.cleanFaces pos seen faces in
  incl kept faces /\
  (forall f, In f kept ->
             Seam.repeatedIndex f = false /\ ~ In (Seam.faceKey f) seen /\
             ~ Seam.crossSquared pos f <= Seam.AREA_SQ_THRESHOLD) /\
  NoDup (map Seam.faceKey kept).
Proof.
  revert seen. induction faces as [|f faces IH]; intros seen; cbn [Seam.cleanFaces].
  - split; [intros x []|]. split; [intros x []|]. constructor.
  - destruct (Seam.repeatedIndex f) eqn:Er.
    { destruct (IH seen) as (H1 & H2 & H3). split; [|split; assumption].
      intros x Hx. right. apply H1. exact Hx. }
    destruct (existsb (Seam.faceKeyEqb (Seam.faceKey f)) seen) eqn:Es.
    { destruct (IH seen) as (H1 & H2 & H3). split; [|split; assumption].
      intros x Hx. right. apply H1. exact Hx. }
    destruct (IH (Seam.faceKey f :: seen)) as (H1 & H2 & H3).
    destruct (Qleb (Seam.crossSquared pos f) Seam.AREA_SQ_THRESHOLD) eqn:Ea.
    { split; [|split].
      - intros x Hx. right. apply H1. exact Hx.
      - intros x Hx. destruct (H2 x Hx) as (R & N & A).
        split; [exact R|]. split; [|exact A]. intros Hin. apply N. right. exact Hin.
      - exact H3. }
    split; [|split].
    + intros x [<-|Hx]; [left; reflexivity | right; apply H1; exact Hx].
    + intros x [<-|Hx].
      * split; [exact Er|]. split.
        -- intros Hin.
           assert (existsb (Seam.faceKeyEqb (Seam.faceKey f)) seen = true);
             [|congruence].
           apply existsb_exists. exists (Seam.faceKey f). split; [exact Hin|].
           apply faceKeyEqb_eq. reflexivity.
        -- intros Hle. apply Qleb_true in Hle. congruence.
      * destruct (H2 x Hx) as (R & N & A). split; [exact R|]. split; [|exact A].
        intros Hin. apply N. right. exact Hin.
    + cbn [map]. constructor; [|exact H3].
      intros Hin. apply in_map_iff in Hin as (x & Ex & Hx).
      destruct (H2 x Hx) as (_ & N & _). apply N. left. symmetry. exact Ex.
Qed.

(** Before the holes are closed the index buffer is clean: no face repeats
    an index and no two faces have the same key. *)
Lemma cleanIndices_clean (pos : list Q) (indices : list nat) :
  let faces := facesOf (Seam.cleanIndices pos indices) in
  (forall a b c, In (a, b, c) faces -> a <> b /\ b <> c /\ a <> c) /\
  NoDup (map Seam.faceKey faces).
Proof.
  unfold Seam.cleanIndices. rewrite facesOf_flattenFaces.
  destruct (cleanFaces_spec pos (facesOf indices) []) as (_ & H2 & H3).
  split; [|exact H3].
  intros a b c Hf. apply repeatedIndex_false. apply (H2 _ Hf).
Qed.

(** A single triangle, every edge of which is a boundary edge. *)
Definition isolatedTriangle : list Q := [0;0;0; 6#10;0;0; 0;6#10;0].

(** C6.  For the one-triangle mesh (0,0,0), (0.6,0,0), (0,0.6,0), with
    itself as tool geometry, radius 12 and one iteration, the three vertices
    are the seam vertices, and the index buffer just before de-indexing is
    0 1 2 1 2 0: hole closing has pushed a second face on the vertices of the
    first, so two faces of the result have the same key. *)
Theorem hole_closing_duplicates_face :
  let opts := Seam.smoothingOptions (8 # 10) 1 12 in
  let tool := bufferGeometry (Some isolatedTriangle) None None in
  let final :=
    Seam.repairedBuffers Qsqrt isolatedTriangle [0; 1; 2]%nat [0; 1; 2]%nat opts
                         (Some (6 # 10)) in
  (forall acos,
      Seam.findSeamVertices Qsqrt acos isolatedTriangle
        (Seam.weldLoop 3 isolatedTriangle [0; 1; 2]%nat
           (Seam.scaledTolerance (5 # 10000) (Some (6 # 10)) (3 # 1000)))
        tool
      = Value [0; 1; 2]%nat) /\
  (forall acos,
      Seam.repairIndexed Qsqrt acos isolatedTriangle [0; 1; 2]%nat tool opts
                         (Some (6 # 10))
      = Value (Some (Seam.deIndex (fst final) (snd final)))) /\
  facesOf (snd final) = [(0, 1, 2); (1, 2, 0)]%nat /\
  Seam.faceKey (0, 1, 2)%nat = Seam.faceKey (1, 2, 0)%nat /\
  ~ NoDup (map Seam.faceKey (facesOf (snd final))).
Proof.
  intros opts tool final.
  assert (Hfinal : snd final = [0; 1; 2; 1; 2; 0]%nat) by (vm_compute; reflexivity).
  split; [intros acos; vm_compute; reflexivity|].
  split; [intros acos; vm_compute; reflexivity|].
  rewrite Hfinal. split; [reflexivity|]. split; [reflexivity|].
  intros Hnd. cbn in Hnd. inversion Hnd as [|k ks Hnotin _]. apply Hnotin.
  left. reflexivity.
Qed.

(* ================================================================= *)
(** ** The zero-strength short circuit *)

(** C8.  With a strength of 0 or less [smoothSeam] returns, whatever the two
    geometries and the other options, a geometry with the position attribute
    (hence the vertex count) and the index of the input result geometry;
    only the normals are new, computed from these positions.  The call is a
    function of its arguments: nothing on this path writes to them. *)
Theorem zero_strength_short_circuit
    (sqrt acos : Q -> Q)
    (mergeVertices : BufferGeometry -> Q -> Result BufferGeometry)
    (vertexNormals : list Q -> option (list nat) -> list Q)
    (resultGeometry toolGeometry : BufferGeometry)
    (options : option Seam.PartialOptions) :
  Seam.strength (Seam.withDefaults options) <= 0 ->
  exists clone,
    Seam.smoothSeam sqrt acos mergeVertices vertexNormals resultGeometry
                    toolGeometry options = Value clone /\
    position clone = position resultGeometry /\
    index clone = index resultGeometry /\
    normal clone
    = match position resultGeometry with
      | Some p => Some (vertexNormals p (index resultGeometry))
      | None => normal resultGeometry
      end.
Proof.
  intros Hs. exists (Seam.cloneWithNormals vertexNormals resultGeometry).
  unfold Seam.smoothSeam. apply Qleb_true in Hs. rewrite Hs.
  split; [reflexivity|]. unfold Seam.cloneWithNormals.
  destruct (position resultGeometry) as [p|] eqn:Ep; cbn; auto.
Qed.

Lemma zero_strength_short_circuit_witness :
  exists clone,
    Seam.smoothSeam Qsqrt (fun x => x) (fun g _ => Value g) (fun _ _ => [])
      (bufferGeometry (Some isolatedTriangle) None None)
      (bufferGeometry (Some isolatedTriangle) None None)
      (Some (Seam.partialOptions (Some 0) None None))
    = Value clone /\
    position clone = Some isolatedTriangle.
Proof.
  destruct (zero_strength_short_circuit Qsqrt (fun x => x) (fun g _ => Value g)
              (fun _ _ => [])
              (bufferGeometry (Some isolatedTriangle) None None)
              (bufferGeometry (Some isolatedTriangle) None None)
              (Some (Seam.partialOptions (Some 0) None None)))
    as (clone & Hret & Hpos & _).
  - vm_compute. discriminate.
  - exists clone. split; [exact Hret | exact Hpos].
Defined.

(* ================================================================= *)
(** ** More of the lattice: reading it back *)

(** A grid with a point at (i, j, k) exactly for i <= l, j <= m, k <= n. *)
Definition fullGrid (l m n : nat) (g : Grid) : Prop :=
  forall i j k,
    (exists p, getCP g i j k = Some p) <-> (i <= l /\ j <= m /\ k <= n)%nat.

Lemma fullGrid_initial (b : Box3) (sz : Vector3) (l m n : nat) :
  fullGrid l m n (FFD.initializeControlPoints b sz l m n).
Proof.
  intros i j k. rewrite getCP_initializeControlPoints.
  destruct (Nat.leb_spec i l), (Nat.leb_spec j m), (Nat.leb_spec k n); cbn [andb];
    (split; [intros (p & E); try discriminate; lia
            | intros E; try lia; eexists; reflexivity]).
Qed.

Lemma fullGrid_map (f : Vector3 -> Vector3) (l m n : nat) (g : Grid) :
  fullGrid l m n g -> fullGrid l m n (map (map (map f)) g).
Proof.
  intros H i j k. rewrite getCP_map, <- (H i j k).
  destruct (getCP g i j k) as [p|]; cbn [option_map]; split;
    try (intros (q & E); discriminate); intros _; eexists; reflexivity.
Qed.

Lemma fullGrid_setCP (l m n i j k : nat) (v : Vector3) (g : Grid) :
  fullGrid l m n g -> fullGrid l m n (setCP g i j k v).
Proof.
  intros H i' j' k'. rewrite getCP_setCP, <- (H i' j' k').
  destruct ((i =? i') && (j =? j') && (k =? k'))%nat; [|reflexivity].
  destruct (getCP g i' j' k') as [p|]; cbn [option_map]; split;
    try (intros (q & E); discriminate); intros _; eexists; reflexivity.
Qed.

(** What every operation keeps of a constructed lattice: the three grids are
    full, and the position buffer has the length of the cached original. *)
Record lattice (st : FFD.state) : Prop := {
  lat_working : fullGrid (FFD.l st) (FFD.m st) (FFD.n st) (FFD.controlPoints st);
  lat_local :
    fullGrid (FFD.l st) (FFD.m st) (FFD.n st) (FFD.originalControlPoints st);
  lat_initial :
    fullGrid (FFD.l st) (FFD.m st) (FFD.n st) (FFD.initialControlPoints st);
  lat_length : length (FFD.geometry st) = length (FFD.originalPositions st) }.

Lemma lattice_deform (st : FFD.state) : lattice st -> lattice (FFD.deform st).
Proof.
  intros [H1 H2 H3 H4].
  destruct (deform_fields st) as (E1 & E2 & E3 & _ & E5 & E6 & E7 & E8 & _).
  constructor; rewrite ?E1, ?E2, ?E3, ?E5, ?E6, ?E7, ?E8; try assumption.
  apply length_deform. exact H4.
Qed.

Lemma lattice_new (g : BufferGeometry) (s : option FFDSettings) (st : FFD.state) :
  FFD.new g s = FFD.Built st -> lattice st.
Proof.
  intros H. destruct (new_Built _ _ _ H) as (array & b & _ & _ & ->).
  constructor; cbn; try apply fullGrid_initial. apply length_map.
Qed.

Lemma lattice_perform (op : operation) (st : FFD.state) :
  lattice st -> lattice (perform op st).
Proof.
  intros [H1 H2 H3 H4]. destruct op as [matrix | i j k p |]; cbn [perform].
  - unfold FFD.updateTransform. apply lattice_deform.
    constructor; cbn; try assumption. apply fullGrid_map. exact H2.
  - unfold FFD.moveControlPoint.
    destruct (getCP (FFD.controlPoints st) i j k); [|constructor; assumption].
    destruct (getCP (FFD.originalControlPoints st) i j k).
    + apply lattice_deform. constructor; cbn; try assumption;
        apply fullGrid_setCP; assumption.
    + constructor; cbn; try assumption. apply fullGrid_setCP. exact H1.
  - unfold FFD.reset. apply lattice_deform. constructor; cbn; try assumption.
    apply length_map.
Qed.

(** Every state a caller reaches from the constructor is a lattice. *)
Lemma lattice_reachable (g : BufferGeometry) (s : option FFDSettings)
    (st0 : FFD.state) (ops : list operation) :
  FFD.new g s = FFD.Built st0 -> lattice (performAll ops st0).
Proof.
  intros H. pose proof (lattice_new _ _ _ H) as L. clear H. revert st0 L.
  induction ops as [|op ops IH]; intros st0 L; cbn; [exact L|].
  apply IH. apply lattice_perform. exact L.
Qed.

(** [getControlPoint] on a lattice reached from the constructor never
    throws.  Within the subdivision counts it returns the working point;
    beyond them it returns [null], and [moveControlPoint] at such a position
    leaves the whole state as it is. *)
Theorem control_point_lookup
    (g : BufferGeometry) (s : option FFDSettings) (st0 : FFD.state)
    (ops : list operation) (i j k : nat) :
  FFD.new g s = FFD.Built st0 ->
  let st := performAll ops st0 in
  ((i <= FFD.l st /\ j <= FFD.m st /\ k <= FFD.n st)%nat ->
   exists p, FFD.getControlPoint i j k st = Value (Some p) /\
             getCP (FFD.controlPoints st) i j k = Some p) /\
  (~ (i <= FFD.l st /\ j <= FFD.m st /\ k <= FFD.n st)%nat ->
   FFD.getControlPoint i j k st = Value None /\
   forall newPosition, FFD.moveControlPoint i j k newPosition st = st).
Proof.
  intros Hnew st. destruct (lattice_reachable g s st0 ops Hnew) as [Hw _ _ _].
  fold st in Hw. unfold FFD.getControlPoint. split.
  - intros Hin. destruct (proj2 (Hw i j k) Hin) as (p & Hp).
    exists p. split; [|exact Hp]. rewrite Hp.
    destruct Hin as (Hi & Hj & Hk).
    apply Nat.ltb_ge in Hi, Hj, Hk. rewrite Hi, Hj, Hk. reflexivity.
  - intros Hout. split.
    + destruct (Nat.ltb_spec (FFD.l st) i); [reflexivity|].
      destruct (Nat.ltb_spec (FFD.m st) j); [reflexivity|].
      destruct (Nat.ltb_spec (FFD.n st) k); [reflexivity|].
      exfalso. apply Hout. repeat split; assumption.
    + intros q. unfold FFD.moveControlPoint.
      destruct (getCP (FFD.controlPoints st) i j k) as [p|] eqn:Hp; [|reflexivity].
      exfalso. apply Hout. apply (Hw i j k). exists p. exact Hp.
Qed.

Lemma control_point_lookup_witness :
  exists st0,
    FFD.new cube None = FFD.Built st0 /\
    FFD.getControlPoint 3 0 0 (performAll [MoveControlPoint 1 1 1 (vec3 2 2 2)] st0)
    = Value None.
Proof.
  eexists. split; [reflexivity|].
  apply (control_point_lookup cube None _ [MoveControlPoint 1 1 1 (vec3 2 2 2)]
           3 0 0 eq_refl).
  cbn. lia.
Defined.

(** Writing a control point and reading it back: after
    [moveControlPoint(i, j, k, p)] at a position of the grid,
    [getControlPoint(i, j, k)] returns [p], and every other position reads as
    before. *)
Theorem control_point_write_read
    (g : BufferGeometry) (s : option FFDSettings) (st0 : FFD.state)
    (ops : list operation) (i j k : nat) (p : Vector3) :
  FFD.new g s = FFD.Built st0 ->
  let st := performAll ops st0 in
  let st' := FFD.moveControlPoint i j k p st in
  ((i <= FFD.l st /\ j <= FFD.m st /\ k <= FFD.n st)%nat ->
   FFD.getControlPoint i j k st' = Value (Some p)) /\
  (forall i' j' k', (i', j', k') <> (i, j, k) ->
     FFD.getControlPoint i' j' k' st' = FFD.getControlPoint i' j' k' st).
Proof.
  intros Hnew st st'.
  pose proof (lattice_reachable g s st0 ops Hnew) as L. fold st in L.
  pose proof (lattice_perform (MoveControlPoint i j k p) st L) as L'.
  cbn [perform] in L'. fold st' in L'.
  destruct L as [Hw Hl _ _].
  assert (Hdims : FFD.l st' = FFD.l st /\ FFD.m st' = FFD.m st
                  /\ FFD.n st' = FFD.n st).
  { destruct (sameLattice_perform st st (MoveControlPoint i j k p)
                (sameLattice_refl st)) as (_ & _ & _ & E1 & E2 & E3 & _).
    repeat split; assumption. }
  destruct Hdims as (El & Em & En).
  assert (Hcps : forall i' j' k',
             getCP (FFD.controlPoints st') i' j' k'
             = if ((i =? i') && (j =? j') && (k =? k'))%nat
               then option_map (fun _ => p) (getCP (FFD.controlPoints st) i' j' k')
               else getCP (FFD.controlPoints st) i' j' k').
  { intros i' j' k'. unfold st', FFD.moveControlPoint.
    destruct (getCP (FFD.controlPoints st) i j k) as [q|] eqn:Hq.
    - destruct (proj2 (Hl i j k) (proj1 (Hw i j k) (ex_intro _ q Hq))) as (q' & Hq').
      rewrite Hq'.
      destruct (deform_fields
                  (FFD.withPoints st (setCP (FFD.controlPoints st) i j k p)
                     (setCP (FFD.originalControlPoints st) i j k
                        (if negb (equals (FFD.currentTransform st) identity)
                         then applyMatrix4 (invert (FFD.currentTransform st)) p
                         else p))
                     (FFD.currentTransform st))) as (-> & _).
      cbn [FFD.withPoints FFD.controlPoints]. apply getCP_setCP.
    - destruct ((i =? i') && (j =? j') && (k =? k'))%nat eqn:E; [|reflexivity].
      apply andb_prop in E as (E & E3). apply andb_prop in E as (E1 & E2).
      apply Nat.eqb_eq in E1, E2, E3. subst i' j' k'. rewrite Hq. reflexivity. }
  unfold FFD.getControlPoint. rewrite El, Em, En. split.
  - intros Hin. destruct (proj2 (Hw i j k) Hin) as (q & Hq).
    rewrite Hcps, !Nat.eqb_refl, Hq. cbn [andb option_map].
    destruct Hin as (Hi & Hj & Hk).
    apply Nat.ltb_ge in Hi, Hj, Hk. rewrite Hi, Hj, Hk. reflexivity.
  - intros i' j' k' Hne. rewrite Hcps.
    destruct ((i =? i') && (j =? j') && (k =? k'))%nat eqn:E; [|reflexivity].
    apply andb_prop in E as (E & E3). apply andb_prop in E as (E1 & E2).
    apply Nat.eqb_eq in E1, E2, E3. subst i' j' k'. congruence.
Qed.

Lemma control_point_write_read_witness :
  exists st0,
    FFD.new cube None = FFD.Built st0 /\
    FFD.getControlPoint 1 2 0 (FFD.moveControlPoint 1 2 0 (vec3 5 5 5) st0)
    = Value (Some (vec3 5 5 5)).
Proof.
  eexists. split; [reflexivity|].
  apply (control_point_write_read cube None _ [] 1 2 0 (vec3 5 5 5) eq_refl).
  cbn. lia.
Defined.

(* ----------------------------------------------------------------- *)
(** *** The transformed bounding box *)

(** An affine function of one variable stays between its values at the ends
    of an interval. *)
Lemma affine_between (a b lo hi x L U : Q) :
  lo <= x -> x <= hi ->
  L <= a * lo + b -> a * lo + b <= U ->
  L <= a * hi + b -> a * hi + b <= U ->
  L <= a * x + b /\ a * x + b <= U.
Proof.
  intros H1 H2 H3 H4 H5 H6.
  destruct (Qlt_le_dec a 0) as [Ha|Ha]; split; nra.
Qed.

Lemma applyMatrix4_affine (t : Matrix4) (p : Vector3) :
  affine t ->
  veq (applyMatrix4 t p)
      (vec3 (e0 t * vx p + e4 t * vy p + e8 t * vz p + e12 t)
            (e1 t * vx p + e5 t * vy p + e9 t * vz p + e13 t)
            (e2 t * vx p + e6 t * vy p + e10 t * vz p + e14 t)).
Proof.
  intros (H3 & H7 & H11 & H15).
  unfold veq, applyMatrix4, divisor. cbn [vx vy vz].
  rewrite H3, H7, H11, H15. repeat split; field.
Qed.

Lemma inside_veq (b : Box3) (p q : Vector3) : veq p q -> inside b p -> inside b q.
Proof.
  intros (Ex & Ey & Ez) ((L1 & L2 & L3) & (U1 & U2 & U3)).
  unfold inside, vle. rewrite <- Ex, <- Ey, <- Ez. repeat split; assumption.
Qed.

(** The box of a non-empty list of points contains each of them. *)
Lemma fold_expand_points (pts : list Vector3) :
  pts <> [] ->
  exists b, fold_left expandByPoint pts None = Some b /\
            forall p, In p pts -> inside b p.
Proof.
  destruct pts as [|q pts]; [congruence|]. intros _.
  cbn [fold_left expandByPoint].
  destruct (fold_expand_Some pts (box3 q q)) as (b & Hb & Lo & Up & Hall).
  exists b. split; [exact Hb|].
  intros p [<-|Hp]; [split; assumption | apply Hall; exact Hp].
Qed.

(** [getBoundingBox] never returns the empty box, and under an affine
    transform the box it returns contains the image of every point of the
    construction-time bounding box, so of every vertex of the mesh. *)
Theorem bounding_box_encloses (st : FFD.state) (p : Vector3) :
  affine (FFD.currentTransform st) ->
  inside (FFD.bbox st) p ->
  exists b, FFD.getBoundingBox st = Some b /\
            inside b (applyMatrix4 (FFD.currentTransform st) p).
Proof.
  intros Haff Hin. unfold FFD.getBoundingBox.
  destruct (equals (FFD.currentTransform st) identity) eqn:E; cbn [negb].
  { exists (FFD.bbox st). split; [reflexivity|].
    apply (inside_veq _ p); [|exact Hin].
    symmetry. apply applyMatrix4_equals_identity. exact E. }
  set (t := FFD.currentTransform st) in *.
  destruct (fold_expand_points (map (applyMatrix4 t) (FFD.corners (FFD.bbox st))))
    as (b & Hb & Hall); [discriminate|].
  exists b. split; [exact Hb|].
  apply (inside_veq _ _ _ (symmetry (applyMatrix4_affine t p Haff))).
  assert (Hc : forall c, In c (FFD.corners (FFD.bbox st)) ->
             inside b (vec3 (e0 t * vx c + e4 t * vy c + e8 t * vz c + e12 t)
                            (e1 t * vx c + e5 t * vy c + e9 t * vz c + e13 t)
                            (e2 t * vx c + e6 t * vy c + e10 t * vz c + e14 t))).
  { intros c Hc. apply (inside_veq _ _ _ (applyMatrix4_affine t c Haff)).
    apply Hall. apply in_map. exact Hc. }
  clear Hall Hb E.
  destruct Hin as ((Lx & Ly & Lz) & (Ux & Uy & Uz)).
  destruct (FFD.bbox st) as [[x0 y0 z0] [x1 y1 z1]].
  destruct p as [x y z]. cbn [bmin bmax vx vy vz] in *.
  unfold FFD.corners in Hc. cbn [bmin bmax vx vy vz] in Hc.
  pose proof (Hc _ (or_introl eq_refl)) as ((A1 & A2 & A3) & (A4 & A5 & A6)).
  pose proof (Hc _ (or_intror (or_introl eq_refl)))
    as ((B1 & B2 & B3) & (B4 & B5 & B6)).
  pose proof (Hc _ (or_intror (or_intror (or_introl eq_refl))))
    as ((C1 & C2 & C3) & (C4 & C5 & C6)).
  pose proof (Hc _ (or_intror (or_intror (or_intror (or_introl eq_refl)))))
    as ((D1 & D2 & D3) & (D4 & D5 & D6)).
  pose proof (Hc _ (or_intror (or_intror (or_intror (or_intror (or_introl eq_refl))))))
    as ((E1 & E2 & E3) & (E4 & E5 & E6)).
  pose proof (Hc _ (or_intror (or_intror (or_intror (or_intror
                     (or_intror (or_introl eq_refl)))))))
    as ((F1 & F2 & F3) & (F4 & F5 & F6)).
  pose proof (Hc _ (or_intror (or_intror (or_intror (or_intror
                     (or_intror (or_intror (or_introl eq_refl))))))))
    as ((G1 & G2 & G3) & (G4 & G5 & G6)).
  pose proof (Hc _ (or_intror (or_intror (or_intror (or_intror
                     (or_intror (or_intror (or_intror (or_introl eq_refl)))))))))
    as ((H1 & H2 & H3) & (H4 & H5 & H6)).
  clear Hc. cbn [bmin bmax vx vy vz] in *.
  assert (Hrow : forall a b c d L U,
             L <= a * x0 + b * y0 + c * z0 + d -> a * x0 + b * y0 + c * z0 + d <= U ->
             L <= a * x0 + b * y0 + c * z1 + d -> a * x0 + b * y0 + c * z1 + d <= U ->
             L <= a * x0 + b * y1 + c * z0 + d -> a * x0 + b * y1 + c * z0 + d <= U ->
             L <= a * x0 + b * y1 + c * z1 + d -> a * x0 + b * y1 + c * z1 + d <= U ->
             L <= a * x1 + b * y0 + c * z0 + d -> a * x1 + b * y0 + c * z0 + d <= U ->
             L <= a * x1 + b * y0 + c * z1 + d -> a * x1 + b * y0 + c * z1 + d <= U ->
             L <= a * x1 + b * y1 + c * z0 + d -> a * x1 + b * y1 + c * z0 + d <= U ->
             L <= a * x1 + b * y1 + c * z1 + d -> a * x1 + b * y1 + c * z1 + d <= U ->
             L <= a * x + b * y + c * z + d /\ a * x + b * y + c * z + d <= U).
  { intros a b' c d L U P1 P2 P3 P4 P5 P6 P7 P8 P9 P10 P11 P12 P13 P14 P15 P16.
    assert (Qz : forall xx yy,
               (L <= a * xx + b' * yy + c * z0 + d /\
                a * xx + b' * yy + c * z0 + d <= U) ->
               (L <= a * xx + b' * yy + c * z1 + d /\
                a * xx + b' * yy + c * z1 + d <= U) ->
               L <= a * xx + b' * yy + c * z + d /\
               a * xx + b' * yy + c * z + d <= U).
    { intros xx yy (S1 & S2) (S3 & S4).
      destruct (affine_between c (a * xx + b' * yy + d) z0 z1 z L U); lra. }
    assert (Qy : forall xx,
               (L <= a * xx + b' * y0 + c * z + d /\
                a * xx + b' * y0 + c * z + d <= U) ->
               (L <= a * xx + b' * y1 + c * z + d /\
                a * xx + b' * y1 + c * z + d <= U) ->
               L <= a * xx + b' * y + c * z + d /\
               a * xx + b' * y + c * z + d <= U).
    { intros xx (S1 & S2) (S3 & S4).
      destruct (affine_between b' (a * xx + c * z + d) y0 y1 y L U); lra. }
    pose proof (Qy x0 (Qz x0 y0 (conj P1 P2) (conj P3 P4))
                      (Qz x0 y1 (conj P5 P6) (conj P7 P8))) as (R1 & R2).
    pose proof (Qy x1 (Qz x1 y0 (conj P9 P10) (conj P11 P12))
                      (Qz x1 y1 (conj P13 P14) (conj P15 P16))) as (R3 & R4).
    destruct (affine_between a (b' * y + c * z + d) x0 x1 x L U); lra. }
  unfold inside, vle. cbn [bmin bmax vx vy vz].
  destruct (Hrow (e0 t) (e4 t) (e8 t) (e12 t) (vx (bmin b)) (vx (bmax b)));
    try assumption.
  destruct (Hrow (e1 t) (e5 t) (e9 t) (e13 t) (vy (bmin b)) (vy (bmax b)));
    try assumption.
  destruct (Hrow (e2 t) (e6 t) (e10 t) (e14 t) (vz (bmin b)) (vz (bmax b)));
    try assumption.
  repeat split; assumption.
Qed.

Lemma bounding_box_encloses_witness :
  exists st0,
    FFD.new cube None = FFD.Built st0 /\
    let st := FFD.updateTransform (mat4 2 0 0 0  0 2 0 0  0 0 2 0  1 0 0 1) st0 in
    exists b,
      FFD.getBoundingBox st = Some b /\
      inside b (applyMatrix4 (FFD.currentTransform st) (vec3 (1 # 2) 0 (-1))).
Proof.
  eexists. split; [reflexivity|]. cbv zeta.
  apply bounding_box_encloses.
  - vm_compute. repeat split; reflexivity.
  - vm_compute. repeat split; discriminate.
Defined.

(* ----------------------------------------------------------------- *)
(** *** The cached geometry and snapshots *)

(** Two states on which [deform] computes the same: all the fields it reads
    agree, and the position attributes have the same number of vertices. *)
Definition sameInputs (a b : FFD.state) : Prop :=
  FFD.controlPoints a = FFD.controlPoints b /\
  FFD.originalControlPoints a = FFD.originalControlPoints b /\
  FFD.initialControlPoints a = FFD.initialControlPoints b /\
  FFD.bbox a = FFD.bbox b /\
  FFD.originalPositions a = FFD.originalPositions b /\
  FFD.l a = FFD.l b /\ FFD.m a = FFD.m b /\ FFD.n a = FFD.n b /\
  FFD.size a = FFD.size b /\
  FFD.currentTransform a = FFD.currentTransform b /\
  count (FFD.geometry a) = count (FFD.geometry b).

Lemma deform_congr (a b : FFD.state) :
  sameInputs a b -> FFD.controlPoints a <> [] -> FFD.deform a = FFD.deform b.
Proof.
  intros (E1 & E2 & E3 & E4 & E5 & E6 & E7 & E8 & E9 & E10 & E11) Hne.
  destruct a, b. cbn in *. subst. unfold FFD.deform. cbn.
  destruct controlPoints0 as [|plane planes]; [congruence|].
  rewrite E11. reflexivity.
Qed.

Lemma fullGrid_nonempty (l m n : nat) (g : Grid) : fullGrid l m n g -> g <> [].
Proof.
  intros H E. destruct (proj2 (H 0 0 0)%nat ltac:(lia)) as (p & Hp).
  subst g. discriminate.
Qed.

Lemma count_deform (st : FFD.state) :
  length (FFD.geometry st) = length (FFD.originalPositions st) ->
  count (FFD.geometry (FFD.deform st)) = count (FFD.geometry st).
Proof.
  intros H. unfold count. rewrite length_deform by exact H. rewrite H. reflexivity.
Qed.

(** On a lattice, deforming twice is deforming once. *)
Lemma deform_idempotent (st : FFD.state) :
  lattice st -> FFD.deform (FFD.deform st) = FFD.deform st.
Proof.
  intros [Hw _ _ Hlen]. pose proof (fullGrid_nonempty _ _ _ _ Hw) as Hne.
  destruct (deform_fields st)
    as (E1 & E2 & E3 & E4 & E5 & E6 & E7 & E8 & E9 & E10).
  apply deform_congr; [|rewrite E1; exact Hne].
  unfold sameInputs. rewrite E1, E2, E3, E4, E5, E6, E7, E8, E9, E10.
  repeat split. apply count_deform. exact Hlen.
Qed.

(** The cache is absent, or it is the position buffer and that buffer is
    what [deform] computes from the current points and transform. *)
Definition cached (st : FFD.state) : Prop :=
  FFD.lastDeformedGeometry st = None \/
  (FFD.lastDeformedGeometry st = Some (FFD.geometry st) /\ FFD.deform st = st).

Lemma cached_deform (st : FFD.state) : lattice st -> cached (FFD.deform st).
Proof.
  intros L. right. split; [|apply deform_idempotent; exact L].
  destruct L as [Hw _ _ _]. pose proof (fullGrid_nonempty _ _ _ _ Hw) as Hne.
  unfold FFD.deform. destruct (FFD.controlPoints st); [congruence|]. reflexivity.
Qed.

Lemma cached_perform (op : operation) (st : FFD.state) :
  lattice st -> cached st -> cached (perform op st).
Proof.
  intros L C. pose proof L as [Hw Hl Hi Hlen].
  destruct op as [matrix | i j k p |]; cbn [perform].
  - unfold FFD.updateTransform. apply cached_deform.
    constructor; cbn; try assumption. apply fullGrid_map. exact Hl.
  - unfold FFD.moveControlPoint.
    destruct (getCP (FFD.controlPoints st) i j k) as [q|] eqn:Hq; [|exact C].
    destruct (proj2 (Hl i j k) (proj1 (Hw i j k) (ex_intro _ q Hq))) as (q' & ->).
    apply cached_deform. constructor; cbn; try assumption;
      apply fullGrid_setCP; assumption.
  - unfold FFD.reset. apply cached_deform. constructor; cbn; try assumption.
    apply length_map.
Qed.

Lemma cached_reachable (g : BufferGeometry) (s : option FFDSettings)
    (st0 : FFD.state) (ops : list operation) :
  FFD.new g s = FFD.Built st0 -> cached (performAll ops st0).
Proof.
  intros H. pose proof (lattice_new _ _ _ H) as L.
  assert (C : cached st0).
  { left. destruct (new_Built _ _ _ H) as (array & b & _ & _ & ->). reflexivity. }
  clear H. revert st0 L C.
  induction ops as [|op ops IH]; intros st0 L C; cbn; [exact C|].
  apply IH; [apply lattice_perform | apply cached_perform]; assumption.
Qed.

Lemma getDeformedGeometry_reachable
    (g : BufferGeometry) (s : option FFDSettings) (st0 : FFD.state)
    (ops : list operation) :
  FFD.new g s = FFD.Built st0 ->
  let st := performAll ops st0 in
  let result := FFD.getDeformedGeometry st in
  fst result = FFD.geometry (FFD.deform st) /\
  snd result = FFD.deform st /\
  fst (FFD.getDeformedGeometry (snd result)) = fst result /\
  forall i, (i < count (FFD.originalPositions st))%nat ->
    finiteVertex (fst result) i
    = FFD.deformVertex st (invert (FFD.currentTransform st)) i.
Proof.
  intros Hnew st result.
  pose proof (lattice_reachable g s st0 ops Hnew) as L. fold st in L.
  pose proof (cached_reachable g s st0 ops Hnew) as C. fold st in C.
  pose proof (cached_deform st L) as [Cd|(Cd & _)].
  { exfalso. destruct L as [Hw _ _ _].
    pose proof (fullGrid_nonempty _ _ _ _ Hw) as Hne.
    unfold FFD.deform in Cd. destruct (FFD.controlPoints st); [congruence|].
    discriminate. }
  assert (Hres : result = (FFD.geometry (FFD.deform st), FFD.deform st)).
  { unfold result, FFD.getDeformedGeometry.
    destruct C as [C|(C & Cfix)].
    - rewrite C, Cd. reflexivity.
    - rewrite C. cbv zeta. rewrite C, Cfix. reflexivity. }
  rewrite Hres. cbn [fst snd]. split; [reflexivity|]. split; [reflexivity|].
  split.
  - unfold FFD.getDeformedGeometry. rewrite Cd. cbv zeta. rewrite Cd. reflexivity.
  - intros i Hi. destruct L as [Hw _ _ Hlen]. apply deform_vertex.
    + apply (fullGrid_nonempty _ _ _ _ Hw).
    + exact Hlen.
    + unfold count in *. rewrite Hlen. exact Hi.
Qed.

(** The geometry [getDeformedGeometry] hands out is never stale: whatever
    operations came before, it is the buffer [deform] computes from the
    current control points and transform, vertex by vertex, and the state the
    call leaves is the deformed one. *)
Theorem deformed_geometry_current
    (g : BufferGeometry) (s : option FFDSettings) (st0 : FFD.state)
    (ops : list operation) :
  FFD.new g s = FFD.Built st0 ->
  let st := performAll ops st0 in
  let result := FFD.getDeformedGeometry st in
  fst result = FFD.geometry (FFD.deform st) /\
  snd result = FFD.deform st /\
  fst (FFD.getDeformedGeometry (snd result)) = fst result /\
  forall i, (i < count (FFD.originalPositions st))%nat ->
    finiteVertex (fst result) i
    = FFD.deformVertex st (invert (FFD.currentTransform st)) i.
Proof. exact (getDeformedGeometry_reachable g s st0 ops). Qed.

Lemma deformed_geometry_current_witness :
  exists st0,
    FFD.new cube None = FFD.Built st0 /\
    let st := performAll [MoveControlPoint 1 1 1 (vec3 2 2 2)] st0 in
    fst (FFD.getDeformedGeometry st) = FFD.geometry (FFD.deform st).
Proof.
  eexists. split; [reflexivity|].
  exact (proj1 (deformed_geometry_current cube None _
                  [MoveControlPoint 1 1 1 (vec3 2 2 2)] eq_refl)).
Defined.

(** Overflow.  From 171 subdivisions along an axis on, the coefficient of
    the last Bernstein polynomial of that axis is [Infinity], and whatever
    operations came before, no vertex that [deform] writes is finite. *)
Theorem deform_overflows_from_171
    (g : BufferGeometry) (s : option FFDSettings) (st0 : FFD.state)
    (ops : list operation) :
  FFD.new g s = FFD.Built st0 ->
  let st := performAll ops st0 in
  infiniteWeights st ->
  ((171 <= FFD.l st)%nat -> FFD.binomial (FFD.l st) (FFD.l st) = None) /\
  ((171 <= FFD.m st)%nat -> FFD.binomial (FFD.m st) (FFD.m st) = None) /\
  ((171 <= FFD.n st)%nat -> FFD.binomial (FFD.n st) (FFD.n st) = None) /\
  (forall a b c, FFD.calculateDeformedPosition st a b c = None) /\
  forall i, (i < count (FFD.originalPositions st))%nat ->
    finiteVertex (FFD.geometry (FFD.deform st)) i = None /\
    finiteVertex (fst (FFD.getDeformedGeometry st)) i = None.
Proof.
  intros Hnew st Hinf.
  pose proof (lattice_reachable g s st0 ops Hnew) as L. fold st in L.
  split; [apply binomial_infinite|]. split; [apply binomial_infinite|].
  split; [apply binomial_infinite|].
  split; [intros a b c; apply calculateDeformedPosition_infinite; exact Hinf|].
  intros i Hi.
  pose proof (getDeformedGeometry_reachable g s st0 ops Hnew) as (G1 & _).
  fold st in G1. rewrite G1.
  destruct L as [Hw _ _ Hlen].
  assert (E : finiteVertex (FFD.geometry (FFD.deform st)) i = None).
  { apply deform_vertex_infinite.
    - apply (fullGrid_nonempty _ _ _ _ Hw).
    - exact Hlen.
    - unfold count in *. rewrite Hlen. exact Hi.
    - exact Hinf. }
  split; exact E.
Qed.

Lemma deform_overflows_from_171_witness :
  exists st0,
    FFD.new cube (Some (ffdSettings 2 171 2)) = FFD.Built st0 /\
    finiteVertex (FFD.geometry (FFD.deform (performAll [] st0))) 0 = None.
Proof.
  eexists. split; [reflexivity|].
  refine (proj1 (proj2 (proj2 (proj2 (proj2
            (deform_overflows_from_171 cube (Some (ffdSettings 2 171 2)) _ []
               eq_refl _)))) 0%nat _)).
  - right. left. apply Nat.leb_le. vm_compute. reflexivity.
  - vm_compute. lia.
Defined.

Lemma covers_true (l m n : nat) (g : Grid) :
  FFD.covers l m n g = true <->
  forall i j k, (i <= l /\ j <= m /\ k <= n)%nat -> exists p, getCP g i j k = Some p.
Proof.
  unfold FFD.covers. rewrite forallb_forall. split.
  - intros H i j k (Hi & Hj & Hk).
    specialize (H i ltac:(apply in_seq; lia)). rewrite forallb_forall in H.
    specialize (H j ltac:(apply in_seq; lia)). rewrite forallb_forall in H.
    specialize (H k ltac:(apply in_seq; lia)).
    destruct (getCP g i j k) as [p|]; [exists p; reflexivity | discriminate].
  - intros H i Hi. apply in_seq in Hi. apply forallb_forall. intros j Hj.
    apply in_seq in Hj. apply forallb_forall. intros k Hk. apply in_seq in Hk.
    destruct (H i j k ltac:(lia)) as (p & ->). reflexivity.
Qed.

Lemma performAll_app (ops1 ops2 : list operation) (st : FFD.state) :
  performAll (ops1 ++ ops2) st = performAll ops2 (performAll ops1 st).
Proof. unfold performAll. apply fold_left_app. Qed.

(** Undo.  A snapshot taken with [getControlPoints],
    [getOriginalControlPoints] and [getCurrentTransform] and handed to
    [restoreSnapshot] after any further operations brings back the two point
    sets and the transform of the moment it was taken, without throwing, and
    [getDeformedGeometry] then returns the positions it returned at that
    moment. *)
Theorem snapshot_restores
    (g : BufferGeometry) (s : option FFDSettings) (st0 : FFD.state)
    (before after : list operation) (ocps : Grid) :
  FFD.new g s = FFD.Built st0 ->
  let st1 := performAll before st0 in
  let st2 := performAll after st1 in
  FFD.getOriginalControlPoints st1 = Some ocps ->
  let restored :=
    FFD.restoreSnapshot (FFD.getControlPoints st1) ocps
                        (FFD.getCurrentTransform st1) st2 in
  fst restored = None /\
  FFD.controlPoints (snd restored) = FFD.controlPoints st1 /\
  FFD.originalControlPoints (snd restored) = FFD.originalControlPoints st1 /\
  FFD.currentTransform (snd restored) = FFD.currentTransform st1 /\
  fst (FFD.getDeformedGeometry (snd restored)) = fst (FFD.getDeformedGeometry st1).
Proof.
  intros Hnew st1 st2 Hocps restored.
  injection Hocps as <-.
  pose proof (lattice_reachable g s st0 before Hnew) as L1. fold st1 in L1.
  pose proof (lattice_reachable g s st0 (before ++ after) Hnew) as L2.
  rewrite performAll_app in L2. fold st1 st2 in L2.
  pose proof (sameLattice_performAll after st1 st1 (sameLattice_refl st1))
    as (S1 & S2 & S3 & S4 & S5 & S6 & S7). fold st2 in S1, S2, S3, S4, S5, S6, S7.
  pose proof (getDeformedGeometry_reachable g s st0 before Hnew) as (G1 & G2 & G3 & _).
  fold st1 in G1, G2, G3.
  destruct L1 as [Hw1 Hl1 Hi1 Hlen1]. destruct L2 as [_ _ _ Hlen2].
  pose proof (fullGrid_nonempty _ _ _ _ Hw1) as Hne.
  assert (Hres : restored = (None, FFD.deform st1)).
  { unfold restored, FFD.restoreSnapshot, FFD.deformThrows,
      FFD.getControlPoints, FFD.getCurrentTransform.
    cbn [FFD.controlPoints FFD.l FFD.m FFD.n FFD.geometry].
    assert (Hcov : FFD.covers (FFD.l st2) (FFD.m st2) (FFD.n st2)
                     (FFD.controlPoints st1) = true).
    { rewrite S4, S5, S6. apply covers_true. intros i j k Hin.
      apply (Hw1 i j k). exact Hin. }
    rewrite Hcov. cbn [negb]. rewrite andb_false_r.
    destruct (FFD.controlPoints st1) as [|plane planes] eqn:Ecps; [congruence|].
    f_equal. rewrite <- Ecps. apply deform_congr; [|cbn; rewrite Ecps; discriminate].
    unfold sameInputs. cbn. rewrite S1, S2, S3, S4, S5, S6, S7.
    repeat split. unfold count. rewrite Hlen1, Hlen2, S3. reflexivity. }
  rewrite Hres. cbn [fst snd].
  destruct (deform_fields st1) as (E1 & E2 & _ & _ & _ & _ & _ & _ & _ & E10).
  split; [reflexivity|]. split; [exact E1|]. split; [exact E2|]. split; [exact E10|].
  rewrite <- G2. exact G3.
Qed.

Lemma snapshot_restores_witness :
  exists st0,
    FFD.new cube None = FFD.Built st0 /\
    let st1 := performAll [MoveControlPoint 1 1 1 (vec3 2 2 2)] st0 in
    let st2 := performAll [Reset] st1 in
    fst (FFD.restoreSnapshot (FFD.getControlPoints st1) (FFD.originalControlPoints st1)
           (FFD.getCurrentTransform st1) st2) = None.
Proof.
  eexists. split; [reflexivity|].
  exact (proj1 (snapshot_restores cube None _ [MoveControlPoint 1 1 1 (vec3 2 2 2)]
                  [Reset] _ eq_refl eq_refl)).
Defined.

(** A snapshot does not carry over to a lattice with more subdivisions: when
    the mesh has a vertex, [restoreSnapshot] with a grid that is full for
    smaller counts throws while deforming, after the points and transform
    were replaced and before the position buffer was recomputed. *)
Theorem snapshot_of_smaller_grid_throws
    (st : FFD.state) (cps ocps : Grid) (transform : Matrix4) (l' m' n' : nat) :
  fullGrid l' m' n' cps ->
  (l' < FFD.l st \/ m' < FFD.m st \/ n' < FFD.n st)%nat ->
  (0 < count (FFD.geometry st))%nat ->
  let restored := FFD.restoreSnapshot cps ocps transform st in
  fst restored = Some TypeError /\
  FFD.controlPoints (snd restored) = cps /\
  FFD.geometry (snd restored) = FFD.geometry st.
Proof.
  intros Hfull Hless Hcount restored.
  assert (Hcov : FFD.covers (FFD.l st) (FFD.m st) (FFD.n st) cps = false).
  { destruct (FFD.covers (FFD.l st) (FFD.m st) (FFD.n st) cps) eqn:E; [|reflexivity].
    exfalso. rewrite covers_true in E.
    destruct (E (FFD.l st) (FFD.m st) (FFD.n st) ltac:(lia)) as (p & Hp).
    pose proof (proj1 (Hfull _ _ _) (ex_intro _ p Hp)). lia. }
  pose proof (fullGrid_nonempty _ _ _ _ Hfull) as Hne.
  unfold restored, FFD.restoreSnapshot, FFD.deformThrows.
  cbn [FFD.controlPoints FFD.l FFD.m FFD.n FFD.geometry].
  rewrite Hcov. apply Nat.ltb_lt in Hcount. rewrite Hcount. cbn [negb andb].
  destruct cps as [|plane planes]; [congruence|]. cbn. repeat split.
Qed.

Lemma snapshot_of_smaller_grid_throws_witness :
  exists st0 st1,
    FFD.new cube (Some (ffdSettings 3 3 3)) = FFD.Built st0 /\
    FFD.new cube None = FFD.Built st1 /\
    fst (FFD.restoreSnapshot (FFD.controlPoints st1) (FFD.originalControlPoints st1)
           identity st0) = Some TypeError.
Proof.
  eexists. eexists. split; [reflexivity|]. split; [reflexivity|].
  refine (proj1 (snapshot_of_smaller_grid_throws _ _ _ identity 2 2 2 _ _ _)).
  - apply fullGrid_initial.
  - cbn. lia.
  - vm_compute. lia.
Defined.

(** Placement is absolute.  [updateTransform] derives the working points
    from the local ones, which it leaves alone, so a second call replaces the
    first: the state after two calls is the state after the last one. *)
Theorem update_transform_absolute
    (g : BufferGeometry) (s : option FFDSettings) (st0 : FFD.state)
    (ops : list operation) (first second : Matrix4) :
  FFD.new g s = FFD.Built st0 ->
  let st := performAll ops st0 in
  FFD.updateTransform second (FFD.updateTransform first st)
  = FFD.updateTransform second st /\
  FFD.originalControlPoints (FFD.updateTransform second st)
  = FFD.originalControlPoints st.
Proof.
  intros Hnew st.
  pose proof (lattice_reachable g s st0 ops Hnew) as L. fold st in L.
  destruct L as [Hw Hl Hi Hlen].
  pose proof (fullGrid_nonempty _ _ _ _ Hl) as Hne.
  split.
  - unfold FFD.updateTransform at 1 3.
    set (mid := FFD.updateTransform first st).
    assert (Lmid : lattice mid).
    { apply (lattice_perform (UpdateTransform first) st). constructor; assumption. }
    destruct (deform_fields
                (FFD.withPoints st
                   (map (map (map (applyMatrix4 first))) (FFD.originalControlPoints st))
                   (FFD.originalControlPoints st) first))
      as (_ & E2 & E3 & E4 & E5 & E6 & E7 & E8 & E9 & _).
    cbn [FFD.withPoints FFD.originalControlPoints FFD.initialControlPoints FFD.bbox
         FFD.originalPositions FFD.l FFD.m FFD.n FFD.size] in E2, E3, E4, E5, E6, E7,
         E8, E9.
    fold (FFD.updateTransform first st) in E2, E3, E4, E5, E6, E7, E8, E9.
    fold mid in E2, E3, E4, E5, E6, E7, E8, E9.
    apply deform_congr.
    + unfold sameInputs. cbn. rewrite E2, E3, E4, E5, E6, E7, E8, E9.
      repeat split. unfold count.
      rewrite (lat_length _ Lmid), E5, Hlen. reflexivity.
    + cbn. rewrite E2. destruct (FFD.originalControlPoints st); [congruence|].
      discriminate.
  - unfold FFD.updateTransform.
    destruct (deform_fields
                (FFD.withPoints st
                   (map (map (map (applyMatrix4 second))) (FFD.originalControlPoints st))
                   (FFD.originalControlPoints st) second)) as (_ & E2 & _).
    exact E2.
Qed.

Lemma update_transform_absolute_witness :
  exists st0,
    FFD.new cube None = FFD.Built st0 /\
    let st := performAll [MoveControlPoint 1 1 1 (vec3 2 2 2)] st0 in
    FFD.updateTransform identity
      (FFD.updateTransform (mat4 2 0 0 0  0 2 0 0  0 0 2 0  1 0 0 1) st)
    = FFD.updateTransform identity st.
Proof.
  eexists. split; [reflexivity|].
  exact (proj1 (update_transform_absolute cube None _
                  [MoveControlPoint 1 1 1 (vec3 2 2 2)]
                  (mat4 2 0 0 0  0 2 0 0  0 0 2 0  1 0 0 1) identity eq_refl)).
Defined.

(* ================================================================= *)
(** ** More of the lattice: the blend as a weighted sum *)





















(* ----------------------------------------------------------------- *)
(** *** The deformed mesh stays in the hull of the control points *)















(* ----------------------------------------------------------------- *)
(** *** What moving one control point does to the mesh *)







(* ================================================================= *)
(** ** More of the seam repair: keys and degenerate faces *)

(** The six orderings of three vertices. *)
Definition sameVertices (f g : Face) : Prop :=
  let '(a, b, c) := f in
  g = (a, b, c) \/ g = (a, c, b) \/ g = (b, a, c) \/
  g = (b, c, a) \/ g = (c, a, b) \/ g = (c, b, a).

(** The key lists the three vertices of the face in ascending order. *)
Lemma faceKey_sorted (a b c : nat) :
  let '(x, y, z) := Seam.faceKey (a, b, c) in
  sameVertices (x, y, z) (a, b, c) /\ (x <= y)%nat /\ (y <= z)%nat.
Proof.
  unfold Seam.faceKey, sameVertices.
  destruct (Nat.le_gt_cases a b), (Nat.le_gt_cases b c), (Nat.le_gt_cases a c);
    try lia.
  - replace (Nat.min a (Nat.min b c)) with a by lia.
    replace (Nat.max a (Nat.max b c)) with c by lia.
    replace (a + b + c - a - c)%nat with b by lia. intuition lia.
  - replace (Nat.min a (Nat.min b c)) with a by lia.
    replace (Nat.max a (Nat.max b c)) with b by lia.
    replace (a + b + c - a - b)%nat with c by lia. intuition lia.
  - replace (Nat.min a (Nat.min b c)) with c by lia.
    replace (Nat.max a (Nat.max b c)) with b by lia.
    replace (a + b + c - c - b)%nat with a by lia. intuition lia.
  - replace (Nat.min a (Nat.min b c)) with b by lia.
    replace (Nat.max a (Nat.max b c)) with c by lia.
    replace (a + b + c - b - c)%nat with a by lia. intuition lia.
  - replace (Nat.min a (Nat.min b c)) with b by lia.
    replace (Nat.max a (Nat.max b c)) with a by lia.
    replace (a + b + c - b - a)%nat with c by lia. intuition lia.
  - replace (Nat.min a (Nat.min b c)) with c by lia.
    replace (Nat.max a (Nat.max b c)) with a by lia.
    replace (a + b + c - c - a)%nat with b by lia. intuition lia.
Qed.

Lemma sameVertices_sym (f g : Face) : sameVertices f g -> sameVertices g f.
Proof.
  destruct f as [[a b] c], g as [[a' b'] c']. unfold sameVertices.
  intros [H | [H | [H | [H | [H | H]]]]]; injection H as -> -> ->; tauto.
Qed.

Lemma sameVertices_trans (f g h : Face) :
  sameVertices f g -> sameVertices g h -> sameVertices f h.
Proof.
  destruct f as [[a b] c], g as [[a' b'] c'], h as [[a'' b''] c''].
  unfold sameVertices.
  intros [H | [H | [H | [H | [H | H]]]]]; injection H as -> -> ->;
    intros [H | [H | [H | [H | [H | H]]]]]; injection H as -> -> ->; tauto.
Qed.

Lemma sameVertices_faceKey (f g : Face) :
  sameVertices f g -> Seam.faceKey f = Seam.faceKey g.
Proof.
  destruct f as [[a b] c], g as [[a' b'] c']. unfold sameVertices, Seam.faceKey.
  intros [H | [H | [H | [H | [H | H]]]]]; injection H as -> -> ->;
    (apply f_equal2; [apply f_equal2|]); lia.
Qed.

(** The key used to find duplicate faces is canonical: two faces have the
    same key exactly when one lists the vertices of the other, in any
    winding order. *)
Theorem face_key_canonical (f g : Face) :
  Seam.faceKey f = Seam.faceKey g <-> sameVertices f g.
Proof.
  split; [|apply sameVertices_faceKey].
  destruct f as [[a b] c], g as [[a' b'] c']. intros H.
  pose proof (faceKey_sorted a b c) as Hf.
  pose proof (faceKey_sorted a' b' c') as Hg.
  rewrite H in Hf.
  destruct (Seam.faceKey (a', b', c')) as [[x y] z].
  destruct Hf as (Hf & _), Hg as (Hg & _).
  apply (sameVertices_trans _ (x, y, z)); [apply sameVertices_sym; exact Hf | exact Hg].
Qed.

Lemma keepFaces_clean (faces : list Face) (seen : list Seam.FaceKey) :
  (forall f, In f faces -> Seam.repeatedIndex f = false /\ ~ In (Seam.faceKey f) seen) ->
  NoDup (map Seam.faceKey faces) ->
  Seam.keepFaces seen faces = faces.
Proof.
  revert seen. induction faces as [|f faces IH]; intros seen Hall Hnd;
    cbn [Seam.keepFaces]; [reflexivity|].
  destruct (Hall f (or_introl eq_refl)) as (Hr & Hs). rewrite Hr.
  destruct (existsb (Seam.faceKeyEqb (Seam.faceKey f)) seen) eqn:E.
  { exfalso. apply existsb_exists in E as (key & Hin & Hkey).
    apply faceKeyEqb_eq in Hkey. subst key. contradiction. }
  cbn [map] in Hnd. inversion Hnd as [|key keys Hnotin Hnd']; subst.
  f_equal. apply IH; [|exact Hnd'].
  intros f' Hf'. destruct (Hall f' (or_intror Hf')) as (Hr' & Hs').
  split; [exact Hr'|]. intros [Heq|Hin]; [|contradiction].
  apply Hnotin. rewrite Heq. apply in_map. exact Hf'.
Qed.

Lemma keepFaces_complete (faces : list Face) (seen : list Seam.FaceKey) (f : Face) :
  In f faces -> Seam.repeatedIndex f = false ->
  In (Seam.faceKey f) seen \/
  exists g, In g (Seam.keepFaces seen faces) /\ Seam.faceKey g = Seam.faceKey f.
Proof.
  revert seen. induction faces as [|f0 faces IH]; intros seen Hin Hr; [destruct Hin|].
  cbn [Seam.keepFaces]. destruct Hin as [->|Hin].
  - rewrite Hr. destruct (existsb (Seam.faceKeyEqb (Seam.faceKey f)) seen) eqn:E.
    + left. apply existsb_exists in E as (key & Hkey & Ekey).
      apply faceKeyEqb_eq in Ekey. subst key. exact Hkey.
    + right. exists f. split; [left; reflexivity | reflexivity].
  - destruct (Seam.repeatedIndex f0); [apply IH; assumption|].
    destruct (existsb (Seam.faceKeyEqb (Seam.faceKey f0)) seen);
      [apply IH; assumption|].
    destruct (IH (Seam.faceKey f0 :: seen) Hin Hr) as [[E|Hs]|(g & Hg & E)].
    + right. exists f0. split; [left; reflexivity | exact E].
    + left. exact Hs.
    + right. exists g. split; [right; exact Hg | exact E].
Qed.

(** [removeDegenerateFaces] keeps a sub-list of the faces in their order.
    Every face it keeps has three different vertices and no two kept faces
    have the same key; every face of the input with three different
    vertices is still there, itself or a face with the same key; and
    cleaning twice is cleaning once. *)
Theorem remove_degenerate_faces_idempotent (indices : list nat) :
  let cleaned := Seam.removeDegenerateFaces indices in
  Seam.removeDegenerateFaces cleaned = cleaned /\
  incl (facesOf cleaned) (facesOf indices) /\
  (length cleaned <= length indices)%nat /\
  (forall f, In f (facesOf cleaned) -> Seam.repeatedIndex f = false) /\
  NoDup (map Seam.faceKey (facesOf cleaned)) /\
  (forall f, In f (facesOf indices) -> Seam.repeatedIndex f = false ->
             exists g, In g (facesOf cleaned) /\ Seam.faceKey g = Seam.faceKey f).
Proof.
  unfold Seam.removeDegenerateFaces. rewrite !facesOf_flattenFaces.
  destruct (keepFaces_spec (facesOf indices) []) as (Hincl & Hall & Hnd).
  split; [|split; [|split; [|split; [|split]]]].
  - f_equal. apply keepFaces_clean; assumption.
  - exact Hincl.
  - assert (Hlen : forall fs seen,
               (length (Seam.keepFaces seen fs) <= length fs)%nat).
    { induction fs as [|f fs IH]; intros seen; cbn [Seam.keepFaces]; [lia|].
      destruct (Seam.repeatedIndex f); [specialize (IH seen); cbn; lia|].
      destruct (existsb _ seen); [specialize (IH seen); cbn; lia|].
      specialize (IH (Seam.faceKey f :: seen)). cbn [length]. lia. }
    assert (Hflat : forall fs : list Face, length (flattenFaces fs) = (3 * length fs)%nat).
    { induction fs as [|[[a b] c] fs IH]; [reflexivity|].
      change (flattenFaces ((a, b, c) :: fs)) with (a :: b :: c :: flattenFaces fs).
      cbn [length]. rewrite IH. lia. }
    assert (Hfaces : forall xs : list nat, (3 * length (facesOf xs) <= length xs)%nat).
    { fix IH 1. intros [|a [|b [|c xs]]]; cbn [facesOf length]; try lia.
      specialize (IH xs). lia. }
    rewrite Hflat. specialize (Hlen (facesOf indices) []).
    specialize (Hfaces indices). lia.
  - intros f Hf. apply Hall. exact Hf.
  - exact Hnd.
  - intros f Hf Hr.
    destruct (keepFaces_complete (facesOf indices) [] f Hf Hr) as [[]|H]. exact H.
Qed.

(* ----------------------------------------------------------------- *)
(** *** Boundary edges, and meshes without any *)

Lemma map_fst_mapSet {V : Type} (k : EdgeKey) (v : V) (m : list (EdgeKey * V)) :
  map fst (mapSet edgeKeyEqb k v m)
  = if mapHas edgeKeyEqb k m then map fst m else map fst m ++ [k].
Proof.
  unfold mapHas. induction m as [|[k0 v0] m IH]; cbn [mapSet mapGet map app];
    [reflexivity|].
  destruct (edgeKeyEqb_spec k k0) as [->|Hk]; cbn [map]; [reflexivity|].
  rewrite IH. destruct (mapGet edgeKeyEqb k m); reflexivity.
Qed.

Lemma mapGet_None_keys {V : Type} (k : EdgeKey) (m : list (EdgeKey * V)) :
  mapGet edgeKeyEqb k m = None -> ~ In k (map fst m).
Proof.
  induction m as [|[k0 v0] m IH]; cbn [mapGet map]; [intros _ []|].
  destruct (edgeKeyEqb_spec k k0) as [->|Hk]; [discriminate|].
  intros H [E|Hin]; [cbn in E; congruence | apply IH; assumption].
Qed.

Lemma NoDup_keys_mapSet {V : Type} (k : EdgeKey) (v : V) (m : list (EdgeKey * V)) :
  NoDup (map fst m) -> NoDup (map fst (mapSet edgeKeyEqb k v m)).
Proof.
  intros H. rewrite map_fst_mapSet. unfold mapHas.
  destruct (mapGet edgeKeyEqb k m) eqn:E; [exact H|].
  apply NoDup_app; [exact H | repeat constructor; intros [] |].
  intros x Hx [<-|[]]. revert Hx. apply mapGet_None_keys. exact E.
Qed.

Lemma In_mapGet {V : Type} (k : EdgeKey) (v : V) (m : list (EdgeKey * V)) :
  NoDup (map fst m) -> In (k, v) m -> mapGet edgeKeyEqb k m = Some v.
Proof.
  induction m as [|[k0 v0] m IH]; intros Hnd Hin; [destruct Hin|].
  cbn [map] in Hnd. inversion Hnd as [|? ? Hnotin Hnd']; subst.
  cbn [mapGet]. destruct Hin as [E|Hin].
  - injection E as -> ->.
    destruct (edgeKeyEqb_spec k k); [reflexivity | congruence].
  - destruct (edgeKeyEqb_spec k k0) as [->|Hk]; [|apply IH; assumption].
    exfalso. apply Hnotin. cbn [fst]. apply (in_map fst _ _ Hin).
Qed.

Lemma edgeKey_idem (a b : nat) :
  edgeKey (fst (edgeKey a b)) (snd (edgeKey a b)) = edgeKey a b.
Proof.
  unfold edgeKey. destruct (Nat.ltb_spec a b); cbn [fst snd].
  - destruct (Nat.ltb_spec a b); [reflexivity | lia].
  - destruct (Nat.ltb_spec b a); [reflexivity|].
    assert (a = b) by lia. subst. reflexivity.
Qed.

(** The count map of the faces: one entry per key, every key the key of an
    edge, every count the number of face edges with that key. *)
Lemma countEdges_entries (indices : list nat) :
  let m := Seam.countEdges (facesOf indices) in
  NoDup (map fst m) /\
  forall a b c, In ((a, b), c) m ->
                edgeKey a b = (a, b) /\ c = edgeUse indices a b.
Proof.
  cbv zeta. unfold Seam.countEdges. rewrite fold_left_flat_map.
  set (edges := flat_map faceEdges (facesOf indices)).
  assert (Hgen : forall es m,
             NoDup (map fst m) ->
             (forall a b c, In ((a, b), c) m -> edgeKey a b = (a, b)) ->
             NoDup (map fst (fold_left Seam.countEdge es m)) /\
             forall a b c, In ((a, b), c) (fold_left Seam.countEdge es m) ->
                           edgeKey a b = (a, b)).
  { induction es as [|e es IH]; intros m Hnd Hkeys; cbn [fold_left];
      [split; assumption|].
    apply IH.
    - unfold Seam.countEdge. apply NoDup_keys_mapSet. exact Hnd.
    - intros a b c Hin. unfold Seam.countEdge in Hin.
      apply In_mapSet in Hin as [E|Hin]; [|eapply Hkeys; exact Hin].
      injection E as E _.
      pose proof (f_equal fst E) as Ea. pose proof (f_equal snd E) as Eb.
      cbn [fst snd] in Ea, Eb. rewrite Ea, Eb, edgeKey_idem.
      apply surjective_pairing. }
  destruct (Hgen edges [] ltac:(constructor) ltac:(intros ? ? ? []))
    as (Hnd & Hkeys).
  split; [exact Hnd|]. intros a b c Hin.
  pose proof (Hkeys a b c Hin) as Hkey. split; [exact Hkey|].
  pose proof (In_mapGet _ _ _ Hnd Hin) as Hget.
  pose proof (countEdge_fold edges [] (a, b)) as E. cbv zeta in E.
  pose proof (eq_trans (eq_sym Hget) E) as E'. clear E.
  cbn [mapGet] in E'. unfold edgeUse. fold edges. rewrite Hkey.
  destruct (length (filter (fun e => edgeKeyEqb (edgeKey (fst e) (snd e)) (a, b))
                           edges)); [discriminate|].
  injection E' as ->. reflexivity.
Qed.

(** The vertices the weld collects are exactly the boundary vertices. *)
Lemma boundaryVertices_exact (indices : list nat) (v : nat) :
  In v (Seam.boundaryVertices (Seam.countEdges (facesOf indices)))
  <-> boundaryVertex indices v.
Proof.
  split; [|apply boundaryVertex_collected].
  intros Hv. apply (proj2 (boundaryVertices_spec _)) in Hv as (a & b & Hin & Hv).
  destruct (countEdges_entries indices) as (_ & Hent).
  destruct (Hent a b 1%nat Hin) as (Hkey & Huse).
  destruct Hv as [->| ->].
  - exists b. symmetry. exact Huse.
  - exists a. unfold edgeUse in *. rewrite Huse.
    f_equal. apply filter_ext. intros e. f_equal.
    unfold edgeKey. destruct (Nat.ltb_spec a b), (Nat.ltb_spec b a);
      try reflexivity; try lia.
    assert (a = b) by lia. subst. reflexivity.
Qed.

(** The count maps of the weld and of the hole closing are the same map. *)
Lemma registerEdges_counts (faces : list Face) :
  fst (Seam.registerEdges faces) = Seam.countEdges faces.
Proof.
  unfold Seam.registerEdges, Seam.countEdges.
  assert (Hedges : forall es maps,
             fst (fold_left Seam.registerEdge es maps)
             = fold_left Seam.countEdge es (fst maps)).
  { induction es as [|e es IH]; intros [m d]; cbn [fold_left]; [reflexivity|].
    rewrite IH. reflexivity. }
  assert (Hgen : forall fs maps,
             fst (fold_left (fun maps f => fold_left Seam.registerEdge (faceEdges f) maps)
                            fs maps)
             = fold_left (fun m f => fold_left Seam.countEdge (faceEdges f) m)
                         fs (fst maps)).
  { induction fs as [|f fs IH]; intros maps; cbn [fold_left]; [reflexivity|].
    rewrite IH, Hedges. reflexivity. }
  apply Hgen.
Qed.

(** A mesh without boundary edges passes through unchanged: the weld merges
    nothing and the hole closing adds nothing, whatever the positions and the
    tolerance. *)
Theorem watertight_mesh_untouched
    (sqrt : Q -> Q) (positions : list Q) (indices : list nat)
    (tolerance : Q) (meshScale : option Q) (passes : nat) :
  (forall a b, edgeUse indices a b <> 1%nat) ->
  Seam.weldBoundaryVertices positions indices tolerance = (false, indices) /\
  Seam.weldLoop passes positions indices tolerance = indices /\
  Seam.closeBoundaryHoles sqrt positions indices meshScale = (positions, indices).
Proof.
  intros Hclosed.
  assert (Hnone : Seam.boundaryVertices (Seam.countEdges (facesOf indices)) = []).
  { destruct (Seam.boundaryVertices (Seam.countEdges (facesOf indices)))
      as [|v vs] eqn:E; [reflexivity|].
    exfalso.
    assert (Hv : boundaryVertex indices v).
    { apply boundaryVertices_exact. rewrite E. left. reflexivity. }
    destruct Hv as (w & Hw). exact (Hclosed v w Hw). }
  assert (Hweld : Seam.weldBoundaryVertices positions indices tolerance
                  = (false, indices)).
  { unfold Seam.weldBoundaryVertices. rewrite Hnone. reflexivity. }
  split; [exact Hweld|]. split.
  - destruct passes as [|passes]; [reflexivity|]. cbn [Seam.weldLoop].
    rewrite Hweld. reflexivity.
  - unfold Seam.closeBoundaryHoles.
    pose proof (registerEdges_counts (facesOf indices)) as Hcounts.
    destruct (Seam.registerEdges (facesOf indices)) as [edgeFaceCount edgeDirected].
    cbn [fst] in Hcounts. subst edgeFaceCount.
    assert (Hkeys : Seam.boundaryEdgeKeys (Seam.countEdges (facesOf indices)) = []).
    { unfold Seam.boundaryEdgeKeys.
      destruct (filter _ (Seam.countEdges (facesOf indices))) as [|[[a b] c] rest] eqn:E;
        [reflexivity|].
      exfalso.
      assert (Hin : In ((a, b), c)
                       (filter (fun entry : EdgeKey * nat => (snd entry =? 1)%nat)
                               (Seam.countEdges (facesOf indices))))
        by (rewrite E; left; reflexivity).
      apply filter_In in Hin as (Hin & Hc). cbn [snd] in Hc.
      apply Nat.eqb_eq in Hc. subst c.
      destruct (countEdges_entries indices) as (_ & Hent).
      destruct (Hent a b 1%nat Hin) as (_ & Huse).
      apply (Hclosed a b). symmetry. exact Huse. }
    rewrite Hkeys. reflexivity.
Qed.

(** A tetrahedron: every edge lies in two faces. *)
Definition tetrahedronIndices : list nat := [0; 1; 2;  0; 3; 1;  1; 3; 2;  2; 3; 0]%nat.

Lemma watertight_mesh_untouched_witness :
  Seam.weldBoundaryVertices [0;0;0; 1;0;0; 0;1;0; 0;0;1] tetrahedronIndices 1
  = (false, tetrahedronIndices).
Proof.
  refine (proj1 (watertight_mesh_untouched Qsqrt _ tetrahedronIndices 1 None 3 _)).
  intros a b H. apply countEdges_use in H. vm_compute in H.
  repeat (destruct H as [H|H]; [discriminate H|]). exact H.
Defined.

(* ----------------------------------------------------------------- *)
(** *** The weld re-points boundary vertices only *)

Lemma setHas_In (x : nat) (s : list nat) : setHas x s = true <-> In x s.
Proof.
  unfold setHas. rewrite existsb_exists. split.
  - intros (y & Hy & E). apply Nat.eqb_eq in E. subst y. exact Hy.
  - intros H. exists x. split; [exact H | apply Nat.eqb_refl].
Qed.

Lemma remapIndices_pointwise (vertices : list nat) (fuel : nat)
    (indices : list nat) (parent : Seam.Parent) (rank : nat -> nat) (bound : nat) :
  forest parent rank bound -> closed vertices parent -> (bound < fuel)%nat ->
  let welded := Seam.remapIndices fuel vertices parent indices in
  length welded = length indices /\
  forall k, (k < length indices)%nat ->
    (~ In (nth k indices 0%nat) vertices ->
     nth k welded 0%nat = nth k indices 0%nat) /\
    (In (nth k indices 0%nat) vertices -> In (nth k welded 0%nat) vertices).
Proof.
  revert parent. induction indices as [|x indices IH];
    intros parent Hf Hc Hfuel; cbn [Seam.remapIndices].
  - split; [reflexivity|]. intros k Hk. cbn in Hk. lia.
  - destruct (setHas x vertices) eqn:Ex.
    + apply setHas_In in Ex.
      destruct (find_root vertices fuel parent rank bound x Hf Hc Ex Hfuel)
        as (F1 & C1 & R1 & I1 & N1 & K1).
      destruct (Seam.find fuel parent x) as [parent' r]. cbn [fst snd] in *.
      destruct (IH parent' F1 C1 Hfuel) as (Hlen & Hall).
      split; [cbn [length]; rewrite Hlen; reflexivity|].
      intros [|k] Hk; cbn [nth].
      * split; [intros Hn; contradiction | intros _; exact I1].
      * apply Hall. cbn [length] in Hk. lia.
    + assert (Hx : ~ In x vertices).
      { intros Hin. apply setHas_In in Hin. congruence. }
      destruct (IH parent Hf Hc Hfuel) as (Hlen & Hall).
      split; [cbn [length]; rewrite Hlen; reflexivity|].
      intros [|k] Hk; cbn [nth].
      * split; [intros _; reflexivity | intros Hin; contradiction].
      * apply Hall. cbn [length] in Hk. lia.
Qed.

(** The weld targets boundary vertices only.  The index buffer keeps its
    length; an index that is not a boundary vertex stays as it is, and a
    boundary vertex is replaced, if at all, by a boundary vertex.  When the
    weld reports no merge the buffer is unchanged. *)
Theorem weld_moves_boundary_only
    (positions : list Q) (indices : list nat) (tolerance : Q) :
  let result := Seam.weldBoundaryVertices positions indices tolerance in
  length (snd result) = length indices /\
  (fst result = false -> snd result = indices) /\
  forall k, (k < length indices)%nat ->
    (~ boundaryVertex indices (nth k indices 0%nat) ->
     nth k (snd result) 0%nat = nth k indices 0%nat) /\
    (boundaryVertex indices (nth k indices 0%nat) ->
     boundaryVertex indices (nth k (snd result) 0%nat)).
Proof.
  cbv zeta. unfold Seam.weldBoundaryVertices.
  pose proof (boundaryVertices_exact indices) as Hexact.
  remember (Seam.boundaryVertices (Seam.countEdges (facesOf indices))) as bvs
    eqn:Ebvs.
  clear Ebvs.
  assert (Hinit : weldInvariant bvs 0 ([], 0%nat)).
  { split; [exists (fun _ => 0%nat); split; [|intros; lia]|].
    - intros x Hx. exfalso. apply Hx. reflexivity.
    - split; [intros x Hx; exact Hx | cbn; lia]. }
  pose proof (pairCount_bound bvs) as Hpairs.
  pose proof (mergeLoop_invariant bvs (Seam.weldFuel bvs) positions
                (tolerance * tolerance) bvs 0 ([], 0%nat) Hinit (incl_refl _)
                ltac:(unfold Seam.weldFuel; lia)) as Hinv.
  assert (Hsame : length indices = length indices /\
                  (false = false -> indices = indices) /\
                  forall k, (k < length indices)%nat ->
                    (~ boundaryVertex indices (nth k indices 0%nat) ->
                     nth k indices 0%nat = nth k indices 0%nat) /\
                    (boundaryVertex indices (nth k indices 0%nat) ->
                     boundaryVertex indices (nth k indices 0%nat))).
  { split; [reflexivity|]. split; [reflexivity|]. intros k _.
    split; [reflexivity | exact (fun H => H)]. }
  destruct bvs as [|v0 rest]; [exact Hsame|].
  cbv zeta.
  destruct (Seam.mergeLoop (Seam.weldFuel (v0 :: rest)) positions
              (tolerance * tolerance) (v0 :: rest) ([], 0%nat))
    as [parent mergeCount] eqn:Eloop.
  destruct mergeCount as [|mc]; [exact Hsame|]. cbn [fst snd].
  destruct Hinv as ((rank & Hf) & Hc & _). cbn [fst snd] in *.
  destruct (remapIndices_pointwise (v0 :: rest) (Seam.weldFuel (v0 :: rest)) indices
              parent rank _ Hf Hc ltac:(unfold Seam.weldFuel; lia)) as (Hlen & Hall).
  split; [exact Hlen|]. split; [discriminate|].
  intros k Hk. destruct (Hall k Hk) as (H1 & H2). split.
  - intros Hnb. apply H1. intros Hin. apply Hnb. apply Hexact. exact Hin.
  - intros Hb. apply Hexact. apply H2. apply Hexact. exact Hb.
Qed.

(* ----------------------------------------------------------------- *)
(** *** The falloff weights *)

Lemma smoothstep_unit (t : Q) : 0 <= t -> t <= 1 -> 0 <= t * t * (3 - 2 * t) <= 1.
Proof.
  intros H0 H1. split.
  - apply Qmult_le_0_compat; [apply Qmult_le_0_compat; assumption | lra].
  - assert (E : 1 - t * t * (3 - 2 * t) == (1 - t) * (1 - t) * (1 + 2 * t)) by ring.
    assert (0 <= (1 - t) * (1 - t) * (1 + 2 * t)).
    { apply Qmult_le_0_compat; [apply Qmult_le_0_compat; lra | lra]. }
    lra.
Qed.

Lemma smoothstep_monotone (t t' : Q) :
  0 <= t' -> t' <= t -> t <= 1 ->
  t' * t' * (3 - 2 * t') <= t * t * (3 - 2 * t).
Proof.
  intros H0 H1 H2.
  assert (E : t * t * (3 - 2 * t) - t' * t' * (3 - 2 * t')
              == (t - t') * (t * (3 - 2 * t - t') + t' * (3 - 2 * t' - t))) by ring.
  assert (0 <= (t - t') * (t * (3 - 2 * t - t') + t' * (3 - 2 * t' - t))).
  { apply Qmult_le_0_compat; [lra|].
    assert (0 <= t * (3 - 2 * t - t')) by (apply Qmult_le_0_compat; lra).
    assert (0 <= t' * (3 - 2 * t' - t)) by (apply Qmult_le_0_compat; lra).
    lra. }
  lra.
Qed.

(** The falloff of [computeSmoothstepWeights], for a positive radius, a
    distance field with an entry for every vertex and distances that are not
    negative: every weight lies between 0 and 1, it
    is 1 at distance 0 and 0 from the radius on (and where the distance is
    infinite), and a vertex farther from the seam never has the larger
    weight. *)
Theorem smoothstep_weights_profile
    (distField : list Distance) (radius : Q) (vertCount i : nat) :
  0 < radius ->
  (vertCount <= length distField)%nat ->
  (i < vertCount)%nat ->
  let weights := Seam.computeSmoothstepWeights distField radius vertCount in
  let w := nth i weights 0 in
  length weights = vertCount /\
  match nth i distField (Some 0) with
  | None => w = 0
  | Some d =>
      0 <= d ->
      0 <= w /\ w <= 1 /\ (d == 0 -> w == 1) /\ (radius <= d -> w = 0) /\
      forall j d', (j < vertCount)%nat -> nth j distField (Some 0) = Some d' ->
                   d <= d' -> nth j weights 0 <= w
  end.
Proof.
  intros Hr _ Hi weights w.
  assert (Hnth : forall j, (j < vertCount)%nat ->
             nth j weights 0
             = Seam.smoothstepWeight (nth j distField (Some 0)) radius).
  { intros j Hj. unfold weights, Seam.computeSmoothstepWeights.
    apply (nth_map_seq (fun i => Seam.smoothstepWeight (nth i distField (Some 0)) radius)).
    exact Hj. }
  split.
  { unfold weights, Seam.computeSmoothstepWeights.
    rewrite length_map, length_seq. reflexivity. }
  unfold w. rewrite (Hnth i Hi).
  destruct (nth i distField (Some 0)) as [d|]; [|reflexivity].
  intros Hd.
  assert (Hrange : forall x, 0 <= x -> 0 <= Seam.smoothstepWeight (Some x) radius <= 1).
  { intros x Hx. cbn [Seam.smoothstepWeight].
    destruct (Qleb radius x) eqn:E; [lra|].
    apply Qleb_false in E. apply smoothstep_unit.
    - assert (x / radius <= 1) by (apply Qle_shift_div_r; lra). lra.
    - assert (0 <= x / radius) by (apply Qle_shift_div_l; lra). lra. }
  destruct (Hrange d Hd) as (W0 & W1).
  split; [exact W0|]. split; [exact W1|]. split; [|split].
  - intros Hz. cbn [Seam.smoothstepWeight].
    destruct (Qleb radius d) eqn:E; [apply Qleb_true in E; lra|].
    rewrite Hz. field. lra.
  - intros Hfar. cbn [Seam.smoothstepWeight]. apply Qleb_true in Hfar.
    rewrite Hfar. reflexivity.
  - intros j d' Hj Hd' Hle. rewrite (Hnth j Hj), Hd'.
    cbn [Seam.smoothstepWeight].
    destruct (Qleb radius d') eqn:E'; [exact W0|].
    apply Qleb_false in E'.
    destruct (Qleb radius d) eqn:E; [apply Qleb_true in E; lra|].
    apply Qleb_false in E.
    apply smoothstep_monotone.
    + assert (d' / radius <= 1) by (apply Qle_shift_div_r; lra). lra.
    + assert (d / radius <= d' / radius).
      { apply Qle_shift_div_l; [lra|].
        assert (d / radius * radius == d) by (field; lra). lra. }
      lra.
    + assert (0 <= d / radius) by (apply Qle_shift_div_l; lra). lra.
Qed.

Lemma smoothstep_weights_profile_witness :
  length (Seam.computeSmoothstepWeights [Some 0; Some (1 # 2); None] 1 3) = 3%nat.
Proof.
  refine (proj1 (smoothstep_weights_profile [Some 0; Some (1 # 2); None] 1 3 0 _ _ _)).
  - reflexivity.
  - cbn [length]. lia.
  - lia.
Defined.

(* ----------------------------------------------------------------- *)
(** *** Adjacency *)

(** [b] follows from [a] in face [f]: they sit at two different corners. *)
Definition adjacentInFace (f : Face) (a b : nat) : Prop :=
  let '(x, y, z) := f in
  (a = x /\ b = y) \/ (a = x /\ b = z) \/ (a = y /\ b = x) \/
  (a = y /\ b = z) \/ (a = z /\ b = x) \/ (a = z /\ b = y).

Lemma nth_setNth {A : Type} (xs : list A) (i j : nat) (f : A -> A) (d : A) :
  nth j (setNth xs i f) d
  = if ((i =? j) && (j <? length xs))%nat then f (nth j xs d) else nth j xs d.
Proof.
  revert i j. induction xs as [|x xs IH]; intros i j.
  - destruct i, j; cbn; try reflexivity; rewrite ?andb_false_r; reflexivity.
  - destruct i, j; cbn [setNth nth length]; try reflexivity.
    rewrite IH. cbn [Nat.eqb]. reflexivity.
Qed.

Lemma length_adjAdd (adj : list (list nat)) (a b : nat) :
  length (Seam.adjAdd adj a b) = length adj.
Proof. apply length_setNth. Qed.

Lemma In_adjAdd (adj : list (list nat)) (a c a' b : nat) :
  In b (nth a' (Seam.adjAdd adj a c) [])
  <-> In b (nth a' adj []) \/ (a' = a /\ b = c /\ (a < length adj)%nat).
Proof.
  unfold Seam.adjAdd. rewrite nth_setNth.
  destruct (Nat.eqb_spec a a') as [<-|Hne]; cbn [andb].
  - destruct (Nat.ltb_spec a (length adj)) as [Hlt|Hge].
    + rewrite In_setAdd. split.
      * intros [H|H]; [right; repeat split; [exact H | exact Hlt]
                      | left; exact H].
      * intros [H|(_ & H & _)]; [right; exact H | left; exact H].
    + split; [intros H; left; exact H | intros [H|(_ & _ & H)]; [exact H | lia]].
  - split; [intros H; left; exact H | intros [H|(H & _)]; [exact H | congruence]].
Qed.

Lemma NoDup_adjAdd (adj : list (list nat)) (a c : nat) :
  (forall v, NoDup (nth v adj [])) -> forall v, NoDup (nth v (Seam.adjAdd adj a c) []).
Proof.
  intros H v. unfold Seam.adjAdd. rewrite nth_setNth.
  destruct ((a =? v) && (v <? length adj))%nat; [apply NoDup_setAdd|]; apply H.
Qed.

Lemma buildAdjacency_fold (faces : list Face) (adj : list (list nat)) :
  (forall x y z, In (x, y, z) faces ->
                 (x < length adj /\ y < length adj /\ z < length adj)%nat) ->
  (forall v, NoDup (nth v adj [])) ->
  let result :=
    fold_left
      (fun adj (f : Face) =>
         let '(a, b, c) := f in
         Seam.adjAdd
           (Seam.adjAdd
              (Seam.adjAdd (Seam.adjAdd (Seam.adjAdd (Seam.adjAdd adj a b) a c) b a)
                           b c) c a) c b)
      faces adj in
  length result = length adj /\
  (forall v, NoDup (nth v result [])) /\
  forall a b, In b (nth a result [])
              <-> In b (nth a adj []) \/ exists f, In f faces /\ adjacentInFace f a b.
Proof.
  revert adj. induction faces as [|[[x y] z] faces IH]; intros adj Hvalid Hnd;
    cbn [fold_left].
  - split; [reflexivity|]. split; [exact Hnd|]. intros a b. split.
    + intros H. left. exact H.
    + intros [H|(f & [] & _)]. exact H.
  - destruct (Hvalid x y z (or_introl eq_refl)) as (Hx & Hy & Hz).
    set (adj' := Seam.adjAdd _ z y).
    assert (Hlen' : length adj' = length adj).
    { unfold adj'. rewrite !length_adjAdd. reflexivity. }
    destruct (IH adj') as (Hlen & Hnd' & Hiff).
    + intros x' y' z' Hin. rewrite Hlen'. apply Hvalid. right. exact Hin.
    + unfold adj'. repeat apply NoDup_adjAdd. exact Hnd.
    + split; [rewrite Hlen; exact Hlen'|]. split; [exact Hnd'|].
      intros a b. rewrite Hiff. unfold adj'.
      rewrite !In_adjAdd, !length_adjAdd. unfold adjacentInFace. split.
      * intros [[[[[[[H|H]|H]|H]|H]|H]|H]|(f & Hf & Hadj)].
        -- left. exact H.
        -- right. exists (x, y, z). split; [left; reflexivity|]. tauto.
        -- right. exists (x, y, z). split; [left; reflexivity|]. tauto.
        -- right. exists (x, y, z). split; [left; reflexivity|]. tauto.
        -- right. exists (x, y, z). split; [left; reflexivity|]. tauto.
        -- right. exists (x, y, z). split; [left; reflexivity|]. tauto.
        -- right. exists (x, y, z). split; [left; reflexivity|]. tauto.
        -- right. exists f. split; [right; exact Hf | exact Hadj].
      * intros [H|(f & [<-|Hf] & Hadj)].
        -- tauto.
        -- left. cbn in Hadj. intuition lia.
        -- right. exists f. split; assumption.
Qed.

(** [buildAdjacency] on a mesh whose indices are below the vertex count:
    one list per vertex, without repetition, holding exactly the vertices
    that share a face with it; so the relation is symmetric. *)
Theorem adjacency_exact (indices : list nat) (vertCount : nat) :
  (forall x, In x indices -> (x < vertCount)%nat) ->
  let adjacency := Seam.buildAdjacency indices vertCount in
  length adjacency = vertCount /\
  (forall v, NoDup (nth v adjacency [])) /\
  (forall a b, In b (nth a adjacency [])
               <-> exists f, In f (facesOf indices) /\ adjacentInFace f a b) /\
  (forall a b, In b (nth a adjacency []) -> In a (nth b adjacency [])).
Proof.
  intros Hvalid adjacency.
  destruct (buildAdjacency_fold (facesOf indices) (repeat [] vertCount))
    as (Hlen & Hnd & Hiff).
  - intros x y z Hin. rewrite repeat_length.
    apply In_facesOf in Hin as (H1 & H2 & H3).
    repeat split; apply Hvalid; assumption.
  - intros v. rewrite nth_repeat. constructor.
  - fold (Seam.buildAdjacency indices vertCount) in Hlen, Hnd, Hiff.
    fold adjacency in Hlen, Hnd, Hiff.
    assert (Hexact : forall a b,
               In b (nth a adjacency [])
               <-> exists f, In f (facesOf indices) /\ adjacentInFace f a b).
    { intros a b. rewrite Hiff, nth_repeat. split.
      - intros [[]|H]. exact H.
      - intros H. right. exact H. }
    split; [rewrite Hlen; apply repeat_length|]. split; [exact Hnd|].
    split; [exact Hexact|].
    intros a b Hab. apply Hexact in Hab as ([[x y] z] & Hf & Hadj).
    apply Hexact. exists (x, y, z). split; [exact Hf|].
    unfold adjacentInFace in *. tauto.
Qed.

Lemma adjacency_exact_witness :
  length (Seam.buildAdjacency tetrahedronIndices 4) = 4%nat.
Proof.
  refine (proj1 (adjacency_exact tetrahedronIndices 4 _)).
  intros x Hx. vm_compute in Hx.
  repeat (destruct Hx as [<-|Hx]; [lia|]). destruct Hx.
Defined.

(* ----------------------------------------------------------------- *)
(** *** Seam detection *)

Lemma edgeMapAdd_keys (P : EdgeKey -> Prop) (edges : list (nat * nat)) (f : nat)
    (m : list (EdgeKey * list nat)) :
  (forall e, In e edges -> P (edgeKey (fst e) (snd e))) ->
  (forall entry, In entry m -> P (fst entry)) ->
  forall entry, In entry (fold_left (fun m e => Seam.edgeMapAdd m f e) edges m) ->
                P (fst entry).
Proof.
  revert m. induction edges as [|e edges IH]; intros m He Hm entry Hin;
    cbn [fold_left] in Hin.
  - apply Hm. exact Hin.
  - apply (IH (Seam.edgeMapAdd m f e)); [| |exact Hin].
    + intros e' He'. apply He. right. exact He'.
    + intros entry' H'. unfold Seam.edgeMapAdd in H'.
      apply In_mapSet in H' as [->|H']; [|apply Hm; exact H'].
      cbn [fst]. apply He. left. reflexivity.
Qed.

Lemma buildEdgeMap_keys (P : EdgeKey -> Prop) (faces : list Face) :
  (forall f e, In f faces -> In e (faceEdges f) -> P (edgeKey (fst e) (snd e))) ->
  forall entry, In entry (Seam.buildEdgeMap faces) -> P (fst entry).
Proof.
  unfold Seam.buildEdgeMap. intros Hfaces.
  assert (Hgen : forall fs (acc : list (EdgeKey * list nat) * nat),
             incl fs faces ->
             (forall entry, In entry (fst acc) -> P (fst entry)) ->
             forall entry,
               In entry
                  (fst (fold_left
                          (fun (acc : list (EdgeKey * list nat) * nat) face =>
                             (fold_left (fun m e => Seam.edgeMapAdd m (snd acc) e)
                                        (faceEdges face) (fst acc),
                              S (snd acc)))
                          fs acc)) ->
               P (fst entry)).
  { induction fs as [|f fs IH]; intros acc Hincl Hacc entry Hin;
      cbn [fold_left] in Hin.
    - apply Hacc. exact Hin.
    - eapply IH; [| |exact Hin].
      + intros f' Hf'. apply Hincl. right. exact Hf'.
      + cbn [fst snd]. apply edgeMapAdd_keys; [|exact Hacc].
        intros e He. apply (Hfaces f); [apply Hincl; left; reflexivity | exact He]. }
  apply Hgen; [apply incl_refl | intros entry []].
Qed.

Lemma sharpVertices_spec (sqrt acos : Q -> Q) (positions : list Q)
    (faces : list Face) :
  let sharp := Seam.sharpVertices sqrt acos positions faces in
  NoDup sharp /\
  forall v, In v sharp ->
            exists entry, In entry (Seam.buildEdgeMap faces) /\
                          (v = fst (fst entry) \/ v = snd (fst entry)).
Proof.
  unfold Seam.sharpVertices.
  match goal with |- context [fold_left ?F _ _] => set (step := F) end.
  assert (Hgen : forall es init,
             NoDup init ->
             NoDup (fold_left step es init) /\
             forall v, In v (fold_left step es init) ->
                       In v init \/
                       exists entry, In entry es /\
                                     (v = fst (fst entry) \/ v = snd (fst entry))).
  { induction es as [|[[v0 v1] fs] es IH]; intros init Hnd; cbn [fold_left].
    - split; [exact Hnd|]. intros v Hv. left. exact Hv.
    - assert (Hstep : NoDup (step init ((v0, v1), fs)) /\
                      forall v, In v (step init ((v0, v1), fs)) ->
                                In v init \/ v = v0 \/ v = v1).
      { assert (Hadd : NoDup (setAdd v1 (setAdd v0 init)) /\
                       forall v, In v (setAdd v1 (setAdd v0 init)) ->
                                 In v init \/ v = v0 \/ v = v1).
        { split; [apply NoDup_setAdd, NoDup_setAdd; exact Hnd|].
          intros v Hv. apply In_setAdd in Hv as [->|Hv]; [tauto|].
          apply In_setAdd in Hv as [->|Hv]; tauto. }
        unfold step.
        destruct fs as [|f0 [|f1 [|f2 fs]]]; try exact Hadd.
        destruct (Qltb _ _); [exact Hadd|].
        split; [exact Hnd | intros v Hv; left; exact Hv]. }
      destruct Hstep as (Hnd' & Hin').
      destruct (IH _ Hnd') as (Hnd'' & Hin'').
      split; [exact Hnd''|]. intros v Hv.
      destruct (Hin'' v Hv) as [H|(entry & He & Hv')].
      + destruct (Hin' v H) as [H'|H']; [left; exact H'|].
        right. exists ((v0, v1), fs). split; [left; reflexivity|]. exact H'.
      + right. exists entry. split; [right; exact He | exact Hv']. }
  cbv zeta. destruct (Hgen (Seam.buildEdgeMap faces) [] (NoDup_nil _))
    as (Hnd & Hin).
  split; [exact Hnd|]. intros v Hv.
  destruct (Hin v Hv) as [[]|H]. exact H.
Qed.

Lemma sharpVertices_used (sqrt acos : Q -> Q) (positions : list Q)
    (indices : list nat) (v : nat) :
  In v (Seam.sharpVertices sqrt acos positions (facesOf indices)) -> In v indices.
Proof.
  intros Hv. apply sharpVertices_spec in Hv as (entry & He & Hv).
  apply (buildEdgeMap_keys
           (fun k => In (fst k) indices /\ In (snd k) indices)) in He.
  - destruct Hv as [->| ->]; tauto.
  - intros [[x y] z] e Hf Hin. apply In_facesOf in Hf as (H1 & H2 & H3).
    cbn [faceEdges] in Hin.
    destruct (edgeKey_ends (fst e) (snd e)) as [(-> & ->)|(-> & ->)];
      destruct Hin as [<-|[<-|[<-|[]]]]; cbn [fst snd]; tauto.
Qed.

(** [findSeamVertices].  The seam vertices are sharp vertices of the mesh,
    each listed once and each a corner of some face, and the proximity
    filter never empties the set: the result is empty only when the mesh has
    no sharp vertex at all, and where no sharp vertex is near the tool all
    of them are returned.  The function throws only for a tool geometry
    without a position attribute, and then only if there are sharp
    vertices. *)
Theorem seam_vertices_among_sharp (sqrt acos : Q -> Q) (positions : list Q)
    (indices : list nat) (toolGeometry : BufferGeometry) :
  let sharp := Seam.sharpVertices sqrt acos positions (facesOf indices) in
  match Seam.findSeamVertices sqrt acos positions indices toolGeometry with
  | Value seam =>
      incl seam sharp /\ NoDup seam /\ incl seam indices /\
      (seam = [] <-> sharp = []) /\
      ((forall v, In v sharp ->
                  Seam.pointNearAnyTriangle
                    (fromBufferAttribute positions v)
                    (match Seam.buildTriangleList toolGeometry with
                     | Value tris => tris
                     | Thrown _ => []
                     end) (15 # 1000) = false) ->
       seam = sharp)
  | Thrown e =>
      e = TypeError /\ sharp <> [] /\ position toolGeometry = None
  end.
Proof.
  intros sharp.
  destruct (sharpVertices_spec sqrt acos positions (facesOf indices)) as (Hnd & _).
  fold sharp in Hnd.
  assert (Hused : incl sharp indices).
  { intros v Hv. apply (sharpVertices_used sqrt acos positions). exact Hv. }
  unfold Seam.findSeamVertices. fold sharp. clearbody sharp.
  destruct sharp as [|s0 sharp'].
  { repeat split; try apply incl_refl; try constructor; auto. }
  cbv beta iota zeta. remember (s0 :: sharp') as sharp eqn:Esharp.
  destruct (Seam.buildTriangleList toolGeometry) as [e|toolTris] eqn:Etris.
  { unfold Seam.buildTriangleList in Etris.
    destruct (position toolGeometry); [discriminate|].
    destruct (index toolGeometry) as [[|? ?]|]; try discriminate;
      injection Etris as <-; repeat split; rewrite Esharp; discriminate. }
  match goal with |- context [filter ?F _] => set (near := F) end.
  assert (Hsub : incl (filter near sharp) sharp).
  { intros v Hv. apply filter_In in Hv. tauto. }
  destruct (filter near sharp) as [|v0 seam'] eqn:Efilter.
  - repeat split; try apply incl_refl; auto.
  - rewrite <- Efilter in *. repeat split.
    + exact Hsub.
    + apply NoDup_filter. exact Hnd.
    + intros v Hv. apply Hused, Hsub. exact Hv.
    + rewrite Efilter. discriminate.
    + rewrite Esharp. discriminate.
    + intros Hfar. exfalso.
      assert (Hv0 : In v0 (filter near sharp)) by (rewrite Efilter; left; reflexivity).
      apply filter_In in Hv0 as (Hin & Hnear). unfold near in Hnear.
      rewrite (Hfar v0 Hin), andb_false_r in Hnear. discriminate.
Qed.

(** An edge both of whose ends are seam vertices. *)
Definition seamEdge (seamVerts : list nat) (e : nat * nat) : Prop :=
  In (fst e) seamVerts /\ In (snd e) seamVerts.

(** The segment between the positions of the two ends of [e]. *)
Definition segmentOf (positions : list Q) (e : nat * nat) : SeamSegment :=
  seamSegment (fromBufferAttribute positions (fst e))
              (fromBufferAttribute positions (snd e)).

Definition keyOf (e : nat * nat) : EdgeKey := edgeKey (fst e) (snd e).

(** [collectSeamEdgeSegments] returns one segment for every edge of the mesh
    that joins two seam vertices, and nothing else: the segments are those of
    a list of face edges between seam vertices in which no undirected edge
    occurs twice and every such edge of the mesh occurs in one direction. *)
Theorem seam_segments_once (positions : list Q) (indices seamVerts : list nat) :
  let edges := flat_map faceEdges (facesOf indices) in
  exists ends : list (nat * nat),
    Seam.collectSeamEdgeSegments positions indices seamVerts
    = map (segmentOf positions) ends /\
    NoDup (map keyOf ends) /\
    (forall e, In e ends -> In e edges /\ seamEdge seamVerts e) /\
    (forall e, In e edges -> seamEdge seamVerts e ->
               exists e', In e' ends /\ keyOf e' = keyOf e).
Proof.
  intros edges. unfold Seam.collectSeamEdgeSegments. fold edges.
  match goal with |- context [fold_left ?F _ _] => set (step := F) end.
  assert (Hgen : forall es (acc : list EdgeKey * list SeamSegment) ends,
             snd acc = map (segmentOf positions) ends ->
             (forall k, In k (fst acc) <-> In k (map keyOf ends)) ->
             NoDup (map keyOf ends) ->
             exists ends',
               snd (fold_left step es acc) = map (segmentOf positions) (ends ++ ends') /\
               NoDup (map keyOf (ends ++ ends')) /\
               (forall e, In e ends' -> In e es /\ seamEdge seamVerts e) /\
               (forall e, In e es -> seamEdge seamVerts e ->
                          exists e', In e' (ends ++ ends') /\ keyOf e' = keyOf e)).
  { induction es as [|[a b] es IH]; intros acc ends Hsegs Hseen Hnd; cbn [fold_left].
    - exists []. rewrite app_nil_r. split; [exact Hsegs|]. split; [exact Hnd|].
      split; intros e [].
    - assert (Hskip : step acc (a, b) = acc ->
                      (seamEdge seamVerts (a, b) ->
                       exists e', In e' ends /\ keyOf e' = keyOf (a, b)) ->
                      exists ends',
                        snd (fold_left step es (step acc (a, b)))
                        = map (segmentOf positions) (ends ++ ends') /\
                        NoDup (map keyOf (ends ++ ends')) /\
                        (forall e, In e ends' -> In e ((a, b) :: es) /\ seamEdge seamVerts e) /\
                        (forall e, In e ((a, b) :: es) -> seamEdge seamVerts e ->
                                   exists e', In e' (ends ++ ends') /\ keyOf e' = keyOf e)).
      { intros -> Hhere.
        destruct (IH acc ends Hsegs Hseen Hnd) as (ends' & H1 & H2 & H3 & H4).
        exists ends'. split; [exact H1|]. split; [exact H2|]. split.
        - intros e He. destruct (H3 e He) as (Hin & Hs). split; [right; exact Hin | exact Hs].
        - intros e [<-|He] Hs.
          + destruct (Hhere Hs) as (e' & He' & Hk). exists e'.
            split; [apply in_or_app; left; exact He' | exact Hk].
          + apply H4; assumption. }
      destruct (setHas a seamVerts) eqn:Ea; [destruct (setHas b seamVerts) eqn:Eb|].
      + destruct (existsb (edgeKeyEqb (edgeKey a b)) (fst acc)) eqn:Eseen.
        * apply Hskip.
          -- unfold step. rewrite Ea, Eb. cbn [negb orb]. rewrite Eseen. reflexivity.
          -- intros _. apply existsb_exists in Eseen as (k & Hk & Ek).
             destruct (edgeKeyEqb_spec (edgeKey a b) k) as [<-|]; [|discriminate].
             apply Hseen, in_map_iff in Hk as (e' & Hk & He').
             exists e'. split; [exact He' | exact Hk].
        * assert (Hnew : ~ In (edgeKey a b) (map keyOf ends)).
          { intros Hin. apply Hseen in Hin.
            assert (existsb (edgeKeyEqb (edgeKey a b)) (fst acc) = true) as E'.
            { apply existsb_exists. exists (edgeKey a b). split; [exact Hin|].
              destruct (edgeKeyEqb_spec (edgeKey a b) (edgeKey a b)); congruence. }
            congruence. }
          assert (Estep : step acc (a, b)
                          = (edgeKey a b :: fst acc,
                             snd acc ++ [segmentOf positions (a, b)])).
          { unfold step. rewrite Ea, Eb. cbn [negb orb]. rewrite Eseen. reflexivity. }
          rewrite Estep.
          destruct (IH (edgeKey a b :: fst acc, snd acc ++ [segmentOf positions (a, b)])
                       (ends ++ [(a, b)])) as (ends' & H1 & H2 & H3 & H4).
          -- cbn [snd]. rewrite Hsegs, map_app. reflexivity.
          -- intros k. cbn [fst]. rewrite map_app, in_app_iff. cbn [map In].
             rewrite <- Hseen. unfold keyOf. cbn [fst snd]. tauto.
          -- rewrite map_app. apply NoDup_app; [exact Hnd | repeat constructor; intros [] |].
             intros k Hk [<-|[]]. apply Hnew. exact Hk.
          -- exists ((a, b) :: ends'). rewrite <- app_assoc in H1, H2, H4.
             cbn [app] in H1, H2, H4.
             split; [exact H1|]. split; [exact H2|]. split.
             ++ intros e [<-|He].
                ** split; [left; reflexivity|].
                   split; cbn [fst snd]; apply setHas_In; assumption.
                ** destruct (H3 e He) as (Hin & Hs). split; [right; exact Hin | exact Hs].
             ++ intros e [<-|He] Hs.
                ** exists (a, b). split; [|reflexivity].
                   apply in_or_app. right. left. reflexivity.
                ** apply H4; assumption.
      + apply Hskip.
        * unfold step. rewrite Ea, Eb. reflexivity.
        * intros (_ & Hb). cbn [snd] in Hb. apply setHas_In in Hb. congruence.
      + apply Hskip.
        * unfold step. rewrite Ea. reflexivity.
        * intros (Ha & _). cbn [fst] in Ha. apply setHas_In in Ha. congruence. }
  destruct (Hgen edges ([], []) []) as (ends & H1 & H2 & H3 & H4).
  - reflexivity.
  - intros k. reflexivity.
  - constructor.
  - exists ends. cbn [app] in *. repeat split; try assumption; apply H3; assumption.
Qed.

(* ----------------------------------------------------------------- *)
(** *** Proximity to the tool *)

Lemma closestPtOnTri_corner (p a b c : Vector3) :
  p = a \/ p = b \/ p = c ->
  let tgt := Seam.closestPtOnTri p a b c in
  dot (sub p tgt) (sub p tgt) <= 0.
Proof.
  destruct a as [ax ay az], b as [bx by' bz], c as [cx cy cz].
  intros [->|[->| ->]]; unfold Seam.closestPtOnTri; cbv zeta.
  - match goal with |- context [Qleb ?x 0 && Qleb ?y 0] =>
      assert (E1 : Qleb x 0 = true) by (apply Qleb_true; unfold dot, sub; cbn; lra);
      assert (E2 : Qleb y 0 = true) by (apply Qleb_true; unfold dot, sub; cbn; lra)
    end.
    rewrite E1, E2. cbn [andb]. unfold dot, sub; cbn; lra.
  - match goal with |- context [Qleb ?x 0 && Qleb ?y 0] =>
      destruct (Qleb x 0) eqn:E1; [destruct (Qleb y 0) eqn:E2|]
    end; cbn [andb].
    + apply Qleb_true in E1. exact E1.
    + match goal with |- context [Qleb 0 ?x && Qleb ?y ?x] =>
        assert (E3 : Qleb 0 x = true) by (apply Qleb_true; unfold dot, sub; cbn; lra);
        assert (E4 : Qleb y x = true) by (apply Qleb_true; unfold dot, sub; cbn; lra)
      end.
      rewrite E3, E4. cbn [andb]. unfold dot, sub; cbn; lra.
    + match goal with |- context [Qleb 0 ?x && Qleb ?y ?x] =>
        assert (E3 : Qleb 0 x = true) by (apply Qleb_true; unfold dot, sub; cbn; lra);
        assert (E4 : Qleb y x = true) by (apply Qleb_true; unfold dot, sub; cbn; lra)
      end.
      rewrite E3, E4. cbn [andb]. unfold dot, sub; cbn; lra.
  - match goal with |- context [Qleb ?x 0 && Qleb ?y 0] =>
      destruct (Qleb x 0 && Qleb y 0) eqn:E1
    end.
    + apply andb_true_iff in E1 as (_ & E1). apply Qleb_true in E1. exact E1.
    + match goal with |- context [Qleb 0 ?x && Qleb ?y ?x] =>
        destruct (Qleb 0 x && Qleb y x) eqn:E2
      end.
      * apply andb_true_iff in E2 as (_ & E2). apply Qleb_true in E2.
        unfold dot, sub in *; cbn in *; lra.
      * match goal with |- context [Qleb 0 ?x && Qleb ?y ?x] =>
          assert (E3 : Qleb 0 x = true) by (apply Qleb_true; unfold dot, sub; cbn; lra);
          assert (E4 : Qleb y x = true) by (apply Qleb_true; unfold dot, sub; cbn; lra)
        end.
        rewrite E3, E4. cbn [andb]. unfold dot, sub; cbn; lra.
Qed.

(** A point that is a corner of one of the tool's triangles is near the tool
    for every tolerance: [closestPtOnTri] returns a point at distance zero
    from it, so [pointNearAnyTriangle] answers [true]. *)
Theorem tool_corner_is_near (pt : Vector3) (tris : list Seam.Tri3) (tol : Q)
    (t : Seam.Tri3) :
  In t tris ->
  pt = Seam.ta t \/ pt = Seam.tb t \/ pt = Seam.tc t ->
  Seam.pointNearAnyTriangle pt tris tol = true.
Proof.
  intros Hin Hcorner. unfold Seam.pointNearAnyTriangle. cbv zeta.
  apply existsb_exists. exists t. split; [exact Hin|].
  apply Qleb_true.
  pose proof (closestPtOnTri_corner pt _ _ _ Hcorner) as H. cbv zeta in H.
  assert (0 <= tol * tol) by nra. lra.
Qed.

Lemma tool_corner_is_near_witness :
  Seam.pointNearAnyTriangle (vec3 1 0 0)
    [Seam.tri3 (vec3 0 0 0) (vec3 1 0 0) (vec3 0 1 0)] 0 = true.
Proof.
  apply (tool_corner_is_near _ _ 0 (Seam.tri3 (vec3 0 0 0) (vec3 1 0 0) (vec3 0 1 0))).
  - left. reflexivity.
  - right. left. reflexivity.
Defined.

(* ----------------------------------------------------------------- *)
(** *** The distance field *)

Lemma minDistance_spec (sqrt : Q -> Q) (p : Vector3) (segs : list SeamSegment)
    (minD : Distance) (d : Q) :
  Seam.minDistance sqrt p segs minD = Some d ->
  ((exists seg, In seg segs /\ d = Seam.distanceTo sqrt p seg) \/ minD = Some d) /\
  (d < 1 # 100000000 \/
   ((forall seg, In seg segs -> d <= Seam.distanceTo sqrt p seg) /\
    forall m, minD = Some m -> d <= m)).
Proof.
  revert minD. induction segs as [|seg rest IH]; intros minD H; cbn [Seam.minDistance] in H.
  - split; [right; exact H|]. right. split; [intros seg []|].
    intros m Hm. rewrite Hm in H. injection H as ->. apply Qle_refl.
  - set (d0 := Seam.distanceTo sqrt p seg) in *.
    set (m' := match minD with
               | None => d0
               | Some m => if Qltb d0 m then d0 else m
               end) in *.
    assert (Hm' : (m' = d0 \/ minD = Some m') /\ m' <= d0 /\
                  forall m, minD = Some m -> m' <= m).
    { unfold m'. destruct minD as [m|].
      - destruct (Qltb d0 m) eqn:E.
        + apply Qltb_true in E. split; [left; reflexivity|]. split; [apply Qle_refl|].
          intros m0 Hm0. injection Hm0 as <-. lra.
        + apply Qltb_false in E. split; [right; reflexivity|]. split; [exact E|].
          intros m0 Hm0. injection Hm0 as <-. apply Qle_refl.
      - split; [left; reflexivity|]. split; [apply Qle_refl|]. intros m0 Hm0. discriminate. }
    destruct Hm' as (Hsrc & Hle0 & Hlem).
    destruct (Qltb m' (1 # 100000000)) eqn:E.
    + injection H as <-. apply Qltb_true in E. split; [|left; exact E].
      destruct Hsrc as [->|Hsrc]; [|right; exact Hsrc].
      left. exists seg. split; [left; reflexivity | reflexivity].
    + destruct (IH _ H) as (Hfrom & Hmin). split.
      * destruct Hfrom as [(seg' & Hin & Hd)|Hd].
        -- left. exists seg'. split; [right; exact Hin | exact Hd].
        -- injection Hd as <-. destruct Hsrc as [->|Hsrc]; [|right; exact Hsrc].
           left. exists seg. split; [left; reflexivity | reflexivity].
      * destruct Hmin as [Hsmall|(Hrest & Hd)]; [left; exact Hsmall|].
        right. specialize (Hd m' eq_refl). split.
        -- intros seg' [<-|Hin]; [fold d0; lra | apply Hrest; exact Hin].
        -- intros m Hm. specialize (Hlem m Hm). lra.
Qed.

Lemma minDistance_finite (sqrt : Q -> Q) (p : Vector3) (segs : list SeamSegment)
    (minD : Distance) :
  Seam.minDistance sqrt p segs minD = None -> segs = [] /\ minD = None.
Proof.
  revert minD. induction segs as [|seg rest IH]; intros minD H;
    cbn [Seam.minDistance] in H.
  - split; [reflexivity | exact H].
  - destruct (Qltb _ _); [discriminate|].
    apply IH in H as (_ & H). discriminate.
Qed.

Lemma segment_box (segs : list SeamSegment) :
  segs <> [] ->
  exists b,
    fold_left (fun b seg => expandByPoint (expandByPoint b (p0 seg)) (p1 seg))
              segs None = Some b /\
    forall seg, In seg segs -> inside b (p0 seg) /\ inside b (p1 seg).
Proof.
  intros Hne.
  change (fold_left (fun b seg => expandByPoint (expandByPoint b (p0 seg)) (p1 seg))
                    segs None)
    with (fold_left (fun b seg => fold_left expandByPoint [p0 seg; p1 seg] b)
                    segs None).
  rewrite (fold_left_flat_map expandByPoint (fun seg => [p0 seg; p1 seg])).
  destruct (fold_expand_points (flat_map (fun seg => [p0 seg; p1 seg]) segs))
    as (b & Hb & Hin).
  - destruct segs; [congruence | discriminate].
  - exists b. split; [exact Hb|]. intros seg Hseg.
    split; apply Hin, in_flat_map; exists seg; (split; [exact Hseg|]);
      [left | right; left]; reflexivity.
Qed.

(** [computeDistanceField], for a vertex of the buffer.  A finite entry is
    the distance to one of the seam segments, and it is the smallest of the
    distances to all of them unless it is below 1e-8, where the search stops
    early.  An entry is left infinite only when there is no segment, or when
    along one coordinate axis the vertex is more than [maxDistance] away, on
    one side, from both ends of every segment. *)
Theorem distance_field_entries (sqrt : Q -> Q) (positions : list Q)
    (vertCount : nat) (seamSegments : list SeamSegment) (maxDistance : Q)
    (vi : nat) :
  (vertCount <= count positions)%nat ->
  (vi < vertCount)%nat ->
  let p := fromBufferAttribute positions vi in
  let field :=
    Seam.computeDistanceField sqrt positions vertCount seamSegments maxDistance in
  length field = vertCount /\
  match nth vi field None with
  | Some d =>
      exists seg, In seg seamSegments /\ d = Seam.distanceTo sqrt p seg /\
                  (d < 1 # 100000000 \/
                   forall seg', In seg' seamSegments ->
                                d <= Seam.distanceTo sqrt p seg')
  | None =>
      seamSegments = [] \/
      exists f, In f [vx; vy; vz] /\
                ((forall seg, In seg seamSegments ->
                              f p + maxDistance < f (p0 seg) /\
                              f p + maxDistance < f (p1 seg)) \/
                 (forall seg, In seg seamSegments ->
                              f (p0 seg) + maxDistance < f p /\
                              f (p1 seg) + maxDistance < f p))
  end.
Proof.
  intros _ Hvi p field. split.
  { unfold field, Seam.computeDistanceField. cbv zeta.
    rewrite length_map, length_seq. reflexivity. }
  assert (Hnth : nth vi field None
                 = if negb (containsPoint
                              (expandByScalar
                                 (fold_left
                                    (fun b seg =>
                                       expandByPoint (expandByPoint b (p0 seg)) (p1 seg))
                                    seamSegments None)
                                 maxDistance) p)
                   then None
                   else Seam.minDistance sqrt p seamSegments None).
  { unfold field, p, Seam.computeDistanceField. cbv zeta.
    exact (nth_map_seq _ vertCount vi None Hvi). }
  rewrite Hnth. clear Hnth. clearbody p. clear field.
  destruct seamSegments as [|s0 segs'] eqn:Esegs; [cbn; left; reflexivity|].
  rewrite <- Esegs in *.
  destruct (segment_box seamSegments) as (b & -> & Hb); [rewrite Esegs; discriminate|].
  cbn [expandByScalar].
  destruct (containsPoint _ p) eqn:Hc; cbn [negb].
  - destruct (Seam.minDistance sqrt p seamSegments None) as [d|] eqn:Hd.
    + destruct (minDistance_spec sqrt p seamSegments None d Hd)
        as ([(seg & Hin & Hseg)|Hno] & Hmin); [|discriminate].
      exists seg. split; [exact Hin|]. split; [exact Hseg|].
      destruct Hmin as [Hsmall|(Hall & _)]; [left; exact Hsmall | right; exact Hall].
    + apply minDistance_finite in Hd as (Hd & _). left. exact Hd.
  - right. unfold containsPoint in Hc. cbn [bmin bmax vx vy vz] in Hc.
    assert (Hends : forall seg, In seg seamSegments ->
               forall q, q = p0 seg \/ q = p1 seg ->
                 (vx (bmin b) <= vx q <= vx (bmax b)) /\
                 (vy (bmin b) <= vy q <= vy (bmax b)) /\
                 (vz (bmin b) <= vz q <= vz (bmax b))).
    { intros seg Hseg q Hq.
      destruct (Hb seg Hseg) as (((L1 & L2 & L3) & (U1 & U2 & U3))
                                 & ((L1' & L2' & L3') & (U1' & U2' & U3'))).
      destruct Hq as [->| ->]; repeat split; assumption. }
    repeat rewrite andb_false_iff in Hc.
    destruct Hc as [[[[[Hc|Hc]|Hc]|Hc]|Hc]|Hc]; apply Qleb_false in Hc.
    + exists vx. split; [left; reflexivity|]. left. intros seg Hseg.
      destruct (Hends seg Hseg _ (or_introl eq_refl)) as (H1 & _).
      destruct (Hends seg Hseg _ (or_intror eq_refl)) as (H2 & _). split; lra.
    + exists vx. split; [left; reflexivity|]. right. intros seg Hseg.
      destruct (Hends seg Hseg _ (or_introl eq_refl)) as (H1 & _).
      destruct (Hends seg Hseg _ (or_intror eq_refl)) as (H2 & _). split; lra.
    + exists vy. split; [right; left; reflexivity|]. left. intros seg Hseg.
      destruct (Hends seg Hseg _ (or_introl eq_refl)) as (_ & H1 & _).
      destruct (Hends seg Hseg _ (or_intror eq_refl)) as (_ & H2 & _). split; lra.
    + exists vy. split; [right; left; reflexivity|]. right. intros seg Hseg.
      destruct (Hends seg Hseg _ (or_introl eq_refl)) as (_ & H1 & _).
      destruct (Hends seg Hseg _ (or_intror eq_refl)) as (_ & H2 & _). split; lra.
    + exists vz. split; [right; right; left; reflexivity|]. left. intros seg Hseg.
      destruct (Hends seg Hseg _ (or_introl eq_refl)) as (_ & _ & H1).
      destruct (Hends seg Hseg _ (or_intror eq_refl)) as (_ & _ & H2). split; lra.
    + exists vz. split; [right; right; left; reflexivity|]. right. intros seg Hseg.
      destruct (Hends seg Hseg _ (or_introl eq_refl)) as (_ & _ & H1).
      destruct (Hends seg Hseg _ (or_intror eq_refl)) as (_ & _ & H2). split; lra.
Qed.

Lemma distance_field_entries_witness :
  length (Seam.computeDistanceField Qsqrt seamTriangle 3
            [seamSegment (vec3 0 0 0) (vec3 1 0 0)] 1) = 3%nat.
Proof.
  refine (proj1 (distance_field_entries Qsqrt seamTriangle 3
                   [seamSegment (vec3 0 0 0) (vec3 1 0 0)] 1 0 _ _)).
  - vm_compute. lia.
  - lia.
Defined.

(* ----------------------------------------------------------------- *)
(** *** The smoothing stays inside the mesh's box *)

Lemma smoothstepWeight_le_1 (d : Distance) (radius : Q) :
  0 < radius -> Seam.smoothstepWeight d radius <= 1.
Proof.
  intros Hr. destruct d as [d|]; cbn [Seam.smoothstepWeight]; [|lra].
  destruct (Qleb radius d) eqn:E; [lra|]. apply Qleb_false in E. cbv zeta.
  set (t := 1 - d / radius).
  assert (Ht : 0 <= t).
  { unfold t. assert (d / radius <= 1); [|lra].
    apply Qle_shift_div_r; [exact Hr | lra]. }
  clearbody t.
  assert (Eq : 1 - t * t * (3 - 2 * t) == (1 - t) * (1 - t) * (1 + 2 * t)) by ring.
  assert (0 <= (1 - t) * (1 - t) * (1 + 2 * t)).
  { apply Qmult_le_0_compat; [|lra].
    destruct (Qlt_le_dec t 1).
    - apply Qmult_le_0_compat; lra.
    - assert (E2 : (1 - t) * (1 - t) == (t - 1) * (t - 1)) by ring.
      rewrite E2. apply Qmult_le_0_compat; lra. }
  lra.
Qed.

Lemma lerp_bounds (lo hi v a c : Q) :
  lo <= v <= hi -> lo <= a <= hi -> 0 <= c <= 1 ->
  lo <= v + (a - v) * c <= hi.
Proof.
  intros (Hv1 & Hv2) (Ha1 & Ha2) (Hc1 & Hc2).
  assert (E : v + (a - v) * c == (1 - c) * v + c * a) by ring.
  rewrite E. split.
  - assert (0 <= (1 - c) * (v - lo)) by (apply Qmult_le_0_compat; lra).
    assert (0 <= c * (a - lo)) by (apply Qmult_le_0_compat; lra).
    lra.
  - assert (0 <= (1 - c) * (hi - v)) by (apply Qmult_le_0_compat; lra).
    assert (0 <= c * (hi - a)) by (apply Qmult_le_0_compat; lra).
    lra.
Qed.

(** The sum of [k] points of a box lies in the box scaled by [k]. *)
Lemma fold_add_bounds (P : nat -> Vector3) (b : Box3) (nbrs : list nat)
    (acc : Vector3) (k : nat) :
  (forall ni, In ni nbrs -> inside b (P ni)) ->
  (forall f, In f [vx; vy; vz] ->
             ofNat k * f (bmin b) <= f acc <= ofNat k * f (bmax b)) ->
  let s := fold_left (fun a ni => add a (P ni)) nbrs acc in
  forall f, In f [vx; vy; vz] ->
            ofNat (k + length nbrs) * f (bmin b) <= f s
            <= ofNat (k + length nbrs) * f (bmax b).
Proof.
  revert acc k. induction nbrs as [|ni nbrs IH]; intros acc k Hin Hacc;
    cbn [fold_left length].
  - rewrite Nat.add_0_r. exact Hacc.
  - replace (k + S (length nbrs))%nat with (S k + length nbrs)%nat by lia.
    apply IH; [intros n' Hn'; apply Hin; right; exact Hn'|].
    intros f Hf. rewrite ofNat_S.
    destruct (Hin ni (or_introl eq_refl)) as ((L1 & L2 & L3) & (U1 & U2 & U3)).
    pose proof (Hacc vx (or_introl eq_refl)) as Hx.
    pose proof (Hacc vy (or_intror (or_introl eq_refl))) as Hy.
    pose proof (Hacc vz (or_intror (or_intror (or_introl eq_refl)))) as Hz.
    destruct Hf as [<-|[<-|[<-|[]]]]; unfold add; cbn [vx vy vz]; lra.
Qed.

Lemma laplacianVertex_inside (sqrt : Q -> Q) (prev : list Q)
    (adjacency : list (list nat)) (weights : list Q) (lambda maxStep : Q)
    (vi : nat) (b : Box3) :
  inside b (fromBufferAttribute prev vi) ->
  (forall ni, In ni (nth vi adjacency []) -> inside b (fromBufferAttribute prev ni)) ->
  nth vi weights 0 <= 1 -> 0 <= lambda <= 1 -> 0 <= maxStep ->
  inside b (Seam.laplacianVertex sqrt prev adjacency weights lambda maxStep vi).
Proof.
  intros Hv Hn Hw (Hl0 & Hl1) Hstep. unfold Seam.laplacianVertex. cbv zeta.
  set (v := fromBufferAttribute prev vi) in *.
  set (w := nth vi weights 0) in *.
  destruct (Qleb w 0) eqn:Ew; [exact Hv|]. apply Qleb_false in Ew.
  destruct (nth vi adjacency []) as [|n0 nbrs'] eqn:Enbrs; [exact Hv|].
  rewrite <- Enbrs in *.
  set (nbrs := nth vi adjacency []) in *.
  set (s := fold_left (fun a ni => add a (fromBufferAttribute prev ni)) nbrs vzero).
  set (n := ofNat (length nbrs)).
  assert (Hnpos : 0 < n).
  { unfold n. apply ofNat_pos. rewrite Enbrs. cbn [length]. lia. }
  assert (Hs : forall f, In f [vx; vy; vz] ->
                         f (bmin b) <= f s / n <= f (bmax b)).
  { intros f Hf.
    pose proof (fold_add_bounds (fromBufferAttribute prev) b nbrs vzero 0 Hn) as Hb.
    cbv zeta in Hb. cbn [Nat.add] in Hb. fold s n in Hb.
    assert (Hbase : forall f', In f' [vx; vy; vz] ->
              ofNat 0 * f' (bmin b) <= f' vzero <= ofNat 0 * f' (bmax b)).
    { intros f' [<-|[<-|[<-|[]]]]; change (ofNat 0) with 0;
        unfold vzero; cbn [vx vy vz]; lra. }
    destruct (Hb Hbase f Hf) as (H1 & H2).
    split.
    - apply Qle_shift_div_l; [exact Hnpos | lra].
    - apply Qle_shift_div_r; [exact Hnpos | lra]. }
  pose proof (Hs vx (or_introl eq_refl)) as Hx.
  pose proof (Hs vy (or_intror (or_introl eq_refl))) as Hy.
  pose proof (Hs vz (or_intror (or_intror (or_introl eq_refl)))) as Hz.
  cbn [vx vy vz].
  set (f := w * lambda).
  assert (Hf : 0 <= f <= 1).
  { unfold f. split; [apply Qmult_le_0_compat; lra|].
    assert (0 <= (1 - w) * lambda) by (apply Qmult_le_0_compat; lra).
    assert (E : w * lambda == lambda - (1 - w) * lambda) by ring. lra. }
  destruct Hv as ((L1 & L2 & L3) & (U1 & U2 & U3)).
  match goal with |- context [Qltb maxStep ?len] =>
    set (dispLen := len); destruct (Qltb maxStep dispLen) eqn:Eclamp
  end.
  - apply Qltb_true in Eclamp.
    set (scale := maxStep / dispLen).
    assert (Hscale : 0 <= scale <= 1).
    { unfold scale. split.
      - apply Qle_shift_div_l; lra.
      - apply Qle_shift_div_r; lra. }
    assert (Hc : 0 <= f * scale <= 1).
    { split; [apply Qmult_le_0_compat; lra|].
      assert (0 <= (1 - f) * scale) by (apply Qmult_le_0_compat; lra).
      assert (E : f * scale == scale - (1 - f) * scale) by ring. lra. }
    unfold inside, vle. cbn [vx vy vz].
    pose proof (lerp_bounds _ _ (vx v) (vx s / n) (f * scale) (conj L1 U1) Hx Hc).
    pose proof (lerp_bounds _ _ (vy v) (vy s / n) (f * scale) (conj L2 U2) Hy Hc).
    pose proof (lerp_bounds _ _ (vz v) (vz s / n) (f * scale) (conj L3 U3) Hz Hc).
    assert (Ex : vx v + (vx s / n - vx v) * f * scale
                 == vx v + (vx s / n - vx v) * (f * scale)) by ring.
    assert (Ey : vy v + (vy s / n - vy v) * f * scale
                 == vy v + (vy s / n - vy v) * (f * scale)) by ring.
    assert (Ez : vz v + (vz s / n - vz v) * f * scale
                 == vz v + (vz s / n - vz v) * (f * scale)) by ring.
    rewrite Ex, Ey, Ez. tauto.
  - unfold inside, vle. cbn [vx vy vz].
    pose proof (lerp_bounds _ _ (vx v) (vx s / n) f (conj L1 U1) Hx Hf).
    pose proof (lerp_bounds _ _ (vy v) (vy s / n) f (conj L2 U2) Hy Hf).
    pose proof (lerp_bounds _ _ (vz v) (vz s / n) f (conj L3 U3) Hz Hf).
    tauto.
Qed.

Lemma smoothingLoop_inside (sqrt : Q -> Q) (numIterations : nat) (pos : list Q)
    (adjacency : list (list nat)) (weights : list Q) (vertCount : nat)
    (lambda maxStep : Q) (b : Box3) :
  (3 * vertCount <= length pos)%nat ->
  (forall vi ni, (vi < vertCount)%nat -> In ni (nth vi adjacency []) ->
                 (ni < vertCount)%nat) ->
  (forall vi, (vi < vertCount)%nat -> nth vi weights 0 <= 1) ->
  0 <= lambda <= 1 -> 0 <= maxStep ->
  (forall vi, (vi < vertCount)%nat -> inside b (fromBufferAttribute pos vi)) ->
  forall vi, (vi < vertCount)%nat ->
    inside b (fromBufferAttribute
                (Seam.smoothingLoop sqrt numIterations pos adjacency weights
                   vertCount lambda maxStep) vi).
Proof.
  intros Hlen Hadj Hw Hl Hstep. revert pos Hlen.
  induction numIterations as [|k IH]; intros pos Hlen Hin; cbn [Seam.smoothingLoop];
    [exact Hin|].
  apply IH.
  - rewrite length_applyLaplacianStep; assumption.
  - intros vi Hvi. rewrite applyLaplacianStep_vertex by assumption.
    apply laplacianVertex_inside; try assumption.
    + apply Hin. exact Hvi.
    + intros ni Hni. apply Hin. eapply Hadj; eassumption.
    + apply Hw. exact Hvi.
Qed.

Lemma buildAdjacency_neighbours (indices : list nat) (vertCount a b : nat) :
  (forall x, In x indices -> (x < vertCount)%nat) ->
  In b (nth a (Seam.buildAdjacency indices vertCount) []) -> In b indices.
Proof.
  intros Hvalid Hb.
  destruct (buildAdjacency_fold (facesOf indices) (repeat [] vertCount))
    as (_ & _ & Hiff).
  - intros x y z Hin. rewrite repeat_length.
    apply In_facesOf in Hin as (H1 & H2 & H3).
    repeat split; apply Hvalid; assumption.
  - intros v. rewrite nth_repeat. constructor.
  - apply Hiff in Hb as [Hb|([[x y] z] & Hf & Hadj)].
    + rewrite nth_repeat in Hb. destruct Hb.
    + apply In_facesOf in Hf as (H1 & H2 & H3). unfold adjacentInFace in Hadj.
      destruct Hadj as [(_ & ->)|[(_ & ->)|[(_ & ->)|[(_ & ->)|[(_ & ->)|(_ & ->)]]]]];
        assumption.
Qed.

(** The Laplacian smoothing of step 8 never carries a vertex out of the box
    of the mesh: for a positive radius, a strength between -1 and 1.5 and an
    index buffer that refers to vertices of the buffer, every vertex of the
    smoothed buffer lies in any box that contains every vertex of the input,
    whatever the seam segments and the number of iterations. *)
Theorem smoothing_stays_in_box (sqrt : Q -> Q) (positions : list Q)
    (indices : list nat) (seamSegments : list SeamSegment)
    (opts : Seam.SmoothingOptions) (b : Box3) :
  0 < Seam.radius opts ->
  - (1) <= Seam.strength opts <= 3 # 2 ->
  (forall x, In x indices -> (x < count positions)%nat) ->
  (forall vi, (vi < count positions)%nat ->
              inside b (fromBufferAttribute positions vi)) ->
  forall vi, (vi < count positions)%nat ->
    inside b (fromBufferAttribute
                (Seam.smoothFillet sqrt positions indices seamSegments opts) vi).
Proof.
  intros Hr (Hs0 & Hs1) Hvalid Hin vi Hvi. unfold Seam.smoothFillet. cbv zeta.
  pose proof (count_bound positions) as Hc.
  apply smoothingLoop_inside.
  - rewrite length_firstn. lia.
  - intros v ni Hv Hni. apply Hvalid.
    apply (buildAdjacency_neighbours indices (count positions) v ni Hvalid Hni).
  - intros v Hv. unfold Seam.computeSmoothstepWeights.
    rewrite nth_map_seq by exact Hv. apply smoothstepWeight_le_1. exact Hr.
  - lra.
  - unfold Seam.filletTargetLength.
    pose proof (Q.le_max_r (Seam.radius opts / 12) (3 # 1000)).
    apply Qmult_le_0_compat; lra.
  - intros v Hv. unfold fromBufferAttribute, getX, getY, getZ.
    rewrite !nth_firstn_lt by lia. apply Hin. exact Hv.
  - exact Hvi.
Qed.

Lemma smoothing_stays_in_box_witness :
  inside (box3 (vec3 0 0 0) (vec3 1 1 0))
    (fromBufferAttribute
       (Seam.smoothFillet Qsqrt seamTriangle [0; 1; 2]%nat
          [seamSegment (vec3 0 0 0) (vec3 1 0 0)] Seam.DEFAULT_OPTIONS) 0).
Proof.
  refine (smoothing_stays_in_box Qsqrt seamTriangle [0; 1; 2]%nat _
            Seam.DEFAULT_OPTIONS _ _ _ _ _ 0%nat _).
  - reflexivity.
  - split; discriminate.
  - intros x Hx. change (count seamTriangle) with 3%nat.
    destruct Hx as [<-|[<-|[<-|[]]]]; lia.
  - intros vi Hvi. change (count seamTriangle) with 3%nat in Hvi.
    destruct vi as [|[|[|vi]]]; [| | |lia];
      (split; repeat split; discriminate).
  - change (count seamTriangle) with 3%nat. lia.
Defined.

(* ----------------------------------------------------------------- *)
(** *** What [smoothSeam] returns *)

Lemma length_flattenFaces (fs : list Face) :
  length (flattenFaces fs) = (3 * length fs)%nat.
Proof.
  induction fs as [|[[a b] c] fs IH]; [reflexivity|].
  change (flattenFaces ((a, b, c) :: fs)) with (a :: b :: c :: flattenFaces fs).
  cbn [length]. rewrite IH. lia.
Qed.

Lemma length_deIndex (finalPos : list Q) (indices : list nat) :
  length (Seam.deIndex finalPos indices) = (9 * length (facesOf indices))%nat.
Proof.
  unfold Seam.deIndex.
  rewrite (length_flat_map_triple (fromBufferAttribute finalPos)),
    length_flattenFaces.
  lia.
Qed.

Lemma findSeamVertices_Thrown (sqrt acos : Q -> Q) (positions : list Q)
    (indices : list nat) (toolGeometry : BufferGeometry) (e : JsError) :
  Seam.findSeamVertices sqrt acos positions indices toolGeometry = Thrown e ->
  e = TypeError /\ position toolGeometry = None.
Proof.
  unfold Seam.findSeamVertices.
  destruct (Seam.sharpVertices sqrt acos positions (facesOf indices));
    [discriminate|].
  unfold Seam.buildTriangleList.
  destruct (position toolGeometry); [discriminate|].
  destruct (index toolGeometry) as [[|? ?]|]; try discriminate;
    intros H; injection H as <-; split; reflexivity.
Qed.

Lemma repairIndexed_cases (sqrt acos : Q -> Q) (positions : list Q)
    (indices : list nat) (toolGeometry : BufferGeometry)
    (opts : Seam.SmoothingOptions) (meshScale : option Q) :
  match Seam.repairIndexed sqrt acos positions indices toolGeometry opts meshScale with
  | Thrown e => e = TypeError /\ position toolGeometry = None
  | Value None => True
  | Value (Some outPos) => exists faces, length outPos = (9 * faces)%nat
  end.
Proof.
  unfold Seam.repairIndexed. cbv zeta.
  destruct (Seam.findSeamVertices _ _ _ _ _) as [e|[|s0 seam]] eqn:E.
  - eapply findSeamVertices_Thrown. exact E.
  - exact I.
  - destruct (Seam.repairedBuffers _ _ _ _ _ _) as [finalPos indices'].
    eexists. apply length_deIndex.
Qed.

(** The outcomes of [smoothSeam].  A geometry it returns is either the input
    itself with recomputed normals, or a triangle soup: no index, nine
    coordinates for every face, and normals computed from them.  It throws
    only when [mergeVertices] throws, when the merged geometry has an index
    but no position attribute, or when the tool has no position attribute;
    never for a strength of 0 or less. *)
Theorem smooth_seam_result
    (sqrt acos : Q -> Q)
    (mergeVertices : BufferGeometry -> Q -> Result BufferGeometry)
    (vertexNormals : list Q -> option (list nat) -> list Q)
    (resultGeometry toolGeometry : BufferGeometry)
    (options : option Seam.PartialOptions) :
  let opts := Seam.withDefaults options in
  let posOnly :=
    bufferGeometry (position resultGeometry) (index resultGeometry) None in
  let merged :=
    mergeVertices posOnly
      (Seam.scaledTolerance (1 # 10000) (Seam.meshScaleOf posOnly) (2 # 10000)) in
  match Seam.smoothSeam sqrt acos mergeVertices vertexNormals resultGeometry
                        toolGeometry options with
  | Value g =>
      g = Seam.cloneWithNormals vertexNormals resultGeometry \/
      (0 < Seam.strength opts /\ index g = None /\
       exists outPos faces,
         position g = Some outPos /\
         normal g = Some (vertexNormals outPos None) /\
         length outPos = (9 * faces)%nat)
  | Thrown e =>
      0 < Seam.strength opts /\
      (merged = Thrown e \/
       exists indexed,
         merged = Value indexed /\ index indexed <> None /\ e = TypeError /\
         (position indexed = None \/ position toolGeometry = None))
  end.
Proof.
  intros opts posOnly merged. unfold Seam.smoothSeam. cbv zeta.
  fold opts posOnly. fold merged.
  destruct (Qleb (Seam.strength opts) 0) eqn:Es; [left; reflexivity|].
  apply Qleb_false in Es.
  destruct merged as [e|indexed] eqn:Em; [split; [exact Es | left; reflexivity]|].
  destruct (index indexed) as [indexArr|] eqn:Ei; [|left; reflexivity].
  destruct (position indexed) as [posAttr|] eqn:Ep.
  - pose proof (repairIndexed_cases sqrt acos
                  (firstn (3 * count posAttr) posAttr) indexArr toolGeometry opts
                  (Seam.meshScaleOf posOnly)) as Hcases.
    destruct (Seam.repairIndexed _ _ _ _ _ _ _) as [e|[outPos|]].
    + destruct Hcases as (-> & Htool). split; [exact Es|]. right.
      exists indexed. split; [reflexivity|]. split; [rewrite Ei; discriminate|].
      split; [reflexivity|]. right. exact Htool.
    + destruct Hcases as (faces & Hlen). right. split; [exact Es|].
      split; [reflexivity|]. exists outPos, faces. repeat split. exact Hlen.
    + left. reflexivity.
  - split; [exact Es|]. right. exists indexed. split; [reflexivity|].
    split; [rewrite Ei; discriminate|]. split; [reflexivity|]. left. exact Ep.
Qed.

(* ----------------------------------------------------------------- *)
(** *** Edge splitting keeps the surface *)

Definition midpoint (u v : Vector3) : Vector3 :=
  vec3 ((vx u + vx v) / 2) ((vy u + vy v) / 2) ((vz u + vz v) / 2).

(** Twice the area of a face, as a vector along its normal. *)
Definition areaVector (positions : list Q) (f : Face) : Vector3 :=
  let '(a, b, c) := f in
  cross (sub (fromBufferAttribute positions b) (fromBufferAttribute positions a))
        (sub (fromBufferAttribute positions c) (fromBufferAttribute positions a)).

Definition vsum (vs : list Vector3) : Vector3 := fold_right add vzero vs.

(** Every recorded midpoint is a vertex added to the buffer [base] started
    from, at the middle of the two vertices of its edge. *)
Definition midpointsPlaced (base : list Q) (ps : list Q)
    (mids : list (EdgeKey * nat)) : Prop :=
  forall k m, In (k, m) mids ->
    (fst k < count base)%nat /\ (snd k < count base)%nat /\
    (count base <= m < count ps)%nat /\
    veq (fromBufferAttribute ps m)
        (midpoint (fromBufferAttribute ps (fst k)) (fromBufferAttribute ps (snd k))).

Lemma count_whole (ps : list Q) :
  (length ps mod 3 = 0)%nat -> (count ps * 3 = length ps)%nat.
Proof.
  intros H. unfold count. pose proof (Nat.div_mod_eq (length ps) 3). lia.
Qed.

Lemma count_push (ps : list Q) (x y z : Q) :
  (length ps mod 3 = 0)%nat -> count (ps ++ [x; y; z]) = S (count ps).
Proof.
  intros H. pose proof (count_whole ps H) as E. unfold count in *.
  rewrite length_app. cbn [length]. rewrite <- E.
  replace (length ps / 3 * 3 + 3)%nat with ((1 + length ps / 3) * 3)%nat by lia.
  rewrite Nat.div_mul by lia. rewrite Nat.div_mul by lia. reflexivity.
Qed.

Lemma fromBufferAttribute_push (ps : list Q) (x y z : Q) :
  (length ps mod 3 = 0)%nat ->
  fromBufferAttribute (ps ++ [x; y; z]) (count ps) = vec3 x y z.
Proof.
  intros H. pose proof (count_whole ps H) as E.
  unfold fromBufferAttribute, getX, getY, getZ. rewrite E.
  rewrite !app_nth2 by lia.
  replace (length ps - length ps)%nat with 0%nat by lia.
  replace (length ps + 1 - length ps)%nat with 1%nat by lia.
  replace (length ps + 2 - length ps)%nat with 2%nat by lia.
  reflexivity.
Qed.

Lemma splitEdges_midpoints (sqrt : Q -> Q) (near : list bool) (targetLength : Q)
    (maxLength : nat) (base : list Q) (edges : list (nat * nat))
    (acc : Seam.PassAcc) :
  (forall e, In e edges -> (fst e < count base)%nat /\ (snd e < count base)%nat) ->
  extends base (Seam.aPositions acc) ->
  (length (Seam.aPositions acc) mod 3 = 0)%nat ->
  midpointsPlaced base (Seam.aPositions acc) (Seam.aMidpoints acc) ->
  let acc' := Seam.splitEdges sqrt near targetLength maxLength edges acc in
  extends base (Seam.aPositions acc') /\
  (length (Seam.aPositions acc') mod 3 = 0)%nat /\
  midpointsPlaced base (Seam.aPositions acc') (Seam.aMidpoints acc').
Proof.
  revert acc. induction edges as [|[a b] rest IH]; intros acc Hvalid Hext Hwhole Hmid;
    cbn [Seam.splitEdges].
  - cbv zeta. split; [assumption|]. split; assumption.
  - assert (Hrest : forall e, In e rest ->
                      (fst e < count base)%nat /\ (snd e < count base)%nat).
    { intros e He. apply Hvalid. right. exact He. }
    destruct (negb (nth a near false) && negb (nth b near false));
      [apply IH; assumption|].
    destruct (mapHas edgeKeyEqb (edgeKey a b) (Seam.aMidpoints acc));
      [apply IH; assumption|].
    cbv zeta.
    destruct (Qleb _ targetLength); [apply IH; assumption|].
    destruct (maxLength <=? length (Seam.aPositions acc))%nat;
      [cbv zeta; split; [assumption|]; split; assumption|].
    set (ps := Seam.aPositions acc) in *.
    set (mx := (getX ps a + getX ps b) / 2).
    set (my := (getY ps a + getY ps b) / 2).
    set (mz := (getZ ps a + getZ ps b) / 2).
    assert (Hext' : extends ps (ps ++ [mx; my; mz])) by (eexists; reflexivity).
    assert (Hbase : (count base <= count ps)%nat).
    { destruct Hext as (extra & E). rewrite E. unfold count.
      rewrite length_app. apply Nat.Div0.div_le_mono. lia. }
    destruct (Hvalid (a, b) (or_introl eq_refl)) as (Ha & Hb). cbn [fst snd] in Ha, Hb.
    apply IH; cbn [Seam.aPositions Seam.aMidpoints]; try assumption.
    + eapply extends_trans; eassumption.
    + rewrite length_app. cbn [length].
      rewrite Nat.Div0.add_mod, Hwhole. reflexivity.
    + intros k m Hin. apply In_mapSet in Hin as [E|Hin].
      * injection E as -> ->. rewrite count_push by exact Hwhole.
        destruct (edgeKey_ends a b) as [(-> & ->)|(-> & ->)].
        -- split; [exact Ha|]. split; [exact Hb|]. split; [lia|].
           rewrite fromBufferAttribute_push by exact Hwhole.
           rewrite !(extends_vertex ps (ps ++ [mx; my; mz])) by (assumption || lia).
           unfold veq, midpoint, fromBufferAttribute, mx, my, mz. cbn [vx vy vz].
           repeat split; reflexivity.
        -- split; [exact Hb|]. split; [exact Ha|]. split; [lia|].
           rewrite fromBufferAttribute_push by exact Hwhole.
           rewrite !(extends_vertex ps (ps ++ [mx; my; mz])) by (assumption || lia).
           unfold veq, midpoint, fromBufferAttribute, mx, my, mz. cbn [vx vy vz].
           repeat split; field.
      * destruct (Hmid k m Hin) as (H1 & H2 & H3 & H4).
        split; [exact H1|]. split; [exact H2|].
        rewrite count_push by exact Hwhole. split; [lia|].
        rewrite !(extends_vertex ps (ps ++ [mx; my; mz])) by (assumption || lia).
        exact H4.
Qed.

Lemma splitPass_midpoints (sqrt : Q -> Q) (seamSegments : list SeamSegment)
    (splitZone targetLength : Q) (maxLength : nat) (st : Seam.SplitState) :
  (length (Seam.sPositions st) mod 3 = 0)%nat ->
  (forall x, In x (Seam.sIndices st) -> (x < count (Seam.sPositions st))%nat) ->
  let acc := Seam.splitPass sqrt seamSegments splitZone targetLength maxLength st in
  extends (Seam.sPositions st) (Seam.aPositions acc) /\
  midpointsPlaced (Seam.sPositions st) (Seam.aPositions acc) (Seam.aMidpoints acc).
Proof.
  intros Hwhole Hvalid. unfold Seam.splitPass, Seam.splitFaces. cbv zeta.
  set (near := Seam.nearSeam sqrt (Seam.sPositions st) seamSegments splitZone).
  assert (Hgen : forall faces acc,
             incl faces (facesOf (Seam.sIndices st)) ->
             extends (Seam.sPositions st) (Seam.aPositions acc) ->
             (length (Seam.aPositions acc) mod 3 = 0)%nat ->
             midpointsPlaced (Seam.sPositions st) (Seam.aPositions acc)
                             (Seam.aMidpoints acc) ->
             let acc' :=
               fold_left (fun acc f =>
                            Seam.splitEdges sqrt near targetLength maxLength
                              (faceEdges f) acc) faces acc in
             extends (Seam.sPositions st) (Seam.aPositions acc') /\
             (length (Seam.aPositions acc') mod 3 = 0)%nat /\
             midpointsPlaced (Seam.sPositions st) (Seam.aPositions acc')
                             (Seam.aMidpoints acc')).
  { induction faces as [|[[x y] z] faces IH]; intros acc Hincl Hext Hw Hmid;
      cbn [fold_left]; [cbv zeta; split; [assumption|]; split; assumption|].
    destruct (splitEdges_midpoints sqrt near targetLength maxLength
                (Seam.sPositions st) (faceEdges (x, y, z)) acc) as (E1 & E2 & E3);
      try assumption.
    - intros e He.
      assert (Hf : In (x, y, z) (facesOf (Seam.sIndices st)))
        by (apply Hincl; left; reflexivity).
      apply In_facesOf in Hf as (H1 & H2 & H3).
      cbn [faceEdges] in He.
      destruct He as [<-|[<-|[<-|[]]]]; cbn [fst snd]; split; apply Hvalid; assumption.
    - apply IH; try assumption. intros f Hf. apply Hincl. right. exact Hf. }
  destruct (Hgen (facesOf (Seam.sIndices st))
                 (Seam.passAcc (Seam.sPositions st) (Seam.sSeamVerts st) []))
    as (E1 & _ & E3).
  - apply incl_refl.
  - apply extends_refl.
  - exact Hwhole.
  - intros k m [].
  - split; assumption.
Qed.

Ltac area_algebra :=
  unfold veq, areaVector, vsum, cross, sub, add, multiplyScalar, vzero;
  cbn [map fold_right vx vy vz];
  repeat match goal with
         | H : veq _ (midpoint _ _) |- _ =>
             let Hx := fresh "Hx" in
             let Hy := fresh "Hy" in
             let Hz := fresh "Hz" in
             destruct H as (Hx & Hy & Hz);
             unfold midpoint in Hx, Hy, Hz; cbn [vx vy vz] in Hx, Hy, Hz;
             rewrite ?Hx, ?Hy, ?Hz
         end;
  repeat split; field.

Ltac area_piece :=
  first [ exists 1; split; [reflexivity | solve [area_algebra]]
        | exists (1 # 2); split; [reflexivity | solve [area_algebra]]
        | exists (1 # 4); split; [reflexivity | solve [area_algebra]] ].

Lemma rebuildFace_area (positions : list Q) (mids : list (EdgeKey * nat))
    (v0 v1 v2 : nat) :
  (forall a b m, In (a, b) [(v0, v1); (v1, v2); (v2, v0)] ->
                 mapGet edgeKeyEqb (edgeKey a b) mids = Some m ->
                 veq (fromBufferAttribute positions m)
                     (midpoint (fromBufferAttribute positions a)
                               (fromBufferAttribute positions b))) ->
  let pieces := facesOf (Seam.rebuildFace mids (v0, v1, v2)) in
  veq (vsum (map (areaVector positions) pieces)) (areaVector positions (v0, v1, v2)) /\
  Forall (fun g => exists c, 0 < c /\
                             veq (areaVector positions g)
                                 (multiplyScalar (areaVector positions (v0, v1, v2)) c))
         pieces.
Proof.
  intros Hmid. unfold Seam.rebuildFace. cbv zeta.
  pose proof (Hmid v0 v1) as H01. pose proof (Hmid v1 v2) as H12.
  pose proof (Hmid v2 v0) as H20. clear Hmid.
  destruct (mapGet edgeKeyEqb (edgeKey v0 v1) mids) as [m01|];
    [specialize (H01 m01 (or_introl eq_refl) eq_refl) | clear H01];
    (destruct (mapGet edgeKeyEqb (edgeKey v1 v2) mids) as [m12|];
     [specialize (H12 m12 (or_intror (or_introl eq_refl)) eq_refl) | clear H12]);
    (destruct (mapGet edgeKeyEqb (edgeKey v2 v0) mids) as [m20|];
     [specialize (H20 m20 (or_intror (or_intror (or_introl eq_refl))) eq_refl)
     | clear H20]);
    cbn [facesOf];
    (split; [solve [area_algebra] | repeat constructor; area_piece]).
Qed.

(** One pass of [splitSeamEdges] keeps the surface.  On a buffer of whole
    vertices whose indices refer to vertices of the buffer, the pass only
    appends to the position buffer, every vertex it appends is the middle of
    the edge it is recorded for, every face is left as it was and, with the
    midpoints created, [rebuildFace] replaces the face by triangles that each
    face the way the face does (the area vector of each is a positive
    multiple of the face's) and whose area vectors add up to the face's
    own. *)
Theorem split_keeps_surface (sqrt : Q -> Q) (seamSegments : list SeamSegment)
    (splitZone targetLength : Q) (maxLength : nat) (st : Seam.SplitState)
    (f : Face) :
  (length (Seam.sPositions st) mod 3 = 0)%nat ->
  (forall x, In x (Seam.sIndices st) -> (x < count (Seam.sPositions st))%nat) ->
  In f (facesOf (Seam.sIndices st)) ->
  let acc := Seam.splitPass sqrt seamSegments splitZone targetLength maxLength st in
  let pieces := facesOf (Seam.rebuildFace (Seam.aMidpoints acc) f) in
  extends (Seam.sPositions st) (Seam.aPositions acc) /\
  midpointsPlaced (Seam.sPositions st) (Seam.aPositions acc) (Seam.aMidpoints acc) /\
  areaVector (Seam.aPositions acc) f = areaVector (Seam.sPositions st) f /\
  veq (vsum (map (areaVector (Seam.aPositions acc)) pieces))
      (areaVector (Seam.sPositions st) f) /\
  Forall (fun g => exists c, 0 < c /\
                             veq (areaVector (Seam.aPositions acc) g)
                                 (multiplyScalar (areaVector (Seam.sPositions st) f) c))
         pieces.
Proof.
  intros Hwhole Hvalid Hf acc pieces. destruct f as [[v0 v1] v2].
  destruct (splitPass_midpoints sqrt seamSegments splitZone targetLength maxLength
              st Hwhole Hvalid) as (Hext & Hplaced).
  fold acc in Hext, Hplaced.
  pose proof (In_facesOf _ _ _ _ Hf) as (H0 & H1 & H2).
  apply Hvalid in H0, H1, H2.
  assert (Harea : areaVector (Seam.aPositions acc) (v0, v1, v2)
                  = areaVector (Seam.sPositions st) (v0, v1, v2)).
  { unfold areaVector.
    rewrite !(extends_vertex (Seam.sPositions st) (Seam.aPositions acc))
      by assumption.
    reflexivity. }
  split; [exact Hext|]. split; [exact Hplaced|].
  split; [exact Harea|]. rewrite <- Harea.
  apply rebuildFace_area.
  intros a b m Hab Hget. apply mapGet_In in Hget.
  destruct (Hplaced _ _ Hget) as (_ & _ & _ & Hx & Hy & Hz).
  unfold veq, midpoint in *. cbn [vx vy vz] in *. rewrite Hx, Hy, Hz.
  destruct (edgeKey_ends a b) as [(-> & ->)|(-> & ->)]; repeat split;
    (reflexivity || field).
Qed.

Lemma split_keeps_surface_witness :
  let st := Seam.splitState seamTriangle [0; 1; 2]%nat [0; 1]%nat in
  let acc :=
    Seam.splitPass Qsqrt [seamSegment (vec3 0 0 0) (vec3 1 0 0)] 1 (1 # 2) 45 st in
  areaVector (Seam.aPositions acc) (0, 1, 2)%nat
  = areaVector (Seam.sPositions st) (0, 1, 2)%nat.
Proof.
  refine (proj1 (proj2 (proj2 (split_keeps_surface Qsqrt [seamSegment (vec3 0 0 0) (vec3 1 0 0)]
                   1 (1 # 2) 45
                   (Seam.splitState seamTriangle [0; 1; 2]%nat [0; 1]%nat)
                   (0, 1, 2)%nat _ _ _)))).
  - reflexivity.
  - intros x Hx. cbn [Seam.sIndices Seam.sPositions] in *.
    change (count seamTriangle) with 3%nat.
    destruct Hx as [<-|[<-|[<-|[]]]]; lia.
  - left. reflexivity.
Defined.

(* ================================================================= *)
(** ** Mesh preparation *)

Lemma length_applyToVertices (m : Matrix4) (a : list Q) :
  length (applyToVertices m a) = length a.
Proof.
  unfold applyToVertices. pose proof (count_bound a).
  rewrite length_app,
    (length_flat_map_triple (fun i => applyMatrix4 m (fromBufferAttribute a i))),
    length_seq, length_skipn.
  lia.
Qed.

Lemma applyToVertices_vertex (m : Matrix4) (a : list Q) (i : nat) :
  (i < count a)%nat ->
  fromBufferAttribute (applyToVertices m a) i
  = applyMatrix4 m (fromBufferAttribute a i).
Proof.
  intros Hi. unfold applyToVertices.
  set (f := fun i => applyMatrix4 m (fromBufferAttribute a i)).
  assert (Hread : forall r, (r < 3)%nat ->
            nth (i * 3 + r)
                (flat_map (fun i => triple (f i)) (seq 0 (count a))
                 ++ skipn (3 * count a) a) 0
            = nth r (triple (f i)) 0).
  { intros r Hr.
    rewrite app_nth1 by (rewrite length_flat_map_triple, length_seq; lia).
    rewrite nth_flat_map_triple by assumption. reflexivity. }
  unfold fromBufferAttribute at 1. unfold getX, getY, getZ.
  rewrite <- (Nat.add_0_r (i * 3)) at 1.
  rewrite !Hread by lia. cbn [nth triple].
  change (applyMatrix4 m (fromBufferAttribute a i)) with (f i).
  destruct (f i). reflexivity.
Qed.

(** [g] holds the vertices of [a], each scaled by [k] and moved by [t]. *)
Definition affineImage (a g : list Q) (k : Q) (t : Vector3) : Prop :=
  length g = length a /\
  forall i, (i < count a)%nat ->
            veq (fromBufferAttribute g i)
                (add (multiplyScalar (fromBufferAttribute a i) k) t).

Lemma affineImage_refl (a : list Q) : affineImage a a 1 vzero.
Proof.
  split; [reflexivity|]. intros i _.
  unfold veq, add, multiplyScalar, vzero. cbn [vx vy vz]. repeat split; ring.
Qed.

Lemma affineImage_translate (a : list Q) (x y z : Q) :
  affineImage a (MeshLoader.translate a x y z) 1 (vec3 x y z).
Proof.
  split; [apply length_applyToVertices|]. intros i Hi.
  unfold MeshLoader.translate. rewrite applyToVertices_vertex by exact Hi.
  unfold veq, applyMatrix4, divisor, makeTranslation, add, multiplyScalar.
  cbn [vx vy vz e0 e1 e2 e3 e4 e5 e6 e7 e8 e9 e10 e11 e12 e13 e14 e15].
  repeat split; field.
Qed.

Lemma affineImage_scale (a : list Q) (s : Q) :
  affineImage a (MeshLoader.scale a s s s) s vzero.
Proof.
  split; [apply length_applyToVertices|]. intros i Hi.
  unfold MeshLoader.scale. rewrite applyToVertices_vertex by exact Hi.
  unfold veq, applyMatrix4, divisor, makeScale, add, multiplyScalar, vzero.
  cbn [vx vy vz e0 e1 e2 e3 e4 e5 e6 e7 e8 e9 e10 e11 e12 e13 e14 e15].
  repeat split; field.
Qed.

Lemma affineImage_trans (a g h : list Q) (k1 k2 : Q) (t1 t2 : Vector3) :
  affineImage a g k1 t1 -> affineImage g h k2 t2 ->
  affineImage a h (k1 * k2) (add (multiplyScalar t1 k2) t2).
Proof.
  intros (L1 & H1) (L2 & H2). split; [congruence|]. intros i Hi.
  assert (Hi' : (i < count g)%nat) by (unfold count in *; rewrite L1; exact Hi).
  destruct (H1 i Hi) as (X1 & Y1 & Z1). destruct (H2 i Hi') as (X2 & Y2 & Z2).
  unfold veq, add, multiplyScalar in *. cbn [vx vy vz] in *.
  rewrite X2, Y2, Z2, X1, Y1, Z1. repeat split; ring.
Qed.

Lemma affineImage_eq (a g : list Q) (k k' : Q) (t t' : Vector3) :
  k == k' -> veq t t' -> affineImage a g k t -> affineImage a g k' t'.
Proof.
  intros Ek (Ex & Ey & Ez) (L & H). split; [exact L|]. intros i Hi.
  destruct (H i Hi) as (X & Y & Z).
  unfold veq, add, multiplyScalar in *. cbn [vx vy vz] in *.
  rewrite X, Y, Z, Ek, Ex, Ey, Ez. repeat split; reflexivity.
Qed.

(** The bounding box of a scaled and moved buffer is the scaled and moved
    bounding box, when the factor is not negative. *)
Lemma box_affine (a g : list Q) (k : Q) (t : Vector3) (ba bg : Box3) :
  0 <= k -> affineImage a g k t ->
  setFromBufferAttribute a = Some ba -> setFromBufferAttribute g = Some bg ->
  forall f, In f [vx; vy; vz] ->
    f (bmin bg) == f (bmin ba) * k + f t /\
    f (bmax bg) == f (bmax ba) * k + f t.
Proof.
  intros Hk (Hlen & Himg) Ha Hg f Hf.
  assert (Hcount : count g = count a) by (unfold count; rewrite Hlen; reflexivity).
  assert (Hcoord : forall i, (i < count a)%nat ->
             f (fromBufferAttribute g i) == f (fromBufferAttribute a i) * k + f t).
  { intros i Hi. destruct (Himg i Hi) as (X & Y & Z).
    unfold add, multiplyScalar in X, Y, Z. cbn [vx vy vz] in X, Y, Z.
    destruct Hf as [<-|[<-|[<-|[]]]]; assumption. }
  assert (Hina : forall i, (i < count a)%nat ->
             f (bmin ba) <= f (fromBufferAttribute a i) <= f (bmax ba)).
  { intros i Hi.
    destruct (setFromBufferAttribute_inside a ba Ha i Hi)
      as ((L1 & L2 & L3) & (U1 & U2 & U3)).
    destruct Hf as [<-|[<-|[<-|[]]]]; split; assumption. }
  assert (Hing : forall i, (i < count a)%nat ->
             f (bmin bg) <= f (fromBufferAttribute g i) <= f (bmax bg)).
  { intros i Hi. rewrite <- Hcount in Hi.
    destruct (setFromBufferAttribute_inside g bg Hg i Hi)
      as ((L1 & L2 & L3) & (U1 & U2 & U3)).
    destruct Hf as [<-|[<-|[<-|[]]]]; split; assumption. }
  destruct (setFromBufferAttribute_attained a ba Ha f true Hf) as (ja & Hja & Eja).
  destruct (setFromBufferAttribute_attained a ba Ha f false Hf) as (ka & Hka & Eka).
  destruct (setFromBufferAttribute_attained g bg Hg f true Hf) as (jg & Hjg & Ejg).
  destruct (setFromBufferAttribute_attained g bg Hg f false Hf) as (kg & Hkg & Ekg).
  rewrite Hcount in Hjg, Hkg. cbv iota in Eja, Eka, Ejg, Ekg.
  pose proof (Hcoord ja Hja) as Cja. pose proof (Hcoord ka Hka) as Cka.
  pose proof (Hcoord jg Hjg) as Cjg. pose proof (Hcoord kg Hkg) as Ckg.
  pose proof (Hina jg Hjg) as (A1 & _). pose proof (Hina kg Hkg) as (_ & A2).
  pose proof (Hing ja Hja) as (G1 & _). pose proof (Hing ka Hka) as (_ & G2).
  assert (P1 : 0 <= (f (fromBufferAttribute a jg) - f (bmin ba)) * k)
    by (apply Qmult_le_0_compat; lra).
  assert (P2 : 0 <= (f (bmax ba) - f (fromBufferAttribute a kg)) * k)
    by (apply Qmult_le_0_compat; lra).
  rewrite Eja in Cja. rewrite Eka in Cka.
  split; lra.
Qed.

(** The largest extent of a box, and the factor [standardizeMesh] scales a
    mesh of that box by. *)
Definition maxDimOf (b : Box3) : Q :=
  Qmax (Qmax (vx (getSize b)) (vy (getSize b))) (vz (getSize b)).

Definition standardScale (b : Box3) : Q :=
  if Qltb 10 (maxDimOf b) then 5 / maxDimOf b else 1.

Lemma isEmpty_ordered (b : Box3) : vle (bmin b) (bmax b) -> isEmpty b = false.
Proof.
  intros (H1 & H2 & H3). unfold isEmpty.
  apply Qltb_false in H1, H2, H3. rewrite H1, H2, H3. reflexivity.
Qed.

Lemma Qmax_scale (a b k : Q) : 0 <= k -> Qmax (a * k) (b * k) == Qmax a b * k.
Proof.
  intros Hk.
  destruct (Q.max_spec a b) as [(Hlt & ->)|(Hle & ->)].
  - apply Q.max_r. apply Qmult_le_compat_r; [lra | exact Hk].
  - apply Q.max_l. apply Qmult_le_compat_r; [lra | exact Hk].
Qed.

Lemma Qmax_eq (a a' b b' : Q) : a == a' -> b == b' -> Qmax a b == Qmax a' b'.
Proof.
  intros Ea Eb.
  destruct (Q.max_spec a b) as [(H & ->)|(H & ->)];
    destruct (Q.max_spec a' b') as [(H' & ->)|(H' & ->)]; lra.
Qed.

Lemma count_length (a g : list Q) : length g = length a -> count g = count a.
Proof. intros H. unfold count. rewrite H. reflexivity. Qed.

(** [standardizeMesh] on a mesh with at least one vertex.  The result keeps
    the index and has as many vertices; its bounding box sits on the plane
    Y = 0 and is centred on the Y axis; every vertex is the input vertex
    scaled by one positive factor and moved by one vector, so the shape is
    kept; the factor is 1 for a mesh of largest extent 10 or less, and
    otherwise the one that makes the largest extent 5. *)
Theorem standardized_mesh_grounded
    (vertexNormals : list Q -> option (list nat) -> list Q)
    (p : list Q) (index : option (list nat)) :
  (0 < count p)%nat ->
  exists p' b b',
    MeshLoader.standardizeMesh vertexNormals p index
    = bufferGeometry (Some p') index (Some (vertexNormals p' index)) /\
    length p' = length p /\
    setFromBufferAttribute p = Some b /\
    setFromBufferAttribute p' = Some b' /\
    vy (bmin b') == 0 /\
    vx (bmin b') + vx (bmax b') == 0 /\
    vz (bmin b') + vz (bmax b') == 0 /\
    0 < standardScale b /\
    veq (getSize b') (multiplyScalar (getSize b) (standardScale b)) /\
    (10 < maxDimOf b -> maxDimOf b' == 5) /\
    exists t, forall i, (i < count p)%nat ->
      veq (fromBufferAttribute p' i)
          (add (multiplyScalar (fromBufferAttribute p i) (standardScale b)) t).
Proof.
  intros Hcount.
  destruct (setFromBufferAttribute_Some p Hcount) as (b & Hb).
  pose proof (setFromBufferAttribute_ordered p b Hb) as Hord.
  pose proof (isEmpty_ordered b Hord) as Hempty.
  unfold MeshLoader.standardizeMesh. rewrite Hb. cbv zeta.
  cbn [getCenter sizeOf]. rewrite Hempty.
  set (c := multiplyScalar (add (bmin b) (bmax b)) (1 # 2)).
  set (t1 := vec3 (- vx c) (- vy c) (- vz c)).
  set (p1 := MeshLoader.translate p (- vx c) (- vy c) (- vz c)).
  pose proof (affineImage_translate p (- vx c) (- vy c) (- vz c)) as H1.
  fold p1 t1 in H1.
  fold (maxDimOf b).
  set (k := standardScale b).
  set (t2 := multiplyScalar t1 k).
  set (p2 := if Qltb 10 (maxDimOf b)
             then MeshLoader.scale p1 (5 / maxDimOf b) (5 / maxDimOf b)
                                   (5 / maxDimOf b)
             else p1).
  assert (Hk : 0 < k).
  { unfold k, standardScale. destruct (Qltb 10 (maxDimOf b)) eqn:E; [|lra].
    apply Qltb_true in E. apply Qlt_shift_div_l; lra. }
  assert (H2 : affineImage p p2 k t2).
  { unfold p2, t2, k, standardScale. destruct (Qltb 10 (maxDimOf b)).
    - refine (affineImage_eq _ _ _ _ _ _ _ _
                (affineImage_trans _ _ _ _ _ _ _ H1
                   (affineImage_scale p1 (5 / maxDimOf b)))).
      + ring.
      + unfold veq, add, multiplyScalar, vzero. cbn [vx vy vz]. repeat split; ring.
    - refine (affineImage_eq _ _ _ _ _ _ _ _ H1).
      + reflexivity.
      + unfold veq, multiplyScalar. cbn [vx vy vz]. repeat split; ring. }
  assert (Hc2 : (0 < count p2)%nat).
  { rewrite (count_length p p2 (proj1 H2)). exact Hcount. }
  destruct (setFromBufferAttribute_Some p2 Hc2) as (b2 & Hb2). rewrite Hb2.
  set (minY := vy (bmin b2)).
  set (t3 := add t2 (vec3 0 (- minY) 0)).
  set (p3 := if negb (Qeqb minY 0) then MeshLoader.translate p2 0 (- minY) 0 else p2).
  assert (H3 : affineImage p p3 k t3).
  { unfold p3, t3. destruct (Qeqb minY 0) eqn:E; cbn [negb].
    - apply Qeqb_true in E. refine (affineImage_eq _ _ _ _ _ _ _ _ H2).
      + reflexivity.
      + unfold veq, add. cbn [vx vy vz]. rewrite E. repeat split; ring.
    - refine (affineImage_eq _ _ _ _ _ _ _ _
                (affineImage_trans _ _ _ _ _ _ _ H2
                   (affineImage_translate p2 0 (- minY) 0))).
      + ring.
      + unfold veq, add, multiplyScalar. cbn [vx vy vz]. repeat split; ring. }
  assert (Hc3 : (0 < count p3)%nat).
  { rewrite (count_length p p3 (proj1 H3)). exact Hcount. }
  destruct (setFromBufferAttribute_Some p3 Hc3) as (b3 & Hb3).
  pose proof (box_affine p p2 k t2 b b2 (Qlt_le_weak _ _ Hk) H2 Hb Hb2) as B2.
  pose proof (box_affine p p3 k t3 b b3 (Qlt_le_weak _ _ Hk) H3 Hb Hb3) as B3.
  destruct (B2 vy (or_intror (or_introl eq_refl))) as (B2y & _).
  destruct (B3 vx (or_introl eq_refl)) as (B3x1 & B3x2).
  destruct (B3 vy (or_intror (or_introl eq_refl))) as (B3y1 & B3y2).
  destruct (B3 vz (or_intror (or_intror (or_introl eq_refl)))) as (B3z1 & B3z2).
  pose proof (setFromBufferAttribute_ordered p3 b3 Hb3) as Hord3.
  assert (Hsize : veq (getSize b3) (multiplyScalar (getSize b) k)).
  { rewrite (getSize_ordered b3 Hord3), (getSize_ordered b Hord).
    unfold veq, sub, multiplyScalar. cbn [vx vy vz].
    rewrite B3x1, B3x2, B3y1, B3y2, B3z1, B3z2. repeat split; ring. }
  exists p3, b, b3.
  split; [reflexivity|]. split; [exact (proj1 H3)|]. split; [reflexivity|].
  split; [exact Hb3|].
  split.
  { rewrite B3y1. unfold t3, add. cbn [vx vy vz]. fold minY in B2y.
    rewrite B2y. ring. }
  split.
  { rewrite B3x1, B3x2. unfold t3, t2, t1, c, add, multiplyScalar.
    cbn [vx vy vz]. field. }
  split.
  { rewrite B3z1, B3z2. unfold t3, t2, t1, c, add, multiplyScalar.
    cbn [vx vy vz]. field. }
  split; [exact Hk|]. split; [exact Hsize|]. split.
  - intros Hbig. destruct Hsize as (Sx & Sy & Sz).
    unfold multiplyScalar in Sx, Sy, Sz. cbn [vx vy vz] in Sx, Sy, Sz.
    unfold maxDimOf at 1.
    rewrite (Qmax_eq _ _ _ _ (Qmax_eq _ _ _ _ Sx Sy) Sz).
    rewrite (Qmax_eq _ _ _ _ (Qmax_scale _ _ k (Qlt_le_weak _ _ Hk))
                     (Qeq_refl (vz (getSize b) * k))).
    rewrite Qmax_scale by (apply Qlt_le_weak; exact Hk).
    fold (maxDimOf b). unfold k, standardScale.
    rewrite (proj2 (Qltb_true _ _) Hbig). field. lra.
  - exists t3. exact (proj2 H3).
Qed.

Lemma standardized_mesh_grounded_witness :
  exists p' b b',
    MeshLoader.standardizeMesh (fun _ _ => []) cubePositions None
    = bufferGeometry (Some p') None (Some []) /\
    length p' = length cubePositions /\
    setFromBufferAttribute cubePositions = Some b /\
    setFromBufferAttribute p' = Some b' /\
    vy (bmin b') == 0.
Proof.
  destruct (standardized_mesh_grounded (fun _ _ => []) cubePositions None)
    as (p' & b & b' & H1 & H2 & H3 & H4 & H5 & _).
  - vm_compute. lia.
  - exists p', b, b'. repeat split; assumption.
Defined.

Lemma getSize_nonneg (b : Box3) :
  0 <= vx (getSize b) /\ 0 <= vy (getSize b) /\ 0 <= vz (getSize b).
Proof.
  unfold getSize, isEmpty.
  destruct (Qltb (vx (bmax b)) (vx (bmin b))) eqn:E1; cbn [orb];
    [cbn; repeat split; lra|].
  destruct (Qltb (vy (bmax b)) (vy (bmin b))) eqn:E2; cbn [orb];
    [cbn; repeat split; lra|].
  destruct (Qltb (vz (bmax b)) (vz (bmin b))) eqn:E3; cbn [orb];
    [cbn; repeat split; lra|].
  apply Qltb_false in E1, E2, E3. unfold sub. cbn [vx vy vz]. repeat split; lra.
Qed.

Lemma sizeOf_nonneg (b : option Box3) :
  0 <= vx (sizeOf b) /\ 0 <= vy (sizeOf b) /\ 0 <= vz (sizeOf b).
Proof.
  destruct b as [b|]; cbn [sizeOf]; [apply getSize_nonneg|].
  cbn. repeat split; lra.
Qed.

(** [scaleMeshToMatch] on a mesh [geoB] whose bounding box has a positive
    extent along each axis.  The result is [geoB] scaled by the average of
    the three ratios of extents, which is not negative, and moved: its
    bounding box sits on the plane Y = 0, the X and Z of the centre of that
    box are those of the centre of the box of [geoA], and its size is the
    size of the box of [geoB] times the average. *)
Theorem scaled_mesh_aligned (applyNormalMatrix : Matrix4 -> list Q -> list Q)
    (geoA geoB : BufferGeometry) (bB : Box3) :
  MeshLoader.boxOf geoB = Some bB ->
  vx (bmin bB) < vx (bmax bB) ->
  vy (bmin bB) < vy (bmax bB) ->
  vz (bmin bB) < vz (bmax bB) ->
  let sizeA := sizeOf (MeshLoader.boxOf geoA) in
  let avgScale :=
    (vx sizeA / vx (getSize bB) + vy sizeA / vy (getSize bB)
     + vz sizeA / vz (getSize bB)) / 3 in
  exists g pB p' b',
    MeshLoader.scaleMeshToMatch applyNormalMatrix geoA geoB = Some g /\
    position geoB = Some pB /\
    position g = Some p' /\ index g = index geoB /\
    length p' = length pB /\
    setFromBufferAttribute p' = Some b' /\
    vy (bmin b') == 0 /\
    vx (getCenter (Some b')) == vx (getCenter (MeshLoader.boxOf geoA)) /\
    vz (getCenter (Some b')) == vz (getCenter (MeshLoader.boxOf geoA)) /\
    0 <= avgScale /\
    veq (getSize b') (multiplyScalar (getSize bB) avgScale) /\
    exists t, forall i, (i < count pB)%nat ->
      veq (fromBufferAttribute p' i)
          (add (multiplyScalar (fromBufferAttribute pB i) avgScale) t).
Proof.
  intros HbB Hx Hy Hz sizeA avgScale. pose proof HbB as HboxB.
  unfold MeshLoader.boxOf in HbB.
  destruct (position geoB) as [pB|] eqn:EpB; [|discriminate].
  assert (Hord : vle (bmin bB) (bmax bB)) by (repeat split; lra).
  assert (HsizeB : getSize bB = sub (bmax bB) (bmin bB))
    by (apply getSize_ordered; exact Hord).
  assert (HcB : (0 < count pB)%nat).
  { destruct (count pB) eqn:E; [|lia].
    rewrite setFromBufferAttribute_None in HbB by exact E. discriminate. }
  destruct (sizeOf_nonneg (MeshLoader.boxOf geoA)) as (A1 & A2 & A3).
  fold sizeA in A1, A2, A3.
  assert (Sx : 0 < vx (getSize bB)) by (rewrite HsizeB; unfold sub; cbn [vx]; lra).
  assert (Sy : 0 < vy (getSize bB)) by (rewrite HsizeB; unfold sub; cbn [vy]; lra).
  assert (Sz : 0 < vz (getSize bB)) by (rewrite HsizeB; unfold sub; cbn [vz]; lra).
  assert (Havg : 0 <= avgScale).
  { unfold avgScale.
    assert (0 <= vx sizeA / vx (getSize bB)) by (apply Qle_shift_div_l; lra).
    assert (0 <= vy sizeA / vy (getSize bB)) by (apply Qle_shift_div_l; lra).
    assert (0 <= vz sizeA / vz (getSize bB)) by (apply Qle_shift_div_l; lra).
    apply Qle_shift_div_l; lra. }
  set (p2 := MeshLoader.scale pB avgScale avgScale avgScale).
  pose proof (affineImage_scale pB avgScale) as H2. fold p2 in H2.
  assert (Hc2 : (0 < count p2)%nat).
  { rewrite (count_length pB p2 (proj1 H2)). exact HcB. }
  destruct (setFromBufferAttribute_Some p2 Hc2) as (b2 & Hb2).
  pose proof (setFromBufferAttribute_ordered p2 b2 Hb2) as Hord2.
  set (centerA := getCenter (MeshLoader.boxOf geoA)).
  set (centerB := multiplyScalar (add (bmin b2) (bmax b2)) (1 # 2)).
  set (tx := vx centerA - vx centerB).
  set (tz := vz centerA - vz centerB).
  set (p3 := MeshLoader.translate p2 tx (- vy (bmin b2)) tz).
  pose proof (affineImage_translate p2 tx (- vy (bmin b2)) tz) as H23. fold p3 in H23.
  pose proof (affineImage_trans _ _ _ _ _ _ _ H2 H23) as H3.
  assert (Hc3 : (0 < count p3)%nat).
  { rewrite (count_length p2 p3 (proj1 H23)). exact Hc2. }
  destruct (setFromBufferAttribute_Some p3 Hc3) as (b3 & Hb3).
  pose proof (setFromBufferAttribute_ordered p3 b3 Hb3) as Hord3.
  assert (Hrun : MeshLoader.scaleMeshToMatch applyNormalMatrix geoA geoB
                 = Some (bufferGeometry
                           (Some p3) (index geoB)
                           (option_map
                              (applyNormalMatrix
                                 (makeTranslation tx (- vy (bmin b2)) tz))
                              (option_map
                                 (applyNormalMatrix
                                    (makeScale avgScale avgScale avgScale))
                                 (normal geoB))))).
  { unfold MeshLoader.scaleMeshToMatch. cbv zeta.
    rewrite HboxB. cbn [sizeOf].
    apply Qlt_not_eq in Sx, Sy, Sz.
    assert (E1 : Qeqb (vx (getSize bB)) 0 = false)
      by (apply Qeqb_false; intros E; apply Sx; symmetry; exact E).
    assert (E2 : Qeqb (vy (getSize bB)) 0 = false)
      by (apply Qeqb_false; intros E; apply Sy; symmetry; exact E).
    assert (E3 : Qeqb (vz (getSize bB)) 0 = false)
      by (apply Qeqb_false; intros E; apply Sz; symmetry; exact E).
    rewrite E1, E2, E3. cbn [orb].
    fold sizeA. fold avgScale. fold centerA.
    unfold MeshLoader.applyMatrix4ToGeometry, MeshLoader.boxOf.
    cbn [position index normal]. rewrite EpB. cbn [option_map].
    change (applyToVertices (makeScale avgScale avgScale avgScale) pB) with p2.
    rewrite Hb2. cbn [getCenter]. rewrite (isEmpty_ordered b2 Hord2).
    reflexivity. }
  pose proof (box_affine p2 p3 1 _ b2 b3 ltac:(lra) H23 Hb2 Hb3) as B23.
  assert (Havg1 : 0 <= avgScale * 1) by (rewrite Qmult_1_r; exact Havg).
  pose proof (box_affine pB p3 _ _ bB b3 Havg1 H3 HbB Hb3) as B3.
  destruct (B23 vx (or_introl eq_refl)) as (X1 & X2).
  destruct (B23 vy (or_intror (or_introl eq_refl))) as (Y1 & _).
  destruct (B23 vz (or_intror (or_intror (or_introl eq_refl)))) as (Z1 & Z2).
  cbn [vx vy vz] in X1, X2, Y1, Z1, Z2.
  eexists. exists pB, p3, b3.
  split; [exact Hrun|]. split; [reflexivity|]. split; [reflexivity|].
  split; [reflexivity|]. split; [rewrite (proj1 H23); exact (proj1 H2)|].
  split; [exact Hb3|].
  split; [rewrite Y1; ring|].
  split.
  { cbn [getCenter]. rewrite (isEmpty_ordered b3 Hord3).
    unfold multiplyScalar, add. cbn [vx]. rewrite X1, X2.
    unfold tx, centerB, multiplyScalar, add. cbn [vx]. fold centerA. field. }
  split.
  { cbn [getCenter]. rewrite (isEmpty_ordered b3 Hord3).
    unfold multiplyScalar, add. cbn [vz]. rewrite Z1, Z2.
    unfold tz, centerB, multiplyScalar, add. cbn [vz]. fold centerA. field. }
  split; [exact Havg|]. split.
  - destruct (B3 vx (or_introl eq_refl)) as (Bx1 & Bx2).
    destruct (B3 vy (or_intror (or_introl eq_refl))) as (By1 & By2).
    destruct (B3 vz (or_intror (or_intror (or_introl eq_refl)))) as (Bz1 & Bz2).
    rewrite (getSize_ordered b3 Hord3), HsizeB.
    unfold veq, sub, multiplyScalar. cbn [vx vy vz].
    rewrite Bx1, Bx2, By1, By2, Bz1, Bz2. repeat split; ring.
  - exists (add (multiplyScalar vzero 1) (vec3 tx (- vy (bmin b2)) tz)).
    intros i Hi.
    destruct (proj2 H3 i Hi) as (V1 & V2 & V3).
    unfold veq, add, multiplyScalar in *. cbn [vx vy vz] in *.
    rewrite V1, V2, V3. repeat split; ring.
Qed.

Lemma scaled_mesh_aligned_witness :
  exists g,
    MeshLoader.scaleMeshToMatch (fun _ n => n) cube cube = Some g /\
    index g = None.
Proof.
  destruct (scaled_mesh_aligned (fun _ n => n) cube cube
              (box3 (vec3 (-1) (-1) (-1)) (vec3 1 1 1)))
    as (g & pB & p' & b' & H1 & _ & _ & H2 & _).
  - reflexivity.
  - reflexivity.
  - reflexivity.
  - reflexivity.
  - exists g. split; [exact H1 | exact H2].
Defined.

(* ----------------------------------------------------------------- *)
(** *** Hole closing only adds *)

Lemma flattenFaces_facesOf (indices : list nat) :
  (length indices mod 3 = 0)%nat -> flattenFaces (facesOf indices) = indices.
Proof.
  assert (Hgen : forall k (xs : list nat), (length xs <= k)%nat ->
             (length xs mod 3 = 0)%nat -> flattenFaces (facesOf xs) = xs).
  { induction k as [|k IH]; intros xs Hk Hmod.
    - destruct xs; [reflexivity | cbn in Hk; lia].
    - destruct xs as [|a [|b [|c xs]]]; try reflexivity; try discriminate.
      cbn [facesOf].
      change (flattenFaces ((a, b, c) :: facesOf xs))
        with (a :: b :: c :: flattenFaces (facesOf xs)).
      rewrite IH; [reflexivity | cbn [length] in Hk; lia |].
      cbn [length] in Hmod.
      replace (S (S (S (length xs)))) with (length xs + 1 * 3)%nat in Hmod by lia.
      rewrite Nat.Div0.mod_add in Hmod. exact Hmod. }
  apply (Hgen (length indices)). apply Nat.le_refl.
Qed.

Lemma fillLoop_extra (pos : list Q) (edgeDirected : list (EdgeKey * (nat * nat)))
    (loops : list (list nat)) (acc : list Face * list Q) :
  (length (snd acc) mod 3 = 0)%nat ->
  (length (snd (fold_left (Seam.fillLoop pos edgeDirected) loops acc)) mod 3 = 0)%nat.
Proof.
  revert acc. induction loops as [|loop loops IH]; intros [fills extra] H;
    cbn [fold_left]; [exact H|].
  apply IH. cbn [snd] in H. unfold Seam.fillLoop.
  assert (Hpush : forall x y z : Q, (length (extra ++ [x; y; z]) mod 3 = 0)%nat).
  { intros x y z. rewrite length_app. cbn [length].
    rewrite Nat.Div0.add_mod, H. reflexivity. }
  destruct loop as [|a [|b [|c [|d loop]]]]; cbn [snd]; try apply Hpush.
  exact H.
Qed.

(** [x] is one of the three corners of [f]. *)
Definition cornerOf (f : Face) (x : nat) : Prop :=
  let '(a, b, c) := f in x = a \/ x = b \/ x = c.

Lemma boundaryEdgeKeys_ends (indices : list nat) (key : EdgeKey) :
  In key (Seam.boundaryEdgeKeys (Seam.countEdges (facesOf indices))) ->
  boundaryVertex indices (fst key) /\ boundaryVertex indices (snd key).
Proof.
  unfold Seam.boundaryEdgeKeys. intros H.
  apply in_map_iff in H as ([[a b] c] & <- & H). apply filter_In in H as (Hin & Hc).
  cbn [fst snd] in *. apply Nat.eqb_eq in Hc. subst c.
  split; apply boundaryVertices_exact, (proj2 (boundaryVertices_spec _));
    exists a, b; (split; [exact Hin|]); [left | right]; reflexivity.
Qed.

Lemma boundaryAdjacency_ends (P : nat -> Prop) (keys : list EdgeKey) :
  (forall key, In key keys -> P (fst key) /\ P (snd key)) ->
  forall a ns, mapGet Nat.eqb a (Seam.boundaryAdjacency keys) = Some ns ->
               Forall P ns.
Proof.
  unfold Seam.boundaryAdjacency. intros Hkeys.
  assert (Hpush : forall adj x y,
             (forall a ns, mapGet Nat.eqb a adj = Some ns -> Forall P ns) ->
             P y ->
             forall a ns, mapGet Nat.eqb a (Seam.adjPush adj x y) = Some ns ->
                          Forall P ns).
  { intros adj x y Hadj Hy a ns. unfold Seam.adjPush. rewrite mapGet_mapSet_nat.
    destruct (a =? x)%nat; [|apply Hadj].
    intros E. injection E as <-. apply Forall_app. split; [|repeat constructor; exact Hy].
    destruct (mapGet Nat.eqb x adj) as [l|] eqn:El; [eapply Hadj; exact El | constructor]. }
  assert (Hgen : forall ks adj,
             incl ks keys ->
             (forall a ns, mapGet Nat.eqb a adj = Some ns -> Forall P ns) ->
             forall a ns,
               mapGet Nat.eqb a
                 (fold_left (fun adj (key : EdgeKey) =>
                               let '(a, b) := key in
                               Seam.adjPush (Seam.adjPush adj a b) b a) ks adj)
               = Some ns -> Forall P ns).
  { induction ks as [|[x y] ks IH]; intros adj Hincl Hadj; cbn [fold_left];
      [exact Hadj|].
    destruct (Hkeys (x, y) (Hincl _ (or_introl eq_refl))) as (Hx & Hy).
    cbn [fst snd] in Hx, Hy.
    apply IH; [intros k Hk; apply Hincl; right; exact Hk|].
    apply Hpush; [apply Hpush; assumption | exact Hx]. }
  apply Hgen; [apply incl_refl|]. intros a ns E. discriminate.
Qed.

Lemma pickNextByAngle_In (sqrt : Q -> Q) (pos : list Q) (prev current : nat)
    (candidates : list nat) :
  candidates <> [] ->
  In (Seam.pickNextByAngle sqrt pos prev current candidates) candidates.
Proof.
  intros Hne. unfold Seam.pickNextByAngle. cbv zeta.
  match goal with |- context [fold_left ?F _ _] => set (step := F) end.
  assert (Hgen : forall cs acc, In (snd acc) candidates -> incl cs candidates ->
                                In (snd (fold_left step cs acc)) candidates).
  { induction cs as [|c cs IH]; intros acc Hacc Hincl; cbn [fold_left]; [exact Hacc|].
    apply IH; [|intros x Hx; apply Hincl; right; exact Hx].
    assert (Hc : In c candidates) by (apply Hincl; left; reflexivity).
    unfold step. destruct (_ || _); [exact Hacc|].
    destruct (fst acc) as [bestDot|]; [|exact Hc].
    destruct (Qltb bestDot _); [exact Hc | exact Hacc]. }
  apply Hgen; [|apply incl_refl].
  destruct candidates as [|c cs]; [congruence|]. left. reflexivity.
Qed.

Lemma walkLoop_ends (sqrt : Q -> Q) (P : nat -> Prop) (pos : list Q)
    (boundaryAdj : list (nat * list nat)) (startA : nat) (safety : nat)
    (w : Seam.Walk) :
  (forall a ns, mapGet Nat.eqb a boundaryAdj = Some ns -> Forall P ns) ->
  Forall P (Seam.wLoop w) -> P (Seam.wCurrent w) ->
  Forall P (Seam.wLoop (Seam.walkLoop sqrt safety pos boundaryAdj startA w)).
Proof.
  intros Hadj. revert w. induction safety as [|safety IH]; intros w Hloop Hcur;
    cbn [Seam.walkLoop]; [exact Hloop|].
  destruct (Seam.wCurrent w =? startA)%nat; [exact Hloop|]. cbv zeta.
  assert (Hloop' : Forall P (Seam.wLoop w ++ [Seam.wCurrent w])).
  { apply Forall_app. split; [exact Hloop | repeat constructor; exact Hcur]. }
  destruct (200 <? length (Seam.wLoop w ++ [Seam.wCurrent w]))%nat; [exact Hloop'|].
  set (neighbors := match mapGet Nat.eqb (Seam.wCurrent w) boundaryAdj with
                    | Some ns => ns
                    | None => []
                    end).
  assert (Hnbrs : Forall P neighbors).
  { unfold neighbors.
    destruct (mapGet Nat.eqb (Seam.wCurrent w) boundaryAdj) as [ns|] eqn:E;
      [eapply Hadj; exact E | constructor]. }
  match goal with |- context [filter ?F neighbors] => set (unvisited := F) end.
  assert (Hcand : Forall P (filter unvisited neighbors)).
  { rewrite Forall_forall in *. intros x Hx. apply filter_In in Hx as (Hx & _).
    apply Hnbrs. exact Hx. }
  destruct (filter unvisited neighbors) as [|first others] eqn:Ecand; [exact Hloop'|].
  apply IH; cbn [Seam.wLoop Seam.wCurrent]; [exact Hloop'|].
  rewrite Forall_forall in Hcand.
  destruct others as [|second others]; [apply Hcand; left; reflexivity|].
  apply Hcand. apply pickNextByAngle_In. discriminate.
Qed.

Lemma traceLoops_ends (sqrt : Q -> Q) (P : nat -> Prop) (pos : list Q)
    (boundaryAdj : list (nat * list nat)) (meshScale : option Q)
    (keys : list EdgeKey) :
  (forall a ns, mapGet Nat.eqb a boundaryAdj = Some ns -> Forall P ns) ->
  (forall key, In key keys -> P (fst key) /\ P (snd key)) ->
  forall loop, In loop (Seam.traceLoops sqrt pos boundaryAdj meshScale keys) ->
               Forall P loop /\ (3 <= length loop <= 200)%nat.
Proof.
  intros Hadj Hkeys. unfold Seam.traceLoops.
  match goal with |- context [fold_left ?F _ _] => set (step := F) end.
  assert (Hgen : forall ks (acc : list (list nat) * list EdgeKey),
             incl ks keys ->
             (forall loop, In loop (fst acc) ->
                           Forall P loop /\ (3 <= length loop <= 200)%nat) ->
             forall loop, In loop (fst (fold_left step ks acc)) ->
                          Forall P loop /\ (3 <= length loop <= 200)%nat).
  { induction ks as [|[startA startB] ks IH]; intros [loops visited] Hincl Hacc;
      cbn [fold_left]; [exact Hacc|].
    apply IH; [intros k Hk; apply Hincl; right; exact Hk|].
    unfold step at 1. cbn [fst snd] in *.
    destruct (existsb _ visited); [exact Hacc|]. cbv zeta.
    set (w := Seam.walkLoop sqrt 1000 pos boundaryAdj startA _).
    destruct (Hkeys (startA, startB) (Hincl _ (or_introl eq_refl))) as (HA & HB).
    cbn [fst snd] in HA, HB.
    assert (Hw : Forall P (Seam.wLoop w)).
    { unfold w. apply walkLoop_ends; cbn [Seam.wLoop Seam.wCurrent];
        [exact Hadj | repeat constructor; exact HA | exact HB]. }
    match goal with |- context [if ?c then (loops ++ _, _) else _] =>
      destruct c eqn:Ec
    end; cbn [fst]; [|exact Hacc].
    intros loop Hin. apply in_app_iff in Hin as [Hin|[<-|[]]]; [apply Hacc; exact Hin|].
    split; [exact Hw|].
    apply andb_true_iff in Ec as (Ec & E200). apply andb_true_iff in Ec as (_ & E3).
    apply Nat.leb_le in E200, E3. lia. }
  apply Hgen; [apply incl_refl|]. intros loop [].
Qed.

Lemma getWindingFromEdge_corners (a b third : nat)
    (edgeDirected : list (EdgeKey * (nat * nat))) (x : nat) :
  cornerOf (Seam.getWindingFromEdge a b third edgeDirected) x ->
  x = a \/ x = b \/ x = third.
Proof.
  unfold Seam.getWindingFromEdge.
  destruct (mapGet edgeKeyEqb (edgeKey a b) edgeDirected) as [dir|];
    [destruct ((fst dir =? a)%nat && (snd dir =? b)%nat)|];
    unfold cornerOf; tauto.
Qed.

Lemma fillLoop_corners (P : nat -> Prop) (pos : list Q)
    (edgeDirected : list (EdgeKey * (nat * nat))) (loops : list (list nat))
    (acc : list Face * list Q) :
  (forall loop, In loop loops -> Forall P loop /\ (3 <= length loop)%nat) ->
  (forall f x, In f (fst acc) -> cornerOf f x -> P x \/ (count pos <= x)%nat) ->
  forall f x, In f (fst (fold_left (Seam.fillLoop pos edgeDirected) loops acc)) ->
              cornerOf f x -> P x \/ (count pos <= x)%nat.
Proof.
  revert acc. induction loops as [|loop loops IH]; intros [fills extra] Hloops Hacc;
    cbn [fold_left]; [exact Hacc|].
  apply IH; [intros l Hl; apply Hloops; right; exact Hl|].
  destruct (Hloops loop (or_introl eq_refl)) as (HP & Hlen).
  rewrite Forall_forall in HP. cbn [fst] in Hacc.
  unfold Seam.fillLoop.
  assert (Hfan : forall f x,
             In f (fills
                   ++ map (fun i =>
                             Seam.getWindingFromEdge (nth i loop 0%nat)
                               (nth ((i + 1) mod length loop) loop 0%nat)
                               (count pos + count extra)%nat edgeDirected)
                          (seq 0 (length loop))) ->
             cornerOf f x -> P x \/ (count pos <= x)%nat).
  { intros f x Hf Hx. apply in_app_iff in Hf as [Hf|Hf]; [eapply Hacc; eassumption|].
    apply in_map_iff in Hf as (i & <- & Hi). apply in_seq in Hi.
    apply getWindingFromEdge_corners in Hx as [->|[->| ->]].
    - left. apply HP, nth_In. lia.
    - left. apply HP, nth_In. apply Nat.mod_upper_bound. lia.
    - right. lia. }
  destruct loop as [|a [|b [|c [|d loop]]]]; cbn [fst]; try exact Hfan.
  intros f x Hf Hx. apply in_app_iff in Hf as [Hf|[<-|[]]]; [eapply Hacc; eassumption|].
  left. apply HP. apply getWindingFromEdge_corners in Hx as [->|[->| ->]];
    cbn; tauto.
Qed.

Lemma validateFill_corners (sqrt : Q -> Q) (finalPos : list Q)
    (originalFaces : list Face) (fill : Face) (x : nat) :
  cornerOf (Seam.validateFill sqrt finalPos originalFaces fill) x -> cornerOf fill x.
Proof.
  destruct fill as [[ia ib] ic]. unfold Seam.validateFill.
  destruct (Seam.findAdjacentFaceNormal sqrt finalPos originalFaces (ia, ib, ic))
    as [adjNormal|]; [destruct (Qltb _ 0)|]; unfold cornerOf; tauto.
Qed.

(** [closeBoundaryHoles] only adds, and only at the boundary.  For an index
    buffer of whole faces the buffers it leaves are the ones it was given
    followed by what it adds: the new vertices, three coordinates each,
    after the old positions, and the fill faces after the old faces.  No
    vertex and no face of the input is changed or removed, and every corner
    of a fill face is a boundary vertex of the input mesh or one of the new
    vertices. *)
Theorem hole_closing_only_adds (sqrt : Q -> Q) (pos : list Q)
    (indices : list nat) (meshScale : option Q) :
  (length indices mod 3 = 0)%nat ->
  let closed := Seam.closeBoundaryHoles sqrt pos indices meshScale in
  exists extra fills,
    fst closed = pos ++ extra /\
    (length extra mod 3 = 0)%nat /\
    snd closed = indices ++ flattenFaces fills /\
    forall f x, In f fills -> cornerOf f x ->
                boundaryVertex indices x \/ (count pos <= x)%nat.
Proof.
  intros Hwhole closed. unfold closed, Seam.closeBoundaryHoles. cbv zeta.
  pose proof (registerEdges_counts (facesOf indices)) as Hcounts.
  destruct (Seam.registerEdges (facesOf indices)) as [edgeFaceCount edgeDirected].
  cbn [fst] in Hcounts. subst edgeFaceCount.
  pose proof (boundaryEdgeKeys_ends indices) as Hkeys.
  remember (Seam.boundaryEdgeKeys (Seam.countEdges (facesOf indices))) as allKeys
    eqn:Ekeys.
  destruct allKeys as [|key keys].
  { exists [], []. rewrite !app_nil_r. repeat split; try reflexivity. intros f x []. }
  pose proof (boundaryAdjacency_ends (boundaryVertex indices) (key :: keys) Hkeys)
    as Hadj.
  pose proof (traceLoops_ends sqrt (boundaryVertex indices) pos
                (Seam.boundaryAdjacency (key :: keys)) meshScale (key :: keys)
                Hadj Hkeys) as Hloops.
  remember (Seam.traceLoops sqrt pos (Seam.boundaryAdjacency (key :: keys))
              meshScale (key :: keys)) as allLoops eqn:Eloops.
  destruct allLoops as [|loop loops].
  { exists [], []. rewrite !app_nil_r. repeat split; try reflexivity. intros f x []. }
  pose proof (fillLoop_extra pos edgeDirected (loop :: loops) ([], []) eq_refl)
    as Hextra.
  pose proof (fillLoop_corners (boundaryVertex indices) pos edgeDirected
                (loop :: loops) ([], [])
                (fun l Hl => conj (proj1 (Hloops l Hl)) (proj1 (proj2 (Hloops l Hl))))
                (fun f x (Hf : In f []) _ => match Hf with end)) as Hcorners.
  destruct (fold_left (Seam.fillLoop pos edgeDirected) (loop :: loops) ([], []))
    as [fills extraPositions].
  cbn [snd fst] in *.
  exists extraPositions,
    (map (Seam.validateFill sqrt (pos ++ extraPositions) (facesOf indices)) fills).
  split; [reflexivity|]. split; [exact Hextra|]. split.
  - rewrite flattenFaces_facesOf by exact Hwhole. reflexivity.
  - intros f x Hf Hx. apply in_map_iff in Hf as (fill & <- & Hfill).
    apply validateFill_corners in Hx. eapply Hcorners; eassumption.
Qed.

Lemma hole_closing_only_adds_witness :
  exists extra fills,
    fst (Seam.closeBoundaryHoles Qsqrt seamTriangle [0; 1; 2]%nat None)
    = seamTriangle ++ extra /\
    (length extra mod 3 = 0)%nat /\
    snd (Seam.closeBoundaryHoles Qsqrt seamTriangle [0; 1; 2]%nat None)
    = [0; 1; 2]%nat ++ flattenFaces fills.
Proof.
  destruct (hole_closing_only_adds Qsqrt seamTriangle [0; 1; 2]%nat None eq_refl)
    as (extra & fills & H1 & H2 & H3 & _).
  exists extra, fills. repeat split; assumption.
Defined.
